(** * ETC1/ETC2 codec (nigeltao/etc2): a shallow embedding and its properties

    The development follows the Go sources:

    - [Go]        machine integers and bytes, with their wrap-around;
    - [etc2]      the [Format] tag and its accessors (etc2.go), the pixel
                  extractor (extract.go) and the block encoder (encode.go);
    - [pkm]       the 16-byte PKM container header (pkm.go).

    Integers are [Z] with the conversions of the Go code written out, bytes
    are [Byte.byte], the 64-byte block buffers are lists of bytes, and the
    float64 arithmetic of the encoder is the kernel's binary64 ([PrimFloat]).
    Definitions come first, theorems after them. *)

From Stdlib Require Import ZArith List Lia Bool Floats.
From Stdlib Require Import Strings.Byte.
Import ListNotations.
Local Open Scope Z_scope.

(* The decimal constants of the Go source are read as the nearest binary64. *)
Set Warnings "-inexact-float".

(* ================================================================= *)
(** ** Machine integers and bytes *)

Module Go.

(** Conversions to the unsigned types keep the low bits. *)
Definition uint8 (z : Z) : Z := z mod 2 ^ 8.
Definition uint16 (z : Z) : Z := z mod 2 ^ 16.
Definition uint32 (z : Z) : Z := z mod 2 ^ 32.
Definition uint64 (z : Z) : Z := z mod 2 ^ 64.

(** Conversions to the signed types keep the low bits and read them in
    two's complement. *)
Definition int8 (z : Z) : Z := (z + 2 ^ 7) mod 2 ^ 8 - 2 ^ 7.
Definition int32 (z : Z) : Z := (z + 2 ^ 31) mod 2 ^ 32 - 2 ^ 31.
Definition int64 (z : Z) : Z := (z + 2 ^ 63) mod 2 ^ 64 - 2 ^ 63.

(** [x &^ y], Go's bit clear. *)
Definition andnot (x y : Z) : Z := Z.ldiff x y.

(** A byte of a buffer, read as a number, and a number stored as a byte
    (the [uint8(...)] conversion of a store). *)
Definition b2z (b : byte) : Z := Z.of_N (Byte.to_N b).

Definition z2b (z : Z) : byte :=
  match Byte.of_N (Z.to_N (uint8 z)) with
  | Some b => b
  | None => x00
  end.

(** [a[i]] for a byte array, as a number. *)
Definition at8 (a : list byte) (i : Z) : Z := b2z (nth (Z.to_nat i) a x00).

(** [a[i] = v] for an array: the store is in range in every use below; out
    of range the list is returned unchanged. *)
Fixpoint set_nth {A : Type} (n : nat) (v : A) (a : list A) : list A :=
  match a, n with
  | [], _ => []
  | _ :: t, O => v :: t
  | h :: t, S k => h :: set_nth k v t
  end.

Definition store8 (a : list byte) (i : Z) (v : Z) : list byte :=
  set_nth (Z.to_nat i) (z2b v) a.

(** [for i := range n]: the indices [0, 1, ..., n-1] as integers. *)
Definition range (n : nat) : list Z := map Z.of_nat (seq 0 n).

End Go.

Import Go.

(* ================================================================= *)
(** ** Package etc2: the Format tag (etc2.go) *)

Module etc2.

Definition Format := Z.  (* type Format uint8 *)

Definition FormatInvalid : Format := 0x00.
Definition FormatETC1S : Format := 0x40.
Definition FormatETC1 : Format := 0x80.
Definition FormatETC2RGB : Format := 0xC0.
Definition FormatETC2RGBA1 : Format := 0xC1.
Definition FormatETC2RGBA8 : Format := 0xC2.
Definition FormatETC2SRGB : Format := 0xC4.
Definition FormatETC2SRGBA1 : Format := 0xC5.
Definition FormatETC2SRGBA8 : Format := 0xC6.
Definition FormatETC2R11Unsigned : Format := 0xC8.
Definition FormatETC2R11Signed : Format := 0xD8.
Definition FormatETC2RG11Unsigned : Format := 0xE8.
Definition FormatETC2RG11Signed : Format := 0xF8.

Definition formatBit1BitAlpha : Format := 0x01.
Definition formatBit8BitAlpha : Format := 0x02.
Definition formatBitSRGBColorSpace : Format := 0x04.
Definition formatBitDepth11 : Format := 0x08.
Definition formatBitDepth11Signed : Format := 0x10.
Definition formatBitDepth11TwoChannel : Format := 0x20.
Definition formatBitsETC1S : Format := 0x40.
Definition formatBitsETC1 : Format := 0x80.
Definition formatBitsETC2 : Format := 0xC0.

(** [ETCVersion] returns 0, 1 or 2 depending on whether the Format is
    invalid, from ETC1 or from ETC2. *)
Definition ETCVersion (f : Format) : Z :=
  if f <? formatBitsETC1S then 0
  else if f <? formatBitsETC2 then 1
  else 2.

Definition BytesPerBlock (f : Format) : Z :=
  if f =? FormatInvalid then 0
  else if negb (Z.land f (Z.lor formatBit8BitAlpha formatBitDepth11TwoChannel) =? 0)
  then 16
  else 8.

(** The color models of the standard library that a Format maps to. *)
Inductive ColorModelT : Type :=
| NilModel | NRGBAModel | RGBAModel | RGBA64Model | Gray16Model.

Definition ColorModel (f : Format) : ColorModelT :=
  if f =? FormatInvalid then NilModel
  else if negb (Z.land f formatBit8BitAlpha =? 0) then NRGBAModel
  else if Z.land f formatBitDepth11 =? 0 then RGBAModel
  else if negb (Z.land f formatBitDepth11TwoChannel =? 0) then RGBA64Model
  else Gray16Model.

(** [PKMFormat] returns the PKM file format's enum value for f. *)
Definition PKMFormat (f : Format) : Z :=
  if (f =? FormatETC1S) || (f =? FormatETC1) then 0x00
  else if f =? FormatETC2RGB then 0x01
  else if f =? FormatETC2RGBA1 then 0x04
  else if f =? FormatETC2RGBA8 then 0x03
  else if f =? FormatETC2SRGB then 0x09
  else if f =? FormatETC2SRGBA1 then 0x0B
  else if f =? FormatETC2SRGBA8 then 0x0A
  else if f =? FormatETC2R11Unsigned then 0x05
  else if f =? FormatETC2R11Signed then 0x07
  else if f =? FormatETC2RG11Unsigned then 0x06
  else if f =? FormatETC2RG11Signed then 0x08
  else 0.

(* ----------------------------------------------------------------- *)
(** *** The source image (image.Image) *)

(** [image.Rectangle]: the points with Min.X <= x < Max.X, Min.Y <= y < Max.Y. *)
Record Rectangle : Type := mkRect {
  MinX : Z; MinY : Z; MaxX : Z; MaxY : Z
}.

Definition Dx (r : Rectangle) : Z := MaxX r - MinX r.
Definition Dy (r : Rectangle) : Z := MaxY r - MinY r.

Definition inRect (r : Rectangle) (p : Z * Z) : Prop :=
  MinX r <= fst p < MaxX r /\ MinY r <= snd p < MaxY r.

(** A color as the source hands it out: four channels. *)
Record Color : Type := mkColor { cR : Z; cG : Z; cB : Z; cA : Z }.

(** The kinds of source that [makeExtract] tells apart by a type switch:
    [*image.NRGBA] (8-bit channels, alpha not premultiplied),
    [*image.NRGBA64] (16-bit channels, alpha not premultiplied),
    any other [image.RGBA64Image] (16-bit channels, alpha premultiplied),
    and any other [image.Image], read through [At(x, y).RGBA()] (uint32
    channels, alpha premultiplied). *)
Inductive ImageKind : Type :=
| KindNRGBA | KindNRGBA64 | KindRGBA64Image | KindGeneric.

Record Image : Type := mkImage {
  Kind : ImageKind;
  Bounds : Rectangle;
  At : Z -> Z -> Color
}.

(* ----------------------------------------------------------------- *)
(** *** The pixel extractor (extract.go) *)

Definition grayR : Z := 212656.
Definition grayG : Z := 715158.
Definition grayB : Z := 72186.
Definition graySum : Z := 1000000.

(** The gray of three channels, in uint64 arithmetic. *)
Definition grayOf (r g b : Z) : Z :=
  uint64 (graySum / 2 + uint64 (r * grayR) + uint64 (g * grayG) + uint64 (b * grayB))
  / graySum.

(** The three color channels after the extractor's un-premultiplication,
    for an [image.RGBA64Image] (fields of type uint16) and for the generic
    source (uint32 values). *)
Definition unpremul16 (c : Color) : Color :=
  if negb (cA c =? 0x0000) && negb (cA c =? 0xFFFF) then
    mkColor (uint16 (uint32 (cR c * 0xFFFF) / cA c))
            (uint16 (uint32 (cG c * 0xFFFF) / cA c))
            (uint16 (uint32 (cB c * 0xFFFF) / cA c))
            (cA c)
  else c.

Definition unpremul32 (c : Color) : Color :=
  if negb (cA c =? 0x0000) && negb (cA c =? 0xFFFF) then
    mkColor (uint32 (cR c * 0xFFFF) / cA c)
            (uint32 (cG c * 0xFFFF) / cA c)
            (uint32 (cB c * 0xFFFF) / cA c)
            (cA c)
  else c.

(** A sequence of stores [a[i] = v] into a byte array, first to last. *)
Definition applyStores (a : list byte) (ss : list (Z * Z)) : list byte :=
  fold_left (fun a s => store8 a (fst s) (snd s)) ss a.

(** Whether the numbers of a list are distinct. *)
Fixpoint nodupb (l : list nat) : bool :=
  match l with
  | [] => true
  | n :: l => negb (existsb (Nat.eqb n) l) && nodupb l
  end.

(** The color of a sample as the branches of the type switch use it: as
    read for the two non-premultiplied kinds, un-premultiplied for the
    others. *)
Definition sampleColor (k : ImageKind) (c : Color) : Color :=
  match k with
  | KindNRGBA | KindNRGBA64 => c
  | KindRGBA64Image => unpremul16 c
  | KindGeneric => unpremul32 c
  end.

(** The 11-bit branches: the stores [pixels[i+...] = ...] for one sample,
    a 16-bit gray or two 16-bit channels. *)
Definition stores11 (twoChannel : bool) (k : ImageKind) (c : Color) (i : Z)
  : list (Z * Z) :=
  match k with
  | KindNRGBA =>
    if twoChannel then
      [ (i + 0x00, cR c); (i + 0x01, cR c); (i + 0x20, cG c); (i + 0x21, cG c) ]
    else
      let gray := grayOf (cR c * 0x101) (cG c * 0x101) (cB c * 0x101) in
      [ (i + 0x00, Z.shiftr gray 8); (i + 0x01, Z.shiftr gray 0) ]
  | KindNRGBA64 | KindRGBA64Image | KindGeneric =>
    let c := sampleColor k c in
    if twoChannel then
      [ (i + 0x00, Z.shiftr (cR c) 8); (i + 0x01, Z.shiftr (cR c) 0);
        (i + 0x20, Z.shiftr (cG c) 8); (i + 0x21, Z.shiftr (cG c) 0) ]
    else
      let gray := grayOf (cR c) (cG c) (cB c) in
      [ (i + 0x00, Z.shiftr gray 8); (i + 0x01, Z.shiftr gray 0) ]
  end.

(** The color branches: the stores [pixels[i+0..3] = ...] for one sample. *)
Definition stores8888 (k : ImageKind) (c : Color) (i : Z) : list (Z * Z) :=
  match k with
  | KindNRGBA =>
    [ (i + 0, cR c); (i + 1, cG c); (i + 2, cB c); (i + 3, cA c) ]
  | KindNRGBA64 | KindRGBA64Image | KindGeneric =>
    let c := sampleColor k c in
    [ (i + 0, Z.shiftr (cR c) 8); (i + 1, Z.shiftr (cG c) 8);
      (i + 2, Z.shiftr (cB c) 8); (i + 3, Z.shiftr (cA c) 8) ]
  end.

(** The coordinate at which the extractor samples the source for the pixel
    (x, y) of the block whose top-left corner is (blockX, blockY). *)
Definition sampleAt (src : Image) (blockX blockY x y : Z) : Z * Z :=
  let mX1 := MaxX (Bounds src) - 1 in
  let mY1 := MaxY (Bounds src) - 1 in
  (Z.min mX1 (blockX + x), Z.min mY1 (blockY + y)).

(** The stores of the closure's body for the pixel (x, y). *)
Definition pixelStores (f : Format) (src : Image) (blockX blockY : Z)
    (yx : Z * Z) : list (Z * Z) :=
  let '(y, x) := yx in
  let p := sampleAt src blockX blockY x y in
  let c := At src (fst p) (snd p) in
  if negb (Z.land f formatBitDepth11 =? 0) then
    let twoChannel := negb (Z.land f formatBitDepth11TwoChannel =? 0) in
    stores11 twoChannel (Kind src) c (8 * y + 2 * x)
  else
    stores8888 (Kind src) c (16 * y + 4 * x).

(** One pass of the closure's body: the sample is read and stored, and the
    coordinate of the read is logged. *)
Definition extractPixel (f : Format) (src : Image) (blockX blockY : Z)
    (st : list byte * list (Z * Z)) (yx : Z * Z) : list byte * list (Z * Z) :=
  let '(pixels, reads) := st in
  (applyStores pixels (pixelStores f src blockX blockY yx),
   reads ++ [sampleAt src blockX blockY (snd yx) (fst yx)]).

(** The luma of three 16-bit channels with the ITU-R BT.709 weights
    0.212656, 0.715158 and 0.072186, scaled by 1000000 and rounded. *)
Definition luma709 (r g b : Z) : Z :=
  (500000 + 212656 * r + 715158 * g + 72186 * b) / 1000000.

(** The 16-bit channels of a sample: an 8-bit channel v of an [*image.NRGBA]
    stands for the 16-bit value 0x101 * v, the other kinds have 16-bit
    channels, un-premultiplied where the kind is premultiplied. *)
Definition channels16 (k : ImageKind) (c : Color) : Color :=
  match k with
  | KindNRGBA => mkColor (cR c * 0x101) (cG c * 0x101) (cB c * 0x101) (cA c * 0x101)
  | _ => sampleColor k c
  end.

(** What the types of the standard library promise of a color: 8-bit or
    16-bit channels, and for the value of [Color.RGBA()] channels in
    [0, 0xFFFF] with the color channels at most alpha. *)
Definition colorWellTyped (k : ImageKind) (c : Color) : Prop :=
  match k with
  | KindNRGBA =>
    0 <= cR c <= 0xFF /\ 0 <= cG c <= 0xFF /\ 0 <= cB c <= 0xFF /\ 0 <= cA c <= 0xFF
  | KindNRGBA64 | KindRGBA64Image =>
    0 <= cR c <= 0xFFFF /\ 0 <= cG c <= 0xFFFF /\ 0 <= cB c <= 0xFFFF
    /\ 0 <= cA c <= 0xFFFF
  | KindGeneric =>
    0 <= cR c <= cA c /\ 0 <= cG c <= cA c /\ 0 <= cB c <= cA c /\ cA c <= 0xFFFF
  end.

(** The sample at (x, y) is opaque: its alpha is the largest of its type. *)
Definition opaqueAt (src : Image) (x y : Z) : Prop :=
  cA (At src x y) = match Kind src with
                    | KindNRGBA => 0xFF
                    | _ => 0xFFFF
                    end.

(** [for y := range 4 { for x := range 4 { ... } }] *)
Definition yxOrder : list (Z * Z) :=
  flat_map (fun y => map (fun x => (y, x)) (range 4)) (range 4).

(** The closure that [makeExtract] returns, applied to a block position:
    the new contents of [pixels], with the log of the coordinates read. *)
Definition extractLog (f : Format) (src : Image) (pixels : list byte)
    (blockX blockY : Z) : list byte * list (Z * Z) :=
  fold_left (extractPixel f src blockX blockY) yxOrder (pixels, []).

Definition extract (f : Format) (src : Image) (pixels : list byte)
    (blockX blockY : Z) : list byte :=
  fst (extractLog f src pixels blockX blockY).

Definition extractReads (f : Format) (src : Image) (blockX blockY : Z)
  : list (Z * Z) :=
  snd (extractLog f src (repeat x00 64) blockX blockY).

(* ----------------------------------------------------------------- *)
(** *** Tables shared with the decoder *)

(** Modelled from the spec: the [clamp] table of the decoder (decode.go is
    not part of the sources at hand). It has 1024 entries and maps a
    10-bit two's-complement value to its saturation in [0, 255]: an index
    below 256 is kept, an index with the top bit set stands for a negative
    number and gives 0, the others give 255. *)
Definition clamp (i : Z) : Z :=
  if i <? 256 then i else if i <? 512 then 255 else 0.

(** The modifier tables of the decoder, of which the sources at hand have
    only the uses: [modifiers[table][j]] (uint32, on the Individual and
    Differential modes' pixel index j), [thModifiers[which]] (the distances
    of the T and H modes) and [alphaModifiers[table][index]] (signed, for
    the 8-bit alpha and 11-bit codewords). The encoder is defined over any
    such tables. *)
Record Tables : Type := mkTables {
  modifiers : Z -> Z -> Z;
  thModifiers : Z -> Z;
  alphaModifiers : Z -> Z -> Z
}.

Definition maxInt32 : Z := 0x7FFFFFFF.
Definition maxUint64 : Z := 0xFFFFFFFFFFFFFFFF.

(** [uint64(x) << n] *)
Definition shl64 (x n : Z) : Z := uint64 (Z.shiftl (uint64 x) n).

Definition writeU64BE (buf : list byte) (off : Z) (x : Z) : list byte :=
  let buf := store8 buf (off + 0) (Z.shiftr x 56) in
  let buf := store8 buf (off + 1) (Z.shiftr x 48) in
  let buf := store8 buf (off + 2) (Z.shiftr x 40) in
  let buf := store8 buf (off + 3) (Z.shiftr x 32) in
  let buf := store8 buf (off + 4) (Z.shiftr x 24) in
  let buf := store8 buf (off + 5) (Z.shiftr x 16) in
  let buf := store8 buf (off + 6) (Z.shiftr x 8) in
  store8 buf (off + 7) (Z.shiftr x 0).

(** The bit offset of pixel i's 3-bit index in an alpha or 11-bit codeword. *)
Definition eacShift (i : Z) : Z :=
  let x := uint32 (Z.land i 3) in
  let y := uint32 (Z.shiftr i 2) in
  uint32 (Z.lor (uint32 (Z.lxor x 3 * 4)) (Z.lxor y 3) * 3).

(* ----------------------------------------------------------------- *)
(** *** float64 *)

(** [float64(n)] for an integer of the encoder. *)
Definition f64 (n : Z) : float :=
  if n <? 0 then PrimFloat.opp (PrimFloat.of_uint63 (Uint63.of_Z (- n)))
  else PrimFloat.of_uint63 (Uint63.of_Z n).

(** [int32(x)] for a float64: the fraction is discarded (truncation towards
    zero). Go leaves the result open when the value does not fit (or is not
    a number); amd64 gives the least int32 then. *)
Definition truncInt32 (x : float) : Z :=
  match Prim2SF x with
  | S754_zero _ => 0
  | S754_finite s m e =>
    let mag := if e <? 0 then Z.pos m / 2 ^ (- e) else Z.pos m * 2 ^ e in
    let v := if s then - mag else mag in
    if (- 2 ^ 31 <=? v) && (v <? 2 ^ 31) then v else - 2 ^ 31
  | S754_infinity _ | S754_nan => - 2 ^ 31
  end.

(** Go's [min] and [max] on float64: a NaN argument gives NaN. *)
Definition fmin (x y : float) : float :=
  if PrimFloat.is_nan x || PrimFloat.is_nan y then PrimFloat.nan
  else if PrimFloat.ltb x y then x
  else if PrimFloat.ltb y x then y
  else if PrimFloat.get_sign x then x else y.

Definition fmax (x y : float) : float :=
  if PrimFloat.is_nan x || PrimFloat.is_nan y then PrimFloat.nan
  else if PrimFloat.ltb x y then y
  else if PrimFloat.ltb y x then x
  else if PrimFloat.get_sign x then y else x.

Definition maxFloat64 : float := 0x1.fffffffffffffp1023%float.

(* ----------------------------------------------------------------- *)
(** *** Fixed tables of the encoder *)

Definition perOrientationPixelsOffsets : list (list Z) :=
  [ [0x00; 0x10; 0x20; 0x30; 0x04; 0x14; 0x24; 0x34];
    [0x08; 0x18; 0x28; 0x38; 0x0C; 0x1C; 0x2C; 0x3C];
    [0x00; 0x10; 0x04; 0x14; 0x08; 0x18; 0x0C; 0x1C];
    [0x20; 0x30; 0x24; 0x34; 0x28; 0x38; 0x2C; 0x3C] ].

Definition perOrientationShifts : list (list Z) :=
  [ [0x00; 0x01; 0x02; 0x03; 0x04; 0x05; 0x06; 0x07];
    [0x08; 0x09; 0x0A; 0x0B; 0x0C; 0x0D; 0x0E; 0x0F];
    [0x00; 0x01; 0x04; 0x05; 0x08; 0x09; 0x0C; 0x0D];
    [0x02; 0x03; 0x06; 0x07; 0x0A; 0x0B; 0x0E; 0x0F] ].

Definition wholeBlockShifts : list Z :=
  [ 0x00; 0x04; 0x08; 0x0C;
    0x01; 0x05; 0x09; 0x0D;
    0x02; 0x06; 0x0A; 0x0E;
    0x03; 0x07; 0x0B; 0x0F ].

Definition scramble : list Z := [3; 2; 0; 1].

Definition weightValuesI32 : list Z := [299; 587; 114].
Definition weightValuesF64 : list float := [299%float; 587%float; 114%float].

(** [a[i]] and [a[i][j]] for the fixed tables. *)
Definition ix (a : list Z) (i : Z) : Z := nth (Z.to_nat i) a 0.
Definition ix2 (a : list (list Z)) (i j : Z) : Z := ix (nth (Z.to_nat i) a []) j.
Definition fx (a : list float) (i : Z) : float := nth (Z.to_nat i) a 0%float.

(** [[3]int32] and [[3]float64]. *)
Definition RGB : Type := (Z * Z * Z)%type.
Definition RGBf : Type := (float * float * float)%type.

(** The weighted squared distance of two colors, in int32 arithmetic. *)
Definition weighted (delta0 delta1 delta2 : Z) : Z :=
  int32 (0 + int32 (ix weightValuesI32 0 * delta0 * delta0)
           + int32 (ix weightValuesI32 1 * delta1 * delta1)
           + int32 (ix weightValuesI32 2 * delta2 * delta2)).

Section Encoder.

Variable T : Tables.

(** The block decoder of decode.go, which the sources at hand only call:
    [decodeColor(&e.work, code, formatIsOneBitAlpha)] fills the 64-byte
    work block with the pixels of the codeword. *)
Variable decodeColor : Z -> bool -> list byte.

(** The k-means clustering of the T and H modes ([clusterfy]) works in
    float64 throughout; the encoder is defined over whatever pair of 8-bit
    colors it returns for a block and an intensity. *)
Variable clusterfy : list byte -> float -> (byte * byte * byte) * (byte * byte * byte).

(** The sub-encoder of the 1-bit-alpha format ([encodeRGBWithAlpha]), a
    producer of candidate codewords for [encodeColor]. *)
Variable encodeRGBWithAlpha : list byte -> bool -> Z.

(* ----------------------------------------------------------------- *)
(** *** Individual and Differential modes (encodeRGBSansAlpha) *)

Definition calculateRGBAverages (pixels : list byte) (orientation : Z) : RGBf :=
  let sums :=
    fold_left
      (fun (sums : RGB) (i : Z) =>
         let '(s0, s1, s2) := sums in
         let offset := ix2 perOrientationPixelsOffsets orientation i in
         (int32 (s0 + at8 pixels (offset + 0)),
          int32 (s1 + at8 pixels (offset + 1)),
          int32 (s2 + at8 pixels (offset + 2))))
      (range 8) (0, 0, 0) in
  let '(s0, s1, s2) := sums in
  ((f64 s0 / 8)%float, (f64 s1 / 8)%float, (f64 s2 / 8)%float).

(** The loss and the index of the best of the four modifiers for one pixel. *)
Definition bestModifier (base orig : RGB) (table : Z) : Z * Z :=
  let '(base0, base1, base2) := base in
  let '(orig0, orig1, orig2) := orig in
  fold_left
    (fun (st : Z * Z) (j : Z) =>
       let '(bestJ, bestOneLoss) := st in
       let delta0 := int32 (clamp (Z.land 1023 (uint32 (uint32 base0 + modifiers T table j))) - orig0) in
       let delta1 := int32 (clamp (Z.land 1023 (uint32 (uint32 base1 + modifiers T table j))) - orig1) in
       let delta2 := int32 (clamp (Z.land 1023 (uint32 (uint32 base2 + modifiers T table j))) - orig2) in
       let oneLoss := weighted delta0 delta1 delta2 in
       if bestOneLoss >? oneLoss then (uint8 j, oneLoss) else st)
    scramble (0, maxInt32).

Definition encodeHalfBlock1 (pixels : list byte) (orientation : Z) (base : RGB)
    (table : Z) : Z * Z :=
  fold_left
    (fun (st : Z * Z) (i : Z) =>
       let '(indexes, loss) := st in
       let offset := ix2 perOrientationPixelsOffsets orientation i in
       let orig := (at8 pixels (offset + 0), at8 pixels (offset + 1), at8 pixels (offset + 2)) in
       let '(bestJ, bestOneLoss) := bestModifier base orig table in
       let shift := ix2 perOrientationShifts orientation i in
       let indexes := Z.lor indexes (uint32 (Z.shiftl (uint32 (Z.land bestJ 2)) (shift + 0x0F))) in
       let indexes := Z.lor indexes (uint32 (Z.shiftl (uint32 (Z.land bestJ 1)) (shift + 0x00))) in
       (indexes, int32 (loss + bestOneLoss)))
    (range 8) (0, 0).

(** The result is (table, indexes, loss). *)
Definition encodeHalfBlock (pixels : list byte) (orientation : Z) (base : RGB)
  : Z * Z * Z :=
  fold_left
    (fun (st : Z * Z * Z) (t : Z) =>
       let '(_, _, loss) := st in
       let '(indexes0, loss0) := encodeHalfBlock1 pixels orientation base t in
       if loss >? loss0 then (t, indexes0, loss0) else st)
    (range 8) (0, 0, maxInt32).

(** [(r << 3) | (r >> 2)] and [(r << 4) | r] on int32. *)
Definition expand5 (r : Z) : Z := Z.lor (int32 (Z.shiftl r 3)) (Z.shiftr r 2).
Definition expand4 (r : Z) : Z := Z.lor (int32 (Z.shiftl r 4)) r.

Definition round5 (avg : float) : Z := truncInt32 (((avg * 31) / 255) + 0.5)%float.
Definition round4 (avg : float) : Z := truncInt32 (((avg * 15) / 255) + 0.5)%float.

Definition reduceETC1SProduce5BitColor (rgbAvgs0 rgbAvgs1 : RGBf) : RGB :=
  let '(a0, a1, a2) := rgbAvgs0 in
  let '(b0, b1, b2) := rgbAvgs1 in
  let a0 := ((a0 + b0) / 2)%float in
  let a1 := ((a1 + b1) / 2)%float in
  let a2 := ((a2 + b2) / 2)%float in
  let r := round5 a0 in
  let g := round5 a1 in
  let b := round5 a2 in
  (expand5 r, expand5 g, expand5 b).

Definition reduceFunc : Type := RGBf -> bool -> RGB.

Definition reduceAverage : reduceFunc := fun rgbAvgs produce5BitColor =>
  let '(a0, a1, a2) := rgbAvgs in
  if produce5BitColor then
    let r := round5 a0 in
    let g := round5 a1 in
    let b := round5 a2 in
    (expand5 r, expand5 g, expand5 b)
  else
    let r := round4 a0 in
    let g := round4 a1 in
    let b := round4 a2 in
    (expand4 r, expand4 g, expand4 b).

(** The two corners of one channel: the floor and the next level of the
    5-bit (or 4-bit) scale, expanded to 8 bits. *)
Definition corner (produce5BitColor : bool) (avg : float) : Z * Z :=
  if produce5BitColor then
    let lo := truncInt32 ((avg * 31) / 255)%float in
    let hi := Z.min 31 (int32 (lo + 1)) in
    (expand5 lo, expand5 hi)
  else
    let lo := truncInt32 ((avg * 15) / 255)%float in
    let hi := Z.min 15 (int32 (lo + 1)) in
    (expand4 lo, expand4 hi).

Definition pick {A : Type} (p : A * A) (i : Z) : A :=
  if i =? 0 then fst p else snd p.

Definition reduceQuantize : reduceFunc := fun rgbAvgs produce5BitColor =>
  let '(a0, a1, a2) := rgbAvgs in
  let corners0 := corner produce5BitColor a0 in
  let corners1 := corner produce5BitColor a1 in
  let corners2 := corner produce5BitColor a2 in
  let deltas0 := ((f64 (fst corners0) - a0)%float, (f64 (snd corners0) - a0)%float) in
  let deltas1 := ((f64 (fst corners1) - a1)%float, (f64 (snd corners1) - a1)%float) in
  let deltas2 := ((f64 (fst corners2) - a2)%float, (f64 (snd corners2) - a2)%float) in
  snd (fold_left
         (fun (st : float * RGB) (i : Z) =>
            let '(bestLoss, ret) := st in
            let ir := Z.land (Z.shiftr i 0) 1 in
            let ig := Z.land (Z.shiftr i 1) 1 in
            let ib := Z.land (Z.shiftr i 2) 1 in
            let drg := (pick deltas0 ir - pick deltas1 ig)%float in
            let dgb := (pick deltas1 ig - pick deltas2 ib)%float in
            let dbr := (pick deltas2 ib - pick deltas0 ir)%float in
            let loss :=
              (0 + (fx weightValuesF64 0 * fx weightValuesF64 1 * drg * drg)
                 + (fx weightValuesF64 1 * fx weightValuesF64 2 * dgb * dgb)
                 + (fx weightValuesF64 2 * fx weightValuesF64 0 * dbr * dbr))%float in
            if PrimFloat.ltb loss bestLoss
            then (loss, (pick corners0 ir, pick corners1 ig, pick corners2 ib))
            else st)
         (range 8) (maxFloat64, (0, 0, 0))).

(** The Differential and the Individual codeword of one orientation. *)
Definition packDifferential (base0 : RGB) (diff : RGB) (table0 table1 flipBit
    indexes0 indexes1 : Z) : Z :=
  let '(b0, b1, b2) := base0 in
  let '(diff0, diff1, diff2) := diff in
  let diffBit := 1 in
  Z.lor (Z.lor (Z.lor (Z.lor (Z.lor (Z.lor (Z.lor (Z.lor (Z.lor (Z.lor (Z.lor (Z.lor 0
    (shl64 (Z.shiftr b0 3) (64 - 5)))
    (shl64 (Z.land diff0 7) (59 - 3)))
    (shl64 (Z.shiftr b1 3) (56 - 5)))
    (shl64 (Z.land diff1 7) (51 - 3)))
    (shl64 (Z.shiftr b2 3) (48 - 5)))
    (shl64 (Z.land diff2 7) (43 - 3)))
    (shl64 table0 (40 - 3)))
    (shl64 table1 (37 - 3)))
    (shl64 diffBit (34 - 1)))
    (shl64 flipBit (33 - 1)))
    (uint64 indexes1))
    (uint64 indexes0).

Definition packIndividual (base0 base1 : RGB) (table0 table1 flipBit
    indexes0 indexes1 : Z) : Z :=
  let '(b00, b01, b02) := base0 in
  let '(b10, b11, b12) := base1 in
  let diffBit := 0 in
  Z.lor (Z.lor (Z.lor (Z.lor (Z.lor (Z.lor (Z.lor (Z.lor (Z.lor (Z.lor (Z.lor (Z.lor 0
    (shl64 (Z.shiftr b00 4) (64 - 4)))
    (shl64 (Z.shiftr b10 4) (60 - 4)))
    (shl64 (Z.shiftr b01 4) (56 - 4)))
    (shl64 (Z.shiftr b11 4) (52 - 4)))
    (shl64 (Z.shiftr b02 4) (48 - 4)))
    (shl64 (Z.shiftr b12 4) (44 - 4)))
    (shl64 table0 (40 - 3)))
    (shl64 table1 (37 - 3)))
    (shl64 diffBit (34 - 1)))
    (shl64 flipBit (33 - 1)))
    (uint64 indexes1))
    (uint64 indexes0).

(** One round of the loop over the flip bit; the state is
    (bestCode, bestLoss). For ETC1S the round of flip bit 1 is the [break]. *)
Definition sansAlphaFlip (pixels : list byte) (reduce : reduceFunc)
    (formatIsETC1S : bool) (st : Z * Z) (flipBit : Z) : Z * Z :=
  let '(bestCode, bestLoss) := st in
  let rgbAvgs0 := calculateRGBAverages pixels (2 * flipBit + 0) in
  let rgbAvgs1 := calculateRGBAverages pixels (2 * flipBit + 1) in
  let bases :=
    if negb formatIsETC1S then
      Some (reduce rgbAvgs0 true, reduce rgbAvgs1 true)
    else if flipBit =? 0 then
      let base0 := reduceETC1SProduce5BitColor rgbAvgs0 rgbAvgs1 in
      Some (base0, base0)
    else None in
  match bases with
  | None => st
  | Some (base0, base1) =>
    let '(b00, b01, b02) := base0 in
    let '(b10, b11, b12) := base1 in
    let diff0 := int32 (Z.shiftr b10 3 - Z.shiftr b00 3) in
    let diff1 := int32 (Z.shiftr b11 3 - Z.shiftr b01 3) in
    let diff2 := int32 (Z.shiftr b12 3 - Z.shiftr b02 3) in
    if (-4 <=? diff0) && (diff0 <=? 3)
       && (-4 <=? diff1) && (diff1 <=? 3)
       && (-4 <=? diff2) && (diff2 <=? 3)
    then
      let '(table0, indexes0, loss0) := encodeHalfBlock pixels (2 * flipBit + 0) base0 in
      let '(table1, indexes1, loss1) := encodeHalfBlock pixels (2 * flipBit + 1) base1 in
      let loss := int32 (loss0 + loss1) in
      if bestLoss >? loss
      then (packDifferential base0 (diff0, diff1, diff2) table0 table1 flipBit
                             indexes0 indexes1, loss)
      else st
    else
      let base0 := reduce rgbAvgs0 false in
      let base1 := reduce rgbAvgs1 false in
      let '(table0, indexes0, loss0) := encodeHalfBlock pixels (2 * flipBit + 0) base0 in
      let '(table1, indexes1, loss1) := encodeHalfBlock pixels (2 * flipBit + 1) base1 in
      let loss := int32 (loss0 + loss1) in
      if bestLoss >? loss
      then (packIndividual base0 base1 table0 table1 flipBit indexes0 indexes1, loss)
      else st
  end.

Definition encodeRGBSansAlpha (pixels : list byte) (reduce : reduceFunc)
    (formatIsETC1S : bool) : Z :=
  fst (fold_left (sansAlphaFlip pixels reduce formatIsETC1S) (range 2) (0, maxInt32)).

(* ----------------------------------------------------------------- *)
(** *** Planar mode (encodePlanar) *)

Definition zMatrix : list (list float) :=
  [ [ 1.00; 0.75; 0.50; 0.25;
      0.75; 0.50; 0.25; 0.00;
      0.50; 0.25; 0.00; -0.25;
      0.25; 0.00; -0.25; -0.50 ];
    [ 0.00; 0.25; 0.50; 0.75;
      0.00; 0.25; 0.50; 0.75;
      0.00; 0.25; 0.50; 0.75;
      0.00; 0.25; 0.50; 0.75 ];
    [ 0.00; 0.00; 0.00; 0.00;
      0.25; 0.25; 0.25; 0.25;
      0.50; 0.50; 0.50; 0.50;
      0.75; 0.75; 0.75; 0.75 ] ]%float.

Definition cMatrix : list (list float) :=
  [ [ 0.2875; -0.0125; -0.0125 ];
    [ -0.0125; 0.4875; -0.3125 ];
    [ -0.0125; -0.3125; 0.4875 ] ]%float.

Definition fx2 (a : list (list float)) (i j : Z) : float :=
  fx (nth (Z.to_nat i) a []) j.

(** The least-squares solution for one channel, clamped: the Origin,
    Horizontal and Vertical colors of the channel. *)
Definition planarSolve (pixels : list byte) (channel : Z) : RGBf :=
  let bMatrix := map (fun i => f64 (at8 pixels (4 * i + channel))) (range 16) in
  let dMatrix :=
    map (fun a =>
           fold_left (fun sum i => (sum + fx2 zMatrix a i * fx bMatrix i)%float)
                     (range 16) 0%float)
        (range 3) in
  let xMatrix :=
    map (fun c =>
           fold_left (fun sum i => (sum + fx2 cMatrix c i * fx dMatrix i)%float)
                     (range 3) 0%float)
        (range 3) in
  (fmax 0 (fmin 255 (fx xMatrix 0)),
   fmax 0 (fmin 255 (fx xMatrix 1)),
   fmax 0 (fmin 255 (fx xMatrix 2))).

(** The nine colors quantized to 6, 7 and 6 bits. *)
Record planar676 : Type := mkPlanar676 {
  colorOR6 : Z; colorOG7 : Z; colorOB6 : Z;
  colorHR6 : Z; colorHG7 : Z; colorHB6 : Z;
  colorVR6 : Z; colorVG7 : Z; colorVB6 : Z
}.

Definition quant6 (x : float) : Z := truncInt32 (((x * 63) / 255) + 0.5)%float.
Definition quant7 (x : float) : Z := truncInt32 (((x * 127) / 255) + 0.5)%float.

Definition planarQuantize (pixels : list byte) : planar676 :=
  let '(oR, hR, vR) := planarSolve pixels 0 in
  let '(oG, hG, vG) := planarSolve pixels 1 in
  let '(oB, hB, vB) := planarSolve pixels 2 in
  mkPlanar676 (quant6 oR) (quant7 oG) (quant6 oB)
              (quant6 hR) (quant7 hG) (quant6 hB)
              (quant6 vR) (quant7 vG) (quant6 vB).

(** [^a] on uint64. *)
Definition not64 (a : Z) : Z := uint64 (Z.lnot a).

(** [code |= ...] so that the 5+3-bit sum of the base whose low bit is
    [lo] overflows: with a, b the two low bits of the base and c, d the two
    low bits of the delta. *)
Definition forceOverflow (code lo : Z) : Z :=
  let a := Z.land (Z.shiftr code (lo + 4)) 1 in
  let b := Z.land (Z.shiftr code (lo + 3)) 1 in
  let c := Z.land (Z.shiftr code (lo + 1)) 1 in
  let d := Z.land (Z.shiftr code (lo + 0)) 1 in
  if negb (0 =? Z.lor (Z.lor (Z.land a c)
                             (Z.land (Z.land (Z.land (not64 a) b) c) d))
                      (Z.land (Z.land (Z.land a b) (not64 c)) d))
  then Z.lor code (shl64 7 (lo + 5))
  else Z.lor code (shl64 1 (lo + 2)).

(** [code |= (((code >> (hi-1)) & 1) ^ 1) << hi] *)
Definition forceNoOverflow (code hi : Z) : Z :=
  Z.lor code (shl64 (Z.lxor (Z.land (Z.shiftr code (hi - 1)) 1) 1) hi).

Definition packPlanar (q : planar676) : Z :=
  let code :=
    Z.lor (Z.lor (Z.lor (Z.lor (Z.lor (Z.lor (Z.lor (Z.lor (Z.lor (Z.lor (Z.lor (Z.lor (Z.lor (Z.lor 0
      (shl64 (colorOR6 q) (63 - (6 + 0))))
      (shl64 (Z.land (colorOG7 q) 0x40) (57 - (1 + 6))))
      (shl64 (Z.land (colorOG7 q) 0x3F) (55 - (6 + 0))))
      (shl64 (Z.land (colorOB6 q) 0x20) (49 - (1 + 5))))
      (shl64 (Z.land (colorOB6 q) 0x18) (45 - (2 + 3))))
      (shl64 (Z.land (colorOB6 q) 0x07) (42 - (3 + 0))))
      (shl64 (Z.land (colorHR6 q) 0x3E) (39 - (5 + 1))))
      (shl64 (Z.land (colorHR6 q) 0x01) (33 - (1 + 0))))
      (shl64 (colorHG7 q) (32 - 7)))
      (shl64 (colorHB6 q) (25 - 6)))
      (shl64 (colorVR6 q) (19 - 6)))
      (shl64 (colorVG7 q) (13 - 7)))
      (uint64 (colorVB6 q)))
      (shl64 1 33) in
  (* Ensure diff-red does not overflow. *)
  let code := forceNoOverflow code 63 in
  (* Ensure diff-green does not overflow. *)
  let code := forceNoOverflow code 55 in
  (* Ensure diff-blue overflows. *)
  forceOverflow code 40.

Definition encodePlanar (pixels : list byte) : Z :=
  packPlanar (planarQuantize pixels).

(* ----------------------------------------------------------------- *)
(** *** T and H modes (encodeT, encodeH) *)

(** [[2][3]uint8] *)
Definition Cluster : Type := (RGB * RGB)%type.

Definition cluster8 (c : (byte * byte * byte) * (byte * byte * byte)) : Cluster :=
  let '((r0, g0, b0), (r1, g1, b1)) := c in
  ((b2z r0, b2z g0, b2z b0), (b2z r1, b2z g1, b2z b1)).

Definition mapRGB (g : Z -> Z) (c : RGB) : RGB :=
  let '(c0, c1, c2) := c in (g c0, g c1, g c2).

Definition convert8BitTo4Bit (a : Cluster) : Cluster :=
  let g v := uint8 (uint32 (uint32 (uint32 v + 8) * 15) / 255) in
  (mapRGB g (fst a), mapRGB g (snd a)).

Definition swapCluster (a : Cluster) : Cluster := (snd a, fst a).

(** [clamp[(uint32(c) + delta) & 1023]] and the same with [- delta]. *)
Definition clampAdd (c delta : Z) : Z := clamp (Z.land (uint32 (uint32 c + delta)) 1023).
Definition clampSub (c delta : Z) : Z := clamp (Z.land (uint32 (uint32 c - delta)) 1023).

(** The weighted distance of pixel i to a color. *)
Definition pixelLoss (pixels : list byte) (i : Z) (color : RGB) : Z :=
  let '(c0, c1, c2) := color in
  let delta0 := int32 (at8 pixels (4 * i + 0) - c0) in
  let delta1 := int32 (at8 pixels (4 * i + 1) - c1) in
  let delta2 := int32 (at8 pixels (4 * i + 2) - c2) in
  weighted delta0 delta1 delta2.

Definition colorAt (colors : list RGB) (j : Z) : RGB := nth (Z.to_nat j) colors (0, 0, 0).

(** The two index bits of pixel i, put at its place in the 32 index bits. *)
Definition putIndex (pixelIndexes bestJ shift : Z) : Z :=
  let pixelIndexes :=
    Z.lor pixelIndexes (uint32 (Z.shiftl (uint32 (Z.land bestJ 2)) (shift + 0x0F))) in
  Z.lor pixelIndexes (uint32 (Z.shiftl (uint32 (Z.land bestJ 1)) (shift + 0x00))).

(** For one distance: the index bits and the loss of the block. [oneLoss]
    gives the loss of pixel i with color j, or nothing where the loop
    over j skips the color. *)
Definition blockIndexes (best : Z -> Z * Z) : Z * Z :=
  fold_left
    (fun (st : Z * Z) (i : Z) =>
       let '(pixelIndexes, blockLoss) := st in
       let '(bestJ, bestOneLoss) := best i in
       (putIndex pixelIndexes bestJ (ix wholeBlockShifts i),
        int32 (blockLoss + bestOneLoss)))
    (range 16) (0, 0).

Definition bestColorT (pixels : list byte) (formatIsOneBitAlpha : bool)
    (colors : list RGB) (i : Z) : Z * Z :=
  if formatIsOneBitAlpha && (at8 pixels (4 * i + 3) <? 0x80) then (2, 0)
  else
    fold_left
      (fun (st : Z * Z) (j : Z) =>
         if formatIsOneBitAlpha && (j =? 2) then st
         else
           let oneLoss := pixelLoss pixels i (colorAt colors j) in
           if snd st >? oneLoss then (j, oneLoss) else st)
      (range 4) (0, maxInt32).

(** The result is (bestSwap, bestWhich, bestPixelIndexes, bestBlockLoss). *)
Definition calculateError59T (pixels : list byte) (rgb444 : Cluster)
    (formatIsOneBitAlpha : bool) : Z * Z * Z * Z :=
  snd (fold_left
    (fun (st : Cluster * (Z * Z * Z * Z)) (swap : Z) =>
       let '(rgb444, best) := st in
       let rgb444 := if swap >? 0 then swapCluster rgb444 else rgb444 in
       let colors0 := mapRGB (fun v => uint8 (v * 0x11)) (fst rgb444) in
       let colors2 := mapRGB (fun v => uint8 (v * 0x11)) (snd rgb444) in
       (rgb444,
        fold_left
          (fun (best : Z * Z * Z * Z) (which : Z) =>
             let delta := uint32 (thModifiers T which) in
             let colors1 := mapRGB (fun c => clampAdd c delta) colors2 in
             let colors3 := mapRGB (fun c => clampSub c delta) colors2 in
             let colors := [colors0; colors1; colors2; colors3] in
             let '(pixelIndexes, blockLoss) :=
               blockIndexes (bestColorT pixels formatIsOneBitAlpha colors) in
             let '(_, _, _, bestBlockLoss) := best in
             if bestBlockLoss >? blockLoss
             then (uint32 swap, uint32 which, pixelIndexes, blockLoss)
             else best)
          (range 8) best))
    (range 2) (rgb444, (0, 0, 0, maxInt32))).

(** The search over the clusterings: with [goHarder] the intensities 0.0,
    0.5 and 1.0 compete on the loss that [score] computes, without it the
    intensity 0.5 is taken. [prepare] maps the colors of [clusterfy] to
    the 4-bit colors that are scored. The result is
    (bestSwap, bestWhich, bestPixelIndexes, bestCluster). *)
Definition searchClusters (pixels : list byte) (goHarder : bool)
    (prepare : Cluster -> Cluster) (score : Cluster -> Z * Z * Z * Z)
  : Z * Z * Z * Cluster :=
  if goHarder then
    let cluster00 := prepare (cluster8 (clusterfy pixels 0.0%float)) in
    let '(bestSwap, bestWhich, bestPixelIndexes, bestBlockLoss) := score cluster00 in
    let best := (bestSwap, bestWhich, bestPixelIndexes, bestBlockLoss, cluster00) in
    let cluster05 := prepare (cluster8 (clusterfy pixels 0.5%float)) in
    let '(swap05, which05, pixelIndexes05, blockLoss05) := score cluster05 in
    let best :=
      if snd (fst best) >? blockLoss05
      then (swap05, which05, pixelIndexes05, blockLoss05, cluster05)
      else best in
    let cluster10 := prepare (cluster8 (clusterfy pixels 1.0%float)) in
    let '(swap10, which10, pixelIndexes10, blockLoss10) := score cluster10 in
    let best :=
      if snd (fst best) >? blockLoss10
      then (swap10, which10, pixelIndexes10, blockLoss10, cluster10)
      else best in
    let '(bestSwap, bestWhich, bestPixelIndexes, _, bestCluster) := best in
    (bestSwap, bestWhich, bestPixelIndexes, bestCluster)
  else
    let cluster05 := prepare (cluster8 (clusterfy pixels 0.5%float)) in
    let '(bestSwap, bestWhich, bestPixelIndexes, _) := score cluster05 in
    (bestSwap, bestWhich, bestPixelIndexes, cluster05).

Definition packT (bestCluster : Cluster) (bestWhich bestPixelIndexes : Z)
    (formatIsOneBitAlpha : bool) : Z :=
  let '((c00, c01, c02), (c10, c11, c12)) := bestCluster in
  let code :=
    Z.lor (Z.lor (Z.lor (Z.lor (Z.lor (Z.lor (Z.lor (Z.lor (Z.lor (Z.lor 0
      (shl64 (Z.land c00 0x0C) 57))
      (shl64 (Z.land c00 0x03) 56))
      (shl64 c01 52))
      (shl64 c02 48))
      (shl64 c10 44))
      (shl64 c11 40))
      (shl64 c12 36))
      (shl64 (Z.land bestWhich 0x06) 33))
      (shl64 (Z.land bestWhich 0x01) 32))
      (uint64 bestPixelIndexes) in
  let code := if negb formatIsOneBitAlpha then Z.lor code (shl64 1 33) else code in
  (* Ensure diff-red overflows. *)
  forceOverflow code 56.

Definition encodeT (pixels : list byte) (formatIsOneBitAlpha goHarder : bool) : Z :=
  let '(bestSwap, bestWhich, bestPixelIndexes, bestCluster) :=
    searchClusters pixels goHarder convert8BitTo4Bit
      (fun c => calculateError59T pixels c formatIsOneBitAlpha) in
  let bestCluster := if bestSwap >? 0 then swapCluster bestCluster else bestCluster in
  packT bestCluster bestWhich bestPixelIndexes formatIsOneBitAlpha.

(** The 12-bit number of a 4-bit color, and the color of a number. *)
Definition pack444 (c : RGB) : Z :=
  let '(c0, c1, c2) := c in
  uint32 (uint32 (256 * uint32 c0) + uint32 (16 * uint32 c1) + uint32 c2).

Definition unpack444 (c : Z) : RGB :=
  (uint8 (Z.land 15 (Z.shiftr c 8)),
   uint8 (Z.land 15 (Z.shiftr c 4)),
   uint8 (Z.land 15 (Z.shiftr c 0))).

Definition sort4BitColors (a : Cluster) : Cluster :=
  let c0 := pack444 (fst a) in
  let c1 := pack444 (snd a) in
  if c0 <? c1 then a
  else
    let '(c0, c1) :=
      if c0 >? c1 then (c1, c0)
      else if c0 =? 0 then (c0, uint32 (c0 + 1))
      else (uint32 (c1 - 1), c1) in
    (unpack444 c0, unpack444 c1).

(** The result is the cluster as reordered and the pixel indexes. *)
Definition sort4BitColorsWithPixelIndexes (a : Cluster) (which pixelIndexes : Z)
  : Cluster * Z :=
  let c0 := pack444 (fst a) in
  let c1 := pack444 (snd a) in
  if Bool.eqb (c0 >=? c1) (Z.land which 1 =? 1) then (a, pixelIndexes)
  else ((unpack444 c1, unpack444 c0), Z.lxor 0xFFFF0000 pixelIndexes).

Definition bestColorH (pixels : list byte) (formatIsOneBitAlpha : bool)
    (alphaIndex : Z) (colors : list RGB) (i : Z) : Z * Z :=
  let alpha := at8 pixels (4 * i + 3) in
  fold_left
    (fun (st : Z * Z) (j : Z) =>
       let oneLoss :=
         if negb formatIsOneBitAlpha then pixelLoss pixels i (colorAt colors j)
         else if (j =? alphaIndex) && (alpha >=? 0x80) then 0
         else if (j =? alphaIndex) || (alpha >=? 0x80) then maxInt32
         else pixelLoss pixels i (colorAt colors j) in
       if snd st >? oneLoss then (j, oneLoss) else st)
    (range 4) (0, maxInt32).

Definition calculateError58H (pixels : list byte) (rgb444 : Cluster)
    (formatIsOneBitAlpha : bool) : Z * Z * Z * Z :=
  let rgb444Packed0 :=
    Z.lor (Z.lor (uint32 (Z.shiftl (fst (fst (fst rgb444))) 8))
                 (uint32 (Z.shiftl (snd (fst (fst rgb444))) 4)))
          (uint32 (snd (fst rgb444))) in
  let rgb444Packed1 :=
    Z.lor (Z.lor (uint32 (Z.shiftl (fst (fst (snd rgb444))) 8))
                 (uint32 (Z.shiftl (snd (fst (snd rgb444))) 4)))
          (uint32 (snd (snd rgb444))) in
  let baseColors0 := mapRGB (fun v => uint8 (v * 0x11)) (fst rgb444) in
  let baseColors1 := mapRGB (fun v => uint8 (v * 0x11)) (snd rgb444) in
  let bestSwap := 0 in
  fold_left
    (fun (best : Z * Z * Z * Z) (which : Z) =>
       let alphaIndex :=
         if formatIsOneBitAlpha then
           if negb (Bool.eqb (rgb444Packed0 >=? rgb444Packed1) (Z.land which 1 =? 1))
           then 0 else 2
         else -1 in
       let delta := uint32 (thModifiers T which) in
       let colors :=
         [ mapRGB (fun c => clampAdd c delta) baseColors0;
           mapRGB (fun c => clampSub c delta) baseColors0;
           mapRGB (fun c => clampAdd c delta) baseColors1;
           mapRGB (fun c => clampSub c delta) baseColors1 ] in
       let '(pixelIndexes, blockLoss) :=
         blockIndexes (bestColorH pixels formatIsOneBitAlpha alphaIndex colors) in
       let '(_, _, _, bestBlockLoss) := best in
       if bestBlockLoss >? blockLoss
       then (bestSwap, uint32 which, pixelIndexes, blockLoss)
       else best)
    (range 8) (bestSwap, 0, 0, maxInt32).

Definition packH (bestCluster : Cluster) (bestWhich bestPixelIndexes : Z)
    (formatIsOneBitAlpha : bool) : Z :=
  let '((c00, c01, c02), (c10, c11, c12)) := bestCluster in
  let code :=
    Z.lor (Z.lor (Z.lor (Z.lor (Z.lor (Z.lor (Z.lor (Z.lor (Z.lor (Z.lor (Z.lor 0
      (shl64 c00 59))
      (shl64 (Z.land c01 0x0E) 55))
      (shl64 (Z.land c01 0x01) 52))
      (shl64 (Z.land c02 0x08) 48))
      (shl64 (Z.land c02 0x07) 47))
      (shl64 c10 43))
      (shl64 c11 39))
      (shl64 c12 35))
      (shl64 (Z.land bestWhich 0x04) 32))
      (shl64 (Z.land bestWhich 0x02) 31))
      (uint64 bestPixelIndexes) in
  let code := if negb formatIsOneBitAlpha then Z.lor code (shl64 1 33) else code in
  (* Ensure diff-red does not overflow. *)
  let code := forceNoOverflow code 63 in
  (* Ensure diff-green overflows. *)
  forceOverflow code 48.

Definition encodeH (pixels : list byte) (formatIsOneBitAlpha goHarder : bool) : Z :=
  let '(bestSwap, bestWhich, bestPixelIndexes, bestCluster) :=
    searchClusters pixels goHarder
      (fun c => sort4BitColors (convert8BitTo4Bit c))
      (fun c => calculateError58H pixels c formatIsOneBitAlpha) in
  let bestCluster := if bestSwap >? 0 then swapCluster bestCluster else bestCluster in
  let '(bestCluster, bestPixelIndexes) :=
    sort4BitColorsWithPixelIndexes bestCluster bestWhich bestPixelIndexes in
  packH bestCluster bestWhich bestPixelIndexes formatIsOneBitAlpha.

(* ----------------------------------------------------------------- *)
(** *** The 8-bit alpha codeword (encodeAlpha) *)

Definition adjustAlpha (rawAlpha table index : Z) : Z :=
  let multiplier := int32 (Z.shiftr table 4) in
  let delta := int32 (multiplier * int32 (alphaModifiers T (Z.land table 15) index)) in
  int32 (clamp (Z.land 1023 (int32 (rawAlpha + delta)))).

(** [int32(e.pixels[(4*i)+3])] *)
Definition alphaOf (pixels : list byte) (i : Z) : Z := at8 pixels (4 * i + 3).

(** The walk over the indexes of one sign, which stops at the first index
    that does not improve: [strict] tells [>] (the indexes 0..3) from [>=]
    (the indexes 7..4). *)
Fixpoint alphaWalk (strict : bool) (alpha table a : Z) (indexes : list Z)
    (bestDiff : Z) : Z :=
  match indexes with
  | [] => bestDiff
  | index :: rest =>
    let d1 := int32 (adjustAlpha alpha table index - a) in
    let d2 := int32 (d1 * d1) in
    if (if strict then bestDiff >? d2 else bestDiff >=? d2)
    then alphaWalk strict alpha table a rest d2
    else bestDiff
  end.

Definition alphaBestDiff (alpha table a : Z) : Z :=
  if a >? alpha
  then alphaWalk false alpha table a [7; 6; 5; 4] maxInt32
  else alphaWalk true alpha table a [0; 1; 2; 3] maxInt32.

(** [for x := range 4 { for y := range 4 { ... } }] *)
Definition xyOrder : list (Z * Z) :=
  flat_map (fun x => map (fun y => (x, y)) (range 4)) (range 4).

(** The loop labelled [xLoop]: the sum of the pixels' best differences,
    left as soon as it exceeds [bestSum]. *)
Fixpoint alphaSumLoop (pixels : list byte) (alpha table bestSum : Z)
    (xys : list (Z * Z)) (sum : Z) : Z :=
  match xys with
  | [] => sum
  | (x, y) :: rest =>
    let i := 4 * y + x in
    let a := alphaOf pixels i in
    let sum := int32 (sum + alphaBestDiff alpha table a) in
    if sum >? bestSum then sum
    else alphaSumLoop pixels alpha table bestSum rest sum
  end.

(** [for v := lo; v <= hi; v += step]: the values of the loop variable. *)
Definition fromToBy (lo hi step : Z) : list Z :=
  if lo <=? hi
  then map (fun k => lo + step * k) (range (Z.to_nat ((hi - lo) / step + 1)))
  else [].

(** The search state: tableBestSum, tableAlpha, bestSum, bestTable, bestAlpha. *)
Record alphaSearch : Type := mkAlphaSearch {
  tableBestSum : Z; tableAlpha : Z; bestSum : Z; bestTable : Z; bestAlpha : Z
}.

Definition alphaTry (pixels : list byte) (table : Z) (s : alphaSearch)
    (alpha : Z) : alphaSearch :=
  let sum := alphaSumLoop pixels alpha table (bestSum s) xyOrder 0 in
  let s :=
    if tableBestSum s >? sum
    then mkAlphaSearch sum alpha (bestSum s) (bestTable s) (bestAlpha s)
    else s in
  if bestSum s >? sum
  then mkAlphaSearch (tableBestSum s) (tableAlpha s) sum table alpha
  else s.

Definition clamp0_255 (v : Z) : Z := Z.max 0 (Z.min 255 v).

Definition alphaScaleStep (pixels : list byte) (table : Z) (s : alphaSearch)
    (alphaScale : Z) : alphaSearch :=
  let alphaLo :=
    if alphaScale =? 16
    then clamp0_255 (int32 (tableAlpha s - int32 (alphaScale * 4)))
    else clamp0_255 (int32 (tableAlpha s - int32 (alphaScale * 2))) in
  let alphaHi :=
    if alphaScale =? 16
    then clamp0_255 (int32 (tableAlpha s + int32 (alphaScale * 4)))
    else clamp0_255 (int32 (tableAlpha s + int32 (alphaScale * 2))) in
  fold_left (alphaTry pixels table) (fromToBy alphaLo alphaHi alphaScale) s.

(** One round of the loop over the tables; the loop's condition
    [bestSum > 0] ends it, and with it every later round. *)
Definition alphaTableStep (pixels : list byte) (prevAlpha : Z)
    (s : alphaSearch) (table : Z) : alphaSearch :=
  if bestSum s >? 0 then
    let s := mkAlphaSearch maxInt32 prevAlpha (bestSum s) (bestTable s) (bestAlpha s) in
    fold_left (alphaScaleStep pixels table) [16; 4; 1] s
  else s.

Definition alphaBestIndex (pixels : list byte) (bestAlpha bestTable i : Z) : Z :=
  let a := alphaOf pixels i in
  fst (fold_left
         (fun (st : Z * Z) (index : Z) =>
            let '(bestIndex, bestD2) := st in
            let d1 := int32 (adjustAlpha bestAlpha bestTable index - a) in
            let d2 := int32 (d1 * d1) in
            if bestD2 >? d2 then (index, d2) else st)
         (range 8) (0, maxInt32)).

Definition encodeAlpha (pixels : list byte) : Z :=
  let alphaSum := fold_left (fun acc i => int32 (acc + alphaOf pixels i)) (range 16) 0 in
  let alpha := Z.quot (int32 (alphaSum + 8)) 16 in
  let maxDist :=
    fold_left
      (fun maxDist i =>
         let a := alphaOf pixels i in
         let d := int32 (a - alpha) in
         let d := if d <? 0 then int32 (- d) else d in
         Z.max maxDist d)
      (range 16) 0 in
  let approxPos := Z.min 255 (int32 (Z.quot (int32 (maxDist * 255)) 160 - 4)) in
  let tableLo := Z.max 0 (int32 (approxPos - 15)) in
  let tableHi := Z.max 0 (Z.min 255 (int32 (approxPos + 15))) in
  let prevAlpha := alpha in
  let s :=
    fold_left (alphaTableStep pixels prevAlpha)
              (fromToBy tableLo (tableHi - 1) 1)
              (mkAlphaSearch 0 0 maxInt32 0 0) in
  let code := Z.lor (shl64 (bestAlpha s) 56) (shl64 (bestTable s) 48) in
  fold_left
    (fun code i =>
       Z.lor code (shl64 (alphaBestIndex pixels (bestAlpha s) (bestTable s) i)
                         (eacShift i)))
    (range 16) code.

(* ----------------------------------------------------------------- *)
(** *** The 11-bit codeword (encode11) *)

(** [encode11Helper.fill]: the eight values a (base, multiplier, table)
    triple reconstructs, in the 16-bit domain. *)
Definition fill (rawBase rawMultiplier table : Z) (signed : bool) : list Z :=
  let multiplier := Z.max 1 (int32 (8 * int32 rawMultiplier)) in
  if signed then
    let base := int32 (8 * Z.max (int32 (int8 rawBase)) (-127)) in
    map (fun i =>
           let delta := int32 (multiplier * int32 (alphaModifiers T table i)) in
           let value11 := int32 (Z.max (-1023) (Z.min 1023 (int32 (base + delta)))) in
           let value16 :=
             if value11 >=? 0 then
               int32 (Z.lor (int32 (Z.shiftl value11 5)) (Z.shiftr value11 5))
             else
               let value11 := int32 (- value11) in
               let value16 := int32 (Z.lor (int32 (Z.shiftl value11 5)) (Z.shiftr value11 5)) in
               int32 (- value16) in
           let value16 := int32 (value16 + 0x8000) in
           uint16 value16)
        (range 8)
  else
    let base := int32 (int32 (8 * int32 rawBase) + 4) in
    map (fun i =>
           let delta := int32 (multiplier * int32 (alphaModifiers T table i)) in
           let value11 := uint32 (Z.max 0 (Z.min 2047 (int32 (base + delta)))) in
           let value16 := uint32 (Z.lor (uint32 (Z.shiftl value11 5)) (Z.shiftr value11 6)) in
           uint16 value16)
        (range 8).

(** The 16-bit sample i of the channel at [pixOffset]. *)
Definition sample16 (pixels : list byte) (pixOffset i : Z) : Z :=
  uint32 (uint32 (Z.shiftl (at8 pixels (pixOffset + 2 * i + 0)) 8)
          + uint32 (Z.shiftl (at8 pixels (pixOffset + 2 * i + 1)) 0)).

Definition delta2 (value helperValue : Z) : Z :=
  let delta := int64 (int64 value - int64 helperValue) in
  uint64 (int64 (delta * delta)).

(** The squared distance of a sample to the nearest of the helper's values. *)
Definition bestDelta2 (h : list Z) (value : Z) : Z :=
  fold_left (fun best helperValue =>
               let d2 := delta2 value helperValue in
               if best >? d2 then d2 else best)
            h maxUint64.

(** [calculate11BlockLoss]: the loop over the samples returns as soon as
    the running loss reaches [bestLossSoFar]. *)
Fixpoint calculate11BlockLossFrom (h : list Z) (pixels : list byte)
    (pixOffset bestLossSoFar : Z) (idxs : list Z) (loss : Z) : Z :=
  match idxs with
  | [] => loss
  | i :: rest =>
    let loss := uint64 (loss + bestDelta2 h (sample16 pixels pixOffset i)) in
    if loss >=? bestLossSoFar then loss
    else calculate11BlockLossFrom h pixels pixOffset bestLossSoFar rest loss
  end.

Definition calculate11BlockLoss (h : list Z) (pixels : list byte)
    (pixOffset bestLossSoFar : Z) : Z :=
  calculate11BlockLossFrom h pixels pixOffset bestLossSoFar (range 16) 0.

(** [for base := range 256 { for mult := range 16 { for table := range 16 *)
Definition candidates11 : list (Z * Z * Z) :=
  flat_map (fun base =>
    flat_map (fun mult =>
      map (fun table => (base, mult, table)) (range 16))
    (range 16))
  (range 256).

(** The search state: bestLoss and (bestBase, bestMult, bestTable). *)
Definition search11Step (pixels : list byte) (pixOffset : Z) (signed : bool)
    (st : Z * (Z * Z * Z)) (c : Z * Z * Z) : Z * (Z * Z * Z) :=
  let '(bestLoss, _) := st in
  let '(base, mult, table) := c in
  let h := fill base mult table signed in
  let loss := calculate11BlockLoss h pixels pixOffset bestLoss in
  if bestLoss >? loss then (loss, c) else st.

Definition search11 (pixels : list byte) (pixOffset : Z) (signed : bool)
  : Z * (Z * Z * Z) :=
  fold_left (search11Step pixels pixOffset signed) candidates11
            (maxUint64, (0, 0, 0)).

(** The index of the helper value nearest to a sample (the first of them). *)
Definition bestJ11 (h : list Z) (value : Z) : Z :=
  fst (fold_left
         (fun (st : Z * Z) (jh : Z * Z) =>
            let '(bestJ, best) := st in
            let '(j, helperValue) := jh in
            let d2 := delta2 value helperValue in
            if best >? d2 then (j, d2) else st)
         (combine (range (length h)) h) (0, maxUint64)).

Definition encode11 (pixels : list byte) (pixOffset : Z) (signed : bool) : Z :=
  let '(_, (bestBase, bestMult, bestTable)) := search11 pixels pixOffset signed in
  let h := fill bestBase bestMult bestTable signed in
  let code :=
    Z.lor (Z.lor (shl64 bestBase (64 - 8)) (shl64 bestMult (56 - 4)))
          (shl64 bestTable (52 - 4)) in
  fold_left
    (fun code i =>
       Z.lor code (shl64 (bestJ11 h (sample16 pixels pixOffset i)) (eacShift i)))
    (range 16) code.

(** The score of a candidate in the words of the specification: for each
    of the sixteen samples the squared distance, in the 16-bit domain, to
    the nearest of the eight values that the candidate reconstructs, and
    the sum of these over the block. *)
Definition sqErr (value : Z) (h : list Z) : Z :=
  match h with
  | [] => 0
  | hv :: rest =>
    fold_left Z.min (map (fun x => (value - x) ^ 2) rest) ((value - hv) ^ 2)
  end.

Definition blockSqErr (pixels : list byte) (pixOffset : Z) (signed : bool)
    (c : Z * Z * Z) : Z :=
  let '(base, mult, table) := c in
  fold_left Z.add
    (map (fun i => sqErr (sample16 pixels pixOffset i) (fill base mult table signed))
         (range 16))
    0.

(* ----------------------------------------------------------------- *)
(** *** The driver of the color block (encodeColor) *)

(** The loss of the decoded block [work] against the source block. *)
Definition calculateBlockLoss (pixels work : list byte)
    (formatIsOneBitAlpha : bool) : Z :=
  fold_left
    (fun (loss : Z) (xy : Z * Z) =>
       let '(x, y) := xy in
       let i := 16 * y + 4 * x in
       if formatIsOneBitAlpha && (at8 pixels (i + 3) <? 0x80) then loss
       else
         let d0 := int32 (at8 pixels (i + 0) - at8 work (i + 0)) in
         let d1 := int32 (at8 pixels (i + 1) - at8 work (i + 1)) in
         let d2 := int32 (at8 pixels (i + 2) - at8 work (i + 2)) in
         int32 (loss + weighted d0 d1 d2))
    xyOrder 0.

Definition hasTransparentPixelsWhenUsingOneBitAlpha (pixels : list byte) : bool :=
  existsb (fun i => at8 pixels (4 * i + 3) <? 0x80) (range 16).

(** A candidate the driver tried: the codeword, the flag it was decoded
    with and the loss of the decoded block. *)
Record candidate : Type := mkCandidate {
  candCode : Z;
  candDecodedAsOneBitAlpha : bool;
  candLoss : Z
}.

(** The driver's state: bestCode, bestLoss, and the candidates tried so far
    (a record of the run; the Go code keeps none). *)
Record search : Type := mkSearch {
  bestCode : Z;
  bestLoss : Z;
  tried : list candidate
}.

(** [decodeColor(&e.work, code, flag); loss := e.calculateBlockLoss(...)] *)
Definition decodedLoss (pixels : list byte) (formatIsOneBitAlpha : bool)
    (code : Z) (flag : bool) : Z :=
  calculateBlockLoss pixels (decodeColor code flag) formatIsOneBitAlpha.

(** The first candidate: [bestCode, bestLoss = codeA, lossA]. *)
Definition firstTry (pixels : list byte) (formatIsOneBitAlpha : bool)
    (code : Z) (flag : bool) : search :=
  let loss := decodedLoss pixels formatIsOneBitAlpha code flag in
  mkSearch code loss [mkCandidate code flag loss].

(** A later candidate: [if bestLoss > loss { bestCode, bestLoss = code, loss }];
    the answer tells whether it became the best. *)
Definition nextTry (pixels : list byte) (formatIsOneBitAlpha : bool)
    (s : search) (code : Z) (flag : bool) : search * bool :=
  let loss := decodedLoss pixels formatIsOneBitAlpha code flag in
  let tried := tried s ++ [mkCandidate code flag loss] in
  if bestLoss s >? loss
  then (mkSearch code loss tried, true)
  else (mkSearch (bestCode s) (bestLoss s) tried, false).

Definition goHarderT : Z := 1.
Definition goHarderH : Z := 2.

(** Planar, T and H, and once more the winner of T and H. *)
Definition encodeColorETC2 (pixels : list byte) (formatIsOneBitAlpha : bool)
    (s : search) : search :=
  let codeP := encodePlanar pixels in
  let '(s, _) := nextTry pixels formatIsOneBitAlpha s codeP false in
  let goHarder := 0 in
  let codeT := encodeT pixels false false in
  let '(s, wonT) := nextTry pixels formatIsOneBitAlpha s codeT false in
  let goHarder := if wonT then goHarderT else goHarder in
  let codeH := encodeH pixels false false in
  let '(s, wonH) := nextTry pixels formatIsOneBitAlpha s codeH false in
  let goHarder := if wonH then goHarderH else goHarder in
  if goHarder =? goHarderT then
    let codeU := encodeT pixels false true in
    fst (nextTry pixels formatIsOneBitAlpha s codeU false)
  else if goHarder =? goHarderH then
    let codeI := encodeH pixels false true in
    fst (nextTry pixels formatIsOneBitAlpha s codeI false)
  else s.

Definition encodeColorSearch (pixels : list byte) (f : Format) : search :=
  let formatIsOneBitAlpha := f =? FormatETC2RGBA1 in
  if formatIsOneBitAlpha then
    let codeA := encodeRGBWithAlpha pixels true in
    let s := firstTry pixels formatIsOneBitAlpha codeA true in
    let codeT := encodeT pixels true false in
    let '(s, _) := nextTry pixels formatIsOneBitAlpha s codeT true in
    let codeH := encodeH pixels true false in
    let '(s, _) := nextTry pixels formatIsOneBitAlpha s codeH true in
    if hasTransparentPixelsWhenUsingOneBitAlpha pixels then s
    else
      let codeB := encodeRGBWithAlpha pixels false in
      let '(s, _) := nextTry pixels formatIsOneBitAlpha s codeB true in
      encodeColorETC2 pixels formatIsOneBitAlpha s
  else
    let codeA := encodeRGBSansAlpha pixels reduceAverage (f =? FormatETC1S) in
    let s := firstTry pixels formatIsOneBitAlpha codeA false in
    if f =? FormatETC1S then s
    else
      let codeQ := encodeRGBSansAlpha pixels reduceQuantize false in
      let '(s, _) := nextTry pixels formatIsOneBitAlpha s codeQ false in
      if negb (Z.land f formatBitsETC2 =? formatBitsETC2) then s
      else encodeColorETC2 pixels formatIsOneBitAlpha s.

Definition encodeColor (pixels : list byte) (f : Format) : Z :=
  bestCode (encodeColorSearch pixels f).

(* ----------------------------------------------------------------- *)
(** *** Encode *)

(** The destination [io.Writer]. Its [Write] is given the calls made so
    far and the bytes of this call, and answers with an error or with
    none. *)
Inductive WriteError : Type := mkWriteError (code : Z).

Definition Writer : Type := list (list byte) -> list byte -> option WriteError.

Inductive error : Type :=
| ErrBadArgument
| ErrBadImageType
| ErrImageIsTooLarge
| ErrWrite (e : WriteError).

Definition encoderBufferSize : Z := 4096 - 64 - 64.

(** [type encoder struct]: the block being encoded and the output buffer
    (the [work] block is the decoder's target inside [encodeColor]). *)
Record encoder : Type := mkEncoder {
  pixels : list byte;
  buf : list byte
}.

(** The state of the loop over the blocks, with the log of the calls of
    [dst.Write]. *)
Record encodeState : Type := mkEncodeState {
  enc : encoder;
  bufJ : Z;
  written : list (list byte)
}.

(** [for v := 0; v < n; v += 4] *)
Definition by4 (n : Z) : list Z :=
  map (fun k => 4 * k) (range (Z.to_nat ((n + 3) / 4))).

(** The block positions (blockX, blockY) in the order of the two loops. *)
Definition blockPositions (bW bH : Z) : list (Z * Z) :=
  flat_map (fun blockY => map (fun blockX => (blockX, blockY)) (by4 bW)) (by4 bH).

(** The body of the loops for one block: extract, encode into the buffer,
    and write the buffer out when it is full. *)
Definition encodeBlock (dst : Writer) (src : Image) (f : Format)
    (st : encodeState) (pos : Z * Z) : encodeState + (list (list byte) * error) :=
  let '(blockX, blockY) := pos in
  let px := extract f src (pixels (enc st)) blockX blockY in
  let '(b, j) :=
    if negb (Z.land f formatBitDepth11 =? 0) then
      let signed := negb (Z.land f formatBitDepth11Signed =? 0) in
      if negb (Z.land f formatBitDepth11TwoChannel =? 0) then
        let b := writeU64BE (buf (enc st)) (bufJ st + 0) (encode11 px 0x00 signed) in
        let b := writeU64BE b (bufJ st + 8) (encode11 px 0x20 signed) in
        (b, bufJ st + 16)
      else
        let b := writeU64BE (buf (enc st)) (bufJ st + 0) (encode11 px 0x00 signed) in
        (b, bufJ st + 8)
    else if f =? FormatETC2RGBA8 then
      let b := writeU64BE (buf (enc st)) (bufJ st + 0) (encodeAlpha px) in
      let b := writeU64BE b (bufJ st + 8) (encodeColor px f) in
      (b, bufJ st + 16)
    else
      let b := writeU64BE (buf (enc st)) (bufJ st) (encodeColor px f) in
      (b, bufJ st + 8) in
  if j >=? encoderBufferSize then
    match dst (written st) b with
    | Some err => inr (written st ++ [b], ErrWrite err)
    | None => inl (mkEncodeState (mkEncoder px b) 0 (written st ++ [b]))
    end
  else inl (mkEncodeState (mkEncoder px b) j (written st)).

Fixpoint encodeBlocks (dst : Writer) (src : Image) (f : Format)
    (st : encodeState) (positions : list (Z * Z))
  : encodeState + (list (list byte) * error) :=
  match positions with
  | [] => inl st
  | pos :: rest =>
    match encodeBlock dst src f st pos with
    | inl st' => encodeBlocks dst src f st' rest
    | inr e => inr e
    end
  end.

(** [Encode] writes src to dst in the ETC format f. The result is the log
    of the calls of [dst.Write] (each with the bytes passed) and the error
    returned, if any. *)
Definition Encode (dst : option Writer) (src : option Image) (f : Format)
  : list (list byte) * option error :=
  match dst, src with
  | Some dst, Some src =>
    if ETCVersion f =? 0 then ([], Some ErrBadArgument)
    else
      let f := andnot f formatBitSRGBColorSpace in
      let b := Bounds src in
      let bW := Dx b in
      let bH := Dy b in
      if (bW >? 65532) || (bH >? 65532) then ([], Some ErrImageIsTooLarge)
      else
        let e := mkEncoder (repeat x00 64)
                           (repeat x00 (Z.to_nat encoderBufferSize)) in
        match encodeBlocks dst src f (mkEncodeState e 0 []) (blockPositions bW bH) with
        | inr (w, err) => (w, Some err)
        | inl st =>
          if bufJ st >? 0 then
            let chunk := firstn (Z.to_nat (bufJ st)) (buf (enc st)) in
            match dst (written st) chunk with
            | Some err => (written st ++ [chunk], Some (ErrWrite err))
            | None => (written st ++ [chunk], None)
            end
          else (written st, None)
        end
  | _, _ => ([], Some ErrBadArgument)
  end.

(** The eight bytes of a codeword, most significant first. *)
Definition codeBytes (x : Z) : list byte :=
  map z2b [Z.shiftr x 56; Z.shiftr x 48; Z.shiftr x 40; Z.shiftr x 32;
           Z.shiftr x 24; Z.shiftr x 16; Z.shiftr x 8; Z.shiftr x 0].

(** The codewords of one block, in the order they are put in the buffer. *)
Definition blockCodes (f : Format) (px : list byte) : list Z :=
  if negb (Z.land f formatBitDepth11 =? 0) then
    let signed := negb (Z.land f formatBitDepth11Signed =? 0) in
    if negb (Z.land f formatBitDepth11TwoChannel =? 0)
    then [encode11 px 0x00 signed; encode11 px 0x20 signed]
    else [encode11 px 0x00 signed]
  else if f =? FormatETC2RGBA8 then [encodeAlpha px; encodeColor px f]
  else [encodeColor px f].

(** The encoded blocks of a run over [positions], each the bytes of its
    codewords, starting with [px] in the pixel buffer. *)
Fixpoint encodedBlocks (src : Image) (f : Format) (px : list byte)
    (positions : list (Z * Z)) : list (list byte) :=
  match positions with
  | [] => []
  | (blockX, blockY) :: rest =>
    let px := extract f src px blockX blockY in
    concat (map codeBytes (blockCodes f px)) :: encodedBlocks src f px rest
  end.

End Encoder.

(** The number of codewords per block of a format (after the sRGB bit is
    stripped): two for the two-channel 11-bit formats and for RGBA8. *)
Definition nCodes (f : Format) : nat :=
  if negb (Z.land f formatBitDepth11 =? 0) then
    if negb (Z.land f formatBitDepth11TwoChannel =? 0) then 2 else 1
  else if f =? FormatETC2RGBA8 then 2
  else 1.

(** A write of the whole buffer. *)
Definition fullChunk (c : list byte) : Prop :=
  length c = Z.to_nat encoderBufferSize.

(** The invariant of the loop over the blocks: the buffer keeps its size,
    it holds a whole number of blocks and is not full, and every write so
    far passed the whole buffer. *)
Definition bufferInv (f : Format) (st : encodeState) : Prop :=
  length (buf (enc st)) = Z.to_nat encoderBufferSize
  /\ (exists k : nat,
        bufJ st = Z.of_nat (8 * nCodes f * k)
        /\ (8 * nCodes f * k < Z.to_nat encoderBufferSize)%nat)
  /\ Forall fullChunk (written st).

(** The shape of the log of a run: whole buffers, and at most one shorter
    write at the end (the final flush). *)
Definition wholeBuffersThenRest (written : list (list byte)) : Prop :=
  exists full rest,
    written = full ++ rest
    /\ Forall fullChunk full
    /\ (rest = []
        \/ exists c, rest = [c]
                     /\ (0 < length c < Z.to_nat encoderBufferSize)%nat).

(** The bytes handed to the sink so far, with those waiting in the buffer. *)
Definition produced (st : encodeState) : list byte :=
  concat (written st) ++ firstn (Z.to_nat (bufJ st)) (buf (enc st)).

(** [NewImage]: the bounds of the image it allocates (the width and the
    height rounded up to a multiple of 4), or the error. *)
Definition NewImage (f : Format) (width height : Z) : Rectangle + error :=
  if (width <? 0) || (width >=? 65536) || (height <? 0) || (height >=? 65536)
  then inr ErrBadArgument
  else
    let r := mkRect 0 0 (andnot (width + 3) 3) (andnot (height + 3) 3) in
    if f =? FormatInvalid then inr ErrBadArgument else inl r.

(* ----------------------------------------------------------------- *)
(** *** The published tables, and sample inputs *)

(** Modelled from the spec: the modifier tables of decode.go, which is not
    part of the sources at hand. The specification names them as the
    format's published tables, to be used bit-exact: the eight tables of
    the Individual and Differential modes, indexed by the pixel index
    (+a, +b, -a, -b), the eight distances of the T and H modes, and the
    sixteen tables of the alpha and 11-bit codewords. *)
Definition publishedModifiers : list (list Z) :=
  [ [2; 8; -2; -8];
    [5; 17; -5; -17];
    [9; 29; -9; -29];
    [13; 42; -13; -42];
    [18; 60; -18; -60];
    [24; 80; -24; -80];
    [33; 106; -33; -106];
    [47; 183; -47; -183] ].

Definition publishedThModifiers : list Z := [3; 6; 11; 16; 23; 32; 41; 64].

Definition publishedAlphaModifiers : list (list Z) :=
  [ [-3; -6; -9; -15; 2; 5; 8; 14];
    [-3; -7; -10; -13; 2; 6; 9; 12];
    [-2; -5; -8; -13; 1; 4; 7; 12];
    [-2; -4; -6; -13; 1; 3; 5; 12];
    [-3; -6; -8; -12; 2; 5; 7; 11];
    [-3; -7; -9; -11; 2; 6; 8; 10];
    [-4; -7; -8; -11; 3; 6; 7; 10];
    [-3; -5; -8; -11; 2; 4; 7; 10];
    [-2; -6; -8; -10; 1; 5; 7; 9];
    [-2; -5; -8; -10; 1; 4; 7; 9];
    [-2; -4; -8; -10; 1; 3; 7; 9];
    [-2; -5; -7; -10; 1; 4; 6; 9];
    [-3; -4; -7; -10; 2; 3; 6; 9];
    [-1; -2; -3; -10; 0; 1; 2; 9];
    [-4; -6; -8; -9; 3; 5; 7; 8];
    [-3; -5; -7; -9; 2; 4; 6; 8] ].

Definition publishedTables : Tables :=
  mkTables (fun table j => uint32 (ix2 publishedModifiers table j))
           (fun which => ix publishedThModifiers which)
           (fun table index => ix2 publishedAlphaModifiers table index).

(** Stand-ins for the parts of the encoder that are parameters above, for
    runs on sample inputs: a decoder that gives a black block, a clustering
    that gives black and white, and a 1-bit-alpha sub-encoder that gives
    the zero codeword. *)
Definition sampleDecodeColor : Z -> bool -> list byte :=
  fun _ _ => repeat x00 64.

Definition sampleClusterfy
  : list byte -> float -> (byte * byte * byte) * (byte * byte * byte) :=
  fun _ _ => ((x00, x00, x00), (xff, xff, xff)).

Definition sampleEncodeRGBWithAlpha : list byte -> bool -> Z :=
  fun _ _ => 0.

(** A sink that takes every write. *)
Definition acceptAll : Writer := fun _ _ => None.

(** An opaque gray [*image.NRGBA] with the bounds r: as the standard
    library has it, the zero color outside of them. *)
Definition grayImageIn (r : Rectangle) : Image :=
  mkImage KindNRGBA r
    (fun x y =>
       if (MinX r <=? x) && (x <? MaxX r) && (MinY r <=? y) && (y <? MaxY r)
       then mkColor 0x80 0x80 0x80 0xFF
       else mkColor 0 0 0 0).

(** The same with the bounds (0, 0)-(w, h). *)
Definition grayImage (w h : Z) : Image := grayImageIn (mkRect 0 0 w h).

(** The alpha codeword of an opaque block as the encoder makes it, and as
    the end-to-end scenario S3 of the specification has it. *)
Definition opaqueAlphaCode : list byte := [xff; x00; x00; x00; x00; x00; x00; x00].
Definition scenarioAlphaCode : list byte := [xff; xff; x00; x00; x00; x00; x00; x00].

(** The bytes that a sink receives for the 16x16 opaque gray image in the
    format ETC2-RGBA8. *)
Definition sampleRGBA8Output : list byte :=
  concat (fst (Encode publishedTables sampleDecodeColor sampleClusterfy
                 sampleEncodeRGBWithAlpha (Some acceptAll)
                 (Some (grayImage 16 16)) FormatETC2RGBA8)).

End etc2.

(* ================================================================= *)
(** ** Package pkm: the PKM container (pkm.go) *)

Module pkm.

(** [Magic] is the byte string prefix of every PKM image file: "PKM ". *)
Definition Magic : list Z := [0x50; 0x4B; 0x4D; 0x20].

(** What a read of the source can fail with: [io.ReadFull] on a reader that
    ends early gives [io.EOF] when no byte was read and
    [io.ErrUnexpectedEOF] after some but not all. *)
Inductive ioError : Type := EOF | ErrUnexpectedEOF.

(** The errors of this package, the errors of the reader, and the errors
    that package etc2 hands back. *)
Inductive error : Type :=
| ErrBadArgument
| ErrNotAPKMFile
| ErrImageIsTooLarge
| ErrIO (e : ioError)
| ErrWrite (e : etc2.WriteError)
| ErrEtc2 (e : etc2.error).

(** The reader is the list of the bytes it will deliver. [ReadFull r n]
    reads exactly [n] bytes and leaves the rest. *)
Definition ReadFull (r : list byte) (n : nat) : (list byte * list byte) + ioError :=
  if (n <=? length r)%nat then inl (firstn n r, skipn n r)
  else match r with
       | [] => inr EOF
       | _ :: _ => inr ErrUnexpectedEOF
       end.

Definition pkmToETC2Formats : list etc2.Format :=
  [ etc2.FormatETC1;            (* 0x00 *)
    etc2.FormatETC2RGB;         (* 0x01 *)
    etc2.FormatInvalid;         (* 0x02 *)
    etc2.FormatETC2RGBA8;       (* 0x03 *)
    etc2.FormatETC2RGBA1;       (* 0x04 *)
    etc2.FormatETC2R11Unsigned; (* 0x05 *)
    etc2.FormatETC2RG11Unsigned;(* 0x06 *)
    etc2.FormatETC2R11Signed;   (* 0x07 *)
    etc2.FormatETC2RG11Signed;  (* 0x08 *)
    etc2.FormatETC2SRGB;        (* 0x09 *)
    etc2.FormatETC2SRGBA8;      (* 0x0A *)
    etc2.FormatETC2SRGBA1 ].    (* 0x0B *)

(** [image.Config] *)
Record Config : Type := mkConfig {
  ConfigColorModel : etc2.ColorModelT;
  Width : Z;
  Height : Z
}.

(** The format named by the byte at offset 7: the table's entry, or the zero
    Format when the byte is past the table. *)
Definition formatOfByte (f : Z) : etc2.Format :=
  if f <? Z.of_nat (length pkmToETC2Formats)
  then nth (Z.to_nat f) pkmToETC2Formats 0
  else 0.

(** [decodeConfig] reads the 16-byte header. It returns the format, the
    configuration and the rest of the reader, or an error. *)
Definition decodeConfig (r : list byte)
  : (etc2.Format * Config * list byte) + error :=
  match ReadFull r 16 with
  | inr e => inr (ErrIO e)
  | inl (buf, rest) =>
    if negb (at8 buf 0 =? nth 0 Magic 0)
       || negb (at8 buf 1 =? nth 1 Magic 0)
       || negb (at8 buf 2 =? nth 2 Magic 0)
       || negb (at8 buf 3 =? nth 3 Magic 0)
       || negb (at8 buf 5 =? 0x30)
       || negb (at8 buf 6 =? 0x00)
    then inr ErrNotAPKMFile
    else if negb ((at8 buf 4 =? 0x31) || (at8 buf 4 =? 0x32))
    then inr ErrNotAPKMFile
    else
      let etcVersion := Z.land (at8 buf 4) 0x03 in
      let retFormat := formatOfByte (at8 buf 7) in
      if negb (etc2.ETCVersion retFormat =? etcVersion)
      then inr ErrNotAPKMFile
      else
        let roundedUpWidth := Z.lor (Z.shiftl (at8 buf 8) 8) (at8 buf 9) in
        let roundedUpHeight := Z.lor (Z.shiftl (at8 buf 10) 8) (at8 buf 11) in
        let width := Z.lor (Z.shiftl (at8 buf 12) 8) (at8 buf 13) in
        let height := Z.lor (Z.shiftl (at8 buf 14) 8) (at8 buf 15) in
        if negb (andnot (uint32 (width + 3)) 3 =? roundedUpWidth)
           || negb (andnot (uint32 (height + 3)) 3 =? roundedUpHeight)
        then inr ErrNotAPKMFile
        else inl (retFormat,
                  mkConfig (etc2.ColorModel retFormat) width height,
                  rest)
  end.

(** The header checks in the words of the format description: the version
    byte is the ASCII digit of the ETC version, the 16-bit fields are
    big-endian, and the padded sizes are the sizes rounded up to a multiple
    of four. *)
Definition be16 (hi lo : Z) : Z := 256 * hi + lo.

Definition roundUp4 (n : Z) : Z := 4 * ((n + 3) / 4).

Definition headerCheckFails (buf : list byte) : Prop :=
  map b2z (firstn 4 buf) <> Magic
  \/ at8 buf 5 <> 0x30
  \/ at8 buf 6 <> 0x00
  \/ (at8 buf 4 <> 0x31 /\ at8 buf 4 <> 0x32)
  \/ etc2.ETCVersion (formatOfByte (at8 buf 7)) <> at8 buf 4 - 0x30
  \/ be16 (at8 buf 8) (at8 buf 9) <> roundUp4 (be16 (at8 buf 12) (at8 buf 13))
  \/ be16 (at8 buf 10) (at8 buf 11) <> roundUp4 (be16 (at8 buf 14) (at8 buf 15)).

(** The reader delivers a 16-byte header on which one of the checks fails. *)
Definition headerRejected (r : list byte) : Prop :=
  exists buf rest,
    r = buf ++ rest /\ length buf = 16%nat /\ headerCheckFails buf.

(** [DecodeConfig] reads a PKM image configuration from r. *)
Definition DecodeConfig (r : list byte) : Config + error :=
  match decodeConfig r with
  | inl (_, config, _) => inl config
  | inr e => inr e
  end.

Section Coders.

Variable T : etc2.Tables.
Variable decodeColor : Z -> bool -> list byte.
Variable clusterfy : list byte -> float -> (byte * byte * byte) * (byte * byte * byte).
Variable encodeRGBWithAlpha : list byte -> bool -> Z.

(** [Format.Decode] of decode.go, which the sources at hand only call: it
    reads the blocks from the rest of the reader into the image and
    returns its error, if any. *)
Variable formatDecode : etc2.Format -> etc2.Rectangle -> list byte -> option etc2.error.

(** [Decode] reads a PKM image from r: the result is the format and the
    configuration of the image decoded, or the error. *)
Definition Decode (r : list byte) : (etc2.Format * Config) + error :=
  match decodeConfig r with
  | inr err => inr err
  | inl (format, config, rest) =>
    match etc2.NewImage format (Width config) (Height config) with
    | inr err => inr (ErrEtc2 err)
    | inl b =>
      match formatDecode format b rest with
      | Some err => inr (ErrEtc2 err)
      | None => inl (format, config)
      end
    end
  end.

(** [Encode] writes src to w in the PKM format. [options] is the Format
    of the options, zero when there is none. The result is the log of the
    calls of [w.Write] and the error returned, if any. *)
Definition Encode (w : etc2.Writer) (src : etc2.Image) (options : etc2.Format)
  : list (list byte) * option error :=
  let b := etc2.Bounds src in
  let bW := etc2.Dx b in
  let bH := etc2.Dy b in
  if (bW >? 65532) || (bH >? 65532) then ([], Some ErrImageIsTooLarge)
  else
    let f := if negb (options =? 0) then options else etc2.FormatETC2RGB in
    let version := etc2.ETCVersion f in
    if version =? 0 then ([], Some ErrBadArgument)
    else
      let roundedUpW := andnot (bW + 3) 3 in
      let roundedUpH := andnot (bH + 3) 3 in
      let buf :=
        map z2b (Magic ++
          [ Z.lor 0x30 (uint8 version); 0x30; 0x00; etc2.PKMFormat f;
            Z.shiftr roundedUpW 8; Z.shiftr roundedUpW 0;
            Z.shiftr roundedUpH 8; Z.shiftr roundedUpH 0;
            Z.shiftr bW 8; Z.shiftr bW 0;
            Z.shiftr bH 8; Z.shiftr bH 0 ]) in
      match w [] buf with
      | Some err => ([buf], Some (ErrWrite err))
      | None =>
        let '(written, err) :=
          etc2.Encode T decodeColor clusterfy encodeRGBWithAlpha
            (Some (fun calls => w (buf :: calls))) (Some src) f in
        (buf :: written, option_map ErrEtc2 err)
      end.

End Coders.

End pkm.

(* ================================================================= *)
(** ** The mode tag of a color codeword, in the words of the specification *)

Module codeword.

(** Bit 33 of a color codeword is the diff bit and bit 32 the flip bit;
    bits 39..37 and 36..34 are the modifier tables of the two halves. *)
Definition diffBit (code : Z) : bool := Z.testbit code 33.
Definition flipBit (code : Z) : bool := Z.testbit code 32.
Definition table0 (code : Z) : Z := Z.land (Z.shiftr code 37) 7.
Definition table1 (code : Z) : Z := Z.land (Z.shiftr code 34) 7.

(** The bytes at bits 63..56, 55..48 and 47..40 are the red, green and
    blue diff channels: a 5-bit base above a 3-bit signed delta. *)
Definition red : Z := 56.
Definition green : Z := 48.
Definition blue : Z := 40.

Definition channelByte (code lo : Z) : Z := Z.land (Z.shiftr code lo) 0xFF.

Definition base5 (byte : Z) : Z := Z.shiftr byte 3.

Definition delta3 (byte : Z) : Z :=
  let d := Z.land byte 7 in
  if d <? 4 then d else d - 8.

(** The 5+3-bit sum overflows when it leaves [0, 31]. *)
Definition overflows8 (byte : Z) : bool :=
  let sum := base5 byte + delta3 byte in
  (sum <? 0) || (31 <? sum).

Definition overflows (code lo : Z) : bool := overflows8 (channelByte code lo).

(** Red overflow is T; green overflow (without red) is H; blue overflow
    (without red and green) is Planar; no overflow is Differential. *)
Definition tagT (code : Z) : bool := overflows code red.

Definition tagH (code : Z) : bool :=
  negb (overflows code red) && overflows code green.

Definition tagPlanar (code : Z) : bool :=
  negb (overflows code red) && negb (overflows code green) && overflows code blue.

Definition noOverflow (code : Z) : bool :=
  negb (overflows code red) && negb (overflows code green)
  && negb (overflows code blue).

(** The 5-bit base of a channel and the base of the second half. *)
Definition base5Of (code lo : Z) : Z := base5 (channelByte code lo).
Definition secondBase5Of (code lo : Z) : Z :=
  base5 (channelByte code lo) + delta3 (channelByte code lo).

End codeword.

(** Checks over an initial segment of the integers, for the finitely many
    values of a byte, a 4-bit color or a sum of eight bytes. *)
Definition allBelow (n : nat) (p : Z -> bool) : bool := forallb p (range n).

(** A cluster of 4-bit colors. *)
Definition cluster4 (c : etc2.Cluster) : Prop :=
  let '((c00, c01, c02), (c10, c11, c12)) := c in
  0 <= c00 < 16 /\ 0 <= c01 < 16 /\ 0 <= c02 < 16
  /\ 0 <= c10 < 16 /\ 0 <= c11 < 16 /\ 0 <= c12 < 16.

(** The value m * 2^e is at most the value g * 2^eg: the two are compared
    as integers, at the lesser of the two exponents. *)
Definition vle (m e g eg : Z) : Prop :=
  m * 2 ^ (e - Z.min e eg) <= g * 2 ^ (eg - Z.min e eg).

(** What a rounding of the float64 specification may add to a mantissa:
    nothing when the mantissa is exact. *)
Definition locIncr (l : location) : Z :=
  match l with loc_Exact => 0 | loc_Inexact _ => 1 end.

(** A number of the specification of float64 that is a zero, or finite and
    in magnitude at most [N * 2 ^ k], with an exponent of at most [E];
    with [pos], not negative. *)
Definition sfLe (pos : bool) (E N k : Z) (x : spec_float) : Prop :=
  match x with
  | S754_zero _ => True
  | S754_finite s m e => (pos = true -> s = false) /\ vle (Z.pos m) e N k /\ e <= E
  | _ => False
  end.

Definition sfLeb (pos : bool) (E N k : Z) (x : spec_float) : bool :=
  match x with
  | S754_zero _ => true
  | S754_finite s m e =>
    (negb pos || negb s)
    && (Z.pos m * 2 ^ (e - Z.min e k) <=? N * 2 ^ (k - Z.min e k))
    && (e <=? E)
  | _ => false
  end.

(** A float64 that is a number, in magnitude at most [N]. *)
Definition f64AbsLe (N : Z) (v : float) : Prop := sfLe false 971 N 0 (Prim2SF v).

(** The entries of [zMatrix] and [cMatrix] are at most 1 in magnitude, with
    exponents that are not positive. *)
Definition unitEntry (v : float) : bool := sfLeb false 0 1 0 (Prim2SF v).

(** A float64 between 0 and 255: what the clamp of [encodePlanar] leaves. *)
Definition clamped (c : float) : Prop := sfLe true 971 255 0 (Prim2SF c).

(** The nine quantized colors of the Planar mode within their 6, 7 and 6
    bits. *)
Definition below (bound v : Z) : bool := (0 <=? v) && (v <? bound).

Definition planarInRange (q : etc2.planar676) : bool :=
  below 64 (etc2.colorOR6 q) && below 128 (etc2.colorOG7 q) && below 64 (etc2.colorOB6 q)
  && below 64 (etc2.colorHR6 q) && below 128 (etc2.colorHG7 q) && below 64 (etc2.colorHB6 q)
  && below 64 (etc2.colorVR6 q) && below 128 (etc2.colorVG7 q) && below 64 (etc2.colorVB6 q).

(** An Individual or Differential codeword: the diff bit is clear, or no
    diff channel overflows. *)
Definition tagID (code : Z) : bool :=
  negb (codeword.diffBit code) || codeword.noOverflow code.

(** An 8-bit color, and the mean of eight bytes whose sum is [s]. *)
Definition rgb8 (c : etc2.RGB) : Prop :=
  let '(c0, c1, c2) := c in 0 <= c0 < 256 /\ 0 <= c1 < 256 /\ 0 <= c2 < 256.

Definition meanOf (s : Z) : float := (etc2.f64 s / 8)%float.

(** A reduction to a base color that gives 8-bit colors on the means of
    bytes. *)
Definition reduceInRange (reduce : etc2.reduceFunc) : Prop :=
  forall s0 s1 s2 p,
    0 <= s0 < 2041 -> 0 <= s1 < 2041 -> 0 <= s2 < 2041 ->
    rgb8 (reduce (meanOf s0, meanOf s1, meanOf s2) p).

(** The means of two halves and of the whole block, for the check that
    [(a + b) / 2] on the means of two halves is the mean of the block. *)
Definition halfMeans : list float := map meanOf (range 2041).
Definition blockMeans : list float :=
  map (fun s => (etc2.f64 s / 16)%float) (range 4081).

Fixpoint sameMeans (a : float) (halves blocks : list float) : bool :=
  match halves, blocks with
  | [], _ => true
  | _ :: _, [] => false
  | b :: halves', m :: blocks' =>
    PrimFloat.Leibniz.eqb ((a + b) / 2)%float m && sameMeans a halves' blocks'
  end.

Fixpoint allSameMeans (firsts blocks : list float) : bool :=
  match firsts with
  | [] => true
  | a :: firsts' => sameMeans a halfMeans blocks && allSameMeans firsts' (tl blocks)
  end.

(** A sample block for ETC1S: the left two columns are the gray 132, the
    right two columns alternate between the grays 212 and 52. Both halves
    have the mean 132; the left half is flat and the right is not. *)
Definition grayPixel (v : Z) : list byte := [z2b v; z2b v; z2b v; xff].

Definition sampleETC1SBlock : list byte :=
  let row1 := grayPixel 132 ++ grayPixel 132 ++ grayPixel 212 ++ grayPixel 52 in
  let row2 := grayPixel 132 ++ grayPixel 132 ++ grayPixel 52 ++ grayPixel 212 in
  row1 ++ row2 ++ row1 ++ row2.

(** The loss of a decoded block in the words of the specification: the
    sum over the pixels of the squared channel differences weighted by
    299, 587 and 114. In the 1-bit-alpha format a transparent source
    pixel (alpha below 0x80) counts for nothing. *)
Definition pixelSqErr (pixels work : list byte) (i : Z) : Z :=
  299 * (at8 pixels (i + 0) - at8 work (i + 0)) ^ 2
  + 587 * (at8 pixels (i + 1) - at8 work (i + 1)) ^ 2
  + 114 * (at8 pixels (i + 2) - at8 work (i + 2)) ^ 2.

Definition countedSqErr (pixels work : list byte) (formatIsOneBitAlpha : bool)
    (i : Z) : Z :=
  if formatIsOneBitAlpha && (at8 pixels (i + 3) <? 0x80) then 0
  else pixelSqErr pixels work i.

Definition decodedBlockLoss (pixels work : list byte) (formatIsOneBitAlpha : bool) : Z :=
  fold_left Z.add
    (map (fun p => countedSqErr pixels work formatIsOneBitAlpha (4 * p)) (range 16)) 0.

(** What holds of the driver's state after each candidate: the best code
    and loss are those of a candidate tried, every candidate tried
    satisfies [P], and no candidate tried has a loss below the best. *)
Definition searchInv (P : etc2.candidate -> Prop) (s : etc2.search) : Prop :=
  (exists c, In c (etc2.tried s)
             /\ etc2.candCode c = etc2.bestCode s
             /\ etc2.candLoss c = etc2.bestLoss s)
  /\ Forall P (etc2.tried s)
  /\ Forall (fun c => etc2.bestLoss s <= etc2.candLoss c) (etc2.tried s).

(** The codewords that the sub-encoders produce for a block. *)
Definition subEncoderCodes (T : etc2.Tables)
    (clusterfy : list byte -> float -> (byte * byte * byte) * (byte * byte * byte))
    (encodeRGBWithAlpha : list byte -> bool -> Z)
    (pixels : list byte) (f : etc2.Format) : list Z :=
  [ encodeRGBWithAlpha pixels true;
    encodeRGBWithAlpha pixels false;
    etc2.encodeRGBSansAlpha T pixels etc2.reduceAverage (f =? etc2.FormatETC1S);
    etc2.encodeRGBSansAlpha T pixels etc2.reduceQuantize false;
    etc2.encodePlanar pixels;
    etc2.encodeT T clusterfy pixels true false;
    etc2.encodeT T clusterfy pixels false false;
    etc2.encodeT T clusterfy pixels false true;
    etc2.encodeH T clusterfy pixels true false;
    etc2.encodeH T clusterfy pixels false false;
    etc2.encodeH T clusterfy pixels false true ].

(** The candidates that the driver produces for a block, in the words of
    the specification: each is a codeword of a sub-encoder with the flag
    it is decoded with, and its loss is the loss of its decoded block. *)
Definition candidateLoss (decodeColor : Z -> bool -> list byte) (pixels : list byte)
    (formatIsOneBitAlpha : bool) (c : Z * bool) : Z :=
  decodedBlockLoss pixels (decodeColor (fst c) (snd c)) formatIsOneBitAlpha.

(** The least loss among a first candidate and the ones after it. *)
Definition leastLoss (loss : Z * bool -> Z) (first : Z * bool) (rest : list (Z * bool))
  : Z :=
  fold_left (fun m c => Z.min m (loss c)) rest (loss first).

(** The candidates of the ETC2 modes, after the candidates [first :: before]:
    Planar, T and H, and once more, with the harder search, the one of T
    and H that was better than all before it (H when both were). *)
Definition etc2Candidates (T : etc2.Tables)
    (clusterfy : list byte -> float -> (byte * byte * byte) * (byte * byte * byte))
    (pixels : list byte) (loss : Z * bool -> Z)
    (first : Z * bool) (before : list (Z * bool)) : list (Z * bool) :=
  let candP := (etc2.encodePlanar pixels, false) in
  let candT := (etc2.encodeT T clusterfy pixels false false, false) in
  let candH := (etc2.encodeH T clusterfy pixels false false, false) in
  let wonT := leastLoss loss first (before ++ [candP]) >? loss candT in
  let wonH := leastLoss loss first (before ++ [candP; candT]) >? loss candH in
  [candP; candT; candH]
  ++ (if wonH then [(etc2.encodeH T clusterfy pixels false true, false)]
      else if wonT then [(etc2.encodeT T clusterfy pixels false true, false)]
      else []).

Definition producedCandidates (T : etc2.Tables)
    (decodeColor : Z -> bool -> list byte)
    (clusterfy : list byte -> float -> (byte * byte * byte) * (byte * byte * byte))
    (encodeRGBWithAlpha : list byte -> bool -> Z)
    (pixels : list byte) (f : etc2.Format) : list (Z * bool) :=
  let loss := candidateLoss decodeColor pixels (f =? etc2.FormatETC2RGBA1) in
  if f =? etc2.FormatETC2RGBA1 then
    let first := (encodeRGBWithAlpha pixels true, true) in
    let transparent := [ (etc2.encodeT T clusterfy pixels true false, true);
                         (etc2.encodeH T clusterfy pixels true false, true) ] in
    if etc2.hasTransparentPixelsWhenUsingOneBitAlpha pixels then first :: transparent
    else
      let before := transparent ++ [(encodeRGBWithAlpha pixels false, true)] in
      first :: before ++ etc2Candidates T clusterfy pixels loss first before
  else
    let first :=
      (etc2.encodeRGBSansAlpha T pixels etc2.reduceAverage (f =? etc2.FormatETC1S),
       false) in
    if f =? etc2.FormatETC1S then [first]
    else
      let before := [(etc2.encodeRGBSansAlpha T pixels etc2.reduceQuantize false, false)] in
      if negb (Z.land f etc2.formatBitsETC2 =? etc2.formatBitsETC2) then first :: before
      else first :: before ++ etc2Candidates T clusterfy pixels loss first before.

(** The codeword of a candidate tried and the flag it was decoded with. *)
Definition candKey (c : etc2.candidate) : Z * bool :=
  (etc2.candCode c, etc2.candDecodedAsOneBitAlpha c).

(* ================================================================= *)
(** ** The named formats *)

(** The formats that etc2.go names (besides [FormatInvalid]). *)
Definition namedFormats : list etc2.Format :=
  [ etc2.FormatETC1S; etc2.FormatETC1;
    etc2.FormatETC2RGB; etc2.FormatETC2RGBA1; etc2.FormatETC2RGBA8;
    etc2.FormatETC2SRGB; etc2.FormatETC2SRGBA1; etc2.FormatETC2SRGBA8;
    etc2.FormatETC2R11Unsigned; etc2.FormatETC2R11Signed;
    etc2.FormatETC2RG11Unsigned; etc2.FormatETC2RG11Signed ].

(** A sample PKM header: ETC2 RGB, 16 by 16. *)
Definition sampleHeader : list byte :=
  map z2b [0x50; 0x4B; 0x4D; 0x20; 0x32; 0x30; 0x00; 0x01;
           0; 16; 0; 16; 0; 16; 0; 16].

(** A log of writes every one of which the sink accepted: [dst.Write]
    returned no error on any call, given the calls before it. *)
Definition acceptedLog (dst : etc2.Writer) (log : list (list byte)) : Prop :=
  forall pre c post, log = pre ++ c :: post -> dst pre c = None.

(** A sink that fails on every write. *)
Definition rejectAll : etc2.Writer := fun _ _ => Some (etc2.mkWriteError 1).

(** The best base alpha and table of the search of [encodeAlpha] within a
    byte. *)
Definition alphaInRange (s : etc2.alphaSearch) : Prop :=
  0 <= etc2.bestAlpha s < 256 /\ 0 <= etc2.bestTable s < 256.

(** Pixel indexes (the 32 bits of a T or H codeword) that give the index
    2 to exactly the pixels whose alpha is below 0x80: pixel i has the
    high bit of its index at [wholeBlockShifts[i] + 16] and the low bit at
    [wholeBlockShifts[i]]. *)
Definition indexesT (pixels : list byte) (idx : Z) : Prop :=
  forall i, 0 <= i < 16 ->
    Z.testbit idx (etc2.ix etc2.wholeBlockShifts i + 16)
    && negb (Z.testbit idx (etc2.ix etc2.wholeBlockShifts i))
    = (at8 pixels (4 * i + 3) <? 0x80).

(** Pixel indexes that give the index [alphaIndex] (2 or 0) to exactly the
    pixels whose alpha is at least 0x80. *)
Definition indexesH (pixels : list byte) (alphaIndex idx : Z) : Prop :=
  forall i, 0 <= i < 16 ->
    (if alphaIndex =? 2
     then Z.testbit idx (etc2.ix etc2.wholeBlockShifts i + 16)
          && negb (Z.testbit idx (etc2.ix etc2.wholeBlockShifts i))
     else negb (Z.testbit idx (etc2.ix etc2.wholeBlockShifts i + 16))
          && negb (Z.testbit idx (etc2.ix etc2.wholeBlockShifts i)))
    = (at8 pixels (4 * i + 3) >=? 0x80).

(** A 4-bit level r whose 8-bit expansion [r * 0x11] is as near to the
    8-bit value v as a level can be. *)
Definition nearest4 (v r : Z) : Prop :=
  0 <= r < 16 /\ -8 <= v - 0x11 * r <= 8.

(** [p] holds of the n integers from lo on. *)
Fixpoint allFrom (n : nat) (lo : Z) (p : Z -> bool) : bool :=
  match n with
  | O => true
  | S n' => p lo && allFrom n' (lo + 1) p
  end.

(* ================================================================= *)
(** * Package etc2: the sub-encoder of the 1-bit-alpha format *)

(** [encodeRGBWithAlpha] of encode.go, which the encoder above takes as a
    parameter: a Differential codeword whose bases are the averages of the
    two half blocks, weighted so that the pixels below the alpha threshold
    hardly count, and whose pixel indexes mark those pixels. *)
Module etc2alpha.

(** [weight := 1.0; if alpha < 0x80 { weight = 0.0001 }]: the constant
    0.0001 as a float64 (the nearest one). *)
Definition transparentWeight : float := 0x1.a36e2eb1c432dp-14%float.

Definition weightOf (pixels : list byte) (i : Z) : float :=
  let alpha := int32 (at8 pixels (4 * i + 3)) in
  if alpha <? 0x80 then transparentWeight else 1%float.

(** The half of the block that the pixel (x, y) lies in. *)
Definition halfOf (flipBit x y : Z) : Z :=
  if flipBit =? 0 then Z.shiftr x 1 else Z.shiftr y 1.

(** The loops over x and y for the channel c. The state is
    ((totalWeights[0], totalWeights[1]), (avgColors[0][c], avgColors[1][c]));
    each product and each sum is rounded to float64 on its own. *)
Definition sumChannel (pixels : list byte) (flipBit c : Z)
  : (float * float) * (float * float) :=
  fold_left
    (fun (st : (float * float) * (float * float)) (xy : Z * Z) =>
       let '((tw0, tw1), (a0, a1)) := st in
       let '(x, y) := xy in
       let i := 4 * y + x in
       let weight := weightOf pixels i in
       let j := halfOf flipBit x y in
       let v := (weight * etc2.f64 (at8 pixels (4 * i + c)))%float in
       if j =? 0
       then (((tw0 + weight)%float, tw1), ((a0 + v)%float, a1))
       else ((tw0, (tw1 + weight)%float), (a0, (a1 + v)%float)))
    etc2.xyOrder ((0%float, 0%float), (0%float, 0%float)).

(** [avgColors[0][c] /= totalWeights[0]] and the same for the half 1. *)
Definition avgChannel (pixels : list byte) (flipBit c : Z) : float * float :=
  let '((tw0, tw1), (a0, a1)) := sumChannel pixels flipBit c in
  ((a0 / tw0)%float, (a1 / tw1)%float).

Definition avgColors (pixels : list byte) (flipBit : Z) : etc2.RGBf * etc2.RGBf :=
  let r := avgChannel pixels flipBit 0 in
  let g := avgChannel pixels flipBit 1 in
  let b := avgChannel pixels flipBit 2 in
  ((fst r, fst g, fst b), (snd r, snd g, snd b)).

(** [max(-4, min(+3, d))] *)
Definition clampDiff (d : Z) : Z := Z.max (-4) (Z.min 3 d).

(** The result is (encColor0, diff, avgColorQuant0, avgColorQuant1): the
    5-bit base of the first half, the 3-bit differences to the base of the
    second half, and the two bases as the decoder expands them. *)
Definition baseColors (pixels : list byte) (flipBit : Z)
  : etc2.RGB * etc2.RGB * etc2.RGB * etc2.RGB :=
  let '(avg0, avg1) := avgColors pixels flipBit in
  let '(q00, q01, q02) := etc2.reduceQuantize avg0 true in
  let '(q10, q11, q12) := etc2.reduceQuantize avg1 true in
  let '(e00, e01, e02) := (Z.shiftr q00 3, Z.shiftr q01 3, Z.shiftr q02 3) in
  let '(e10, e11, e12) := (Z.shiftr q10 3, Z.shiftr q11 3, Z.shiftr q12 3) in
  let d0 := clampDiff (int32 (e10 - e00)) in
  let d1 := clampDiff (int32 (e11 - e01)) in
  let d2 := clampDiff (int32 (e12 - e02)) in
  let '(e10, e11, e12) := (int32 (e00 + d0), int32 (e01 + d1), int32 (e02 + d2)) in
  ((e00, e01, e02), (d0, d1, d2),
   (etc2.expand5 e00, etc2.expand5 e01, etc2.expand5 e02),
   (etc2.expand5 e10, etc2.expand5 e11, etc2.expand5 e12)).

(** The bases, the differences and the opaque bit of the codeword. *)
Definition header (encColor0 diff : etc2.RGB) (isTransparent : bool) : Z :=
  let '(e0, e1, e2) := encColor0 in
  let '(d0, d1, d2) := diff in
  let code :=
    Z.lor (Z.lor (Z.lor (Z.lor (Z.lor (Z.lor 0
      (etc2.shl64 e0 59))
      (etc2.shl64 (Z.land d0 7) 56))
      (etc2.shl64 e1 51))
      (etc2.shl64 (Z.land d1 7) 48))
      (etc2.shl64 e2 43))
      (etc2.shl64 (Z.land d2 7) 40) in
  if negb isTransparent then Z.lor code (etc2.shl64 1 33) else code.

(** [baseCol[c]] *)
Definition chan (color : etc2.RGB) (c : Z) : Z :=
  let '(c0, c1, c2) := color in
  if c =? 0 then c0 else if c =? 1 then c1 else c2.

Section Tables.

Variable T : etc2.Tables.
Variable pixels : list byte.
Variable isTransparent : bool.

(** The squared error of the pixel i with the modifier j of a table. *)
Definition errJ (baseCol : etc2.RGB) (table i j : Z) : Z :=
  fold_left
    (fun (errJ : Z) (c : Z) =>
       let mod_ := int32 (etc2.modifiers T table (etc2.ix etc2.scramble j)) in
       let col := Z.max 0 (Z.min 255 (int32 (chan baseCol c + mod_))) in
       let col := if (j =? 2) && isTransparent then chan baseCol c else col in
       let errCol := int32 (col - int32 (at8 pixels (4 * i + c))) in
       int32 (errJ + int32 (errCol * errCol)))
    (range 3) 0.

(** The loop over j: (bestJ, bestErrJ). *)
Definition bestOf (baseCol : etc2.RGB) (table i : Z) : Z * Z :=
  fold_left
    (fun (st : Z * Z) (j : Z) =>
       if (j =? 1) && isTransparent then st
       else
         let e := errJ baseCol table i j in
         if e <? snd st then (j, e) else st)
    (range 4) (0, etc2.maxInt32).

(** What the body of the loops over x and y finds for the pixel (x, y):
    (half, bestJ, bestErrJ). *)
Definition pixelChoice (flipBit : Z) (avgColorQuant0 avgColorQuant1 : etc2.RGB)
    (table x y : Z) : Z * Z * Z :=
  let i := 4 * y + x in
  let transparentPixel := at8 pixels (4 * i + 3) <? 0x80 in
  let first := ((flipBit =? 0) && (x <? 2)) || ((flipBit =? 1) && (y <? 2)) in
  let half := if first then 0 else 1 in
  let baseCol := if first then avgColorQuant0 else avgColorQuant1 in
  let '(bestJ, bestErrJ) := bestOf baseCol table i in
  let '(bestJ, bestErrJ) := if transparentPixel then (1, 0) else (bestJ, bestErrJ) in
  (half, bestJ, bestErrJ).

End Tables.

(** [[16]int32{}] *)
Definition zeros16 : list Z := repeat 0 16.

(** The loops over x and y for one table:
    ((tabError[0], tabError[1]), pixelIndexesLSB, pixelIndexesMSB). *)
Definition tablePass (choice : Z -> Z -> Z * Z * Z) : (Z * Z) * list Z * list Z :=
  fold_left
    (fun (st : (Z * Z) * list Z * list Z) (xy : Z * Z) =>
       let '((tabError0, tabError1), pixelIndexesLSB, pixelIndexesMSB) := st in
       let '(x, y) := xy in
       let '(half, bestJ, bestErrJ) := choice x y in
       let tabError :=
         if half =? 0 then (int32 (tabError0 + bestErrJ), tabError1)
         else (tabError0, int32 (tabError1 + bestErrJ)) in
       let pixelIndex := int32 (etc2.ix etc2.scramble bestJ) in
       (tabError,
        set_nth (Z.to_nat (4 * x + y)) (Z.land pixelIndex 1) pixelIndexesLSB,
        set_nth (Z.to_nat (4 * x + y)) (Z.shiftr pixelIndex 1) pixelIndexesMSB))
    etc2.xyOrder ((0, 0), zeros16, zeros16).

(** bestError, bestTable, bestIndexesLSB and bestIndexesMSB. *)
Record best : Type := mkBest {
  bestError0 : Z; bestError1 : Z;
  bestTable0 : Z; bestTable1 : Z;
  bestIndexesLSB : list Z; bestIndexesMSB : list Z
}.

(** The loop over i that takes the index bits of one half. *)
Definition copyHalf (flipBit half : Z) (bestIndexes pixelIndexes : list Z) : list Z :=
  fold_left
    (fun (bestIndexes : list Z) (i : Z) =>
       let y := Z.rem i 4 in
       let x := Z.quot i 4 in
       let thisHalf := halfOf flipBit x y in
       if negb (half =? thisHalf) then bestIndexes
       else set_nth (Z.to_nat i) (etc2.ix pixelIndexes i) bestIndexes)
    (range 16) bestIndexes.

(** One round of [for half := range 2]. *)
Definition halfStep (flipBit table : Z) (pass : (Z * Z) * list Z * list Z)
    (b : best) (half : Z) : best :=
  let '((tabError0, tabError1), pixelIndexesLSB, pixelIndexesMSB) := pass in
  let tabError := if half =? 0 then tabError0 else tabError1 in
  let bestError := if half =? 0 then bestError0 b else bestError1 b in
  if tabError >=? bestError then b
  else
    mkBest (if half =? 0 then tabError else bestError0 b)
           (if half =? 0 then bestError1 b else tabError)
           (if half =? 0 then int32 table else bestTable0 b)
           (if half =? 0 then bestTable1 b else int32 table)
           (copyHalf flipBit half (bestIndexesLSB b) pixelIndexesLSB)
           (copyHalf flipBit half (bestIndexesMSB b) pixelIndexesMSB).

(** One round of [for table := range 8]. *)
Definition tableStep (T : etc2.Tables) (pixels : list byte) (isTransparent : bool)
    (flipBit : Z) (avgColorQuant0 avgColorQuant1 : etc2.RGB) (b : best) (table : Z)
  : best :=
  let pass :=
    tablePass (pixelChoice T pixels isTransparent flipBit
                 avgColorQuant0 avgColorQuant1 table) in
  fold_left (halfStep flipBit table pass) (range 2) b.

Definition searchTables (T : etc2.Tables) (pixels : list byte) (isTransparent : bool)
    (flipBit : Z) (avgColorQuant0 avgColorQuant1 : etc2.RGB) : best :=
  fold_left (tableStep T pixels isTransparent flipBit avgColorQuant0 avgColorQuant1)
            (range 8)
            (mkBest etc2.maxInt32 etc2.maxInt32 0 0 zeros16 zeros16).

(** The tables and the index bits, put into the codeword. *)
Definition putBest (code : Z) (b : best) : Z :=
  let code := Z.lor code (etc2.shl64 (bestTable0 b) 37) in
  let code := Z.lor code (etc2.shl64 (bestTable1 b) 34) in
  fold_left
    (fun (code : Z) (i : Z) =>
       let code :=
         Z.lor code (etc2.shl64 (etc2.ix (bestIndexesMSB b) i) (i + 16)) in
       Z.lor code (etc2.shl64 (etc2.ix (bestIndexesLSB b) i) (i + 0)))
    (range 16) code.

(** One round of [for flipBit := range 2]: the codeword without its flip
    bit, and its error. *)
Definition encodeFlip (T : etc2.Tables) (pixels : list byte) (isTransparent : bool)
    (flipBit : Z) : Z * Z :=
  let '(encColor0, diff, avgColorQuant0, avgColorQuant1) := baseColors pixels flipBit in
  let code := header encColor0 diff isTransparent in
  let b := searchTables T pixels isTransparent flipBit avgColorQuant0 avgColorQuant1 in
  (putBest code b, int32 (bestError0 b + bestError1 b)).

Definition encodeRGBWithAlpha (T : etc2.Tables) (pixels : list byte)
    (isTransparent : bool) : Z :=
  let '(normCode, normErr) := encodeFlip T pixels isTransparent 0 in
  let '(code, flipErr) := encodeFlip T pixels isTransparent 1 in
  let flipCode := Z.lor code (etc2.shl64 1 32) in
  if normErr <=? flipErr then normCode else flipCode.

End etc2alpha.

(** A block with four pixels below the alpha threshold. *)
Definition sampleRGBA1Block : list byte :=
  flat_map (fun i => [z2b (17 * i); z2b 3; z2b (255 - i);
                      if i <? 4 then x00 else xff])
           (range 16).

(** The quantized bases of a block are 8-bit colors, for both values of
    the flip bit. *)
Definition basesInRange (pixels : list byte) : Prop :=
  forall flipBit, flipBit = 0 \/ flipBit = 1 ->
    rgb8 (etc2.reduceQuantize (fst (etc2alpha.avgColors pixels flipBit)) true)
    /\ rgb8 (etc2.reduceQuantize (snd (etc2alpha.avgColors pixels flipBit)) true).

(** What the index bits (l the low one, m the high one) of the pixel
    (x, y) have to satisfy: they are bits, and when the block is encoded
    as one with transparent pixels, a pixel at or above the alpha
    threshold does not get the index 2. *)
Definition markOpaque (pixels : list byte) (isTransparent : bool) (x y l m : Z) : Prop :=
  0 <= l < 2 /\ 0 <= m < 2
  /\ (isTransparent = true -> (at8 pixels (4 * (4 * y + x) + 3) <? 0x80) = false ->
      ~ (m = 1 /\ l = 0)).

(** Moreover a pixel below the threshold has the index 2. *)
Definition markAll (pixels : list byte) (isTransparent : bool) (x y l m : Z) : Prop :=
  markOpaque pixels isTransparent x y l m
  /\ ((at8 pixels (4 * (4 * y + x) + 3) <? 0x80) = true -> m = 1 /\ l = 0).

(** The two arrays of index bits hold, for every pixel, bits that
    satisfy Q. *)
Definition marks (Q : Z -> Z -> Z -> Z -> Prop) (lsb msb : list Z) : Prop :=
  length lsb = 16%nat /\ length msb = 16%nat
  /\ forall x y, 0 <= x < 4 -> 0 <= y < 4 ->
       Q x y (etc2.ix lsb (4 * x + y)) (etc2.ix msb (4 * x + y)).

(** The same for the pixels of one half. *)
Definition marksHalf (Q : Z -> Z -> Z -> Z -> Prop) (flipBit half : Z)
    (lsb msb : list Z) : Prop :=
  forall x y, 0 <= x < 4 -> 0 <= y < 4 -> etc2alpha.halfOf flipBit x y = half ->
    Q x y (etc2.ix lsb (4 * x + y)) (etc2.ix msb (4 * x + y)).

(** bestError[half], and what is known of a half once a table has been
    taken for it: its error is below the initial one and its index bits
    satisfy Q. *)
Definition halfError (b : etc2alpha.best) (half : Z) : Z :=
  if half =? 0 then etc2alpha.bestError0 b else etc2alpha.bestError1 b.

Definition goodHalf (Q : Z -> Z -> Z -> Z -> Prop) (flipBit : Z) (b : etc2alpha.best)
    (half : Z) : Prop :=
  halfError b half < etc2.maxInt32
  /\ marksHalf Q flipBit half (etc2alpha.bestIndexesLSB b) (etc2alpha.bestIndexesMSB b).

(** tabError[half] of one table. *)
Definition passError (pass : (Z * Z) * list Z * list Z) (half : Z) : Z :=
  if half =? 0 then fst (fst (fst pass)) else snd (fst (fst pass)).

(** The pixels (x, y) of one half of the block, in the order of the loops,
    and the sum of their bytes of the channel c. *)
Definition halfPixels (flipBit half : Z) : list (Z * Z) :=
  filter (fun xy : Z * Z => etc2alpha.halfOf flipBit (fst xy) (snd xy) =? half)
         etc2.xyOrder.

Definition byteSum (pixels : list byte) (c : Z) (l : list (Z * Z)) : Z :=
  fold_right (fun (xy : Z * Z) acc => at8 pixels (4 * (4 * snd xy + fst xy) + c) + acc)
             0 l.

Definition halfSum (pixels : list byte) (flipBit c half : Z) : Z :=
  byteSum pixels c (halfPixels flipBit half).

(* ================================================================= *)
(** * Properties *)

(** ** Bytes and bit fields *)

Lemma b2z_range (b : byte) : 0 <= b2z b < 256.
Proof.
  unfold b2z. pose proof (Byte.to_N_bounded b). lia.
Qed.

Lemma at8_range (a : list byte) (i : Z) : 0 <= at8 a i < 256.
Proof. apply b2z_range. Qed.

Lemma b2z_z2b (z : Z) : b2z (z2b z) = uint8 z.
Proof.
  unfold z2b, b2z, uint8.
  assert (H : 0 <= z mod 2 ^ 8 < 256) by (apply Z.mod_pos_bound; lia).
  destruct (Byte.of_N (Z.to_N (z mod 2 ^ 8))) as [b|] eqn:E.
  - apply Byte.to_of_N in E. rewrite E. lia.
  - exfalso. revert E.
    assert (Hn : (Z.to_N (z mod 2 ^ 8) < 256)%N) by lia.
    destruct (Byte.of_N (Z.to_N (z mod 2 ^ 8))) eqn:E'; [discriminate|].
    intros _.
    pose proof (Byte.of_N_None_iff (Z.to_N (z mod 2 ^ 8))) as Hi.
    apply Hi in E'. lia.
Qed.

(** Two fields that share no bit are added by [Z.lor]. *)
Lemma lor_shiftl_add (hi lo n : Z) :
  0 <= n -> 0 <= lo < 2 ^ n ->
  Z.lor (Z.shiftl hi n) lo = hi * 2 ^ n + lo.
Proof.
  intros Hn Hlo.
  rewrite <- Z.shiftl_mul_pow2 by assumption.
  rewrite <- Z.add_lor_land.
  replace (Z.land (Z.shiftl hi n) lo) with 0; [lia|].
  symmetry. apply Z.bits_inj'. intros i Hi.
  rewrite Z.land_spec, Z.bits_0.
  destruct (Z.ltb_spec i n).
  - rewrite Z.shiftl_spec_low by assumption. reflexivity.
  - replace lo with (lo mod 2 ^ n) by (apply Z.mod_small; assumption).
    rewrite Z.mod_pow2_bits_high by lia. apply andb_false_r.
Qed.

Lemma andnot3_roundUp4 (w : Z) :
  0 <= w -> andnot (w + 3) 3 = pkm.roundUp4 w.
Proof.
  intros Hw. unfold andnot, pkm.roundUp4.
  change 3 with (Z.ones 2) at 2.
  rewrite Z.ldiff_ones_r by lia.
  rewrite Z.shiftl_mul_pow2, Z.shiftr_div_pow2 by lia.
  change (2 ^ 2) with 4. lia.
Qed.

(** ** The PKM header parser *)

Lemma ReadFull_inl (r buf rest : list byte) (n : nat) :
  pkm.ReadFull r n = inl (buf, rest) <-> r = buf ++ rest /\ length buf = n.
Proof.
  unfold pkm.ReadFull. split.
  - destruct (Nat.leb_spec n (length r)) as [Hle|Hlt].
    + intros H. injection H as <- <-. split.
      * symmetry. apply firstn_skipn.
      * apply firstn_length_le. assumption.
    + destruct r; discriminate.
  - intros [-> <-].
    rewrite length_app.
    destruct (Nat.leb_spec (length buf) (length buf + length rest)) as [_|Hlt]; [|lia].
    rewrite firstn_app, Nat.sub_diag, firstn_all, firstn_O, app_nil_r.
    rewrite skipn_app, Nat.sub_diag, skipn_all. reflexivity.
Qed.

Lemma ReadFull_inr (r : list byte) (n : nat) (e : pkm.ioError) :
  pkm.ReadFull r n = inr e -> (length r < n)%nat.
Proof.
  unfold pkm.ReadFull.
  destruct (Nat.leb_spec n (length r)); [discriminate | intros _; assumption].
Qed.

Lemma list16 {A : Type} (l : list A) :
  length l = 16%nat ->
  exists a0 a1 a2 a3 a4 a5 a6 a7 a8 a9 a10 a11 a12 a13 a14 a15,
    l = [a0; a1; a2; a3; a4; a5; a6; a7; a8; a9; a10; a11; a12; a13; a14; a15].
Proof.
  intros H.
  do 16 (destruct l as [|? l]; [discriminate H|]).
  destruct l; [|discriminate H].
  repeat eexists.
Qed.

Lemma formatOfByte_version (b : Z) :
  0 <= b < 256 -> 0 <= etc2.ETCVersion (pkm.formatOfByte b) <= 2.
Proof.
  intros _. unfold etc2.ETCVersion.
  destruct (_ <? _); [lia|]. destruct (_ <? _); lia.
Qed.

(** The parser's answer on a header that was read in full. *)
Lemma decodeConfig_header (buf rest : list byte) :
  length buf = 16%nat ->
  (pkm.decodeConfig (buf ++ rest) = inr pkm.ErrNotAPKMFile
   <-> pkm.headerCheckFails buf).
Proof.
  intros Hlen. unfold pkm.decodeConfig.
  assert (HR : pkm.ReadFull (buf ++ rest) 16 = inl (buf, rest))
    by (apply ReadFull_inl; auto).
  rewrite HR. clear HR.
  destruct (list16 buf Hlen)
    as (a0 & a1 & a2 & a3 & a4 & a5 & a6 & a7 & a8 & a9 & a10 & a11 & a12
        & a13 & a14 & a15 & ->).
  unfold pkm.headerCheckFails, at8, pkm.Magic, pkm.be16.
  repeat match goal with
  | |- context [nth (Z.to_nat ?k) ?l ?d] =>
      let n := eval vm_compute in (Z.to_nat k) in
      change (nth (Z.to_nat k) l d) with (nth n l d)
  end.
  cbn [nth firstn map].
  pose proof (b2z_range a0). pose proof (b2z_range a1).
  pose proof (b2z_range a2). pose proof (b2z_range a3).
  pose proof (b2z_range a4). pose proof (b2z_range a5).
  pose proof (b2z_range a6). pose proof (b2z_range a7).
  pose proof (b2z_range a8). pose proof (b2z_range a9).
  pose proof (b2z_range a10). pose proof (b2z_range a11).
  pose proof (b2z_range a12). pose proof (b2z_range a13).
  pose proof (b2z_range a14). pose proof (b2z_range a15).
  generalize dependent (b2z a0). generalize dependent (b2z a1).
  generalize dependent (b2z a2). generalize dependent (b2z a3).
  generalize dependent (b2z a4). generalize dependent (b2z a5).
  generalize dependent (b2z a6). generalize dependent (b2z a7).
  generalize dependent (b2z a8). generalize dependent (b2z a9).
  generalize dependent (b2z a10). generalize dependent (b2z a11).
  generalize dependent (b2z a12). generalize dependent (b2z a13).
  generalize dependent (b2z a14). generalize dependent (b2z a15).
  intros h15 ? h14 ? h13 ? h12 ? h11 ? h10 ? h9 ? h8 ? v7 ? v6 ? v5 ? v4 ?
         m3 ? m2 ? m1 ? m0 ?.
  rewrite !lor_shiftl_add by lia.
  unfold uint32.
  rewrite !Z.mod_small by lia.
  rewrite !andnot3_roundUp4 by lia.
  change (2 ^ 8) with 256. rewrite !(Z.mul_comm _ 256).
  destruct (Z.eqb_spec m0 0x50) as [->|N0];
    [|split; [intros _; left; congruence | reflexivity]].
  destruct (Z.eqb_spec m1 0x4B) as [->|N1];
    [|split; [intros _; left; congruence | reflexivity]].
  destruct (Z.eqb_spec m2 0x4D) as [->|N2];
    [|split; [intros _; left; congruence | reflexivity]].
  destruct (Z.eqb_spec m3 0x20) as [->|N3];
    [|split; [intros _; left; congruence | reflexivity]].
  destruct (Z.eqb_spec v5 0x30) as [->|N5];
    [|split; [intros _; right; left; assumption | reflexivity]].
  destruct (Z.eqb_spec v6 0x00) as [->|N6];
    [|split; [intros _; right; right; left; assumption | reflexivity]].
  cbn [negb orb].
  assert (Hv : 0 <= etc2.ETCVersion (pkm.formatOfByte v7) <= 2)
    by (apply formatOfByte_version; assumption).
  destruct (Z.eqb_spec v4 0x31) as [->|N41].
  - cbn [negb orb]. change (Z.land 49 3) with 1. change (49 - 48) with 1.
    destruct (Z.eqb_spec (etc2.ETCVersion (pkm.formatOfByte v7)) 1) as [E|NE];
      [|split; [intros _; do 4 right; left; assumption | reflexivity]].
    cbn [negb].
    destruct (Z.eqb_spec (pkm.roundUp4 (256 * h12 + h13)) (256 * h8 + h9)) as [Ew|NEw];
      [|split; [intros _; do 5 right; left; congruence | reflexivity]].
    destruct (Z.eqb_spec (pkm.roundUp4 (256 * h14 + h15)) (256 * h10 + h11)) as [Eh|NEh];
      [|split; [intros _; do 6 right; congruence | reflexivity]].
    cbn [negb orb]. split; [discriminate|].
    intros [F|[F|[F|[[F _]|[F|[F|F]]]]]]; congruence.
  - destruct (Z.eqb_spec v4 0x32) as [->|N42].
    + cbn [negb orb]. change (Z.land 50 3) with 2. change (50 - 48) with 2.
      destruct (Z.eqb_spec (etc2.ETCVersion (pkm.formatOfByte v7)) 2) as [E|NE];
        [|split; [intros _; do 4 right; left; assumption | reflexivity]].
      cbn [negb].
      destruct (Z.eqb_spec (pkm.roundUp4 (256 * h12 + h13)) (256 * h8 + h9)) as [Ew|NEw];
        [|split; [intros _; do 5 right; left; congruence | reflexivity]].
      destruct (Z.eqb_spec (pkm.roundUp4 (256 * h14 + h15)) (256 * h10 + h11)) as [Eh|NEh];
        [|split; [intros _; do 6 right; congruence | reflexivity]].
      cbn [negb orb]. split; [discriminate|].
      intros [F|[F|[F|[[_ F]|[F|[F|F]]]]]]; congruence.
    + cbn [negb orb]. split; [|reflexivity].
      intros _. do 3 right. left. split; assumption.
Qed.

(** A header is rejected as "not a PKM file" exactly when its 16 bytes were
    read and one of the checks on them fails; a reader that ends before the
    sixteenth byte gives the reader's error instead. *)
Lemma decodeConfig_reject_iff (r : list byte) :
  pkm.decodeConfig r = inr pkm.ErrNotAPKMFile <-> pkm.headerRejected r.
Proof.
  unfold pkm.headerRejected. split.
  - intros H.
    destruct (pkm.ReadFull r 16) as [[buf rest]|e] eqn:E.
    + apply ReadFull_inl in E. destruct E as [-> Hlen].
      exists buf, rest. repeat split; auto.
      apply (decodeConfig_header buf rest Hlen). assumption.
    + unfold pkm.decodeConfig in H. rewrite E in H. discriminate.
  - intros (buf & rest & -> & Hlen & Hf).
    apply (decodeConfig_header buf rest Hlen). assumption.
Qed.

Lemma decodeConfig_short (r : list byte) :
  (length r < 16)%nat ->
  pkm.decodeConfig r
  = inr (pkm.ErrIO (match r with [] => pkm.EOF | _ => pkm.ErrUnexpectedEOF end)).
Proof.
  intros H. unfold pkm.decodeConfig, pkm.ReadFull.
  destruct (Nat.leb_spec 16 (length r)); [lia|].
  destruct r; reflexivity.
Qed.

(** C8. The PKM header parser [decodeConfig], and with it [DecodeConfig]
    and [Decode], returns the error [ErrNotAPKMFile] exactly when the
    16-byte header was read and one of its checks fails: the magic "PKM ",
    the byte 0x30 at offset 5, the byte 0x00 at offset 6, the version byte
    0x31 or 0x32 at offset 4, a format byte at offset 7 that names a format
    of the declared ETC version, and padded sizes that are the sizes
    rounded up to a multiple of four. *)
Theorem pkm_ErrNotAPKMFile_iff (r : list byte) :
  (pkm.decodeConfig r = inr pkm.ErrNotAPKMFile <-> pkm.headerRejected r)
  /\ (pkm.DecodeConfig r = inr pkm.ErrNotAPKMFile <-> pkm.headerRejected r)
  /\ (forall formatDecode,
        pkm.Decode formatDecode r = inr pkm.ErrNotAPKMFile <-> pkm.headerRejected r).
Proof.
  pose proof (decodeConfig_reject_iff r) as H.
  split; [exact H|]. split.
  - rewrite <- H. unfold pkm.DecodeConfig.
    destruct (pkm.decodeConfig r) as [[[f c] rest]|e].
    + split; discriminate.
    + split; intros E; injection E as ->; reflexivity.
  - intros formatDecode. rewrite <- H. unfold pkm.Decode.
    destruct (pkm.decodeConfig r) as [[[f c] rest]|e].
    + destruct (etc2.NewImage f (pkm.Width c) (pkm.Height c)) as [b|e].
      * destruct (formatDecode f b rest); split; discriminate.
      * split; discriminate.
    + split; intros E; injection E as ->; reflexivity.
Qed.

(** C8 as the specification states it fails on a reader that ends before
    the sixteen bytes of the header: for the five bytes 58 58 58 58 31 the
    first of the listed checks fails (the first four bytes are not the
    magic "PKM "), and yet [decodeConfig], [DecodeConfig] and [Decode]
    return the reader's error [io.ErrUnexpectedEOF], not
    [ErrNotAPKMFile]. *)
Lemma pkm_short_reader_is_not_ErrNotAPKMFile :
  map b2z (firstn 4 [x58; x58; x58; x58; x31]) <> pkm.Magic
  /\ pkm.headerCheckFails [x58; x58; x58; x58; x31]
  /\ pkm.decodeConfig [x58; x58; x58; x58; x31] = inr (pkm.ErrIO pkm.ErrUnexpectedEOF)
  /\ pkm.decodeConfig [x58; x58; x58; x58; x31] <> inr pkm.ErrNotAPKMFile
  /\ pkm.DecodeConfig [x58; x58; x58; x58; x31] <> inr pkm.ErrNotAPKMFile
  /\ pkm.Decode (fun _ _ _ => None) [x58; x58; x58; x58; x31] <> inr pkm.ErrNotAPKMFile.
Proof.
  assert (Hm : map b2z (firstn 4 [x58; x58; x58; x58; x31]) <> pkm.Magic)
    by (vm_compute; discriminate).
  split; [exact Hm|]. split; [left; exact Hm|].
  split; [reflexivity|]. repeat split; vm_compute; discriminate.
Qed.

(** ** The output buffer of [Encode] *)

Lemma set_nth_length {A : Type} (n : nat) (v : A) (a : list A) :
  length (set_nth n v a) = length a.
Proof.
  revert n. induction a as [|h t IH]; intros [|n]; simpl; auto.
Qed.

Lemma store8_length (a : list byte) (i v : Z) :
  length (store8 a i v) = length a.
Proof. apply set_nth_length. Qed.

Lemma firstn_set_nth_le {A : Type} (k n : nat) (v : A) (a : list A) :
  (k <= n)%nat -> firstn k (set_nth n v a) = firstn k a.
Proof.
  revert k n. induction a as [|h t IH]; intros [|k] [|n] Hle; simpl; auto; try lia.
  f_equal. apply IH. lia.
Qed.

Lemma firstn_S_set_nth {A : Type} (n : nat) (v : A) (a : list A) :
  (n < length a)%nat -> firstn (S n) (set_nth n v a) = firstn n a ++ [v].
Proof.
  revert n. induction a as [|h t IH]; intros [|n] Hlt; simpl in *; try lia.
  - reflexivity.
  - f_equal. apply IH. lia.
Qed.

Lemma firstn_snoc_store8 (a : list byte) (n : nat) (off v : Z) (l : list byte) :
  off = Z.of_nat n -> (n < length a)%nat ->
  firstn n a = l ->
  firstn (S n) (store8 a off v) = l ++ [z2b v].
Proof.
  intros -> Hlt <-. unfold store8. rewrite Nat2Z.id.
  apply firstn_S_set_nth. assumption.
Qed.

Lemma writeU64BE_length (b : list byte) (off x : Z) :
  length (etc2.writeU64BE b off x) = length b.
Proof.
  unfold etc2.writeU64BE. rewrite !store8_length. reflexivity.
Qed.

Lemma firstn_store8_snoc (a : list byte) (n k : nat) (v : Z) :
  (n + k < length a)%nat ->
  firstn (S (n + k)) (store8 a (Z.of_nat n + Z.of_nat k) v)
  = firstn (n + k) a ++ [z2b v].
Proof.
  intros Hlt. apply firstn_snoc_store8 with (n := (n + k)%nat); auto. lia.
Qed.

Lemma firstn_store8_below (a : list byte) (m n k : nat) (v : Z) :
  (m <= n + k)%nat ->
  firstn m (store8 a (Z.of_nat n + Z.of_nat k) v) = firstn m a.
Proof.
  intros Hle. unfold store8. rewrite <- Nat2Z.inj_add, Nat2Z.id.
  apply firstn_set_nth_le. assumption.
Qed.

(** Writing a codeword at the end of the filled part of the buffer appends
    its eight bytes to that part. *)
Lemma writeU64BE_firstn (b : list byte) (n : nat) (x : Z) :
  (n + 8 <= length b)%nat ->
  firstn (n + 8) (etc2.writeU64BE b (Z.of_nat n) x)
  = firstn n b ++ etc2.codeBytes x.
Proof.
  intros Hlen. unfold etc2.writeU64BE, etc2.codeBytes. cbn [map].
  change 0 with (Z.of_nat 0) at 1. change 1 with (Z.of_nat 1) at 1.
  change 2 with (Z.of_nat 2) at 1. change 3 with (Z.of_nat 3).
  change 4 with (Z.of_nat 4). change 5 with (Z.of_nat 5).
  change 6 with (Z.of_nat 6). change 7 with (Z.of_nat 7).
  replace (n + 8)%nat with (S (n + 7)) by lia.
  rewrite firstn_store8_snoc by (rewrite !store8_length; lia).
  replace (n + 7)%nat with (S (n + 6)) by lia.
  rewrite firstn_store8_snoc by (rewrite !store8_length; lia).
  replace (n + 6)%nat with (S (n + 5)) by lia.
  rewrite firstn_store8_snoc by (rewrite !store8_length; lia).
  replace (n + 5)%nat with (S (n + 4)) by lia.
  rewrite firstn_store8_snoc by (rewrite !store8_length; lia).
  replace (n + 4)%nat with (S (n + 3)) by lia.
  rewrite firstn_store8_snoc by (rewrite !store8_length; lia).
  replace (n + 3)%nat with (S (n + 2)) by lia.
  rewrite firstn_store8_snoc by (rewrite !store8_length; lia).
  replace (n + 2)%nat with (S (n + 1)) by lia.
  rewrite firstn_store8_snoc by (rewrite !store8_length; lia).
  replace (n + 1)%nat with (S (n + 0)) by lia.
  rewrite firstn_store8_snoc by lia.
  rewrite Nat.add_0_r, <- !app_assoc. reflexivity.
Qed.

Section EncodeProps.

Variable T : etc2.Tables.
Variable decodeColor : Z -> bool -> list byte.
Variable clusterfy : list byte -> float -> (byte * byte * byte) * (byte * byte * byte).
Variable encodeRGBWithAlpha : list byte -> bool -> Z.

Let blockCodes := etc2.blockCodes T decodeColor clusterfy encodeRGBWithAlpha.
Let encodeBlock := etc2.encodeBlock T decodeColor clusterfy encodeRGBWithAlpha.
Let encodeBlocks := etc2.encodeBlocks T decodeColor clusterfy encodeRGBWithAlpha.
Let encodedBlocks := etc2.encodedBlocks T decodeColor clusterfy encodeRGBWithAlpha.
Let Encode := etc2.Encode T decodeColor clusterfy encodeRGBWithAlpha.

Lemma blockCodes_length (f : etc2.Format) (px : list byte) :
  length (blockCodes f px) = etc2.nCodes f.
Proof.
  unfold blockCodes, etc2.blockCodes, etc2.nCodes.
  destruct (negb (Z.land f etc2.formatBitDepth11 =? 0)).
  - destruct (negb (Z.land f etc2.formatBitDepth11TwoChannel =? 0)); reflexivity.
  - destruct (f =? etc2.FormatETC2RGBA8); reflexivity.
Qed.

Lemma nCodes_cases (f : etc2.Format) : etc2.nCodes f = 1%nat \/ etc2.nCodes f = 2%nat.
Proof.
  unfold etc2.nCodes.
  destruct (negb _); [destruct (negb _) | destruct (_ =? _)]; auto.
Qed.

Lemma codeBytes_length (x : Z) : length (etc2.codeBytes x) = 8%nat.
Proof. reflexivity. Qed.

Lemma blockBytes_length (f : etc2.Format) (px : list byte) :
  length (concat (map etc2.codeBytes (blockCodes f px))) = (8 * etc2.nCodes f)%nat.
Proof.
  pose proof (blockCodes_length f px) as H.
  destruct (blockCodes f px) as [|c1 [|c2 [|c3 l]]]; simpl in *;
    destruct (nCodes_cases f) as [E|E]; rewrite E in *; try discriminate; reflexivity.
Qed.

(** The buffer after the codewords of a block are put at [n]: it keeps its
    size and its first [n] bytes, and the bytes of the block follow. *)
Lemma put_block (f : etc2.Format) (px b : list byte) (n : nat) :
  (n + 8 * etc2.nCodes f <= length b)%nat ->
  exists b',
    (if negb (Z.land f etc2.formatBitDepth11 =? 0) then
       let signed := negb (Z.land f etc2.formatBitDepth11Signed =? 0) in
       if negb (Z.land f etc2.formatBitDepth11TwoChannel =? 0) then
         let b1 := etc2.writeU64BE b (Z.of_nat n + 0) (etc2.encode11 T px 0x00 signed) in
         let b2 := etc2.writeU64BE b1 (Z.of_nat n + 8) (etc2.encode11 T px 0x20 signed) in
         (b2, Z.of_nat n + 16)
       else
         let b1 := etc2.writeU64BE b (Z.of_nat n + 0) (etc2.encode11 T px 0x00 signed) in
         (b1, Z.of_nat n + 8)
     else if f =? etc2.FormatETC2RGBA8 then
       let b1 := etc2.writeU64BE b (Z.of_nat n + 0) (etc2.encodeAlpha T px) in
       let b2 := etc2.writeU64BE b1 (Z.of_nat n + 8)
                   (etc2.encodeColor T decodeColor clusterfy encodeRGBWithAlpha px f) in
       (b2, Z.of_nat n + 16)
     else
       let b1 := etc2.writeU64BE b (Z.of_nat n)
                   (etc2.encodeColor T decodeColor clusterfy encodeRGBWithAlpha px f) in
       (b1, Z.of_nat n + 8))
    = (b', Z.of_nat (n + 8 * etc2.nCodes f))
    /\ length b' = length b
    /\ firstn (n + 8 * etc2.nCodes f) b'
       = firstn n b ++ concat (map etc2.codeBytes (blockCodes f px)).
Proof.
  intros Hlen.
  assert (two : forall c1 c2,
             (n + 16 <= length b)%nat ->
             firstn (n + 16)
               (etc2.writeU64BE (etc2.writeU64BE b (Z.of_nat n + 0) c1) (Z.of_nat n + 8) c2)
             = firstn n b ++ concat (map etc2.codeBytes [c1; c2])).
  { intros c1 c2 H16. cbn [map concat]. rewrite app_nil_r, app_assoc.
    rewrite Z.add_0_r.
    replace (Z.of_nat n + 8) with (Z.of_nat (n + 8)) by lia.
    replace (n + 16)%nat with ((n + 8) + 8)%nat by lia.
    rewrite writeU64BE_firstn by (rewrite writeU64BE_length; lia).
    rewrite writeU64BE_firstn by lia. reflexivity. }
  assert (one : forall c1,
             (n + 8 <= length b)%nat ->
             firstn (n + 8) (etc2.writeU64BE b (Z.of_nat n) c1)
             = firstn n b ++ concat (map etc2.codeBytes [c1])).
  { intros c1 H8. cbn [map concat]. rewrite app_nil_r.
    apply writeU64BE_firstn. assumption. }
  unfold blockCodes, etc2.blockCodes, etc2.nCodes in *.
  destruct (negb (Z.land f etc2.formatBitDepth11 =? 0)).
  - destruct (negb (Z.land f etc2.formatBitDepth11TwoChannel =? 0)); cbv zeta.
    + eexists. split; [f_equal; lia|]. split.
      * rewrite !writeU64BE_length. reflexivity.
      * apply two. lia.
    + eexists. split; [f_equal; lia|]. split.
      * rewrite !writeU64BE_length. reflexivity.
      * rewrite Z.add_0_r. apply one. lia.
  - destruct (f =? etc2.FormatETC2RGBA8); cbv zeta.
    + eexists. split; [f_equal; lia|]. split.
      * rewrite !writeU64BE_length. reflexivity.
      * apply two. lia.
    + eexists. split; [f_equal; lia|]. split.
      * rewrite !writeU64BE_length. reflexivity.
      * apply one. lia.
Qed.

Lemma bufferSize_nat : Z.to_nat etc2.encoderBufferSize = 3968%nat.
Proof. reflexivity. Qed.

Lemma encodeBlock_inv (dst : etc2.Writer) (src : etc2.Image) (f : etc2.Format)
    (st : etc2.encodeState) (pos : Z * Z) :
  etc2.bufferInv f st ->
  match encodeBlock dst src f st pos with
  | inl st' =>
    etc2.bufferInv f st'
    /\ etc2.pixels (etc2.enc st')
       = etc2.extract f src (etc2.pixels (etc2.enc st)) (fst pos) (snd pos)
    /\ etc2.produced st'
       = etc2.produced st
         ++ concat (map etc2.codeBytes (blockCodes f (etc2.pixels (etc2.enc st'))))
  | inr (w, e) =>
    (exists we, e = etc2.ErrWrite we)
    /\ exists c, w = etc2.written st ++ [c] /\ etc2.fullChunk c
  end.
Proof.
  intros (Hlen & (k & Hj & Hk) & Hw).
  unfold encodeBlock, etc2.encodeBlock. destruct pos as [blockX blockY].
  rewrite Hj. cbv zeta.
  set (px := etc2.extract f src (etc2.pixels (etc2.enc st)) blockX blockY).
  set (n := (8 * etc2.nCodes f * k)%nat) in *.
  rewrite bufferSize_nat in *.
  assert (Hfit : (n + 8 * etc2.nCodes f <= 3968)%nat).
  { unfold n in *. destruct (nCodes_cases f) as [E|E]; rewrite E in *; lia. }
  destruct (put_block f px (etc2.buf (etc2.enc st)) n) as (b' & E & Lb & Fb); [lia|].
  cbv zeta in E. rewrite E. clear E.
  unfold etc2.encoderBufferSize. change (4096 - 64 - 64) with 3968.
  rewrite Z.geb_leb.
  destruct (Z.leb_spec 3968 (Z.of_nat (n + 8 * etc2.nCodes f))) as [Hfull|Hnot].
  - assert (Hn : (n + 8 * etc2.nCodes f = 3968)%nat) by lia.
    assert (Hb' : b' = firstn n (etc2.buf (etc2.enc st))
                       ++ concat (map etc2.codeBytes (blockCodes f px))).
    { rewrite <- Fb. symmetry. apply firstn_all2. lia. }
    destruct (dst (etc2.written st) b') as [err|].
    + split; [eexists; reflexivity|]. exists b'. split; [reflexivity|].
      unfold etc2.fullChunk. rewrite bufferSize_nat. lia.
    + cbn [fst snd]. split; [|split].
      * unfold etc2.bufferInv. cbn [etc2.enc etc2.buf etc2.bufJ etc2.written].
        rewrite bufferSize_nat. split; [lia|]. split.
        -- exists 0%nat. split; lia.
        -- apply Forall_app. split; [assumption|]. constructor; [|constructor].
           unfold etc2.fullChunk. rewrite bufferSize_nat. lia.
      * reflexivity.
      * unfold etc2.produced. cbn [etc2.enc etc2.buf etc2.bufJ etc2.written etc2.pixels].
        rewrite Hj. fold n. rewrite Nat2Z.id.
        rewrite concat_app. cbn [concat Z.to_nat firstn].
        rewrite !app_nil_r. rewrite Hb' at 1. rewrite <- app_assoc. reflexivity.
  - cbn [fst snd]. split; [|split].
    + unfold etc2.bufferInv. cbn [etc2.enc etc2.buf etc2.bufJ etc2.written].
      rewrite bufferSize_nat. split; [lia|]. split; [|assumption].
      exists (S k). fold n. split; [f_equal; unfold n; lia | unfold n in *; lia].
    + reflexivity.
    + unfold etc2.produced. cbn [etc2.enc etc2.buf etc2.bufJ etc2.written etc2.pixels].
      rewrite Hj. fold n. rewrite !Nat2Z.id. rewrite Fb.
      rewrite <- app_assoc. reflexivity.
Qed.

(** The loop over the blocks: on success the invariant holds at the end and
    the bytes produced are those of the blocks in order; an error is the
    sink's, and every write before it passed the whole buffer. *)
Lemma encodeBlocks_inv (dst : etc2.Writer) (src : etc2.Image) (f : etc2.Format)
    (positions : list (Z * Z)) (st : etc2.encodeState) :
  etc2.bufferInv f st ->
  match encodeBlocks dst src f st positions with
  | inl st' =>
    etc2.bufferInv f st'
    /\ etc2.produced st'
       = etc2.produced st
         ++ concat (encodedBlocks src f (etc2.pixels (etc2.enc st)) positions)
  | inr (w, e) =>
    (exists we, e = etc2.ErrWrite we) /\ Forall etc2.fullChunk w
  end.
Proof.
  revert st. induction positions as [|pos rest IH]; intros st Hinv.
  - cbn. split; [assumption|]. rewrite app_nil_r. reflexivity.
  - cbn [encodeBlocks etc2.encodeBlocks].
    pose proof (encodeBlock_inv dst src f st pos Hinv) as Hb.
    fold encodeBlock.
    destruct (encodeBlock dst src f st pos) as [st'|[w e]].
    + destruct Hb as (Hinv' & Hpx & Hprod).
      specialize (IH st' Hinv'). fold encodeBlocks.
      destruct (encodeBlocks dst src f st' rest) as [st''|[w e]].
      * destruct IH as (Hinv'' & Hprod''). split; [assumption|].
        rewrite Hprod'', Hprod. destruct pos as [blockX blockY].
        cbn [encodedBlocks etc2.encodedBlocks concat fst snd] in *.
        rewrite Hpx. rewrite <- !app_assoc. reflexivity.
      * exact IH.
    + destruct Hb as (He & c & -> & Hc). split; [assumption|].
      destruct Hinv as (_ & _ & Hw).
      apply Forall_app. split; [assumption|]. constructor; [assumption|constructor].
Qed.

Lemma initial_bufferInv (f : etc2.Format) (px : list byte) :
  etc2.bufferInv f
    (etc2.mkEncodeState
       (etc2.mkEncoder px (repeat x00 (Z.to_nat etc2.encoderBufferSize))) 0 []).
Proof.
  unfold etc2.bufferInv. cbn [etc2.enc etc2.buf etc2.bufJ etc2.written].
  split; [apply repeat_length|]. split; [|constructor].
  exists 0%nat. rewrite bufferSize_nat. split; lia.
Qed.

(** With a sink that takes every write, the loop over the blocks ends
    without an error. *)
Lemma encodeBlocks_ok (dst : etc2.Writer) (src : etc2.Image) (f : etc2.Format)
    (positions : list (Z * Z)) (st : etc2.encodeState) :
  (forall calls chunk, dst calls chunk = None) ->
  exists st', encodeBlocks dst src f st positions = inl st'.
Proof.
  intros Hdst. revert st. induction positions as [|pos rest IH]; intros st.
  - eexists. reflexivity.
  - cbn [encodeBlocks etc2.encodeBlocks].
    assert (H : exists st', etc2.encodeBlock T decodeColor clusterfy
                              encodeRGBWithAlpha dst src f st pos = inl st').
    { unfold etc2.encodeBlock. destruct pos as [blockX blockY]. cbv zeta.
      match goal with
      | |- context [let '(b, j) := ?e in _] => destruct e as [b j]
      end.
      destruct (j >=? etc2.encoderBufferSize); [rewrite Hdst|]; eexists; reflexivity. }
    destruct H as [st' ->]. apply IH.
Qed.

Lemma Encode_success (dst : etc2.Writer) (src : etc2.Image) (f : etc2.Format)
    (written : list (list byte)) :
  Encode (Some dst) (Some src) f = (written, None) ->
  etc2.wholeBuffersThenRest written
  /\ concat written
     = concat (encodedBlocks src (andnot f etc2.formatBitSRGBColorSpace)
                 (repeat x00 64)
                 (etc2.blockPositions (etc2.Dx (etc2.Bounds src))
                                      (etc2.Dy (etc2.Bounds src)))).
Proof.
  unfold Encode, etc2.Encode.
  destruct (etc2.ETCVersion f =? 0); [discriminate|].
  destruct (_ || _); [discriminate|].
  set (f' := andnot f etc2.formatBitSRGBColorSpace).
  set (st0 := etc2.mkEncodeState _ 0 []).
  set (positions := etc2.blockPositions _ _).
  pose proof (encodeBlocks_inv dst src f' positions st0 (initial_bufferInv f' _)) as H.
  fold encodeBlocks.
  destruct (encodeBlocks dst src f' st0 positions) as [st|[w e]]; [|discriminate].
  destruct H as ((Hlen & (k & Hj & Hk) & Hw) & Hprod).
  unfold etc2.produced in Hprod. cbn [etc2.written st0 concat app] in Hprod.
  replace (firstn (Z.to_nat (etc2.bufJ st0)) (etc2.buf (etc2.enc st0))) with (@nil byte)
    in Hprod by reflexivity.
  cbn [app] in Hprod. cbn [etc2.pixels etc2.enc st0] in Hprod.
  destruct (Z.gtb_spec (etc2.bufJ st) 0) as [Hpos|Hzero].
  - set (chunk := firstn _ _) in *.
    destruct (dst (etc2.written st) chunk); [discriminate|].
    intros E. injection E as <-. split.
    + exists (etc2.written st), [chunk]. split; [reflexivity|]. split; [assumption|].
      right. exists chunk. split; [reflexivity|].
      unfold chunk. rewrite firstn_length_le by lia. lia.
    + rewrite concat_app. cbn [concat]. rewrite app_nil_r. exact Hprod.
  - intros E. injection E as <-. split.
    + exists (etc2.written st), []. rewrite app_nil_r. auto.
    + rewrite <- Hprod. replace (etc2.bufJ st) with 0 by lia.
      cbn [Z.to_nat firstn]. rewrite app_nil_r. reflexivity.
Qed.

(** The errors of the argument checks come before any write, and an error
    of the loop is the sink's. *)
Lemma Encode_error (dst : option etc2.Writer) (src : option etc2.Image)
    (f : etc2.Format) (written : list (list byte)) (err : etc2.error) :
  Encode dst src f = (written, Some err) ->
  match err with
  | etc2.ErrBadArgument =>
    written = [] /\ (dst = None \/ src = None \/ etc2.ETCVersion f = 0)
  | etc2.ErrImageIsTooLarge =>
    written = []
    /\ exists s, src = Some s
         /\ (etc2.Dx (etc2.Bounds s) > 65532 \/ etc2.Dy (etc2.Bounds s) > 65532)
  | etc2.ErrBadImageType => False
  | etc2.ErrWrite _ => dst <> None /\ src <> None
  end.
Proof.
  unfold Encode, etc2.Encode.
  destruct dst as [dst|]; [|intros E; injection E as <- <-; auto].
  destruct src as [src|]; [|intros E; injection E as <- <-; auto].
  destruct (Z.eqb_spec (etc2.ETCVersion f) 0) as [Hv|Hv];
    [intros E; injection E as <- <-; auto|].
  destruct (Z.gtb_spec (etc2.Dx (etc2.Bounds src)) 65532) as [Hw|Hw].
  { cbn [orb]. intros E. injection E as <- <-. split; [reflexivity|].
    exists src. split; [reflexivity|]. lia. }
  destruct (Z.gtb_spec (etc2.Dy (etc2.Bounds src)) 65532) as [Hh|Hh].
  { cbn [orb]. intros E. injection E as <- <-. split; [reflexivity|].
    exists src. split; [reflexivity|]. lia. }
  cbn [orb].
  set (f' := andnot f etc2.formatBitSRGBColorSpace).
  set (st0 := etc2.mkEncodeState _ 0 []).
  set (positions := etc2.blockPositions _ _).
  pose proof (encodeBlocks_inv dst src f' positions st0 (initial_bufferInv f' _)) as H.
  fold encodeBlocks.
  destruct (encodeBlocks dst src f' st0 positions) as [st|[w e]].
  - destruct (etc2.bufJ st >? 0); [|discriminate].
    destruct (dst _ _); [|discriminate].
    intros E. injection E as <- <-. split; discriminate.
  - destruct H as ((we & ->) & Hw'). intros E. injection E as <- <-.
    split; discriminate.
Qed.

Lemma Encode_ok (dst : etc2.Writer) (src : etc2.Image) (f : etc2.Format) :
  (forall calls chunk, dst calls chunk = None) ->
  etc2.ETCVersion f <> 0 ->
  etc2.Dx (etc2.Bounds src) <= 65532 ->
  etc2.Dy (etc2.Bounds src) <= 65532 ->
  exists written, Encode (Some dst) (Some src) f = (written, None).
Proof.
  intros Hdst Hv Hw Hh. unfold Encode, etc2.Encode.
  destruct (Z.eqb_spec (etc2.ETCVersion f) 0); [contradiction|].
  destruct (Z.gtb_spec (etc2.Dx (etc2.Bounds src)) 65532); [lia|].
  destruct (Z.gtb_spec (etc2.Dy (etc2.Bounds src)) 65532); [lia|].
  cbn [orb].
  match goal with
  | |- context [etc2.encodeBlocks _ _ _ _ ?d ?s ?g ?st ?ps] =>
      destruct (encodeBlocks_ok d s g ps st Hdst) as [st' E]
  end.
  unfold encodeBlocks in E. rewrite E.
  destruct (etc2.bufJ st' >? 0); [rewrite Hdst|]; eexists; reflexivity.
Qed.

Lemma encodedBlocks_length (src : etc2.Image) (f : etc2.Format)
    (positions : list (Z * Z)) (px : list byte) :
  length (concat (encodedBlocks src f px positions))
  = (8 * etc2.nCodes f * length positions)%nat.
Proof.
  revert px. induction positions as [|[blockX blockY] rest IH]; intros px.
  - cbn. lia.
  - cbn [encodedBlocks etc2.encodedBlocks concat length].
    rewrite length_app. fold encodedBlocks. rewrite IH.
    fold blockCodes. rewrite blockBytes_length. lia.
Qed.

Lemma encodedBlocks_count (src : etc2.Image) (f : etc2.Format)
    (positions : list (Z * Z)) (px : list byte) :
  length (encodedBlocks src f px positions) = length positions.
Proof.
  revert px. induction positions as [|[blockX blockY] rest IH]; intros px.
  - reflexivity.
  - cbn [encodedBlocks etc2.encodedBlocks length]. fold encodedBlocks.
    rewrite IH. reflexivity.
Qed.

End EncodeProps.

Lemma concat_fullChunks_length (l : list (list byte)) :
  Forall etc2.fullChunk l -> length (concat l) = (3968 * length l)%nat.
Proof.
  induction 1 as [|c l Hc _ IH]; [reflexivity|].
  cbn [concat length]. rewrite length_app, IH.
  unfold etc2.fullChunk in Hc. rewrite Hc. change (Z.to_nat etc2.encoderBufferSize) with 3968%nat.
  lia.
Qed.

(** ** The argument checks of [Encode] *)

(** The checks reject what they name. *)
Lemma Encode_rejects T decodeColor clusterfy encodeRGBWithAlpha
    (dst : option etc2.Writer) (src : option etc2.Image) (f : etc2.Format) :
  (dst = None \/ src = None \/ etc2.ETCVersion f = 0 ->
   etc2.Encode T decodeColor clusterfy encodeRGBWithAlpha dst src f
   = ([], Some etc2.ErrBadArgument))
  /\ (forall d s,
        dst = Some d -> src = Some s -> etc2.ETCVersion f <> 0 ->
        etc2.Dx (etc2.Bounds s) > 65532 \/ etc2.Dy (etc2.Bounds s) > 65532 ->
        etc2.Encode T decodeColor clusterfy encodeRGBWithAlpha dst src f
        = ([], Some etc2.ErrImageIsTooLarge)).
Proof.
  unfold etc2.Encode. split.
  - intros [->|[->|Hv]].
    + reflexivity.
    + destruct dst; reflexivity.
    + destruct dst; [|reflexivity]. destruct src; [|reflexivity].
      rewrite Hv. reflexivity.
  - intros d s -> -> Hv Hbig.
    destruct (Z.eqb_spec (etc2.ETCVersion f) 0); [contradiction|].
    destruct Hbig as [Hw|Hh].
    + destruct (Z.gtb_spec (etc2.Dx (etc2.Bounds s)) 65532); [reflexivity|lia].
    + destruct (Z.gtb_spec (etc2.Dy (etc2.Bounds s)) 65532); [|lia].
      rewrite orb_true_r. reflexivity.
Qed.

(** C10. When [Encode] returns ErrBadArgument (the writer or the image is
    nil, or the Format has ETC version 0) or ErrImageIsTooLarge (the width
    or the height is above 65532), no call of the writer was made: the log
    of the writes is empty. *)
Theorem Encode_argument_errors_write_nothing T decodeColor clusterfy
    encodeRGBWithAlpha (dst : option etc2.Writer) (src : option etc2.Image)
    (f : etc2.Format) (written : list (list byte)) (err : etc2.error) :
  etc2.Encode T decodeColor clusterfy encodeRGBWithAlpha dst src f
  = (written, Some err) ->
  err = etc2.ErrBadArgument \/ err = etc2.ErrImageIsTooLarge ->
  written = []
  /\ (err = etc2.ErrBadArgument ->
      dst = None \/ src = None \/ etc2.ETCVersion f = 0)
  /\ (err = etc2.ErrImageIsTooLarge ->
      exists s, src = Some s
        /\ (etc2.Dx (etc2.Bounds s) > 65532 \/ etc2.Dy (etc2.Bounds s) > 65532)).
Proof.
  intros E Herr.
  pose proof (Encode_error T decodeColor clusterfy encodeRGBWithAlpha
                dst src f written err E) as H.
  destruct Herr as [-> | ->]; destruct H as [Hw H]; repeat split; auto; discriminate.
Qed.

(** An image 65533 pixels wide is rejected before the sink sees a byte. *)
Lemma Encode_argument_errors_witness :
  etc2.Encode etc2.publishedTables etc2.sampleDecodeColor etc2.sampleClusterfy
    etc2.sampleEncodeRGBWithAlpha (Some etc2.acceptAll)
    (Some (etc2.grayImage 65533 4)) etc2.FormatETC1
  = ([], Some etc2.ErrImageIsTooLarge)
  /\ @nil (list byte) = []
  /\ (exists s, Some (etc2.grayImage 65533 4) = Some s
        /\ (etc2.Dx (etc2.Bounds s) > 65532 \/ etc2.Dy (etc2.Bounds s) > 65532)).
Proof.
  assert (E : etc2.Encode etc2.publishedTables etc2.sampleDecodeColor
                etc2.sampleClusterfy etc2.sampleEncodeRGBWithAlpha
                (Some etc2.acceptAll) (Some (etc2.grayImage 65533 4))
                etc2.FormatETC1
              = ([], Some etc2.ErrImageIsTooLarge)) by reflexivity.
  split; [exact E|].
  destruct (Encode_argument_errors_write_nothing _ _ _ _ _ _ _ _ _ E
              (or_intror eq_refl)) as (Hw & _ & Hbig).
  split; [exact Hw | exact (Hbig eq_refl)].
Defined.

(** The same for the container's [Encode]: its own two errors come before
    the header is written. *)
Lemma pkm_Encode_errors_write_nothing T decodeColor clusterfy encodeRGBWithAlpha
    (w : etc2.Writer) (src : etc2.Image) (options : etc2.Format)
    (written : list (list byte)) (err : pkm.error) :
  pkm.Encode T decodeColor clusterfy encodeRGBWithAlpha w src options
  = (written, Some err) ->
  err = pkm.ErrBadArgument \/ err = pkm.ErrImageIsTooLarge ->
  written = [].
Proof.
  unfold pkm.Encode.
  destruct (_ || _); [intros E; injection E as <- <-; reflexivity|].
  destruct (_ =? 0); [intros E; injection E as <- <-; reflexivity|].
  destruct (w [] _).
  - intros E. injection E as <- <-. intros [C|C]; discriminate.
  - destruct (etc2.Encode _ _ _ _ _ _ _) as [wr [e|]]; cbn [option_map]; intros E.
    + injection E as <- <-. intros [C|C]; discriminate.
    + discriminate E.
Qed.

(** ** The sizes of the writes of [Encode] *)

(** C9, as the code has it. During an encode that returns no error every
    write passes the whole 3968-byte buffer (4096 - 64 - 64 bytes, not
    4096), except possibly the last one, the final flush, which passes
    fewer. *)
Theorem Encode_writes_whole_buffers T decodeColor clusterfy encodeRGBWithAlpha
    (dst : option etc2.Writer) (src : option etc2.Image) (f : etc2.Format)
    (written : list (list byte)) :
  etc2.Encode T decodeColor clusterfy encodeRGBWithAlpha dst src f
  = (written, None) ->
  etc2.encoderBufferSize = 3968 /\ etc2.wholeBuffersThenRest written.
Proof.
  intros E. split; [reflexivity|].
  destruct dst as [dst|]; [|discriminate E].
  destruct src as [src|]; [|destruct dst; discriminate E].
  apply (Encode_success T decodeColor clusterfy encodeRGBWithAlpha dst src f written E).
Qed.

(** A 4x4 image makes one block and one write, of eight bytes. *)
Lemma Encode_writes_witness :
  etc2.encoderBufferSize = 3968
  /\ etc2.wholeBuffersThenRest
       (fst (etc2.Encode etc2.publishedTables etc2.sampleDecodeColor
               etc2.sampleClusterfy etc2.sampleEncodeRGBWithAlpha
               (Some etc2.acceptAll) (Some (etc2.grayImage 4 4)) etc2.FormatETC1)).
Proof.
  apply (Encode_writes_whole_buffers etc2.publishedTables etc2.sampleDecodeColor
           etc2.sampleClusterfy etc2.sampleEncodeRGBWithAlpha
           (Some etc2.acceptAll) (Some (etc2.grayImage 4 4)) etc2.FormatETC1).
  vm_compute. reflexivity.
Defined.

(** C9 as the specification states it fails: an image of 1988x4 pixels in
    the format ETC1 makes 497 blocks of 8 bytes, and the first write, which
    is not the final flush, passes 3968 bytes, not 4096. *)
Lemma Encode_writes_not_4KiB :
  ~ (forall T decodeColor clusterfy encodeRGBWithAlpha dst src f written,
       etc2.Encode T decodeColor clusterfy encodeRGBWithAlpha dst src f
       = (written, None) ->
       Forall (fun chunk => length chunk = 4096%nat) (removelast written)).
Proof.
  intros H.
  set (T := etc2.publishedTables). set (dc := etc2.sampleDecodeColor).
  set (cl := etc2.sampleClusterfy). set (er := etc2.sampleEncodeRGBWithAlpha).
  set (src := etc2.grayImage 1988 4).
  destruct (Encode_ok T dc cl er etc2.acceptAll src etc2.FormatETC1)
    as [written E]; [reflexivity | discriminate | cbn; lia | cbn; lia |].
  specialize (H T dc cl er _ _ _ _ E).
  destruct (Encode_success T dc cl er _ _ _ _ E) as ((full & rest & -> & Hfull & Hrest) & Hcat).
  apply (f_equal (@length byte)) in Hcat.
  rewrite encodedBlocks_length in Hcat.
  change (etc2.nCodes (andnot etc2.FormatETC1 etc2.formatBitSRGBColorSpace)) with 1%nat in Hcat.
  replace (length (etc2.blockPositions (etc2.Dx (etc2.Bounds src)) (etc2.Dy (etc2.Bounds src))))
    with 497%nat in Hcat by (vm_compute; reflexivity).
  rewrite concat_app, length_app, concat_fullChunks_length in Hcat by assumption.
  destruct Hrest as [-> | (c & -> & Hc)].
  - cbn [concat length] in Hcat. lia.
  - cbn [concat length] in Hcat. rewrite app_nil_r in Hcat.
    change (Z.to_nat etc2.encoderBufferSize) with 3968%nat in Hc.
    destruct full as [|c1 [|c2 full]]; cbn [length] in Hcat; try lia.
    cbn [app removelast] in H. inversion H as [|? ? H1 _]; subst.
    inversion Hfull as [|? ? F1 _]; subst.
    unfold etc2.fullChunk in F1.
    change (Z.to_nat etc2.encoderBufferSize) with 3968%nat in F1. lia.
Qed.

(** ** Stores into a block *)

(** A sequence of byte stores [a[i] = v]. *)
Lemma nth_set_nth_same {A : Type} (n : nat) (v d : A) (a : list A) :
  (n < length a)%nat -> nth n (set_nth n v a) d = v.
Proof.
  revert n. induction a as [|h t IH]; intros [|n] H; simpl in *; try lia; auto.
  apply IH. lia.
Qed.

Lemma nth_set_nth_other {A : Type} (n m : nat) (v d : A) (a : list A) :
  n <> m -> nth m (set_nth n v a) d = nth m a d.
Proof.
  revert n m. induction a as [|h t IH]; intros [|n] [|m] H; simpl; auto; try lia.
Qed.

Lemma at8_store8_same (a : list byte) (i v : Z) :
  (Z.to_nat i < length a)%nat -> at8 (store8 a i v) i = uint8 v.
Proof.
  intros H. unfold at8, store8. rewrite nth_set_nth_same by assumption.
  apply b2z_z2b.
Qed.

Lemma at8_store8_other (a : list byte) (i j v : Z) :
  Z.to_nat i <> Z.to_nat j -> at8 (store8 a i v) j = at8 a j.
Proof.
  intros H. unfold at8, store8. rewrite nth_set_nth_other by assumption.
  reflexivity.
Qed.

Lemma applyStores_length (ss : list (Z * Z)) (px : list byte) :
  length (etc2.applyStores px ss) = length px.
Proof.
  revert px. induction ss as [|s ss IH]; intros px; [reflexivity|].
  cbn [etc2.applyStores fold_left]. fold (etc2.applyStores (store8 px (fst s) (snd s)) ss).
  rewrite IH. apply store8_length.
Qed.

Lemma applyStores_other (ss : list (Z * Z)) (px : list byte) (j : Z) :
  ~ In (Z.to_nat j) (map (fun s => Z.to_nat (fst s)) ss) ->
  at8 (etc2.applyStores px ss) j = at8 px j.
Proof.
  revert px. induction ss as [|s ss IH]; intros px Hj; [reflexivity|].
  cbn [etc2.applyStores fold_left]. fold (etc2.applyStores (store8 px (fst s) (snd s)) ss).
  cbn [map In] in Hj.
  rewrite IH by tauto. apply at8_store8_other. tauto.
Qed.

(** After stores to distinct places of the block, each place holds the
    byte stored there. *)
Lemma applyStores_get (ss : list (Z * Z)) (px : list byte) (i v : Z) :
  NoDup (map (fun s => Z.to_nat (fst s)) ss) ->
  Forall (fun s => (Z.to_nat (fst s) < length px)%nat) ss ->
  In (i, v) ss ->
  at8 (etc2.applyStores px ss) i = uint8 v.
Proof.
  revert px. induction ss as [|s ss IH]; intros px Hnd Hin Hs; [contradiction|].
  cbn [etc2.applyStores fold_left]. fold (etc2.applyStores (store8 px (fst s) (snd s)) ss).
  cbn [map] in Hnd. inversion Hnd as [|? ? Hnot Hnd']; subst.
  inversion Hin as [|? ? Hlt Hin']; subst.
  destruct Hs as [-> | Hs].
  - cbn [fst snd] in *. rewrite applyStores_other by assumption.
    apply at8_store8_same. assumption.
  - apply IH; auto.
    eapply Forall_impl; [|exact Hin']. intros s' Hs'. cbn beta in *.
    rewrite store8_length. assumption.
Qed.

Lemma applyStores_flat_map {A : Type} (w : A -> list (Z * Z)) (l : list A)
    (px : list byte) :
  fold_left (fun a x => etc2.applyStores a (w x)) l px
  = etc2.applyStores px (flat_map w l).
Proof.
  revert px. induction l as [|x l IH]; intros px; [reflexivity|].
  cbn [fold_left flat_map]. rewrite IH. unfold etc2.applyStores.
  rewrite fold_left_app. reflexivity.
Qed.

(** A decidable test for the distinctness of the places. *)
Lemma nodupb_sound (l : list nat) : etc2.nodupb l = true -> NoDup l.
Proof.
  induction l as [|n l IH]; intros H; [constructor|].
  cbn [etc2.nodupb] in H. apply andb_prop in H. destruct H as [H1 H2].
  constructor; [|auto].
  intros Hin. apply negb_true_iff in H1.
  assert (existsb (Nat.eqb n) l = true); [|congruence].
  apply existsb_exists. exists n. split; [assumption | apply Nat.eqb_refl].
Qed.

(** ** The pixel extractor *)

Lemma yxOrder_eq :
  etc2.yxOrder
  = [ (0, 0); (0, 1); (0, 2); (0, 3); (1, 0); (1, 1); (1, 2); (1, 3);
      (2, 0); (2, 1); (2, 2); (2, 3); (3, 0); (3, 1); (3, 2); (3, 3) ].
Proof. reflexivity. Qed.

Lemma In_yxOrder (y x : Z) :
  In (y, x) etc2.yxOrder <-> 0 <= y < 4 /\ 0 <= x < 4.
Proof.
  rewrite yxOrder_eq. split.
  - cbn [In]. intros H.
    repeat (destruct H as [H|H]; [injection H as <- <-; lia|]). contradiction.
  - intros [Hy Hx].
    assert (Ey : y = 0 \/ y = 1 \/ y = 2 \/ y = 3) by lia.
    assert (Ex : x = 0 \/ x = 1 \/ x = 2 \/ x = 3) by lia.
    destruct Ey as [->|[->|[->| ->]]]; destruct Ex as [->|[->|[->| ->]]];
      cbn [In]; tauto.
Qed.

Lemma extractLog_fold (f : etc2.Format) (src : etc2.Image) (blockX blockY : Z)
    (l : list (Z * Z)) (px : list byte) (reads : list (Z * Z)) :
  fold_left (etc2.extractPixel f src blockX blockY) l (px, reads)
  = (etc2.applyStores px (flat_map (etc2.pixelStores f src blockX blockY) l),
     reads ++ map (fun yx => etc2.sampleAt src blockX blockY (snd yx) (fst yx)) l).
Proof.
  revert px reads. induction l as [|yx l IH]; intros px reads.
  - cbn. rewrite app_nil_r. reflexivity.
  - cbn [fold_left flat_map map]. unfold etc2.extractPixel at 2.
    rewrite IH. f_equal.
    + unfold etc2.applyStores. rewrite fold_left_app. reflexivity.
    + rewrite <- app_assoc. reflexivity.
Qed.

Lemma extract_stores (f : etc2.Format) (src : etc2.Image) (px : list byte)
    (blockX blockY : Z) :
  etc2.extract f src px blockX blockY
  = etc2.applyStores px (flat_map (etc2.pixelStores f src blockX blockY) etc2.yxOrder).
Proof.
  unfold etc2.extract, etc2.extractLog. rewrite extractLog_fold. reflexivity.
Qed.

(** The coordinates read for a block: one per pixel, in the order of the
    loops. *)
Lemma extractReads_eq (f : etc2.Format) (src : etc2.Image) (blockX blockY : Z) :
  etc2.extractReads f src blockX blockY
  = map (fun yx => etc2.sampleAt src blockX blockY (snd yx) (fst yx)) etc2.yxOrder.
Proof.
  unfold etc2.extractReads, etc2.extractLog. rewrite extractLog_fold. reflexivity.
Qed.

Lemma extract_length (f : etc2.Format) (src : etc2.Image) (px : list byte)
    (blockX blockY : Z) :
  length (etc2.extract f src px blockX blockY) = length px.
Proof. rewrite extract_stores. apply applyStores_length. Qed.

(** The places a block's stores go to are distinct and inside the block. *)
Lemma pixelStores_places (f : etc2.Format) (src : etc2.Image) (blockX blockY : Z) :
  let places :=
    map (fun s => Z.to_nat (fst s))
        (flat_map (etc2.pixelStores f src blockX blockY) etc2.yxOrder) in
  etc2.nodupb places = true /\ forallb (fun n => (n <? 64)%nat) places = true.
Proof.
  unfold etc2.pixelStores, etc2.stores11, etc2.stores8888.
  destruct (negb (Z.land f etc2.formatBitDepth11 =? 0));
    [destruct (negb (Z.land f etc2.formatBitDepth11TwoChannel =? 0))|];
    destruct (etc2.Kind src); split; vm_compute; reflexivity.
Qed.

(** After the extractor ran on a 64-byte block, each place it stored to
    holds the byte stored. *)
Lemma extract_get (f : etc2.Format) (src : etc2.Image) (px : list byte)
    (blockX blockY y x i v : Z) :
  length px = 64%nat ->
  0 <= y < 4 -> 0 <= x < 4 ->
  In (i, v) (etc2.pixelStores f src blockX blockY (y, x)) ->
  at8 (etc2.extract f src px blockX blockY) i = uint8 v.
Proof.
  intros Hlen Hy Hx Hin. rewrite extract_stores.
  destruct (pixelStores_places f src blockX blockY) as [Hnd Hlt].
  apply applyStores_get.
  - apply nodupb_sound. exact Hnd.
  - rewrite forallb_forall in Hlt. apply Forall_forall. intros s Hs.
    rewrite Hlen. apply Nat.ltb_lt. apply Hlt.
    apply in_map_iff. exists s. auto.
  - apply in_flat_map. exists (y, x). split; [|assumption].
    apply In_yxOrder. auto.
Qed.

Lemma In_by4 (n v : Z) : In v (etc2.by4 n) -> 0 <= v < n.
Proof.
  unfold etc2.by4, range. rewrite map_map. intros H.
  apply in_map_iff in H. destruct H as (k & <- & Hk).
  apply in_seq in Hk.
  assert (Z.of_nat k < (n + 3) / 4) by lia.
  pose proof (Z.mul_div_le (n + 3) 4 ltac:(lia)). lia.
Qed.

Lemma In_blockPositions (bW bH blockX blockY : Z) :
  In (blockX, blockY) (etc2.blockPositions bW bH) ->
  0 <= blockX < bW /\ 0 <= blockY < bH.
Proof.
  unfold etc2.blockPositions. intros H.
  apply in_flat_map in H. destruct H as (y & Hy & H).
  apply in_map_iff in H. destruct H as (x & E & Hx). injection E as <- <-.
  split; apply In_by4; assumption.
Qed.

(** For a source whose bounds start at the origin, every read of the
    extractor, at every block position that [Encode] visits, is inside the
    bounds: the reads right of and below them are moved to the last column
    and the last row. *)
Lemma extract_reads_inside_origin_bounds (f : etc2.Format) (src : etc2.Image)
    (blockX blockY : Z) (p : Z * Z) :
  etc2.MinX (etc2.Bounds src) = 0 ->
  etc2.MinY (etc2.Bounds src) = 0 ->
  In (blockX, blockY)
     (etc2.blockPositions (etc2.Dx (etc2.Bounds src)) (etc2.Dy (etc2.Bounds src))) ->
  In p (etc2.extractReads f src blockX blockY) ->
  etc2.inRect (etc2.Bounds src) p.
Proof.
  intros HminX HminY Hpos Hp.
  apply In_blockPositions in Hpos. unfold etc2.Dx, etc2.Dy in Hpos.
  rewrite extractReads_eq in Hp. apply in_map_iff in Hp.
  destruct Hp as ([y x] & <- & Hyx). apply In_yxOrder in Hyx.
  unfold etc2.inRect, etc2.sampleAt. cbn [fst snd]. lia.
Qed.

(** C4 fails on the code when the bounds of the source do not start at the
    origin: the block positions count from 0, not from the bounds' minimum.
    For an image with the bounds (4, 4)-(8, 8), [Encode] visits the one
    block position (0, 0), and each of the sixteen reads of the extractor
    there is outside the bounds. *)
Theorem extract_reads_outside_offset_bounds :
  etc2.blockPositions (etc2.Dx (etc2.mkRect 4 4 8 8)) (etc2.Dy (etc2.mkRect 4 4 8 8))
  = [(0, 0)]
  /\ etc2.extractReads etc2.FormatETC2RGB (etc2.grayImageIn (etc2.mkRect 4 4 8 8)) 0 0
     = [ (0, 0); (1, 0); (2, 0); (3, 0); (0, 1); (1, 1); (2, 1); (3, 1);
         (0, 2); (1, 2); (2, 2); (3, 2); (0, 3); (1, 3); (2, 3); (3, 3) ]
  /\ Forall (fun p => ~ etc2.inRect (etc2.mkRect 4 4 8 8) p)
            (etc2.extractReads etc2.FormatETC2RGB
               (etc2.grayImageIn (etc2.mkRect 4 4 8 8)) 0 0).
Proof.
  split; [reflexivity|].
  assert (E : etc2.extractReads etc2.FormatETC2RGB
                (etc2.grayImageIn (etc2.mkRect 4 4 8 8)) 0 0
              = [ (0, 0); (1, 0); (2, 0); (3, 0); (0, 1); (1, 1); (2, 1); (3, 1);
                  (0, 2); (1, 2); (2, 2); (3, 2); (0, 3); (1, 3); (2, 3); (3, 3) ])
    by (vm_compute; reflexivity).
  split; [exact E|]. rewrite E.
  repeat constructor; unfold etc2.inRect; cbn [fst snd etc2.MinX etc2.MinY etc2.MaxX etc2.MaxY]; lia.
Qed.

(** ** The gray of the single-channel 11-bit formats *)

Lemma channels16_range (k : etc2.ImageKind) (c : etc2.Color) :
  etc2.colorWellTyped k c ->
  0 <= etc2.cR (etc2.channels16 k c) <= 0xFFFF
  /\ 0 <= etc2.cG (etc2.channels16 k c) <= 0xFFFF
  /\ 0 <= etc2.cB (etc2.channels16 k c) <= 0xFFFF.
Proof.
  assert (Hu16 : forall z, 0 <= uint16 z <= 0xFFFF).
  { intros z. unfold uint16. pose proof (Z.mod_pos_bound z (2 ^ 16)). lia. }
  assert (Hdiv : forall r a, 0 <= r <= a -> a <= 0xFFFF -> 0 < a ->
                             0 <= uint32 (r * 0xFFFF) / a <= 0xFFFF).
  { intros r a Hr Ha Hpos. unfold uint32.
    rewrite Z.mod_small by (change (2 ^ 32) with 4294967296; nia).
    split; [apply Z.div_pos; lia|].
    apply Z.div_le_upper_bound; [lia|]. nia. }
  destruct k; cbn [etc2.channels16 etc2.sampleColor etc2.colorWellTyped
                   etc2.cR etc2.cG etc2.cB].
  - lia.
  - lia.
  - intros H. unfold etc2.unpremul16.
    destruct (negb (etc2.cA c =? 0) && negb (etc2.cA c =? 65535));
      cbn [etc2.cR etc2.cG etc2.cB]; [|lia].
    repeat split; apply Hu16.
  - intros H. unfold etc2.unpremul32.
    destruct (Z.eqb_spec (etc2.cA c) 0) as [E0|N0]; cbn [negb andb];
      [cbn [etc2.cR etc2.cG etc2.cB]; lia|].
    destruct (Z.eqb_spec (etc2.cA c) 65535); cbn [negb];
      cbn [etc2.cR etc2.cG etc2.cB]; [lia|].
    repeat split; apply Hdiv; lia.
Qed.

Lemma grayOf_luma (r g b : Z) :
  0 <= r <= 0xFFFF -> 0 <= g <= 0xFFFF -> 0 <= b <= 0xFFFF ->
  etc2.grayOf r g b = etc2.luma709 r g b
  /\ 0 <= etc2.luma709 r g b <= 0xFFFF.
Proof.
  intros Hr Hg Hb. unfold etc2.grayOf, etc2.luma709, uint64,
    etc2.graySum, etc2.grayR, etc2.grayG, etc2.grayB.
  change (1000000 / 2) with 500000. change (2 ^ 64) with 18446744073709551616.
  rewrite (Z.mod_small (r * 212656)) by lia.
  rewrite (Z.mod_small (g * 715158)) by lia.
  rewrite (Z.mod_small (b * 72186)) by lia.
  rewrite Z.mod_small by lia.
  split; [f_equal; lia|].
  split; [apply Z.div_pos; lia|].
  enough ((500000 + 212656 * r + 715158 * g + 72186 * b) / 1000000 < 65536) by lia.
  apply Z.div_lt_upper_bound; lia.
Qed.

Lemma be16_bytes (v : Z) :
  0 <= v <= 0xFFFF ->
  256 * uint8 (Z.shiftr v 8) + uint8 (Z.shiftr v 0) = v.
Proof.
  intros Hv. unfold uint8. rewrite Z.shiftr_0_r, Z.shiftr_div_pow2 by lia.
  change (2 ^ 8) with 256.
  rewrite (Z.mod_small (v / 256)) by (split; [apply Z.div_pos; lia | apply Z.div_lt_upper_bound; lia]).
  pose proof (Z.div_mod v 256 ltac:(lia)). lia.
Qed.

Lemma pixelStores_gray (f : etc2.Format) (src : etc2.Image)
    (blockX blockY y x : Z) :
  Z.land f etc2.formatBitDepth11 <> 0 ->
  Z.land f etc2.formatBitDepth11TwoChannel = 0 ->
  let p := etc2.sampleAt src blockX blockY x y in
  let c := etc2.channels16 (etc2.Kind src) (etc2.At src (fst p) (snd p)) in
  let gray := etc2.grayOf (etc2.cR c) (etc2.cG c) (etc2.cB c) in
  etc2.pixelStores f src blockX blockY (y, x)
  = [ (8 * y + 2 * x + 0, Z.shiftr gray 8); (8 * y + 2 * x + 1, Z.shiftr gray 0) ].
Proof.
  intros H11 H1 p c gray. unfold etc2.pixelStores. fold p.
  destruct (Z.eqb_spec (Z.land f etc2.formatBitDepth11) 0) as [E|_]; [contradiction|].
  rewrite H1. cbn [negb Z.eqb].
  unfold gray, c, etc2.stores11, etc2.channels16.
  destruct (etc2.Kind src); reflexivity.
Qed.

(** C6. For a single-channel 11-bit format the extractor stores, for each
    pixel (x, y) of the block, the 16-bit luma
    (500000 + 212656 R + 715158 G + 72186 B) / 1000000 of the sample's
    16-bit channels, high byte first, at the offsets 8y + 2x and
    8y + 2x + 1. *)
Theorem extract_gray_is_luma709 (f : etc2.Format) (src : etc2.Image)
    (px : list byte) (blockX blockY y x : Z) :
  Z.land f etc2.formatBitDepth11 <> 0 ->
  Z.land f etc2.formatBitDepth11TwoChannel = 0 ->
  length px = 64%nat ->
  0 <= y < 4 -> 0 <= x < 4 ->
  etc2.colorWellTyped (etc2.Kind src)
    (etc2.At src (fst (etc2.sampleAt src blockX blockY x y))
                 (snd (etc2.sampleAt src blockX blockY x y))) ->
  256 * at8 (etc2.extract f src px blockX blockY) (8 * y + 2 * x)
  + at8 (etc2.extract f src px blockX blockY) (8 * y + 2 * x + 1)
  = etc2.luma709
      (etc2.cR (etc2.channels16 (etc2.Kind src)
                  (etc2.At src (fst (etc2.sampleAt src blockX blockY x y))
                               (snd (etc2.sampleAt src blockX blockY x y)))))
      (etc2.cG (etc2.channels16 (etc2.Kind src)
                  (etc2.At src (fst (etc2.sampleAt src blockX blockY x y))
                               (snd (etc2.sampleAt src blockX blockY x y)))))
      (etc2.cB (etc2.channels16 (etc2.Kind src)
                  (etc2.At src (fst (etc2.sampleAt src blockX blockY x y))
                               (snd (etc2.sampleAt src blockX blockY x y))))).
Proof.
  intros H11 H1 Hlen Hy Hx Hwt.
  pose proof (pixelStores_gray f src blockX blockY y x H11 H1) as Hst.
  cbv zeta in Hst.
  set (c := etc2.channels16 _ _) in *.
  destruct (channels16_range _ _ Hwt) as (Hr & Hg & Hb). fold c in Hr, Hg, Hb.
  destruct (grayOf_luma _ _ _ Hr Hg Hb) as [Egray Hrange].
  rewrite Egray in Hst.
  replace (8 * y + 2 * x) with (8 * y + 2 * x + 0) at 1 by lia.
  rewrite (extract_get f src px blockX blockY y x (8 * y + 2 * x + 0)
             (Z.shiftr (etc2.luma709 (etc2.cR c) (etc2.cG c) (etc2.cB c)) 8))
    by (auto; rewrite Hst; left; reflexivity).
  rewrite (extract_get f src px blockX blockY y x (8 * y + 2 * x + 1)
             (Z.shiftr (etc2.luma709 (etc2.cR c) (etc2.cG c) (etc2.cB c)) 0))
    by (auto; rewrite Hst; right; left; reflexivity).
  apply be16_bytes. assumption.
Qed.

(** The gray of the pixel (1, 2) of a gray image's first block. *)
Lemma extract_gray_witness :
  256 * at8 (etc2.extract etc2.FormatETC2R11Unsigned (etc2.grayImage 8 8)
               (repeat x00 64) 0 0) (8 * 2 + 2 * 1)
  + at8 (etc2.extract etc2.FormatETC2R11Unsigned (etc2.grayImage 8 8)
           (repeat x00 64) 0 0) (8 * 2 + 2 * 1 + 1)
  = etc2.luma709 (0x80 * 0x101) (0x80 * 0x101) (0x80 * 0x101).
Proof.
  apply (extract_gray_is_luma709 etc2.FormatETC2R11Unsigned (etc2.grayImage 8 8)
           (repeat x00 64) 0 0 2 1).
  - vm_compute. discriminate.
  - reflexivity.
  - reflexivity.
  - lia.
  - lia.
  - vm_compute. intuition discriminate.
Defined.

(** ** The alpha codeword of an opaque block *)

Lemma fold_left_ext_in {A B : Type} (f g : A -> B -> A) (l : list B) (a : A) :
  (forall a x, In x l -> f a x = g a x) ->
  fold_left f l a = fold_left g l a.
Proof.
  revert a. induction l as [|x l IH]; intros a H; [reflexivity|].
  cbn [fold_left]. rewrite (H a x) by (left; reflexivity).
  apply IH. intros a' x' Hx'. apply H. right. assumption.
Qed.

Lemma In_range (n : nat) (i : Z) : In i (range n) <-> 0 <= i < Z.of_nat n.
Proof.
  unfold range. rewrite in_map_iff. split.
  - intros (k & <- & Hk). apply in_seq in Hk. lia.
  - intros Hi. exists (Z.to_nat i). split; [lia|]. apply in_seq. lia.
Qed.

Section AlphaExt.

Variable T : etc2.Tables.
Variables p q : list byte.
Hypothesis Hpq : forall i, 0 <= i < 16 -> etc2.alphaOf p i = etc2.alphaOf q i.

Lemma alphaSumLoop_ext (alpha table bestSum : Z) (xys : list (Z * Z)) (sum : Z) :
  Forall (fun xy => 0 <= 4 * snd xy + fst xy < 16) xys ->
  etc2.alphaSumLoop T p alpha table bestSum xys sum
  = etc2.alphaSumLoop T q alpha table bestSum xys sum.
Proof.
  intros H. revert sum. induction H as [|[x y] xys Hxy _ IH]; intros sum; [reflexivity|].
  cbn [etc2.alphaSumLoop]. cbn [fst snd] in Hxy. rewrite (Hpq _ Hxy).
  destruct (_ >? bestSum); [reflexivity | apply IH].
Qed.

Lemma xyOrder_valid : Forall (fun xy => 0 <= 4 * snd xy + fst xy < 16) etc2.xyOrder.
Proof.
  change etc2.xyOrder with
    [ (0, 0); (0, 1); (0, 2); (0, 3); (1, 0); (1, 1); (1, 2); (1, 3);
      (2, 0); (2, 1); (2, 2); (2, 3); (3, 0); (3, 1); (3, 2); (3, 3) ].
  repeat constructor; cbn [fst snd]; lia.
Qed.

Lemma alphaTableStep_ext (prevAlpha : Z) (s : etc2.alphaSearch) (table : Z) :
  etc2.alphaTableStep T p prevAlpha s table = etc2.alphaTableStep T q prevAlpha s table.
Proof.
  unfold etc2.alphaTableStep. destruct (_ >? 0); [|reflexivity].
  apply fold_left_ext_in. intros s' scale _.
  unfold etc2.alphaScaleStep. apply fold_left_ext_in. intros s'' alpha _.
  unfold etc2.alphaTry. rewrite (alphaSumLoop_ext _ _ _ _ _ xyOrder_valid).
  reflexivity.
Qed.

Lemma encodeAlpha_ext : etc2.encodeAlpha T p = etc2.encodeAlpha T q.
Proof.
  unfold etc2.encodeAlpha.
  rewrite (fold_left_ext_in
             (fun acc i => int32 (acc + etc2.alphaOf p i))
             (fun acc i => int32 (acc + etc2.alphaOf q i)))
    by (intros a i Hi; apply In_range in Hi; rewrite Hpq by lia; reflexivity).
  set (alpha := Z.quot _ 16).
  rewrite (fold_left_ext_in
             (fun maxDist i =>
                let a := etc2.alphaOf p i in
                let d := int32 (a - alpha) in
                let d := if d <? 0 then int32 (- d) else d in
                Z.max maxDist d)
             (fun maxDist i =>
                let a := etc2.alphaOf q i in
                let d := int32 (a - alpha) in
                let d := if d <? 0 then int32 (- d) else d in
                Z.max maxDist d))
    by (intros a i Hi; apply In_range in Hi; cbv zeta; rewrite Hpq by lia; reflexivity).
  cbv zeta.
  rewrite (fold_left_ext_in (etc2.alphaTableStep T p alpha) (etc2.alphaTableStep T q alpha))
    by (intros; apply alphaTableStep_ext).
  apply fold_left_ext_in. intros code i Hi. apply In_range in Hi.
  unfold etc2.alphaBestIndex. rewrite Hpq by lia. reflexivity.
Qed.

End AlphaExt.

(** The alpha codeword of a block whose sixteen alpha bytes are 0xFF is
    FF 00 00 00 00 00 00 00: base 255, multiplier 0, table 0, and the index
    0 for every pixel. The first table that is tried has the multiplier 0
    and gives the sum 0, which ends the search. *)
Lemma encodeAlpha_opaque (T : etc2.Tables) (px : list byte) :
  (forall i, 0 <= i < 16 -> etc2.alphaOf px i = 0xFF) ->
  etc2.encodeAlpha T px = 0xFF00000000000000.
Proof.
  intros H.
  rewrite (encodeAlpha_ext T px (repeat xff 64)).
  - vm_compute. reflexivity.
  - intros i Hi. rewrite (H i Hi).
    assert (E : i = 0 \/ i = 1 \/ i = 2 \/ i = 3 \/ i = 4 \/ i = 5 \/ i = 6 \/ i = 7 \/
                i = 8 \/ i = 9 \/ i = 10 \/ i = 11 \/ i = 12 \/ i = 13 \/ i = 14 \/ i = 15)
      by lia.
    repeat (destruct E as [->|E]; [reflexivity|]). subst. reflexivity.
Qed.

Lemma extract_alpha_opaque (f : etc2.Format) (src : etc2.Image) (px : list byte)
    (blockX blockY : Z) :
  Z.land f etc2.formatBitDepth11 = 0 ->
  length px = 64%nat ->
  (forall y x, 0 <= y < 4 -> 0 <= x < 4 ->
     etc2.opaqueAt src (fst (etc2.sampleAt src blockX blockY x y))
                       (snd (etc2.sampleAt src blockX blockY x y))) ->
  forall i, 0 <= i < 16 ->
    etc2.alphaOf (etc2.extract f src px blockX blockY) i = 0xFF.
Proof.
  intros Hf Hlen Hop i Hi. unfold etc2.alphaOf.
  set (y := i / 4). set (x := i mod 4).
  assert (Hy : 0 <= y < 4) by (unfold y; split; [apply Z.div_pos; lia | apply Z.div_lt_upper_bound; lia]).
  assert (Hx : 0 <= x < 4) by (unfold x; apply Z.mod_pos_bound; lia).
  assert (Ei : 4 * i + 3 = 16 * y + 4 * x + 3)
    by (unfold x, y; pose proof (Z.div_mod i 4 ltac:(lia)); lia).
  rewrite Ei. specialize (Hop y x Hy Hx). unfold etc2.opaqueAt in Hop.
  set (p := etc2.sampleAt src blockX blockY x y) in *.
  set (c := etc2.At src (fst p) (snd p)) in *.
  assert (Hst : exists v, In (16 * y + 4 * x + 3, v)
                             (etc2.pixelStores f src blockX blockY (y, x))
                          /\ uint8 v = 0xFF).
  { unfold etc2.pixelStores. fold p. fold c. rewrite Hf. cbn [Z.eqb negb].
    unfold etc2.stores8888, etc2.sampleColor, etc2.unpremul16, etc2.unpremul32.
    destruct (etc2.Kind src); rewrite ?Hop;
      change (65535 =? 0) with false; change (65535 =? 65535) with true;
      cbn [negb andb]; rewrite ?Hop;
      eexists; (split; [do 3 right; left; reflexivity | reflexivity]). }
  destruct Hst as (v & Hin & Hv).
  rewrite (extract_get f src px blockX blockY y x _ v Hlen Hy Hx Hin). exact Hv.
Qed.

Section OpaqueRGBA8.

Variable T : etc2.Tables.
Variable decodeColor : Z -> bool -> list byte.
Variable clusterfy : list byte -> float -> (byte * byte * byte) * (byte * byte * byte).
Variable encodeRGBWithAlpha : list byte -> bool -> Z.
Variable src : etc2.Image.

Hypothesis Hbounds : etc2.Bounds src = etc2.mkRect 0 0 16 16.
Hypothesis Hopaque : forall x y, 0 <= x < 16 -> 0 <= y < 16 -> etc2.opaqueAt src x y.

Lemma encodedBlocks_opaque (positions : list (Z * Z)) (px : list byte) :
  length px = 64%nat ->
  Forall (fun pos => 0 <= fst pos < 16 /\ 0 <= snd pos < 16) positions ->
  Forall (fun b => length b = 16%nat /\ firstn 8 b = etc2.opaqueAlphaCode)
    (etc2.encodedBlocks T decodeColor clusterfy encodeRGBWithAlpha src
       etc2.FormatETC2RGBA8 px positions).
Proof.
  intros Hlen Hpos. revert px Hlen.
  induction Hpos as [|[blockX blockY] rest Hp _ IH]; intros px Hlen; [constructor|].
  cbn [etc2.encodedBlocks]. cbn [fst snd] in Hp.
  set (px' := etc2.extract etc2.FormatETC2RGBA8 src px blockX blockY).
  constructor.
  - change (etc2.blockCodes T decodeColor clusterfy encodeRGBWithAlpha
              etc2.FormatETC2RGBA8 px')
      with [etc2.encodeAlpha T px';
            etc2.encodeColor T decodeColor clusterfy encodeRGBWithAlpha px'
              etc2.FormatETC2RGBA8].
    rewrite (encodeAlpha_opaque T px').
    + split; reflexivity.
    + apply extract_alpha_opaque; [reflexivity | assumption |].
      intros y x Hy Hx. unfold etc2.sampleAt. rewrite Hbounds.
      cbn [etc2.MaxX etc2.MaxY fst snd]. apply Hopaque; lia.
  - apply IH. unfold px'. rewrite extract_length. assumption.
Qed.

End OpaqueRGBA8.

(** C3, as the code has it. A 16x16 source whose bounds start at the origin
    and whose alpha is opaque at every pixel, encoded as ETC2-RGBA8 without
    an error, reaches the sink as one write of 16 blocks of 16 bytes, and
    the first 8 bytes of every block (the alpha codeword) are
    FF 00 00 00 00 00 00 00. *)
Theorem Encode_opaque_RGBA8 T decodeColor clusterfy encodeRGBWithAlpha
    (dst : etc2.Writer) (src : etc2.Image) (written : list (list byte)) :
  etc2.Bounds src = etc2.mkRect 0 0 16 16 ->
  (forall x y, 0 <= x < 16 -> 0 <= y < 16 -> etc2.opaqueAt src x y) ->
  etc2.Encode T decodeColor clusterfy encodeRGBWithAlpha
    (Some dst) (Some src) etc2.FormatETC2RGBA8 = (written, None) ->
  exists blocks,
    written = [concat blocks]
    /\ length blocks = 16%nat
    /\ Forall (fun b => length b = 16%nat /\ firstn 8 b = etc2.opaqueAlphaCode)
              blocks.
Proof.
  intros Hb Hop E.
  destruct (Encode_success T decodeColor clusterfy encodeRGBWithAlpha _ _ _ _ E)
    as ((full & rest & -> & Hfull & Hrest) & Hcat).
  rewrite Hb in Hcat.
  change (andnot etc2.FormatETC2RGBA8 etc2.formatBitSRGBColorSpace)
    with etc2.FormatETC2RGBA8 in Hcat.
  set (positions := etc2.blockPositions _ _) in Hcat.
  set (blocks := etc2.encodedBlocks _ _ _ _ _ _ _ _) in Hcat.
  assert (Hlen : length (concat blocks) = 256%nat).
  { unfold blocks. rewrite encodedBlocks_length. reflexivity. }
  exists blocks. split; [|split].
  - pose proof Hlen as Hl. rewrite <- Hcat in Hl.
    rewrite concat_app, length_app, concat_fullChunks_length in Hl by assumption.
    destruct full as [|c full]; [|cbn [length] in Hl; lia].
    destruct Hrest as [-> | (c & -> & Hc)]; [discriminate Hl|].
    cbn [app concat] in *. rewrite app_nil_r in Hcat. rewrite Hcat. reflexivity.
  - unfold blocks. rewrite encodedBlocks_count. reflexivity.
  - apply encodedBlocks_opaque; auto.
    unfold positions. apply Forall_forall. intros [blockX blockY] Hin.
    apply In_blockPositions in Hin. cbn [fst snd]. cbn in Hin. lia.
Qed.

Lemma grayImage_opaque (w h x y : Z) :
  0 <= x < w -> 0 <= y < h -> etc2.opaqueAt (etc2.grayImage w h) x y.
Proof.
  intros Hx Hy. unfold etc2.opaqueAt, etc2.grayImage, etc2.grayImageIn.
  cbn [etc2.At etc2.Kind etc2.MinX etc2.MinY etc2.MaxX etc2.MaxY].
  destruct (Z.leb_spec 0 x); [|lia]. destruct (Z.ltb_spec x w); [|lia].
  destruct (Z.leb_spec 0 y); [|lia]. destruct (Z.ltb_spec y h); [|lia].
  reflexivity.
Qed.

(** The 16x16 opaque gray image, with a sink that takes every write. *)
Lemma Encode_opaque_RGBA8_witness :
  exists blocks,
    fst (etc2.Encode etc2.publishedTables etc2.sampleDecodeColor
           etc2.sampleClusterfy etc2.sampleEncodeRGBWithAlpha
           (Some etc2.acceptAll) (Some (etc2.grayImage 16 16))
           etc2.FormatETC2RGBA8)
    = [concat blocks]
    /\ length blocks = 16%nat
    /\ Forall (fun b => length b = 16%nat /\ firstn 8 b = etc2.opaqueAlphaCode)
              blocks.
Proof.
  destruct (Encode_ok etc2.publishedTables etc2.sampleDecodeColor
              etc2.sampleClusterfy etc2.sampleEncodeRGBWithAlpha
              etc2.acceptAll (etc2.grayImage 16 16) etc2.FormatETC2RGBA8)
    as [written E]; [reflexivity | discriminate | cbn; lia | cbn; lia |].
  rewrite E. cbn [fst].
  apply (Encode_opaque_RGBA8 etc2.publishedTables etc2.sampleDecodeColor
           etc2.sampleClusterfy etc2.sampleEncodeRGBWithAlpha
           etc2.acceptAll (etc2.grayImage 16 16) written).
  - reflexivity.
  - intros x y Hx Hy. apply grayImage_opaque; assumption.
  - exact E.
Defined.

(** C3 as the specification states it fails: for the 16x16 opaque gray
    image the output has 256 bytes and starts with the alpha codeword
    FF 00 00 00 00 00 00 00, not with FF FF 00 00 00 00 00 00. *)
Lemma Encode_opaque_alpha_is_not_FFFF :
  length etc2.sampleRGBA8Output = 256%nat
  /\ firstn 8 etc2.sampleRGBA8Output = etc2.opaqueAlphaCode
  /\ firstn 8 etc2.sampleRGBA8Output <> etc2.scenarioAlphaCode.
Proof.
  assert (E : firstn 8 etc2.sampleRGBA8Output = etc2.opaqueAlphaCode)
    by (vm_compute; reflexivity).
  split; [vm_compute; reflexivity|]. split; [exact E|].
  rewrite E. discriminate.
Qed.

(** ** The exhaustive search of the 11-bit codeword *)







Section Search11.

Variable T : etc2.Tables.
Variable pixels : list byte.
Variable pixOffset : Z.
Variable signed : bool.

Let score (c : Z * Z * Z) : Z := etc2.blockSqErr T pixels pixOffset signed c.





End Search11.



Lemma eacShift_range (i : Z) : 0 <= i < 16 -> 0 <= etc2.eacShift i <= 45.
Proof.
  intros Hi.
  assert (E : i = 0 \/ i = 1 \/ i = 2 \/ i = 3 \/ i = 4 \/ i = 5 \/ i = 6 \/ i = 7 \/
              i = 8 \/ i = 9 \/ i = 10 \/ i = 11 \/ i = 12 \/ i = 13 \/ i = 14 \/ i = 15)
    by lia.
  repeat (destruct E as [->|E]; [vm_compute; split; discriminate|]).
  subst. vm_compute. split; discriminate.
Qed.


Lemma shl64_small (j s : Z) (n : Z) :
  0 <= j < 2 ^ n -> 0 <= s -> 0 <= n -> n + s <= 64 ->
  etc2.shl64 j s = j * 2 ^ s /\ 0 <= j * 2 ^ s < 2 ^ (n + s).
Proof.
  intros Hj Hs Hn Hfit. unfold etc2.shl64, uint64.
  assert (Hp : 0 < 2 ^ s) by (apply Z.pow_pos_nonneg; lia).
  assert (Hb : 0 <= j * 2 ^ s < 2 ^ (n + s)).
  { rewrite Z.pow_add_r by lia. nia. }
  assert (Hle : 2 ^ (n + s) <= 2 ^ 64) by (apply Z.pow_le_mono_r; lia).
  assert (Hn64 : 2 ^ n <= 2 ^ 64) by (apply Z.pow_le_mono_r; lia).
  rewrite (Z.mod_small j) by lia.
  rewrite Z.shiftl_mul_pow2 by lia.
  rewrite Z.mod_small by lia. split; [reflexivity | exact Hb].
Qed.

Lemma shiftr_small (a n : Z) : 0 <= a < 2 ^ n -> 0 <= n -> Z.shiftr a n = 0.
Proof.
  intros Ha Hn. rewrite Z.shiftr_div_pow2 by assumption.
  apply Z.div_small. assumption.
Qed.



(* ----------------------------------------------------------------- *)
(** ** The diff channels of a codeword *)

Lemma allBelow_spec (n : nat) (p : Z -> bool) :
  allBelow n p = true -> forall z, 0 <= z < Z.of_nat n -> p z = true.
Proof.
  intros H z Hz. unfold allBelow in H. rewrite forallb_forall in H.
  apply H. apply In_range. exact Hz.
Qed.

Lemma channelByte_lor (a b lo : Z) :
  codeword.channelByte (Z.lor a b) lo
  = Z.lor (codeword.channelByte a lo) (codeword.channelByte b lo).
Proof.
  unfold codeword.channelByte. rewrite Z.shiftr_lor. apply Z.land_lor_distr_l.
Qed.

Lemma channelByte_range (code lo : Z) : 0 <= codeword.channelByte code lo < 256.
Proof.
  unfold codeword.channelByte. change 0xFF with (Z.ones 8).
  rewrite Z.land_ones by lia. apply (Z.mod_pos_bound _ (2 ^ 8)). lia.
Qed.

Lemma channelByte_low (a lo : Z) :
  0 <= lo -> 0 <= a < 2 ^ lo -> codeword.channelByte a lo = 0.
Proof.
  intros Hlo Ha. unfold codeword.channelByte.
  rewrite (shiftr_small a lo Ha Hlo). reflexivity.
Qed.

Lemma channelByte_high (a lo : Z) :
  0 <= lo -> a mod 2 ^ (lo + 8) = 0 -> codeword.channelByte a lo = 0.
Proof.
  intros Hlo Ha. unfold codeword.channelByte. change 0xFF with (Z.ones 8).
  rewrite Z.land_ones by lia. rewrite Z.shiftr_div_pow2 by lia.
  assert (Hp : 0 < 2 ^ lo) by (apply Z.pow_pos_nonneg; lia).
  apply Z.mod_divide in Ha; [|rewrite Z.pow_add_r by lia; lia].
  destruct Ha as [q ->]. rewrite Z.pow_add_r by lia.
  replace (q * (2 ^ lo * 2 ^ 8)) with (q * 2 ^ 8 * 2 ^ lo) by ring.
  rewrite Z.div_mul by lia. apply Z.mod_mul. lia.
Qed.

Lemma shl64_multiple (x k m : Z) :
  0 <= m <= k -> m <= 64 -> etc2.shl64 x k mod 2 ^ m = 0.
Proof.
  intros Hm Hm64. unfold etc2.shl64, uint64.
  rewrite Z.mod_mod_divide.
  - rewrite Z.shiftl_mul_pow2 by lia.
    replace k with (k - m + m) by lia. rewrite Z.pow_add_r by lia.
    rewrite Z.mul_assoc. apply Z.mod_mul.
    assert (0 < 2 ^ m) by (apply Z.pow_pos_nonneg; lia). lia.
  - exists (2 ^ (64 - m)). rewrite <- Z.pow_add_r by lia. f_equal. lia.
Qed.

Lemma land_1_cases (a : Z) : Z.land a 1 = 0 \/ Z.land a 1 = 1.
Proof.
  change 1 with (Z.ones 1) at 1 2. rewrite Z.land_ones by lia.
  pose proof (Z.mod_pos_bound a (2 ^ 1) ltac:(lia)) as H.
  change (2 ^ 1) with 2 in *. lia.
Qed.

Lemma channelByte_bit (code lo k : Z) :
  0 <= lo -> 0 <= k < 8 ->
  Z.land (Z.shiftr code (lo + k)) 1
  = Z.land (Z.shiftr (codeword.channelByte code lo) (0 + k)) 1.
Proof.
  intros Hlo Hk. apply Z.bits_inj'. intros i Hi.
  unfold codeword.channelByte.
  rewrite !Z.land_spec, !Z.shiftr_spec, Z.land_spec, Z.shiftr_spec by lia.
  destruct (Z.eq_dec i 0) as [->|Hne].
  - change 0xFF with (Z.ones 8). rewrite Z.ones_spec_low by lia.
    change (Z.testbit 1 0) with true. rewrite !andb_true_r.
    replace (0 + (0 + k) + lo) with (0 + (lo + k)) by lia. reflexivity.
  - change 1 with (Z.ones 1). rewrite Z.ones_spec_high by lia.
    rewrite !andb_false_r. reflexivity.
Qed.

Lemma forceOverflow_channel (code lo : Z) :
  lo = 40 \/ lo = 48 \/ lo = 56 ->
  codeword.channelByte (etc2.forceOverflow code lo) lo
  = etc2.forceOverflow (codeword.channelByte code lo) 0.
Proof.
  intros Hlo. unfold etc2.forceOverflow. cbv zeta.
  rewrite !(channelByte_bit code lo) by lia.
  destruct (negb _); rewrite channelByte_lor; f_equal;
    destruct Hlo as [->|[->| ->]]; vm_compute; reflexivity.
Qed.

Lemma forceOverflow_other (code lo lo' : Z) :
  lo = 40 \/ lo = 48 \/ lo = 56 -> lo' = 40 \/ lo' = 48 \/ lo' = 56 ->
  lo <> lo' ->
  codeword.channelByte (etc2.forceOverflow code lo) lo'
  = codeword.channelByte code lo'.
Proof.
  intros Hlo Hlo' Hne. unfold etc2.forceOverflow. cbv zeta.
  destruct (negb _); rewrite channelByte_lor;
    (rewrite <- (Z.lor_0_r (codeword.channelByte code lo')) at 2; f_equal;
     destruct Hlo as [->|[->| ->]]; destruct Hlo' as [->|[->| ->]];
     try (exfalso; apply Hne; reflexivity); vm_compute; reflexivity).
Qed.

Lemma forceNoOverflow_channel (code hi : Z) :
  hi = 63 \/ hi = 55 ->
  codeword.channelByte (etc2.forceNoOverflow code hi) (hi - 7)
  = etc2.forceNoOverflow (codeword.channelByte code (hi - 7)) 7.
Proof.
  intros Hhi. unfold etc2.forceNoOverflow.
  replace (hi - 1) with (hi - 7 + 6) by lia. change (7 - 1) with (0 + 6).
  rewrite (channelByte_bit code (hi - 7) 6) by lia.
  rewrite channelByte_lor. f_equal.
  destruct (land_1_cases (Z.shiftr (codeword.channelByte code (hi - 7)) (0 + 6)))
    as [-> | ->]; destruct Hhi as [-> | ->]; vm_compute; reflexivity.
Qed.

Lemma forceNoOverflow_red (code : Z) :
  codeword.channelByte (etc2.forceNoOverflow code 63) 56
  = etc2.forceNoOverflow (codeword.channelByte code 56) 7.
Proof. apply (forceNoOverflow_channel code 63). left. reflexivity. Qed.

Lemma forceNoOverflow_green (code : Z) :
  codeword.channelByte (etc2.forceNoOverflow code 55) 48
  = etc2.forceNoOverflow (codeword.channelByte code 48) 7.
Proof. apply (forceNoOverflow_channel code 55). right. reflexivity. Qed.

Lemma forceNoOverflow_other (code hi lo' : Z) :
  hi = 63 \/ hi = 55 -> lo' = 40 \/ lo' = 48 \/ lo' = 56 -> lo' <> hi - 7 ->
  codeword.channelByte (etc2.forceNoOverflow code hi) lo'
  = codeword.channelByte code lo'.
Proof.
  intros Hhi Hlo' Hne. unfold etc2.forceNoOverflow.
  rewrite channelByte_lor.
  rewrite <- (Z.lor_0_r (codeword.channelByte code lo')) at 2. f_equal.
  destruct (land_1_cases (Z.shiftr code (hi - 1))) as [-> | ->];
    destruct Hhi as [-> | ->]; destruct Hlo' as [->|[->| ->]];
    try (exfalso; apply Hne; reflexivity); vm_compute; reflexivity.
Qed.

(** The two patches on a channel byte whose patched bits are clear: the
    first makes the 5+3-bit sum leave [0, 31], the second keeps it inside. *)
Lemma forceOverflow_overflows (w : Z) :
  0 <= w < 256 -> Z.land w 0xE4 = 0 ->
  codeword.overflows8 (etc2.forceOverflow w 0) = true.
Proof.
  intros Hw Hz.
  assert (H : allBelow 256
                (fun w => implb (Z.land w 0xE4 =? 0)
                                (codeword.overflows8 (etc2.forceOverflow w 0)))
              = true) by (vm_compute; reflexivity).
  pose proof (allBelow_spec _ _ H w Hw) as Hc. cbv beta in Hc.
  rewrite Hz in Hc. exact Hc.
Qed.

Lemma forceNoOverflow_no_overflow (w : Z) :
  0 <= w < 128 ->
  codeword.overflows8 (etc2.forceNoOverflow w 7) = false.
Proof.
  intros Hw.
  assert (H : allBelow 128
                (fun w => negb (codeword.overflows8 (etc2.forceNoOverflow w 7)))
              = true) by (vm_compute; reflexivity).
  pose proof (allBelow_spec _ _ H w Hw) as Hc. cbv beta in Hc.
  apply negb_true_iff in Hc. exact Hc.
Qed.

(* ----------------------------------------------------------------- *)
(** ** Ranges of the packed fields *)

Lemma below_pow2 (a n : Z) :
  0 <= n -> (0 <= a < 2 ^ n <-> Z.land a (Z.ones n) = a).
Proof.
  intros Hn. rewrite Z.land_ones by assumption. split.
  - intros Ha. apply Z.mod_small. exact Ha.
  - intros <-. apply Z.mod_pos_bound. apply Z.pow_pos_nonneg; lia.
Qed.

Lemma lor_range (a b n : Z) :
  0 <= n -> 0 <= a < 2 ^ n -> 0 <= b < 2 ^ n -> 0 <= Z.lor a b < 2 ^ n.
Proof.
  intros Hn Ha Hb. apply below_pow2 in Ha, Hb; try assumption.
  apply below_pow2; [assumption|].
  rewrite Z.land_lor_distr_l, Ha, Hb. reflexivity.
Qed.

Lemma lxor_range (a b n : Z) :
  0 <= n -> 0 <= a < 2 ^ n -> 0 <= b < 2 ^ n -> 0 <= Z.lxor a b < 2 ^ n.
Proof.
  intros Hn Ha Hb. apply below_pow2 in Ha, Hb; try assumption.
  apply below_pow2; [assumption|].
  rewrite <- Ha, <- Hb at 2. apply Z.bits_inj'. intros i _.
  rewrite !Z.land_spec, !Z.lxor_spec, !Z.land_spec.
  destruct (Z.testbit a i), (Z.testbit b i), (Z.testbit (Z.ones n) i); reflexivity.
Qed.

Lemma land_range_r (x m n : Z) :
  0 <= n -> 0 <= m < 2 ^ n -> 0 <= Z.land x m < 2 ^ n.
Proof.
  intros Hn Hm. apply below_pow2 in Hm; [|assumption].
  apply below_pow2; [assumption|].
  rewrite <- Z.land_assoc, Hm. reflexivity.
Qed.

Lemma uint32_range (z : Z) : 0 <= uint32 z < 2 ^ 32.
Proof. unfold uint32. apply Z.mod_pos_bound. lia. Qed.

Lemma uint8_range (z : Z) : 0 <= uint8 z < 256.
Proof. unfold uint8. apply (Z.mod_pos_bound z (2 ^ 8)). lia. Qed.

Lemma shl64_exact (x k : Z) :
  0 <= x -> 0 <= k -> x * 2 ^ k < 2 ^ 64 -> etc2.shl64 x k = x * 2 ^ k.
Proof.
  intros Hx Hk Hlt. unfold etc2.shl64, uint64.
  assert (Hp : 0 < 2 ^ k) by (apply Z.pow_pos_nonneg; lia).
  rewrite (Z.mod_small x) by nia.
  rewrite Z.shiftl_mul_pow2 by lia. apply Z.mod_small. nia.
Qed.

Lemma channelByte_shl64_low (x k b lo : Z) :
  0 <= x < b -> 0 <= k -> 0 <= lo <= 64 -> b * 2 ^ k <= 2 ^ lo ->
  codeword.channelByte (etc2.shl64 x k) lo = 0.
Proof.
  intros Hx Hk Hlo Hb.
  assert (Hp : 0 < 2 ^ k) by (apply Z.pow_pos_nonneg; lia).
  assert (Hle : 2 ^ lo <= 2 ^ 64) by (apply Z.pow_le_mono_r; lia).
  rewrite shl64_exact by nia.
  apply channelByte_low; [lia | nia].
Qed.

Lemma channelByte_shl64_high (x k lo : Z) :
  0 <= lo -> lo + 8 <= k -> lo + 8 <= 64 ->
  codeword.channelByte (etc2.shl64 x k) lo = 0.
Proof.
  intros Hlo Hk H64. apply channelByte_high; [assumption|].
  apply shl64_multiple; lia.
Qed.

Lemma channelByte_uint64_low (x lo : Z) :
  0 <= x < 2 ^ 32 -> 32 <= lo -> codeword.channelByte (uint64 x) lo = 0.
Proof.
  intros Hx Hlo. unfold uint64.
  assert (2 ^ 32 <= 2 ^ lo) by (apply Z.pow_le_mono_r; lia).
  rewrite Z.mod_small by lia. apply channelByte_low; lia.
Qed.

Lemma fold_left_inv {A B : Type} (P : A -> Prop) (f : A -> B -> A)
    (l : list B) (a : A) :
  P a -> (forall a x, In x l -> P a -> P (f a x)) -> P (fold_left f l a).
Proof.
  revert a. induction l as [|x l IH]; intros a Ha Hf; [exact Ha|].
  cbn [fold_left]. apply IH.
  - apply Hf; [left; reflexivity | exact Ha].
  - intros a' x' Hx'. apply Hf. right. exact Hx'.
Qed.

Lemma putIndex_range (pixelIndexes bestJ shift : Z) :
  0 <= pixelIndexes < 2 ^ 32 ->
  0 <= etc2.putIndex pixelIndexes bestJ shift < 2 ^ 32.
Proof.
  intros H. unfold etc2.putIndex. cbv zeta.
  apply lor_range; [lia | | apply uint32_range].
  apply lor_range; [lia | exact H | apply uint32_range].
Qed.

Lemma blockIndexes_range (best : Z -> Z * Z) :
  0 <= fst (etc2.blockIndexes best) < 2 ^ 32.
Proof.
  unfold etc2.blockIndexes.
  apply (fold_left_inv (fun st : Z * Z => 0 <= fst st < 2 ^ 32)).
  - cbn. lia.
  - intros [idx loss] i _ H. cbn [fst] in H.
    destruct (best i) as [bestJ bestOneLoss]. cbn [fst].
    apply putIndex_range. exact H.
Qed.

Lemma convert_range (v : Z) :
  0 <= v < 256 -> 0 <= uint8 (uint32 (uint32 (uint32 v + 8) * 15) / 255) < 16.
Proof.
  intros Hv.
  assert (H : allBelow 256
                (fun v => let r := uint8 (uint32 (uint32 (uint32 v + 8) * 15) / 255) in
                          (0 <=? r) && (r <? 16)) = true)
    by (vm_compute; reflexivity).
  pose proof (allBelow_spec _ _ H v Hv) as Hc. cbv beta zeta in Hc. lia.
Qed.

Lemma convert8BitTo4Bit_range (c : (byte * byte * byte) * (byte * byte * byte)) :
  cluster4 (etc2.convert8BitTo4Bit (etc2.cluster8 c)).
Proof.
  destruct c as [[[r0 g0] b0] [[r1 g1] b1]].
  unfold etc2.convert8BitTo4Bit, etc2.cluster8, etc2.mapRGB, cluster4.
  cbn [fst snd].
  repeat split; try (apply convert_range; apply b2z_range);
    apply (proj1 (convert_range _ (b2z_range _))) ||
    apply (proj2 (convert_range _ (b2z_range _))).
Qed.

Lemma swapCluster_range (c : etc2.Cluster) :
  cluster4 c -> cluster4 (etc2.swapCluster c).
Proof.
  destruct c as [[[c00 c01] c02] [[c10 c11] c12]].
  unfold cluster4, etc2.swapCluster. cbn [fst snd]. tauto.
Qed.

(* ----------------------------------------------------------------- *)
(** ** The T mode and the H mode *)

Section ModeTH.

Variable T : etc2.Tables.
Variable clusterfy : list byte -> float -> (byte * byte * byte) * (byte * byte * byte).

Lemma calculateError59T_indexes (pixels : list byte) (c : etc2.Cluster) (a : bool) :
  0 <= snd (fst (etc2.calculateError59T T pixels c a)) < 2 ^ 32.
Proof.
  unfold etc2.calculateError59T.
  apply (fold_left_inv
           (fun st : etc2.Cluster * (Z * Z * Z * Z) => 0 <= snd (fst (snd st)) < 2 ^ 32)).
  - cbn. lia.
  - intros [rgb best] swap _ H. cbn [snd] in *.
    apply (fold_left_inv (fun best : Z * Z * Z * Z => 0 <= snd (fst best) < 2 ^ 32));
      [exact H|].
    intros [[[s w] i] l] which _ Hb. cbv zeta.
    match goal with
    | |- context [etc2.blockIndexes ?f] =>
      pose proof (blockIndexes_range f) as Hr; destruct (etc2.blockIndexes f) as [pi bl]
    end.
    destruct (l >? bl); [exact Hr | exact Hb].
Qed.

Lemma calculateError58H_indexes (pixels : list byte) (c : etc2.Cluster) (a : bool) :
  0 <= snd (fst (etc2.calculateError58H T pixels c a)) < 2 ^ 32.
Proof.
  unfold etc2.calculateError58H. cbv zeta.
  apply (fold_left_inv (fun best : Z * Z * Z * Z => 0 <= snd (fst best) < 2 ^ 32)).
  - cbn. lia.
  - intros [[[s w] i] l] which _ Hb.
    match goal with
    | |- context [etc2.blockIndexes ?f] =>
      pose proof (blockIndexes_range f) as Hr; destruct (etc2.blockIndexes f) as [pi bl]
    end.
    destruct (l >? bl); [exact Hr | exact Hb].
Qed.

(** The search returns one of the clusterings with its own score. *)
Lemma searchClusters_cases (pixels : list byte) (goHarder : bool)
    (prepare : etc2.Cluster -> etc2.Cluster)
    (score : etc2.Cluster -> Z * Z * Z * Z) :
  exists x,
    etc2.searchClusters clusterfy pixels goHarder prepare score
    = (fst (fst (fst (score (prepare (etc2.cluster8 (clusterfy pixels x)))))),
       snd (fst (fst (score (prepare (etc2.cluster8 (clusterfy pixels x)))))),
       snd (fst (score (prepare (etc2.cluster8 (clusterfy pixels x))))),
       prepare (etc2.cluster8 (clusterfy pixels x))).
Proof.
  unfold etc2.searchClusters. destruct goHarder.
  - destruct (score (prepare (etc2.cluster8 (clusterfy pixels 0%float))))
      as [[[s0 w0] i0] l0] eqn:E0.
    destruct (score (prepare (etc2.cluster8 (clusterfy pixels 0.5%float))))
      as [[[s5 w5] i5] l5] eqn:E5.
    destruct (score (prepare (etc2.cluster8 (clusterfy pixels 1%float))))
      as [[[s1 w1] i1] l1] eqn:E1.
    cbn [fst snd].
    destruct (l0 >? l5); cbn [fst snd]; destruct (_ >? l1).
    + exists 1%float. rewrite E1. reflexivity.
    + exists 0.5%float. rewrite E5. reflexivity.
    + exists 1%float. rewrite E1. reflexivity.
    + exists 0%float. rewrite E0. reflexivity.
  - exists 0.5%float.
    destruct (score (prepare (etc2.cluster8 (clusterfy pixels 0.5%float))))
      as [[[s5 w5] i5] l5]. reflexivity.
Qed.

Lemma packT_red (c00 : Z) :
  0 <= c00 < 16 ->
  Z.land (Z.lor (codeword.channelByte (etc2.shl64 (Z.land c00 0x0C) 57) 56)
                (codeword.channelByte (etc2.shl64 (Z.land c00 0x03) 56) 56))
         0xE4 = 0.
Proof.
  intros Hc.
  assert (H : allBelow 16
                (fun c00 =>
                   Z.land (Z.lor (codeword.channelByte (etc2.shl64 (Z.land c00 0x0C) 57) 56)
                                 (codeword.channelByte (etc2.shl64 (Z.land c00 0x03) 56) 56))
                          0xE4 =? 0) = true)
    by (vm_compute; reflexivity).
  pose proof (allBelow_spec _ _ H c00 Hc) as Hb. cbv beta in Hb.
  apply Z.eqb_eq. exact Hb.
Qed.

Lemma packT_tag (c : etc2.Cluster) (which indexes : Z) (a : bool) :
  cluster4 c -> 0 <= indexes < 2 ^ 32 ->
  codeword.tagT (etc2.packT c which indexes a) = true.
Proof.
  destruct c as [[[c00 c01] c02] [[c10 c11] c12]].
  intros (H00 & H01 & H02 & H10 & H11 & H12) Hi.
  unfold codeword.tagT, codeword.overflows, codeword.red, etc2.packT. cbv zeta.
  rewrite forceOverflow_channel by lia.
  apply forceOverflow_overflows; [apply channelByte_range|].
  assert (Hw6 := land_range_r which 0x06 3 ltac:(lia) ltac:(cbn; lia)).
  assert (Hw1 := land_range_r which 0x01 3 ltac:(lia) ltac:(cbn; lia)).
  change (2 ^ 3) with 8 in Hw6, Hw1.
  assert (E : codeword.channelByte
                (Z.lor (Z.lor (Z.lor (Z.lor (Z.lor (Z.lor (Z.lor (Z.lor (Z.lor (Z.lor 0
                   (etc2.shl64 (Z.land c00 0x0C) 57))
                   (etc2.shl64 (Z.land c00 0x03) 56))
                   (etc2.shl64 c01 52))
                   (etc2.shl64 c02 48))
                   (etc2.shl64 c10 44))
                   (etc2.shl64 c11 40))
                   (etc2.shl64 c12 36))
                   (etc2.shl64 (Z.land which 0x06) 33))
                   (etc2.shl64 (Z.land which 0x01) 32))
                   (uint64 indexes)) 56
              = Z.lor (codeword.channelByte (etc2.shl64 (Z.land c00 0x0C) 57) 56)
                      (codeword.channelByte (etc2.shl64 (Z.land c00 0x03) 56) 56)).
  { rewrite !channelByte_lor.
    rewrite (channelByte_shl64_low c01 52 16 56) by (cbn; lia).
    rewrite (channelByte_shl64_low c02 48 16 56) by (cbn; lia).
    rewrite (channelByte_shl64_low c10 44 16 56) by (cbn; lia).
    rewrite (channelByte_shl64_low c11 40 16 56) by (cbn; lia).
    rewrite (channelByte_shl64_low c12 36 16 56) by (cbn; lia).
    rewrite (channelByte_shl64_low (Z.land which 0x06) 33 8 56) by (cbn; lia).
    rewrite (channelByte_shl64_low (Z.land which 0x01) 32 8 56) by (cbn; lia).
    rewrite (channelByte_uint64_low indexes 56) by lia.
    change (codeword.channelByte 0 56) with 0.
    rewrite !Z.lor_0_r. reflexivity. }
  destruct a; cbn [negb].
  - rewrite E. apply packT_red. exact H00.
  - rewrite channelByte_lor, E.
    change (codeword.channelByte (etc2.shl64 1 33) 56) with 0.
    rewrite Z.lor_0_r. apply packT_red. exact H00.
Qed.

(** Every codeword of [encodeT] has the tag of the T mode. *)
Lemma encodeT_tag (pixels : list byte) (formatIsOneBitAlpha goHarder : bool) :
  codeword.tagT (etc2.encodeT T clusterfy pixels formatIsOneBitAlpha goHarder) = true.
Proof.
  unfold etc2.encodeT.
  destruct (searchClusters_cases pixels goHarder etc2.convert8BitTo4Bit
              (fun c => etc2.calculateError59T T pixels c formatIsOneBitAlpha))
    as [x ->].
  apply packT_tag.
  - destruct (_ >? 0); [apply swapCluster_range|]; apply convert8BitTo4Bit_range.
  - apply calculateError59T_indexes.
Qed.

End ModeTH.

Lemma channelByte_0 (lo : Z) : codeword.channelByte 0 lo = 0.
Proof. unfold codeword.channelByte. rewrite Z.shiftr_0_l. reflexivity. Qed.

(** The fields of a codeword that lie wholly above or wholly below a
    channel byte do not reach it. *)
Ltac drop_fields :=
  rewrite ?channelByte_lor;
  repeat match goal with
  | |- context [codeword.channelByte (etc2.shl64 ?x ?k) ?lo] =>
    first [ rewrite (channelByte_shl64_high x k lo) by lia
          | rewrite (channelByte_shl64_low x k 2 lo) by (first [lia | cbn; lia])
          | rewrite (channelByte_shl64_low x k 8 lo) by (first [lia | cbn; lia])
          | rewrite (channelByte_shl64_low x k 16 lo) by (first [lia | cbn; lia])
          | rewrite (channelByte_shl64_low x k 32 lo) by (first [lia | cbn; lia])
          | rewrite (channelByte_shl64_low x k 64 lo) by (first [lia | cbn; lia])
          | rewrite (channelByte_shl64_low x k 128 lo) by (first [lia | cbn; lia]) ]
  | |- context [codeword.channelByte (uint64 ?x) ?lo] =>
    rewrite (channelByte_uint64_low x lo) by lia
  end;
  rewrite ?channelByte_0, ?Z.lor_0_r, ?Z.lor_0_l.

Lemma allBelow2_spec (n m : nat) (p : Z -> Z -> bool) :
  allBelow n (fun x => allBelow m (p x)) = true ->
  forall x y, 0 <= x < Z.of_nat n -> 0 <= y < Z.of_nat m -> p x y = true.
Proof.
  intros H x y Hx Hy.
  apply (allBelow_spec m (p x)); [|exact Hy].
  apply (allBelow_spec n (fun x => allBelow m (p x))); assumption.
Qed.

Lemma packH_red (c00 c01 : Z) :
  0 <= c00 < 16 -> 0 <= c01 < 16 ->
  0 <= Z.lor (codeword.channelByte (etc2.shl64 c00 59) 56)
             (codeword.channelByte (etc2.shl64 (Z.land c01 14) 55) 56) < 128.
Proof.
  intros H0 H1.
  assert (H : allBelow 16 (fun c00 => allBelow 16 (fun c01 =>
                Z.lor (codeword.channelByte (etc2.shl64 c00 59) 56)
                      (codeword.channelByte (etc2.shl64 (Z.land c01 14) 55) 56)
                <? 128)) = true)
    by (vm_compute; reflexivity).
  pose proof (allBelow2_spec _ _ _ H c00 c01 H0 H1) as Hb. cbv beta in Hb.
  split; [|lia].
  apply Z.lor_nonneg. split; apply channelByte_range.
Qed.

Lemma packH_green (c01 c02 : Z) :
  0 <= c01 < 16 -> 0 <= c02 < 16 ->
  Z.land
    (Z.lor
       (Z.lor
          (Z.lor (codeword.channelByte (etc2.shl64 (Z.land c01 14) 55) 48)
             (codeword.channelByte (etc2.shl64 (Z.land c01 1) 52) 48))
          (codeword.channelByte (etc2.shl64 (Z.land c02 8) 48) 48))
       (codeword.channelByte (etc2.shl64 (Z.land c02 7) 47) 48))
    228 = 0.
Proof.
  intros H1 H2.
  assert (H : allBelow 16 (fun c01 => allBelow 16 (fun c02 =>
                Z.land
                  (Z.lor
                     (Z.lor
                        (Z.lor (codeword.channelByte (etc2.shl64 (Z.land c01 14) 55) 48)
                           (codeword.channelByte (etc2.shl64 (Z.land c01 1) 52) 48))
                        (codeword.channelByte (etc2.shl64 (Z.land c02 8) 48) 48))
                     (codeword.channelByte (etc2.shl64 (Z.land c02 7) 47) 48))
                  228 =? 0)) = true)
    by (vm_compute; reflexivity).
  pose proof (allBelow2_spec _ _ _ H c01 c02 H1 H2) as Hb. cbv beta in Hb.
  apply Z.eqb_eq. exact Hb.
Qed.

Lemma packH_tag (c : etc2.Cluster) (which indexes : Z) (a : bool) :
  cluster4 c -> 0 <= indexes < 2 ^ 32 ->
  codeword.tagH (etc2.packH c which indexes a) = true.
Proof.
  destruct c as [[[c00 c01] c02] [[c10 c11] c12]].
  intros (H00 & H01 & H02 & H10 & H11 & H12) Hi.
  assert (Hw4 := land_range_r which 0x04 3 ltac:(lia) ltac:(cbn; lia)).
  assert (Hw2 := land_range_r which 0x02 3 ltac:(lia) ltac:(cbn; lia)).
  assert (Ha := land_range_r c01 0x0E 4 ltac:(lia) ltac:(cbn; lia)).
  assert (Hb := land_range_r c01 0x01 1 ltac:(lia) ltac:(cbn; lia)).
  assert (Hc := land_range_r c02 0x08 4 ltac:(lia) ltac:(cbn; lia)).
  assert (Hd := land_range_r c02 0x07 3 ltac:(lia) ltac:(cbn; lia)).
  change (2 ^ 3) with 8 in *. change (2 ^ 4) with 16 in *. change (2 ^ 1) with 2 in *.
  unfold codeword.tagH, codeword.overflows, codeword.red, codeword.green, etc2.packH.
  cbv zeta.
  rewrite forceOverflow_other by lia.
  rewrite forceOverflow_channel by lia.
  rewrite (forceNoOverflow_other _ 63 48) by lia.
  rewrite forceNoOverflow_red.
  apply andb_true_iff. split.
  - apply negb_true_iff. apply forceNoOverflow_no_overflow.
    destruct a; cbn [negb]; drop_fields; apply packH_red; assumption.
  - apply forceOverflow_overflows; [apply channelByte_range|].
    destruct a; cbn [negb]; drop_fields; apply packH_green; assumption.
Qed.

Lemma unpack444_range (c : Z) :
  let '(c0, c1, c2) := etc2.unpack444 c in
  0 <= c0 < 16 /\ 0 <= c1 < 16 /\ 0 <= c2 < 16.
Proof.
  unfold etc2.unpack444.
  assert (H : forall x, 0 <= uint8 (Z.land 15 x) < 16).
  { intros x. rewrite Z.land_comm.
    pose proof (land_range_r x 15 4 ltac:(lia) ltac:(cbn; lia)) as Hr.
    change (2 ^ 4) with 16 in Hr. unfold uint8.
    change (2 ^ 8) with 256. rewrite Z.mod_small by lia. exact Hr. }
  repeat split; apply H.
Qed.

Lemma unpack444_cluster (a b : Z) : cluster4 (etc2.unpack444 a, etc2.unpack444 b).
Proof.
  pose proof (unpack444_range a) as Ha. pose proof (unpack444_range b) as Hb.
  destruct (etc2.unpack444 a) as [[a0 a1] a2].
  destruct (etc2.unpack444 b) as [[b0 b1] b2].
  unfold cluster4. tauto.
Qed.

Lemma sort4BitColors_range (c : etc2.Cluster) :
  cluster4 c -> cluster4 (etc2.sort4BitColors c).
Proof.
  intros Hc. unfold etc2.sort4BitColors. cbv zeta.
  destruct (_ <? _); [exact Hc|].
  destruct (_ >? _); [apply unpack444_cluster|].
  destruct (_ =? 0); apply unpack444_cluster.
Qed.

Lemma sort4BitColorsWithPixelIndexes_range (c : etc2.Cluster) (which indexes : Z) :
  cluster4 c -> 0 <= indexes < 2 ^ 32 ->
  cluster4 (fst (etc2.sort4BitColorsWithPixelIndexes c which indexes))
  /\ 0 <= snd (etc2.sort4BitColorsWithPixelIndexes c which indexes) < 2 ^ 32.
Proof.
  intros Hc Hi. unfold etc2.sort4BitColorsWithPixelIndexes. cbv zeta.
  destruct (Bool.eqb _ _); cbn [fst snd]; [split; assumption|].
  split; [apply unpack444_cluster|].
  apply lxor_range; [lia | cbn; lia | exact Hi].
Qed.

Section ModeH.

Variable T : etc2.Tables.
Variable clusterfy : list byte -> float -> (byte * byte * byte) * (byte * byte * byte).

(** Every codeword of [encodeH] has the tag of the H mode. *)
Lemma encodeH_tag (pixels : list byte) (formatIsOneBitAlpha goHarder : bool) :
  codeword.tagH (etc2.encodeH T clusterfy pixels formatIsOneBitAlpha goHarder) = true.
Proof.
  unfold etc2.encodeH.
  destruct (searchClusters_cases clusterfy pixels goHarder
              (fun c => etc2.sort4BitColors (etc2.convert8BitTo4Bit c))
              (fun c => etc2.calculateError58H T pixels c formatIsOneBitAlpha))
    as [x ->].
  match goal with
  | |- context [etc2.sort4BitColorsWithPixelIndexes ?c ?w ?i] =>
    assert (Hc : cluster4 c);
      [| pose proof (sort4BitColorsWithPixelIndexes_range c w i Hc
                       (calculateError58H_indexes T pixels _ formatIsOneBitAlpha)) as Hr;
         destruct (etc2.sort4BitColorsWithPixelIndexes c w i) as [c' i'] ]
  end.
  - destruct (_ >? 0); [apply swapCluster_range|];
      apply sort4BitColors_range; apply convert8BitTo4Bit_range.
  - cbn [fst snd] in Hr. apply packH_tag; tauto.
Qed.

End ModeH.

(* ----------------------------------------------------------------- *)
(** ** The Planar mode *)

Lemma below_spec (bound v : Z) : below bound v = true -> 0 <= v < bound.
Proof. unfold below. intros H. apply andb_true_iff in H. lia. Qed.

Lemma packPlanar_red (oR oG : Z) :
  0 <= oR < 64 -> 0 <= oG < 128 ->
  0 <= Z.lor (codeword.channelByte (etc2.shl64 oR (63 - (6 + 0))) 56)
             (codeword.channelByte (etc2.shl64 (Z.land oG 64) (57 - (1 + 6))) 56)
    < 128.
Proof.
  intros H0 H1.
  assert (H : allBelow 64 (fun oR => allBelow 128 (fun oG =>
                Z.lor (codeword.channelByte (etc2.shl64 oR (63 - (6 + 0))) 56)
                      (codeword.channelByte (etc2.shl64 (Z.land oG 64) (57 - (1 + 6))) 56)
                <? 128)) = true)
    by (vm_compute; reflexivity).
  pose proof (allBelow2_spec _ _ _ H oR oG H0 H1) as Hb. cbv beta in Hb.
  split; [|lia].
  apply Z.lor_nonneg. split; apply channelByte_range.
Qed.

Lemma packPlanar_green (oG oB : Z) :
  0 <= oG < 128 -> 0 <= oB < 64 ->
  0 <= Z.lor
         (Z.lor
            (codeword.channelByte (etc2.shl64 (Z.land oG 64) (57 - (1 + 6))) 48)
            (codeword.channelByte (etc2.shl64 (Z.land oG 63) (55 - (6 + 0))) 48))
         (codeword.channelByte (etc2.shl64 (Z.land oB 32) (49 - (1 + 5))) 48)
    < 128.
Proof.
  intros H0 H1.
  assert (H : allBelow 128 (fun oG => allBelow 64 (fun oB =>
                Z.lor
                  (Z.lor
                     (codeword.channelByte (etc2.shl64 (Z.land oG 64) (57 - (1 + 6))) 48)
                     (codeword.channelByte (etc2.shl64 (Z.land oG 63) (55 - (6 + 0))) 48))
                  (codeword.channelByte (etc2.shl64 (Z.land oB 32) (49 - (1 + 5))) 48)
                <? 128)) = true)
    by (vm_compute; reflexivity).
  pose proof (allBelow2_spec _ _ _ H oG oB H0 H1) as Hb. cbv beta in Hb.
  split; [|lia].
  repeat (apply Z.lor_nonneg; split); apply channelByte_range.
Qed.

Lemma packPlanar_blue (oB : Z) :
  0 <= oB < 64 ->
  Z.land
    (Z.lor
       (Z.lor
          (codeword.channelByte (etc2.shl64 (Z.land oB 32) (49 - (1 + 5))) 40)
          (codeword.channelByte (etc2.shl64 (Z.land oB 24) (45 - (2 + 3))) 40))
       (codeword.channelByte (etc2.shl64 (Z.land oB 7) (42 - (3 + 0))) 40))
    228 = 0.
Proof.
  intros H0.
  assert (H : allBelow 64 (fun oB =>
                Z.land
                  (Z.lor
                     (Z.lor
                        (codeword.channelByte (etc2.shl64 (Z.land oB 32) (49 - (1 + 5))) 40)
                        (codeword.channelByte (etc2.shl64 (Z.land oB 24) (45 - (2 + 3))) 40))
                     (codeword.channelByte (etc2.shl64 (Z.land oB 7) (42 - (3 + 0))) 40))
                  228 =? 0) = true)
    by (vm_compute; reflexivity).
  pose proof (allBelow_spec _ _ H oB H0) as Hb. cbv beta in Hb.
  apply Z.eqb_eq. exact Hb.
Qed.

Lemma packPlanar_tag (q : etc2.planar676) :
  planarInRange q = true -> codeword.tagPlanar (etc2.packPlanar q) = true.
Proof.
  destruct q as [oR oG oB hR hG hB vR vG vB].
  unfold planarInRange. cbn [etc2.colorOR6 etc2.colorOG7 etc2.colorOB6
    etc2.colorHR6 etc2.colorHG7 etc2.colorHB6 etc2.colorVR6 etc2.colorVG7 etc2.colorVB6].
  intros H. do 8 (apply andb_true_iff in H; destruct H as [H ?]).
  repeat match goal with Hb : below _ _ = true |- _ => apply below_spec in Hb end.
  assert (Ha := land_range_r oG 0x40 7 ltac:(lia) ltac:(cbn; lia)).
  assert (Hb := land_range_r oG 0x3F 6 ltac:(lia) ltac:(cbn; lia)).
  assert (Hc := land_range_r oB 0x20 6 ltac:(lia) ltac:(cbn; lia)).
  assert (Hd := land_range_r oB 0x18 5 ltac:(lia) ltac:(cbn; lia)).
  assert (He := land_range_r oB 0x07 3 ltac:(lia) ltac:(cbn; lia)).
  assert (Hf := land_range_r hR 0x3E 6 ltac:(lia) ltac:(cbn; lia)).
  assert (Hg := land_range_r hR 0x01 1 ltac:(lia) ltac:(cbn; lia)).
  change (2 ^ 7) with 128 in *. change (2 ^ 6) with 64 in *.
  change (2 ^ 5) with 32 in *. change (2 ^ 3) with 8 in *. change (2 ^ 1) with 2 in *.
  unfold codeword.tagPlanar, codeword.overflows, codeword.red, codeword.green,
    codeword.blue, etc2.packPlanar.
  cbn [etc2.colorOR6 etc2.colorOG7 etc2.colorOB6
    etc2.colorHR6 etc2.colorHG7 etc2.colorHB6 etc2.colorVR6 etc2.colorVG7 etc2.colorVB6].
  cbv zeta.
  rewrite !(forceOverflow_other _ 40) by lia.
  rewrite forceOverflow_channel by lia.
  rewrite (forceNoOverflow_other _ 55 56) by lia.
  rewrite (forceNoOverflow_other _ 55 40) by lia.
  rewrite (forceNoOverflow_other _ 63 40) by lia.
  rewrite forceNoOverflow_green.
  rewrite (forceNoOverflow_other _ 63 48) by lia.
  rewrite forceNoOverflow_red.
  repeat (apply andb_true_iff; split).
  - apply negb_true_iff. apply forceNoOverflow_no_overflow. drop_fields.
    apply packPlanar_red; assumption.
  - apply negb_true_iff. apply forceNoOverflow_no_overflow. drop_fields.
    apply packPlanar_green; assumption.
  - apply forceOverflow_overflows; [apply channelByte_range|]. drop_fields.
    apply packPlanar_blue; assumption.
Qed.

(** Every codeword of [encodePlanar] whose nine quantized colors fit their
    6, 7 and 6 bits has the tag of the Planar mode. *)
Lemma encodePlanar_tag (pixels : list byte) :
  planarInRange (etc2.planarQuantize pixels) = true ->
  codeword.tagPlanar (etc2.encodePlanar pixels) = true.
Proof. intros H. unfold etc2.encodePlanar. apply packPlanar_tag. exact H. Qed.

(* ----------------------------------------------------------------- *)
(** ** The float64 arithmetic of the Planar mode *)

(** The solution of [encodePlanar] is computed in float64. The lemmas
    below bound the results of the roundings of the float64
    specification ([binary_round_aux]), then of the multiplication, the
    addition and the division, and follow the code: the sums are numbers,
    the clamp leaves a number between 0 and 255, and the quantization
    gives an integer within 6 or 7 bits. *)

Lemma pow2_pos (n : Z) : 0 < 2 ^ n \/ (n < 0 /\ 2 ^ n = 0).
Proof.
  destruct (Z.le_gt_cases 0 n) as [H|H].
  - left. apply Z.pow_pos_nonneg; lia.
  - right. split; [lia|]. apply Z.pow_neg_r. lia.
Qed.

Lemma pow2_gt0 (n : Z) : 0 <= n -> 0 < 2 ^ n.
Proof. intros H. apply Z.pow_pos_nonneg; lia. Qed.

Lemma pow2_split (a b : Z) : 0 <= a -> 0 <= b -> 2 ^ (a + b) = 2 ^ a * 2 ^ b.
Proof. intros. apply Z.pow_add_r; assumption. Qed.

(** [vle] at any base below the two exponents. *)
Lemma vle_base (m e g eg b : Z) :
  b <= e -> b <= eg ->
  (vle m e g eg <-> m * 2 ^ (e - b) <= g * 2 ^ (eg - b)).
Proof.
  intros He Hg. unfold vle. set (c := Z.min e eg).
  assert (Hc : b <= c) by (unfold c; lia).
  assert (E1 : 2 ^ (e - b) = 2 ^ (e - c) * 2 ^ (c - b))
    by (rewrite <- pow2_split by (unfold c; lia); f_equal; lia).
  assert (E2 : 2 ^ (eg - b) = 2 ^ (eg - c) * 2 ^ (c - b))
    by (rewrite <- pow2_split by (unfold c; lia); f_equal; lia).
  rewrite E1, E2.
  pose proof (pow2_gt0 (c - b) ltac:(lia)) as Hp.
  split; intros H; nia.
Qed.

Lemma vle_trans (a ea b eb c ec : Z) :
  vle a ea b eb -> vle b eb c ec -> vle a ea c ec.
Proof.
  intros H1 H2.
  set (base := Z.min ea (Z.min eb ec)).
  apply (vle_base a ea b eb base) in H1; [|unfold base; lia ..].
  apply (vle_base b eb c ec base) in H2; [|unfold base; lia ..].
  apply (vle_base a ea c ec base); [unfold base; lia ..|]. lia.
Qed.

Lemma vle_mono_l (a a' e g eg : Z) : a' <= a -> vle a e g eg -> vle a' e g eg.
Proof.
  intros Ha H. unfold vle in *.
  pose proof (pow2_gt0 (e - Z.min e eg) ltac:(lia)). nia.
Qed.

(** ** The number of binary digits *)

Lemma digits2_pos_spec (p : positive) :
  2 ^ (Zpos (digits2_pos p) - 1) <= Zpos p < 2 ^ Zpos (digits2_pos p).
Proof.
  induction p as [p IH|p IH|]; cbn [digits2_pos].
  - rewrite Pos2Z.inj_succ. replace (Z.succ (Zpos (digits2_pos p)) - 1)
      with (Z.succ (Zpos (digits2_pos p) - 1)) by lia.
    rewrite !Z.pow_succ_r by lia. lia.
  - rewrite Pos2Z.inj_succ. replace (Z.succ (Zpos (digits2_pos p)) - 1)
      with (Z.succ (Zpos (digits2_pos p) - 1)) by lia.
    rewrite !Z.pow_succ_r by lia. lia.
  - cbn. lia.
Qed.

Lemma Zdigits2_spec (m : Z) :
  0 < m -> 0 < Zdigits2 m /\ 2 ^ (Zdigits2 m - 1) <= m < 2 ^ Zdigits2 m.
Proof.
  destruct m as [|p|p]; try lia. intros _. cbn [Zdigits2].
  split; [lia | apply digits2_pos_spec].
Qed.

Lemma Zdigits2_0 : Zdigits2 0 = 0.
Proof. reflexivity. Qed.

Lemma Zdigits2_nonneg (m : Z) : 0 <= Zdigits2 m.
Proof. destruct m; cbn; lia. Qed.

(** A lesser value has no more digits above the binary point. *)
Lemma vle_digits (m e g eg : Z) :
  0 < m -> 0 < g -> vle m e g eg -> Zdigits2 m + e <= Zdigits2 g + eg.
Proof.
  intros Hm Hg H. unfold vle in H. set (b := Z.min e eg) in *.
  destruct (Zdigits2_spec m Hm) as [Dm [Lm _]].
  destruct (Zdigits2_spec g Hg) as [Dg [_ Ug]].
  destruct (Z.le_gt_cases (Zdigits2 m + e) (Zdigits2 g + eg)) as [|Hgt]; [assumption|].
  exfalso.
  pose proof (pow2_gt0 (e - b) ltac:(unfold b; lia)) as P1.
  pose proof (pow2_gt0 (eg - b) ltac:(unfold b; lia)) as P2.
  assert (H1 : 2 ^ (Zdigits2 m - 1 + (e - b)) <= m * 2 ^ (e - b))
    by (rewrite pow2_split by (unfold b; lia); nia).
  assert (H2 : g * 2 ^ (eg - b) < 2 ^ (Zdigits2 g + (eg - b)))
    by (rewrite pow2_split by (unfold b; lia); nia).
  assert (H3 : 2 ^ (Zdigits2 g + (eg - b)) <= 2 ^ (Zdigits2 m - 1 + (e - b)))
    by (apply Z.pow_le_mono_r; lia).
  lia.
Qed.

(** ** Rounding to nearest even, as SpecFloat defines it *)

Lemma fexp_eq (e : Z) : fexp prec emax e = Z.max (e - 53) (-1074).
Proof. reflexivity. Qed.

Lemma iter_pos_inv {A : Type} (f : A -> A) (P : Z -> A -> Prop) :
  (forall k x, 0 <= k -> P k x -> P (k + 1) (f x)) ->
  forall p k x, 0 <= k -> P k x -> P (k + Zpos p) (iter_pos f p x).
Proof.
  intros Hf. induction p as [p IH|p IH|]; intros k x Hk Hx; cbn [iter_pos].
  - replace (k + Zpos p~1) with (k + 1 + Zpos p + Zpos p) by lia.
    apply IH; [lia|]. apply IH; [lia|]. apply Hf; assumption.
  - replace (k + Zpos p~0) with (k + Zpos p + Zpos p) by lia.
    apply IH; [lia|]. apply IH; assumption.
  - apply Hf; assumption.
Qed.

Lemma shr_1_spec (mrs : shr_record) :
  0 <= shr_m mrs ->
  0 <= shr_m (shr_1 mrs)
  /\ shr_m (shr_1 mrs) = shr_m mrs / 2
  /\ shr_r (shr_1 mrs) = Z.odd (shr_m mrs).
Proof.
  destruct mrs as [m r s]. cbn [shr_m]. intros Hm.
  destruct m as [|[p|p|]|p]; cbn [shr_1 shr_m shr_r]; try lia.
  all: split; [lia|]; split; [|reflexivity].
  - reflexivity.
  - rewrite (Pos2Z.inj_xI p). apply (Z.div_unique _ 2 _ 1); lia.
  - rewrite (Pos2Z.inj_xO p). apply (Z.div_unique _ 2 _ 0); lia.
  - reflexivity.
Qed.

Lemma shr_spec (m0 : Z) (r0 s0 : bool) (e n : Z) :
  0 <= m0 ->
  (0 < n ->
   0 <= shr_m (fst (shr (Build_shr_record m0 r0 s0) e n))
   /\ shr_m (fst (shr (Build_shr_record m0 r0 s0) e n)) = m0 / 2 ^ n
   /\ shr_r (fst (shr (Build_shr_record m0 r0 s0) e n)) = Z.odd (m0 / 2 ^ (n - 1))
   /\ snd (shr (Build_shr_record m0 r0 s0) e n) = e + n)
  /\ (n <= 0 -> shr (Build_shr_record m0 r0 s0) e n = (Build_shr_record m0 r0 s0, e)).
Proof.
  intros Hm. split.
  - intros Hn. destruct n as [|p|p]; try lia. cbn [shr fst snd].
    pose proof (iter_pos_inv shr_1
                  (fun k mrs => 0 <= shr_m mrs /\ shr_m mrs = m0 / 2 ^ k
                                /\ (1 <= k -> shr_r mrs = Z.odd (m0 / 2 ^ (k - 1)))))
      as H.
    cbv beta in H.
    destruct (H ltac:(
                intros k x Hk (H0 & H1 & H2);
                destruct (shr_1_spec x H0) as (S0 & S1 & S2);
                split; [exact S0|]; split;
                [rewrite S1, H1, Z.pow_add_r, Z.pow_1_r by lia;
                 apply Z.div_div; [apply Z.pow_nonzero; lia | lia]
                |intros _; rewrite S2, H1; replace (k + 1 - 1) with k by lia;
                 reflexivity])
                p 0 (Build_shr_record m0 r0 s0) ltac:(lia)
                ltac:(cbn [shr_m]; split; [exact Hm|]; split;
                      [rewrite Z.pow_0_r, Z.div_1_r; reflexivity | lia]))
      as (H0 & H1 & H2).
    rewrite Z.add_0_l in *. split; [exact H0|]. split; [exact H1|].
    split; [apply H2; lia | reflexivity].
  - intros Hn. destruct n as [|p|p]; try lia; reflexivity.
Qed.

Lemma round_nearest_even_spec (mrs : shr_record) :
  let m1 := round_nearest_even (shr_m mrs) (loc_of_shr_record mrs) in
  shr_m mrs <= m1 <= shr_m mrs + 1 /\ (m1 = shr_m mrs + 1 -> shr_r mrs = true).
Proof.
  destruct mrs as [m [|] [|]]; cbn [shr_m shr_r loc_of_shr_record round_nearest_even].
  - lia.
  - destruct (Z.even m); lia.
  - lia.
  - lia.
Qed.

(** What a location adds to the mantissa at most. *)
Lemma shr_record_of_loc_spec (m : Z) (l : location) :
  shr_m (shr_record_of_loc m l) = m
  /\ (shr_r (shr_record_of_loc m l) = true -> locIncr l = 1).
Proof. destruct l as [|[| |]]; cbn; split; try reflexivity; discriminate. Qed.

Lemma vle_0 (e g eg : Z) : 0 < g -> vle 0 e g eg.
Proof.
  intros Hg. unfold vle. pose proof (pow2_gt0 (eg - Z.min e eg) ltac:(lia)). nia.
Qed.

Lemma shr_record_eta (mrs : shr_record) :
  mrs = Build_shr_record (shr_m mrs) (shr_r mrs) (shr_s mrs).
Proof. destruct mrs; reflexivity. Qed.

(** The first shift of [binary_round_aux] and the rounding: the value
    stays below a bound that has no more than 53 digits. *)
Lemma round_le_first (mx ex : Z) (lx : location) (G eg : Z) :
  0 <= mx -> 0 < G -> Zdigits2 G <= 53 -> -1074 <= eg <= 971 -> ex <= 971 ->
  vle (mx + locIncr lx) ex G eg ->
  let st := shr (shr_record_of_loc mx lx) ex
              (fexp prec emax (Zdigits2 mx + ex) - ex) in
  let m1 := round_nearest_even (shr_m (fst st)) (loc_of_shr_record (fst st)) in
  0 <= m1 /\ vle m1 (snd st) G eg /\ snd st <= 971.
Proof.
  intros Hmx HG HdG Heg Hex Hv. cbv zeta.
  set (n := fexp prec emax (Zdigits2 mx + ex) - ex).
  assert (Hn : n = Z.max (Zdigits2 mx + ex - 53) (-1074) - ex)
    by (unfold n; rewrite fexp_eq; reflexivity).
  destruct (shr_record_of_loc_spec mx lx) as [Em Er].
  rewrite (shr_record_eta (shr_record_of_loc mx lx)), Em.
  set (r0 := shr_r (shr_record_of_loc mx lx)) in *.
  set (s0 := shr_s (shr_record_of_loc mx lx)).
  destruct (shr_spec mx r0 s0 ex n Hmx) as [Hpos Hneg].
  set (st := shr (Build_shr_record mx r0 s0) ex n) in *.
  pose proof (round_nearest_even_spec (fst st)) as Hr. cbv zeta in Hr.
  set (m1 := round_nearest_even (shr_m (fst st)) (loc_of_shr_record (fst st))) in *.
  destruct Hr as [Hr1 Hr2].
  assert (Hincr : 0 <= locIncr lx <= 1) by (destruct lx; cbn; lia).
  destruct (Z.lt_ge_cases 0 n) as [Hn0|Hn0].
  - destruct (Hpos Hn0) as (H0 & H1 & H2 & H3). clear Hpos Hneg.
    rewrite H3. rewrite H1 in Hr1. rewrite H1, H2 in Hr2.
    destruct (Z.eq_dec mx 0) as [Ez|Nz].
    + subst mx. rewrite Z.div_0_l in Hr1, Hr2 by (apply Z.pow_nonzero; lia).
      rewrite Z.div_0_l in Hr2 by (apply Z.pow_nonzero; lia).
      assert (E1 : m1 = 0).
      { destruct (Z.eq_dec m1 (0 + 1)) as [E|N]; [|lia].
        specialize (Hr2 E). discriminate. }
      rewrite E1. split; [lia|]. split; [apply vle_0; exact HG|].
      rewrite Zdigits2_0 in Hn. lia.
    + assert (Hv0 : vle mx ex G eg) by (apply (vle_mono_l (mx + locIncr lx)); [lia | exact Hv]).
      pose proof (vle_digits mx ex G eg ltac:(lia) HG Hv0) as Hd.
      assert (He' : ex + n <= eg) by lia.
      apply (vle_base _ _ _ _ ex) in Hv; [|lia ..].
      rewrite Z.sub_diag, Z.pow_0_r, Z.mul_1_r in Hv.
      replace (eg - ex) with ((eg - (ex + n)) + n) in Hv by lia.
      rewrite pow2_split in Hv by lia.
      pose proof (pow2_gt0 n ltac:(lia)) as HP.
      pose proof (pow2_gt0 (eg - (ex + n)) ltac:(lia)) as HQ.
      set (P := 2 ^ n) in *. set (Q := 2 ^ (eg - (ex + n))) in *.
      pose proof (Z.mul_div_le mx P HP) as Hlo.
      pose proof (Z.mul_succ_div_gt mx P HP) as Hhi.
      set (m' := mx / P) in *.
      assert (Hm1 : m1 <= G * Q).
      { destruct (Z.eq_dec m1 (m' + 1)) as [E|N]; [|nia].
        specialize (Hr2 E).
        destruct (Z.lt_ge_cases m' (G * Q)) as [Hlt|Hge]; [lia|].
        exfalso.
        assert (Emx : mx = G * Q * P) by nia.
        assert (EP : P = 2 ^ (n - 1) * 2).
        { unfold P. replace n with ((n - 1) + 1) at 1 by lia.
          rewrite pow2_split by lia. reflexivity. }
        assert (Ediv : mx / 2 ^ (n - 1) = G * Q * 2).
        { rewrite Emx, EP.
          replace (G * Q * (2 ^ (n - 1) * 2)) with (G * Q * 2 * 2 ^ (n - 1)) by ring.
          apply Z.div_mul. apply Z.pow_nonzero; lia. }
        rewrite Ediv, Z.odd_mul in Hr2.
        rewrite andb_false_r in Hr2. discriminate. }
      split; [lia|]. split; [|lia].
      apply (vle_base _ _ _ _ (ex + n)); [lia ..|].
      rewrite Z.sub_diag, Z.pow_0_r, Z.mul_1_r. exact Hm1.
  - rewrite (Hneg Hn0) in *. cbn [fst snd shr_m shr_r] in *.
    split; [lia|]. split; [|exact Hex].
    apply (vle_mono_l (mx + locIncr lx)); [|exact Hv].
    destruct (Z.eq_dec m1 (mx + 1)) as [E|N]; [|lia].
    rewrite (Er (Hr2 E)). lia.
Qed.

(** The second shift, after the rounding. *)
Lemma round_le_second (m1 e' G eg : Z) :
  0 <= m1 -> 0 < G -> Zdigits2 G <= 53 -> -1074 <= eg <= 971 -> e' <= 971 ->
  vle m1 e' G eg ->
  let st := shr (Build_shr_record m1 false false) e'
              (fexp prec emax (Zdigits2 m1 + e') - e') in
  0 <= shr_m (fst st) /\ vle (shr_m (fst st)) (snd st) G eg
  /\ (0 < shr_m (fst st) -> snd st <= 971).
Proof.
  intros Hm HG HdG Heg He Hv. cbv zeta.
  set (n := fexp prec emax (Zdigits2 m1 + e') - e').
  assert (Hn : n = Z.max (Zdigits2 m1 + e' - 53) (-1074) - e')
    by (unfold n; rewrite fexp_eq; reflexivity).
  destruct (shr_spec m1 false false e' n Hm) as [Hpos Hneg].
  set (st := shr (Build_shr_record m1 false false) e' n) in *.
  destruct (Z.lt_ge_cases 0 n) as [Hn0|Hn0].
  - destruct (Hpos Hn0) as (H0 & H1 & _ & H3). rewrite H1, H3.
    pose proof (pow2_gt0 n ltac:(lia)) as HP.
    pose proof (Z.mul_div_le m1 (2 ^ n) HP) as Hlo.
    split; [rewrite <- H1; exact H0|]. split.
    + apply (vle_trans _ _ m1 e'); [|exact Hv].
      apply (vle_base _ _ _ _ e'); [lia ..|].
      rewrite Z.sub_diag, Z.pow_0_r, Z.mul_1_r.
      replace (e' + n - e') with n by lia. lia.
    + intros Hq.
      assert (Hm1 : 0 < m1).
      { destruct (Z.eq_dec m1 0) as [E|N]; [|lia].
        rewrite E, Z.div_0_l in Hq by lia. lia. }
      pose proof (vle_digits m1 e' G eg Hm1 HG Hv). lia.
  - rewrite (Hneg Hn0). cbn [fst snd shr_m].
    split; [exact Hm|]. split; [exact Hv|]. intros _. exact He.
Qed.

(** [binary_round_aux] on a value that is at most a bound of no more than
    53 digits gives a zero or a finite number that is at most the
    bound. *)
Lemma round_le (sx : bool) (mx ex : Z) (lx : location) (G eg : Z) :
  0 <= mx -> 0 < G -> Zdigits2 G <= 53 -> -1074 <= eg <= 971 -> ex <= 971 ->
  vle (mx + locIncr lx) ex G eg ->
  binary_round_aux prec emax sx mx ex lx = S754_zero sx
  \/ exists m e, binary_round_aux prec emax sx mx ex lx = S754_finite sx m e
                 /\ vle (Zpos m) e G eg /\ e <= 971.
Proof.
  intros Hmx HG HdG Heg Hex Hv.
  pose proof (round_le_first mx ex lx G eg Hmx HG HdG Heg Hex Hv) as H1.
  cbv zeta in H1. unfold binary_round_aux, shr_fexp.
  destruct (shr (shr_record_of_loc mx lx) ex
              (fexp prec emax (Zdigits2 mx + ex) - ex)) as [mrs' e'].
  cbn [fst snd] in H1. destruct H1 as (Hm1 & Hv1 & He1).
  set (m1 := round_nearest_even (shr_m mrs') (loc_of_shr_record mrs')) in *.
  pose proof (round_le_second m1 e' G eg Hm1 HG HdG Heg He1 Hv1) as H2.
  cbv zeta in H2. cbn [shr_record_of_loc].
  destruct (shr (Build_shr_record m1 false false) e'
              (fexp prec emax (Zdigits2 m1 + e') - e')) as [mrs'' e''].
  cbn [fst snd] in H2. destruct H2 as (Hm2 & Hv2 & He2).
  destruct (shr_m mrs'') as [|m|m]; [left; reflexivity | | lia].
  right. specialize (He2 ltac:(lia)).
  assert (E : (e'' <=? emax - prec) = true) by (apply Z.leb_le; exact He2).
  rewrite E. exists m, e''. split; [reflexivity|]. split; assumption.
Qed.

Lemma sfLeb_sound (pos : bool) (E N k : Z) (x : spec_float) :
  sfLeb pos E N k x = true -> sfLe pos E N k x.
Proof.
  destruct x as [s| s| |s m e]; cbn; try discriminate; [trivial|].
  intros H. apply andb_prop in H. destruct H as [H H3].
  apply andb_prop in H. destruct H as [H1 H2].
  split; [|split].
  - intros ->. destruct s; [discriminate|reflexivity].
  - unfold vle. apply Z.leb_le. exact H2.
  - apply Z.leb_le. exact H3.
Qed.

Lemma sfLe_weaken (pos : bool) (E E' N N' k : Z) (x : spec_float) :
  E <= E' -> vle N k N' k -> sfLe pos E N k x -> sfLe pos E' N' k x.
Proof.
  intros HE HN. destruct x as [s| s| |s m e]; cbn; trivial.
  intros (H1 & H2 & H3). split; [exact H1|]. split; [|lia].
  apply (vle_trans _ _ N k); assumption.
Qed.

Lemma vle_same (a b k : Z) : a <= b -> vle a k b k.
Proof.
  intros H. unfold vle. rewrite Z.min_id, Z.sub_diag, Z.pow_0_r. lia.
Qed.

Lemma sfLe_rescale (pos : bool) (E N k N' k' : Z) (x : spec_float) :
  vle N k N' k' -> sfLe pos E N k x -> sfLe pos E N' k' x.
Proof.
  intros HN. destruct x as [s| s| |s m e]; cbn; trivial.
  intros (H1 & H2 & H3). split; [exact H1|]. split; [|lia].
  apply (vle_trans _ _ N k); assumption.
Qed.

Lemma Zdigits2_le (G : Z) : 0 < G < 2 ^ 53 -> Zdigits2 G <= 53.
Proof.
  intros H. destruct (Zdigits2_spec G ltac:(lia)) as (Hd & Hlo & _).
  destruct (Z.le_gt_cases (Zdigits2 G) 53) as [L|L]; [exact L|].
  exfalso.
  assert (2 ^ 53 <= 2 ^ (Zdigits2 G - 1)) by (apply Z.pow_le_mono_r; lia).
  lia.
Qed.

Lemma round_sfLe (pos sx : bool) (mx ex : Z) (lx : location) (G eg : Z) :
  (pos = true -> sx = false) ->
  0 <= mx -> 0 < G < 2 ^ 53 -> -1074 <= eg <= 971 -> ex <= 971 ->
  vle (mx + locIncr lx) ex G eg ->
  sfLe pos 971 G eg (binary_round_aux prec emax sx mx ex lx).
Proof.
  intros Hs Hm HG Heg Hex Hv.
  destruct (round_le sx mx ex lx G eg Hm ltac:(lia) (Zdigits2_le G HG) Heg Hex Hv)
    as [E|(m & e & E & H1 & H2)]; rewrite E; cbn; auto.
Qed.

Lemma vle_mul (m e A ka m' e' B kb : Z) :
  0 <= m -> 0 <= m' -> 0 <= A -> 0 <= B ->
  vle m e A ka -> vle m' e' B kb -> vle (m * m') (e + e') (A * B) (ka + kb).
Proof.
  intros Hm Hm' HA HB H1 H2.
  apply (vle_base _ _ _ _ (Z.min e ka)) in H1; [|lia ..].
  apply (vle_base _ _ _ _ (Z.min e' kb)) in H2; [|lia ..].
  apply (vle_base _ _ _ _ (Z.min e ka + Z.min e' kb)); [lia ..|].
  replace (e + e' - (Z.min e ka + Z.min e' kb))
    with ((e - Z.min e ka) + (e' - Z.min e' kb)) by lia.
  replace (ka + kb - (Z.min e ka + Z.min e' kb))
    with ((ka - Z.min e ka) + (kb - Z.min e' kb)) by lia.
  rewrite !pow2_split by lia.
  pose proof (pow2_gt0 (e - Z.min e ka) ltac:(lia)).
  pose proof (pow2_gt0 (e' - Z.min e' kb) ltac:(lia)).
  pose proof (pow2_gt0 (ka - Z.min e ka) ltac:(lia)).
  pose proof (pow2_gt0 (kb - Z.min e' kb) ltac:(lia)).
  set (p1 := 2 ^ (e - Z.min e ka)) in *. set (p2 := 2 ^ (e' - Z.min e' kb)) in *.
  set (q1 := 2 ^ (ka - Z.min e ka)) in *. set (q2 := 2 ^ (kb - Z.min e' kb)) in *.
  replace (m * m' * (p1 * p2)) with ((m * p1) * (m' * p2)) by ring.
  replace (A * B * (q1 * q2)) with ((A * q1) * (B * q2)) by ring.
  apply Z.mul_le_mono_nonneg;
    [apply Z.mul_nonneg_nonneg; lia | exact H1 | apply Z.mul_nonneg_nonneg; lia | exact H2].
Qed.

(** float64 multiplication of two numbers whose exponents add up to at most
    971. *)
Lemma SFmul_le (pos : bool) (E1 E2 A ka B kb : Z) (x y : spec_float) :
  0 < A -> 0 < B -> A * B < 2 ^ 53 -> -1074 <= ka + kb <= 971 ->
  E1 + E2 <= 971 ->
  sfLe pos E1 A ka x -> sfLe pos E2 B kb y ->
  sfLe pos 971 (A * B) (ka + kb) (SFmul prec emax x y).
Proof.
  intros HA HB HAB Hk HE Hx Hy.
  destruct x as [sx| sx| |sx mx ex]; cbn in Hx; try contradiction;
    destruct y as [sy| sy| |sy my ey]; cbn in Hy; try contradiction;
    try exact I.
  destruct Hx as (Hsx & Hvx & Hex). destruct Hy as (Hsy & Hvy & Hey).
  unfold SFmul. apply round_sfLe.
  - intros Hp. rewrite (Hsx Hp), (Hsy Hp). reflexivity.
  - lia.
  - nia.
  - exact Hk.
  - lia.
  - cbn [locIncr]. rewrite Z.add_0_r, Pos2Z.inj_mul.
    apply vle_mul; try lia; assumption.
Qed.

Lemma pos_iter_xO (m d : positive) :
  Z.pos (Pos.iter xO m d) = Z.pos m * 2 ^ Z.pos d.
Proof.
  induction d as [|d IH] using Pos.peano_ind.
  - cbn [Pos.iter]. rewrite (Pos2Z.inj_xO m). change (2 ^ 1) with 2. ring.
  - rewrite Pos.iter_succ, (Pos2Z.inj_xO (Pos.iter xO m d)), IH, Pos2Z.inj_succ,
      Z.pow_succ_r by lia.
    ring.
Qed.

Lemma shl_align_spec (mx : positive) (ex ex' : Z) :
  snd (shl_align mx ex ex') = Z.min ex ex'
  /\ Z.pos (fst (shl_align mx ex ex')) = Z.pos mx * 2 ^ (ex - Z.min ex ex').
Proof.
  unfold shl_align. destruct (ex' - ex) as [|d|d] eqn:E; cbn [fst snd].
  - replace (Z.min ex ex') with ex by lia. rewrite Z.sub_diag. cbn. lia.
  - replace (Z.min ex ex') with ex by lia. rewrite Z.sub_diag. cbn. lia.
  - replace (Z.min ex ex') with ex' by lia.
    replace (ex - ex') with (Z.pos d) by lia.
    split; [reflexivity | apply pos_iter_xO].
Qed.

Lemma vle_shift (m e b : Z) : b <= e -> vle (m * 2 ^ (e - b)) b m e.
Proof.
  intros H. apply (vle_base _ _ _ _ b); [lia ..|].
  rewrite Z.sub_diag, Z.pow_0_r. lia.
Qed.

Lemma binary_round_sfLe (pos s : bool) (m : positive) (e G eg : Z) :
  (pos = true -> s = false) ->
  0 < G < 2 ^ 53 -> -1074 <= eg <= 971 ->
  vle (Z.pos m) e G eg ->
  sfLe pos 971 G eg (binary_round prec emax s m e).
Proof.
  intros Hs HG Heg Hv. unfold binary_round.
  set (f := fexp prec emax (Z.pos (digits2_pos m) + e)).
  destruct (shl_align_spec m e f) as [H1 H2].
  destruct (shl_align m e f) as [mz ez]. cbn [fst snd] in H1, H2.
  pose proof (vle_digits (Z.pos m) e G eg ltac:(lia) ltac:(lia) Hv) as Hd.
  pose proof (Zdigits2_le G HG) as HdG.
  change (Zdigits2 (Z.pos m)) with (Z.pos (digits2_pos m)) in Hd.
  assert (Hf : f <= 971) by (unfold f; rewrite fexp_eq; lia).
  apply round_sfLe; try assumption; try lia.
  cbn [locIncr]. rewrite Z.add_0_r.
  apply (vle_trans _ _ (Z.pos m) e); [|exact Hv].
  rewrite H2, H1. apply vle_shift. lia.
Qed.

(** float64 addition of two numbers bounded on the same scale. *)
Lemma SFadd_le (pos : bool) (A B k : Z) (x y : spec_float) :
  0 < A -> 0 < B -> A + B < 2 ^ 53 -> -1074 <= k <= 971 ->
  sfLe pos 971 A k x -> sfLe pos 971 B k y ->
  sfLe pos 971 (A + B) k (SFadd prec emax x y).
Proof.
  intros HA HB HAB Hk Hx Hy.
  destruct x as [sx| sx| |sx mx ex]; cbn in Hx; try contradiction;
    destruct y as [sy| sy| |sy my ey]; cbn in Hy; try contradiction.
  - destruct sx, sy; exact I.
  - cbn [SFadd]. apply (sfLe_weaken pos 971 971 B (A + B) k); [lia| |exact Hy].
    apply vle_same; lia.
  - cbn [SFadd]. apply (sfLe_weaken pos 971 971 A (A + B) k); [lia| |exact Hx].
    apply vle_same; lia.
  - destruct Hx as (Hsx & Hvx & Hex). destruct Hy as (Hsy & Hvy & Hey).
    unfold SFadd. cbv zeta.
    change (IntDef.Z.min ex ey) with (Z.min ex ey).
    set (ez := Z.min ex ey).
    destruct (shl_align_spec mx ex ez) as [_ H1].
    destruct (shl_align_spec my ey ez) as [_ H2].
    replace (Z.min ex ez) with ez in H1 by lia.
    replace (Z.min ey ez) with ez in H2 by lia.
    set (M1 := Z.pos (fst (shl_align mx ex ez))) in *.
    set (M2 := Z.pos (fst (shl_align my ey ez))) in *.
    assert (Hsum : vle (M1 + M2) ez (A + B) k).
    { apply (vle_base _ _ _ _ (Z.min ex k)) in Hvx; [|lia ..].
      apply (vle_base _ _ _ _ (Z.min ey k)) in Hvy; [|lia ..].
      apply (vle_base _ _ _ _ (Z.min ez k)); [lia ..|].
      rewrite H1, H2.
      pose proof (pow2_gt0 (ez - Z.min ez k) ltac:(lia)) as Hp.
      assert (Ex : Z.pos mx * 2 ^ (ex - ez) * 2 ^ (ez - Z.min ez k)
                   = Z.pos mx * 2 ^ (ex - Z.min ex k) * 2 ^ (Z.min ex k - Z.min ez k)).
      { rewrite <- !Z.mul_assoc, <- !pow2_split by lia. do 2 f_equal. lia. }
      assert (Ey : Z.pos my * 2 ^ (ey - ez) * 2 ^ (ez - Z.min ez k)
                   = Z.pos my * 2 ^ (ey - Z.min ey k) * 2 ^ (Z.min ey k - Z.min ez k)).
      { rewrite <- !Z.mul_assoc, <- !pow2_split by lia. do 2 f_equal. lia. }
      assert (EA : A * 2 ^ (k - Z.min ez k)
                   = A * 2 ^ (k - Z.min ex k) * 2 ^ (Z.min ex k - Z.min ez k)).
      { rewrite <- !Z.mul_assoc, <- !pow2_split by lia. do 2 f_equal. lia. }
      assert (EB : B * 2 ^ (k - Z.min ez k)
                   = B * 2 ^ (k - Z.min ey k) * 2 ^ (Z.min ey k - Z.min ez k)).
      { rewrite <- !Z.mul_assoc, <- !pow2_split by lia. do 2 f_equal. lia. }
      rewrite !Z.mul_add_distr_r, Ex, Ey, EA, EB.
      pose proof (pow2_gt0 (Z.min ex k - Z.min ez k) ltac:(lia)).
      pose proof (pow2_gt0 (Z.min ey k - Z.min ez k) ltac:(lia)).
      apply Z.add_le_mono; apply Z.mul_le_mono_nonneg_r;
        first [assumption | apply Z.lt_le_incl; assumption]. }
    assert (HM1 : 0 < M1) by (unfold M1; lia).
    assert (HM2 : 0 < M2) by (unfold M2; lia).
    unfold binary_normalize.
    destruct (cond_Zopp sx M1 + cond_Zopp sy M2) as [|p|p] eqn:EZ.
    + exact I.
    + apply binary_round_sfLe; try assumption; try lia; try (intros _; reflexivity).
      apply (vle_mono_l (M1 + M2)); [|exact Hsum].
      rewrite <- EZ. destruct sx, sy; cbn [cond_Zopp]; lia.
    + apply binary_round_sfLe; try assumption; try lia.
      * intros Hp. exfalso. rewrite (Hsx Hp), (Hsy Hp) in EZ.
        cbn [cond_Zopp] in EZ. lia.
      * apply (vle_mono_l (M1 + M2)); [|exact Hsum].
        assert (Z.pos p = - (cond_Zopp sx M1 + cond_Zopp sy M2)) by (rewrite EZ; lia).
        destruct sx, sy; cbn [cond_Zopp] in *; lia.
Qed.

Lemma new_location_incr (nb k : Z) :
  0 <= locIncr (new_location nb k) <= 1
  /\ (k = 0 -> locIncr (new_location nb k) = 0).
Proof.
  unfold new_location, new_location_even, new_location_odd.
  destruct (IntDef.Z.even nb); destruct (k =? 0) eqn:E; cbn [locIncr];
    (split; [lia|]); intros Hk; try reflexivity;
    subst k; discriminate.
Qed.

(** float64 division by a positive number [D * 2 ^ 0] of 53 digits. *)
Lemma SFdiv_le (pos : bool) (N D : Z) (my : positive) (ey : Z) (x : spec_float) :
  0 < N < 2 ^ 53 -> 0 < D -> ey <= 0 ->
  Z.pos my = D * 2 ^ (- ey) -> Zdigits2 (Z.pos my) = 53 ->
  Zdigits2 (N * D) <= 106 + ey ->
  sfLe pos 971 (N * D) 0 x ->
  sfLe pos 971 N 0 (SFdiv prec emax x (S754_finite false my ey)).
Proof.
  intros HN HD Hey Emy Hdy HdND Hx.
  destruct x as [sx| sx| |sx mx ex]; cbn in Hx; try contradiction; [exact I|].
  destruct Hx as (Hsx & Hvx & Hex).
  unfold SFdiv, SFdiv_core_binary. cbv zeta.
  rewrite Hdy.
  change IntDef.Z.min with Z.min. change IntDef.Z.shiftl with Z.shiftl.
  change IntDef.Z.div_eucl with Z.div_eucl.
  set (e' := Z.min (fexp prec emax (Zdigits2 (Z.pos mx) + ex - (53 + ey))) (ex - ey)).
  pose proof (vle_digits (Z.pos mx) ex (N * D) 0 ltac:(lia) ltac:(nia) Hvx) as Hd.
  assert (He' : e' <= 0 /\ e' <= ex - ey /\ -1074 <= e' \/ e' <= 0 /\ e' <= ex - ey).
  { right. unfold e'. rewrite fexp_eq. lia. }
  assert (He0 : e' <= 0) by lia. assert (He1 : e' <= ex - ey) by lia. clear He'.
  set (s := ex - ey - e').
  assert (Em' : match s with
                | 0 => Z.pos mx
                | Z.pos _ => Z.shiftl (Z.pos mx) s
                | Z.neg _ => 0
                end = Z.pos mx * 2 ^ s).
  { assert (Hs : 0 <= s) by (unfold s; lia).
    destruct s as [|p|p] eqn:Es; [cbn; lia | | lia].
    apply Z.shiftl_mul_pow2. lia. }
  rewrite Em'.
  pose proof (Z_div_mod (Z.pos mx * 2 ^ s) (Z.pos my) ltac:(lia)) as Hdm.
  destruct (Z.div_eucl (Z.pos mx * 2 ^ s) (Z.pos my)) as [q r].
  destruct Hdm as [Eq Hr].
  pose proof (pow2_gt0 s ltac:(unfold s; lia)) as Hps.
  assert (Hq : 0 <= q) by nia.
  destruct (new_location_incr (Z.pos my) r) as [Hl0 Hl1].
  apply round_sfLe; try lia.
  - intros Hp. rewrite (Hsx Hp). reflexivity.
  - apply (vle_base _ _ _ _ e'); [lia ..|].
    rewrite Z.sub_diag, Z.pow_0_r, Z.mul_1_r.
    apply (vle_base _ _ _ _ (e' + ey)) in Hvx; [|lia ..].
    replace (ex - (e' + ey)) with s in Hvx by (unfold s; lia).
    replace (0 - (e' + ey)) with ((- ey) + (0 - e')) in Hvx by lia.
    rewrite pow2_split in Hvx by lia.
    pose proof (pow2_gt0 (0 - e') ltac:(lia)) as Hpe.
    set (K := 2 ^ (0 - e')) in *.
    assert (Hb : Z.pos my * q + r <= N * K * Z.pos my).
    { rewrite <- Eq, Emy. nia. }
    destruct (Z.eq_dec r 0) as [Er|Nr].
    + rewrite (Hl1 Er). nia.
    + assert (q < N * K) by nia. lia.
Qed.

Lemma f64_byte_le (n : Z) : 0 <= n < 256 -> f64AbsLe 255 (etc2.f64 n).
Proof.
  intros Hn. unfold f64AbsLe, etc2.f64.
  replace (n <? 0) with false by (symmetry; apply Z.ltb_ge; lia).
  rewrite of_uint63_spec, Uint63.of_Z_spec.
  rewrite Z.mod_small
    by (change Uint63Axioms.wB with 9223372036854775808; lia).
  unfold binary_normalize. destruct n as [|p|p]; [exact I | | lia].
  apply binary_round_sfLe; try lia.
  apply vle_same. lia.
Qed.

Lemma fx_Forall (P : float -> Prop) (l : list float) (i : Z) :
  P 0%float -> Forall P l -> P (etc2.fx l i).
Proof.
  intros H0 H. unfold etc2.fx.
  destruct (nth_in_or_default (Z.to_nat i) l 0%float) as [Hin|E].
  - rewrite Forall_forall in H. apply H. exact Hin.
  - rewrite E. exact H0.
Qed.

Lemma fx2_Forall (P : float -> Prop) (a : list (list float)) (i j : Z) :
  P 0%float -> Forall (Forall P) a -> P (etc2.fx2 a i j).
Proof.
  intros H0 H. unfold etc2.fx2. apply fx_Forall; [exact H0|].
  destruct (nth_in_or_default (Z.to_nat i) a []) as [Hin|E].
  - rewrite Forall_forall in H. apply H. exact Hin.
  - rewrite E. constructor.
Qed.

Lemma unitEntry_sound (v : float) :
  unitEntry v = true -> sfLe false 0 1 0 (Prim2SF v).
Proof. apply sfLeb_sound. Qed.

Lemma forallb2_Forall (P : float -> Prop) (f : float -> bool) (a : list (list float)) :
  (forall v, f v = true -> P v) ->
  forallb (forallb f) a = true -> Forall (Forall P) a.
Proof.
  intros Hf H. rewrite forallb_forall in H. apply Forall_forall. intros l Hl.
  specialize (H l Hl). rewrite forallb_forall in H. apply Forall_forall.
  intros v Hv. apply Hf. apply H. exact Hv.
Qed.

Lemma zMatrix_unit : Forall (Forall (fun v => sfLe false 0 1 0 (Prim2SF v))) etc2.zMatrix.
Proof.
  apply (forallb2_Forall _ unitEntry); [exact unitEntry_sound|].
  vm_compute. reflexivity.
Qed.

Lemma cMatrix_unit : Forall (Forall (fun v => sfLe false 0 1 0 (Prim2SF v))) etc2.cMatrix.
Proof.
  apply (forallb2_Forall _ unitEntry); [exact unitEntry_sound|].
  vm_compute. reflexivity.
Qed.

Lemma unit_mul_le (N : Z) (z v : float) :
  0 < N < 2 ^ 53 ->
  sfLe false 0 1 0 (Prim2SF z) -> f64AbsLe N v -> f64AbsLe N (z * v)%float.
Proof.
  intros HN Hz Hv. unfold f64AbsLe in *. rewrite mul_spec.
  pose proof (SFmul_le false 0 971 1 0 N 0 (Prim2SF z) (Prim2SF v)) as H.
  rewrite Z.mul_1_l in H. apply H; try lia; assumption.
Qed.

Lemma add_le (A B : Z) (u v : float) :
  0 < A -> 0 < B -> A + B < 2 ^ 53 ->
  f64AbsLe A u -> f64AbsLe B v -> f64AbsLe (A + B) (u + v)%float.
Proof.
  intros HA HB HAB Hu Hv. unfold f64AbsLe in *. rewrite add_spec.
  apply SFadd_le; try lia; assumption.
Qed.

(** A sum [sum += term(i)] of terms that are at most [T] in magnitude. *)
Lemma fold_sum_le (term : Z -> float) (T : Z) (l : list Z) (A : Z) (acc : float) :
  0 < T -> 0 < A -> A + T * Z.of_nat (length l) < 2 ^ 53 ->
  (forall i, f64AbsLe T (term i)) ->
  f64AbsLe A acc ->
  f64AbsLe (A + T * Z.of_nat (length l))
           (fold_left (fun sum i => (sum + term i)%float) l acc).
Proof.
  intros HT. revert A acc. induction l as [|i l IH]; intros A acc HA Hb Hterm Hacc.
  - cbn. replace (A + T * 0) with A by lia. exact Hacc.
  - cbn [fold_left]. cbn [length] in *. rewrite Nat2Z.inj_succ in *.
    replace (A + T * Z.succ (Z.of_nat (length l)))
      with ((A + T) + T * Z.of_nat (length l)) in * by lia.
    apply IH; try lia; try assumption.
    apply add_le; try lia; [exact Hacc | apply Hterm].
Qed.

Lemma f64AbsLe_zero (N : Z) : f64AbsLe N 0%float.
Proof. exact I. Qed.

Lemma f64AbsLe_weaken (N N' : Z) (v : float) :
  N <= N' -> f64AbsLe N v -> f64AbsLe N' v.
Proof.
  intros H. unfold f64AbsLe. apply sfLe_weaken; [lia | apply vle_same; exact H].
Qed.

Lemma Forall_map_all {A B : Type} (P : B -> Prop) (f : A -> B) (l : list A) :
  (forall x, P (f x)) -> Forall P (map f l).
Proof. intros H. apply Forall_forall. intros y Hy. apply in_map_iff in Hy.
  destruct Hy as (x & <- & _). apply H. Qed.

(** Before the clamp, the solution of a channel is a number. *)
Lemma planarSolve_finite (pixels : list byte) (channel k : Z) :
  let bMatrix := map (fun i => etc2.f64 (at8 pixels (4 * i + channel))) (range 16) in
  let dMatrix :=
    map (fun a =>
           fold_left (fun sum i => (sum + etc2.fx2 etc2.zMatrix a i * etc2.fx bMatrix i)%float)
                     (range 16) 0%float)
        (range 3) in
  let xMatrix :=
    map (fun c =>
           fold_left (fun sum i => (sum + etc2.fx2 etc2.cMatrix c i * etc2.fx dMatrix i)%float)
                     (range 3) 0%float)
        (range 3) in
  f64AbsLe 12244 (etc2.fx xMatrix k).
Proof.
  intros bMatrix dMatrix xMatrix.
  assert (Hb : forall i, f64AbsLe 255 (etc2.fx bMatrix i)).
  { intros i. apply fx_Forall; [apply f64AbsLe_zero|].
    apply Forall_map_all. intros j. apply f64_byte_le. apply at8_range. }
  assert (Hd : forall a, f64AbsLe 4081 (etc2.fx dMatrix a)).
  { intros a. apply fx_Forall; [apply f64AbsLe_zero|].
    apply Forall_map_all. intros j.
    apply (fold_sum_le (fun i => (etc2.fx2 etc2.zMatrix j i * etc2.fx bMatrix i)%float)
             255 (range 16) 1 0%float);
      [lia | lia | vm_compute; reflexivity | | apply f64AbsLe_zero].
    intros i. apply unit_mul_le; [lia| |apply Hb].
    apply (fx2_Forall (fun v => sfLe false 0 1 0 (Prim2SF v))); [exact I | exact zMatrix_unit]. }
  apply fx_Forall; [apply f64AbsLe_zero|].
  apply Forall_map_all. intros c.
  apply (fold_sum_le (fun i => (etc2.fx2 etc2.cMatrix c i * etc2.fx dMatrix i)%float)
           4081 (range 3) 1 0%float);
    [lia | lia | vm_compute; reflexivity | | apply f64AbsLe_zero].
  intros i. apply unit_mul_le; [lia| |apply Hd].
  apply (fx2_Forall (fun v => sfLe false 0 1 0 (Prim2SF v))); [exact I | exact cMatrix_unit].
Qed.

Lemma is_nan_number (pos : bool) (E N k : Z) (v : float) :
  sfLe pos E N k (Prim2SF v) -> PrimFloat.is_nan v = false.
Proof.
  unfold PrimFloat.is_nan. rewrite eqb_spec.
  destruct (Prim2SF v) as [s|s| |s m e]; cbn [sfLe]; try contradiction.
  - reflexivity.
  - intros _. unfold SFeqb, SFcompare.
    rewrite Z.compare_refl, Pos.compare_cont_refl. destruct s; reflexivity.
Qed.

Lemma Prim2SF_255 : Prim2SF 255 = S754_finite false 8972014882652160 (-45).
Proof. vm_compute. reflexivity. Qed.

(** A valid positive float64 that 255 is not less than is at most 255. *)
Lemma not_above_255 (m : positive) (e : Z) :
  bounded prec emax m e = true ->
  SFltb (S754_finite false 8972014882652160 (-45)) (S754_finite false m e) = false ->
  vle (Z.pos m) e 255 0.
Proof.
  intros Hb H. unfold SFltb, SFcompare in H.
  destruct (-45 ?= e) eqn:C.
  - apply Z.compare_eq in C. subst e.
    apply (vle_base _ _ _ _ (-45)); [lia ..|].
    change (2 ^ (-45 - -45)) with 1. change (255 * 2 ^ (0 - -45)) with 8972014882652160.
    destruct (Pos.compare_cont Eq 8972014882652160 m) eqn:P; try discriminate.
    + apply Pos.compare_eq in P. subst m. rewrite Z.mul_1_r. apply Z.le_refl.
    + change (Pos.compare_cont Eq 8972014882652160 m)
        with (8972014882652160 ?= m)%positive in P.
      apply Pos.compare_gt_iff in P. rewrite Z.mul_1_r.
      apply Z.lt_le_incl. exact P.
  - discriminate.
  - apply Z.compare_gt_iff in C.
    unfold bounded, canonical_mantissa in Hb. apply andb_prop in Hb.
    destruct Hb as [Hc _]. apply Z.eqb_eq in Hc. rewrite fexp_eq in Hc.
    pose proof (digits2_pos_spec m) as [_ Hd].
    assert (Hd53 : Z.pos (digits2_pos m) <= 53) by lia.
    assert (Hm : Z.pos m < 2 ^ 53).
    { apply (Z.lt_le_trans _ _ _ Hd). apply Z.pow_le_mono_r; lia. }
    apply (vle_base _ _ _ _ e); [lia ..|].
    rewrite Z.sub_diag, Z.pow_0_r, Z.mul_1_r.
    replace (0 - e) with (46 + (- e - 46)) by lia.
    rewrite pow2_split by lia.
    pose proof (pow2_gt0 (- e - 46) ltac:(lia)) as Hp.
    change (2 ^ 53) with 9007199254740992 in Hm.
    change (2 ^ 46) with 70368744177664. nia.
Qed.

(** The clamp [max(0x00, min(0xFF, v))] of a number. *)
Lemma clamp_le (N : Z) (v : float) :
  f64AbsLe N v -> clamped (etc2.fmax 0 (etc2.fmin 255 v)).
Proof.
  intros Hv. pose proof (is_nan_number _ _ _ _ v Hv) as Hn.
  assert (C255 : clamped 255%float) by (apply sfLeb_sound; vm_compute; reflexivity).
  assert (N255 : PrimFloat.is_nan 255 = false) by (vm_compute; reflexivity).
  assert (N0 : PrimFloat.is_nan 0 = false) by (vm_compute; reflexivity).
  assert (S255 : PrimFloat.get_sign 255 = false) by (vm_compute; reflexivity).
  assert (S0 : PrimFloat.get_sign 0 = false) by (vm_compute; reflexivity).
  assert (Hy : etc2.fmin 255 v = 255%float
               \/ (etc2.fmin 255 v = v /\ (255 <? v)%float = false)).
  { unfold etc2.fmin. rewrite Hn, N255, S255. cbn [orb].
    destruct (255 <? v)%float eqn:L; [left; reflexivity|].
    right. split; [|reflexivity]. destruct (v <? 255)%float; reflexivity. }
  set (y := etc2.fmin 255 v) in *.
  assert (Hny : PrimFloat.is_nan y = false)
    by (destruct Hy as [-> | [-> _]]; assumption).
  unfold etc2.fmax. rewrite Hny, N0, S0. cbn [orb].
  destruct (0 <? y)%float eqn:L0.
  - destruct Hy as [E | [E L]]; rewrite E in *; [exact C255|].
    rewrite ltb_spec in L0, L. rewrite Prim2SF_255 in L.
    change (Prim2SF 0) with (S754_zero false) in L0.
    pose proof (Prim2SF_valid v) as Hval.
    unfold clamped. unfold f64AbsLe in Hv.
    destruct (Prim2SF v) as [s|s| |s m e]; cbn [sfLe] in Hv; try contradiction.
    + discriminate L0.
    + destruct Hv as (_ & _ & He).
      assert (Es : s = false) by (destruct s; [discriminate L0 | reflexivity]).
      subst s. cbn [sfLe]. split; [reflexivity|]. split; [|exact He].
      apply not_above_255; [exact Hval | exact L].
  - destruct (y <? 0)%float; exact I.
Qed.

(** [int32(x)] of a float64 between 0 and [N - 1/2]. *)
Lemma truncInt32_range (N : Z) (x : float) :
  0 < N <= 2 ^ 31 ->
  sfLe true 971 (2 * N - 1) (-1) (Prim2SF x) ->
  0 <= etc2.truncInt32 x < N.
Proof.
  intros HN H. unfold etc2.truncInt32.
  destruct (Prim2SF x) as [s|s| |s m e]; cbn [sfLe] in H; try contradiction; [lia|].
  destruct H as (Hs & Hv & _). rewrite (Hs eq_refl). cbv zeta.
  set (mag := if e <? 0 then Z.pos m / 2 ^ (- e) else Z.pos m * 2 ^ e).
  assert (Hmag : 0 <= mag < N).
  { unfold mag. destruct (e <? 0) eqn:Ee.
    - apply Z.ltb_lt in Ee.
      apply (vle_base _ _ _ _ e) in Hv; [|lia ..].
      rewrite Z.sub_diag, Z.pow_0_r, Z.mul_1_r in Hv.
      replace (- e) with ((-1 - e) + 1) by lia.
      rewrite pow2_split by lia. change (2 ^ 1) with 2.
      pose proof (pow2_gt0 (-1 - e) ltac:(lia)) as Hp.
      split; [apply Z.div_pos; lia|].
      apply Z.div_lt_upper_bound; nia.
    - apply Z.ltb_ge in Ee.
      apply (vle_base _ _ _ _ (-1)) in Hv; [|lia ..].
      replace (e - -1) with (e + 1) in Hv by lia.
      rewrite pow2_split in Hv by lia.
      change (2 ^ 1) with 2 in Hv. change (2 ^ (-1 - -1)) with 1 in Hv.
      pose proof (pow2_gt0 e Ee) as Hp. nia. }
  change (2 ^ 31) with 2147483648 in *.
  replace ((Z.opp 2147483648 <=? mag) && (mag <? 2147483648)) with true; [exact Hmag|].
  symmetry. apply andb_true_intro. split; [apply Z.leb_le | apply Z.ltb_lt]; lia.
Qed.

(** The quantization [int32(((c * Q) / 0xFF) + 0.5)] of a clamped color. *)
Lemma quant_range (Q : Z) (q c : float) :
  0 < Q < 2 ^ 30 ->
  sfLe true 0 Q 0 (Prim2SF q) ->
  clamped c ->
  0 <= etc2.truncInt32 (((c * q) / 255) + 0.5)%float < Q + 1.
Proof.
  intros HQ Hq Hc. unfold clamped in Hc.
  change (2 ^ 30) with 1073741824 in HQ.
  assert (H1 : sfLe true 971 (Q * 255) 0 (Prim2SF (c * q))).
  { rewrite mul_spec.
    pose proof (SFmul_le true 971 0 255 0 Q 0 (Prim2SF c) (Prim2SF q)) as H.
    rewrite (Z.mul_comm 255 Q) in H.
    change (2 ^ 53) with 9007199254740992 in H. apply H; try lia; assumption. }
  assert (Hd : Zdigits2 (Q * 255) <= 106 + -45).
  { destruct (Zdigits2_spec (Q * 255) ltac:(lia)) as (Hp & Hlo & _).
    destruct (Z.le_gt_cases (Zdigits2 (Q * 255)) 61) as [L|L]; [lia|]. exfalso.
    assert (2 ^ 61 <= 2 ^ (Zdigits2 (Q * 255) - 1)) by (apply Z.pow_le_mono_r; lia).
    change (2 ^ 61) with 2305843009213693952 in *. lia. }
  assert (H2 : sfLe true 971 Q 0 (Prim2SF ((c * q) / 255))).
  { rewrite div_spec, Prim2SF_255.
    apply (SFdiv_le true Q 255 8972014882652160 (-45)); try lia;
      try reflexivity; try assumption. }
  assert (H3 : sfLe true 971 (2 * Q + 1) (-1) (Prim2SF (((c * q) / 255) + 0.5))).
  { rewrite add_spec. apply SFadd_le; try lia.
    - apply (sfLe_rescale true 971 Q 0); [|exact H2].
      apply (vle_base _ _ _ _ (-1)); [lia ..|].
      change (2 ^ (0 - -1)) with 2. change (2 ^ (-1 - -1)) with 1. lia.
    - apply sfLeb_sound. vm_compute. reflexivity. }
  apply truncInt32_range.
  - change (2 ^ 31) with 2147483648. lia.
  - replace (2 * (Q + 1) - 1) with (2 * Q + 1) by lia. exact H3.
Qed.

Lemma quant6_range (c : float) : clamped c -> below 64 (etc2.quant6 c) = true.
Proof.
  intros Hc. unfold etc2.quant6, below.
  pose proof (quant_range 63 63%float c ltac:(vm_compute; split; reflexivity)
                ltac:(apply sfLeb_sound; vm_compute; reflexivity) Hc) as H.
  apply andb_true_intro. split; [apply Z.leb_le | apply Z.ltb_lt]; lia.
Qed.

Lemma quant7_range (c : float) : clamped c -> below 128 (etc2.quant7 c) = true.
Proof.
  intros Hc. unfold etc2.quant7, below.
  pose proof (quant_range 127 127%float c ltac:(vm_compute; split; reflexivity)
                ltac:(apply sfLeb_sound; vm_compute; reflexivity) Hc) as H.
  apply andb_true_intro. split; [apply Z.leb_le | apply Z.ltb_lt]; lia.
Qed.

(** The three colors of a channel that [encodePlanar] solves for are
    between 0 and 255. *)
Lemma planarSolve_clamped (pixels : list byte) (channel : Z) :
  clamped (fst (fst (etc2.planarSolve pixels channel)))
  /\ clamped (snd (fst (etc2.planarSolve pixels channel)))
  /\ clamped (snd (etc2.planarSolve pixels channel)).
Proof.
  unfold etc2.planarSolve. cbv zeta. cbn [fst snd].
  split; [|split]; apply (clamp_le 12244).
  - apply (planarSolve_finite pixels channel 0).
  - apply (planarSolve_finite pixels channel 1).
  - apply (planarSolve_finite pixels channel 2).
Qed.

(** The nine quantized colors of [encodePlanar] fit their 6, 7 and 6 bits,
    on every block. *)
Lemma planarQuantize_inRange (pixels : list byte) :
  planarInRange (etc2.planarQuantize pixels) = true.
Proof.
  unfold etc2.planarQuantize.
  destruct (planarSolve_clamped pixels 0) as (R0 & R1 & R2).
  destruct (planarSolve_clamped pixels 1) as (G0 & G1 & G2).
  destruct (planarSolve_clamped pixels 2) as (B0 & B1 & B2).
  destruct (etc2.planarSolve pixels 0) as [[oR hR] vR].
  destruct (etc2.planarSolve pixels 1) as [[oG hG] vG].
  destruct (etc2.planarSolve pixels 2) as [[oB hB] vB].
  cbn [fst snd] in *. unfold planarInRange.
  cbn [etc2.colorOR6 etc2.colorOG7 etc2.colorOB6 etc2.colorHR6 etc2.colorHG7
       etc2.colorHB6 etc2.colorVR6 etc2.colorVG7 etc2.colorVB6].
  rewrite !quant6_range, !quant7_range by assumption. reflexivity.
Qed.

(** Every codeword of [encodePlanar] has the tag of the Planar mode. *)
Lemma encodePlanar_tag_every_block (pixels : list byte) :
  codeword.tagPlanar (etc2.encodePlanar pixels) = true.
Proof. apply encodePlanar_tag. apply planarQuantize_inRange. Qed.

(** X26. On every block, the nine colors that [encodePlanar] packs (the
    Origin, Horizontal and Vertical colors of the float64 least-squares
    solution, clamped to 0..255 and quantized by
    [int32(((c * 63) / 255) + 0.5)], with 127 for green) are within their
    bits: 0..63 for red and blue, 0..127 for green. *)
Theorem encodePlanar_quantized_colors (pixels : list byte) :
  let q := etc2.planarQuantize pixels in
  etc2.encodePlanar pixels = etc2.packPlanar q
  /\ 0 <= etc2.colorOR6 q < 64 /\ 0 <= etc2.colorOG7 q < 128 /\ 0 <= etc2.colorOB6 q < 64
  /\ 0 <= etc2.colorHR6 q < 64 /\ 0 <= etc2.colorHG7 q < 128 /\ 0 <= etc2.colorHB6 q < 64
  /\ 0 <= etc2.colorVR6 q < 64 /\ 0 <= etc2.colorVG7 q < 128 /\ 0 <= etc2.colorVB6 q < 64.
Proof.
  cbv zeta. split; [reflexivity|].
  pose proof (planarQuantize_inRange pixels) as H. unfold planarInRange in H.
  do 8 (apply andb_prop in H; destruct H as [H ?]).
  repeat (split; [apply below_spec; assumption|]).
  apply below_spec; assumption.
Qed.

(* ----------------------------------------------------------------- *)
(** ** The Individual and Differential modes *)

Lemma int32_small (z : Z) : - 2 ^ 31 <= z < 2 ^ 31 -> int32 z = z.
Proof. intros H. unfold int32. rewrite Z.mod_small by lia. lia. Qed.

(** The averages of a half block are the means of three sums of bytes. *)
Lemma calculateRGBAverages_sums (pixels : list byte) (orientation : Z) :
  exists s0 s1 s2,
    0 <= s0 < 2041 /\ 0 <= s1 < 2041 /\ 0 <= s2 < 2041
    /\ etc2.calculateRGBAverages pixels orientation = (meanOf s0, meanOf s1, meanOf s2).
Proof.
  unfold etc2.calculateRGBAverages. cbv zeta.
  assert (H : forall (l : list Z) (s0 s1 s2 b : Z),
             0 <= b -> b + 255 * Z.of_nat (length l) <= 2040 ->
             0 <= s0 <= b -> 0 <= s1 <= b -> 0 <= s2 <= b ->
             let '(r0, r1, r2) :=
               fold_left
                 (fun (sums : etc2.RGB) (i : Z) =>
                    let '(s0, s1, s2) := sums in
                    let offset := etc2.ix2 etc2.perOrientationPixelsOffsets orientation i in
                    (int32 (s0 + at8 pixels (offset + 0)),
                     int32 (s1 + at8 pixels (offset + 1)),
                     int32 (s2 + at8 pixels (offset + 2))))
                 l (s0, s1, s2) in
             0 <= r0 < 2041 /\ 0 <= r1 < 2041 /\ 0 <= r2 < 2041).
  { induction l as [|i l IH]; intros s0 s1 s2 b Hb Hlen H0 H1 H2.
    - cbn [fold_left length] in *. lia.
    - cbn [fold_left]. cbv zeta. cbn [length] in Hlen.
      set (offset := etc2.ix2 etc2.perOrientationPixelsOffsets orientation i).
      pose proof (at8_range pixels (offset + 0)).
      pose proof (at8_range pixels (offset + 1)).
      pose proof (at8_range pixels (offset + 2)).
      rewrite !int32_small by lia.
      apply (IH _ _ _ (b + 255)); lia. }
  specialize (H (range 8) 0 0 0 0 ltac:(lia) ltac:(cbn; lia)
                ltac:(lia) ltac:(lia) ltac:(lia)).
  cbv zeta in H.
  match type of H with
  | context [fold_left ?f (range 8) (0, 0, 0)] =>
    destruct (fold_left f (range 8) (0, 0, 0)) as [[r0 r1] r2]
  end.
  exists r0, r1, r2. unfold meanOf. tauto.
Qed.

(** The roundings of a mean of eight bytes, and their expansions to 8
    bits, checked on each of the 2041 sums. *)
Lemma mean_rounds (s : Z) :
  0 <= s < 2041 ->
  0 <= etc2.round5 (meanOf s) < 32
  /\ 0 <= etc2.expand5 (etc2.round5 (meanOf s)) < 256
  /\ 0 <= etc2.expand4 (etc2.round4 (meanOf s)) < 256
  /\ 0 <= fst (etc2.corner true (meanOf s)) < 256
  /\ 0 <= snd (etc2.corner true (meanOf s)) < 256
  /\ 0 <= fst (etc2.corner false (meanOf s)) < 256
  /\ 0 <= snd (etc2.corner false (meanOf s)) < 256.
Proof.
  intros Hs.
  assert (H : allBelow 2041
                (fun s =>
                   below 32 (etc2.round5 (meanOf s))
                   && below 256 (etc2.expand5 (etc2.round5 (meanOf s)))
                   && below 256 (etc2.expand4 (etc2.round4 (meanOf s)))
                   && below 256 (fst (etc2.corner true (meanOf s)))
                   && below 256 (snd (etc2.corner true (meanOf s)))
                   && below 256 (fst (etc2.corner false (meanOf s)))
                   && below 256 (snd (etc2.corner false (meanOf s)))) = true)
    by (vm_compute; reflexivity).
  pose proof (allBelow_spec _ _ H s Hs) as Hb. cbv beta in Hb.
  do 6 (apply andb_true_iff in Hb; destruct Hb as [Hb ?]).
  repeat match goal with Hx : below _ _ = true |- _ => apply below_spec in Hx end.
  tauto.
Qed.

Lemma reduceAverage_inRange : reduceInRange etc2.reduceAverage.
Proof.
  intros s0 s1 s2 p H0 H1 H2. unfold etc2.reduceAverage.
  pose proof (mean_rounds s0 H0). pose proof (mean_rounds s1 H1).
  pose proof (mean_rounds s2 H2).
  destruct p; cbv zeta; unfold rgb8; tauto.
Qed.

Lemma pick_cases {A : Type} (P : A -> Prop) (p : A * A) (i : Z) :
  P (fst p) -> P (snd p) -> P (etc2.pick p i).
Proof. intros H0 H1. unfold etc2.pick. destruct (i =? 0); assumption. Qed.

Lemma reduceQuantize_inRange : reduceInRange etc2.reduceQuantize.
Proof.
  intros s0 s1 s2 p H0 H1 H2. unfold etc2.reduceQuantize. cbv zeta.
  pose proof (mean_rounds s0 H0) as R0. pose proof (mean_rounds s1 H1) as R1.
  pose proof (mean_rounds s2 H2) as R2.
  apply (fold_left_inv (fun st : float * etc2.RGB => rgb8 (snd st))).
  - cbn. lia.
  - intros [bestLoss ret] i _ Hret. cbn [snd] in Hret.
    destruct (PrimFloat.ltb _ bestLoss); [|exact Hret].
    cbn [snd]. unfold rgb8.
    destruct p; repeat split;
      try (apply (pick_cases (fun v => 0 <= v)); tauto);
      try (apply (pick_cases (fun v => v < 256)); tauto).
Qed.

(** Halving the sum of the means of the two halves is exact: it is the
    mean of the sixteen bytes. *)
Lemma sameMeans_spec (a : float) (halves blocks : list float) (d : float) :
  sameMeans a halves blocks = true ->
  forall j, (j < length halves)%nat ->
            ((a + nth j halves d) / 2)%float = nth j blocks d.
Proof.
  revert blocks. induction halves as [|b halves IH]; intros blocks H j Hj.
  - cbn in Hj. lia.
  - destruct blocks as [|m blocks]; [discriminate H|].
    cbn [sameMeans] in H. apply andb_true_iff in H. destruct H as [E H].
    destruct j as [|j]; cbn [nth].
    + apply FloatAxioms.Leibniz.eqb_spec. exact E.
    + apply IH; [exact H | cbn in Hj; lia].
Qed.

Lemma nth_tl {A : Type} (l : list A) (n : nat) (d : A) :
  nth n (tl l) d = nth (S n) l d.
Proof. destruct l; [destruct n; reflexivity | reflexivity]. Qed.

Lemma allSameMeans_spec (firsts blocks : list float) (d : float) :
  allSameMeans firsts blocks = true ->
  forall i j, (i < length firsts)%nat -> (j < length halfMeans)%nat ->
              ((nth i firsts d + nth j halfMeans d) / 2)%float = nth (i + j) blocks d.
Proof.
  revert blocks. induction firsts as [|a firsts IH]; intros blocks H i j Hi Hj.
  - cbn in Hi. lia.
  - cbn [allSameMeans] in H. apply andb_true_iff in H. destruct H as [E H].
    destruct i as [|i]; cbn [nth].
    + apply sameMeans_spec; assumption.
    + rewrite (IH (tl blocks) H i j); [apply nth_tl | cbn in Hi; lia | exact Hj].
Qed.

Lemma nth_range (n i : nat) : (i < n)%nat -> nth i (range n) 0 = Z.of_nat i.
Proof.
  intros Hi. unfold range.
  change 0 with (Z.of_nat 0). rewrite map_nth, seq_nth by assumption. reflexivity.
Qed.

Lemma halves_mean (s0 s1 : Z) :
  0 <= s0 < 2041 -> 0 <= s1 < 2041 ->
  ((meanOf s0 + meanOf s1) / 2)%float = (etc2.f64 (s0 + s1) / 16)%float.
Proof.
  intros H0 H1.
  assert (H : allSameMeans halfMeans blockMeans = true) by (vm_compute; reflexivity).
  assert (Lh : length halfMeans = 2041%nat)
    by (unfold halfMeans, range; rewrite !length_map, length_seq; reflexivity).
  pose proof (allSameMeans_spec _ _ (meanOf 0) H (Z.to_nat s0) (Z.to_nat s1)
                ltac:(lia) ltac:(lia)) as E.
  unfold halfMeans in E at 1 2. rewrite !map_nth in E.
  rewrite !nth_range in E by lia.
  rewrite !Z2Nat.id in E by lia. rewrite E.
  unfold blockMeans.
  change (meanOf 0) with ((fun s => (etc2.f64 s / 16)%float) 0).
  rewrite map_nth. rewrite nth_range by lia.
  f_equal. f_equal. lia.
Qed.

Lemma blockMean_rounds (s : Z) :
  0 <= s < 4081 ->
  0 <= etc2.round5 (etc2.f64 s / 16)%float < 32
  /\ 0 <= etc2.expand5 (etc2.round5 (etc2.f64 s / 16)%float) < 256
  /\ Z.shiftr (etc2.expand5 (etc2.round5 (etc2.f64 s / 16)%float)) 3
     = etc2.round5 (etc2.f64 s / 16)%float.
Proof.
  intros Hs.
  assert (H : allBelow 4081
                (fun s =>
                   below 32 (etc2.round5 (etc2.f64 s / 16)%float)
                   && below 256 (etc2.expand5 (etc2.round5 (etc2.f64 s / 16)%float))
                   && (Z.shiftr (etc2.expand5 (etc2.round5 (etc2.f64 s / 16)%float)) 3
                       =? etc2.round5 (etc2.f64 s / 16)%float)) = true)
    by (vm_compute; reflexivity).
  pose proof (allBelow_spec _ _ H s Hs) as Hb. cbv beta in Hb.
  do 2 (apply andb_true_iff in Hb; destruct Hb as [Hb ?]).
  repeat match goal with Hx : below _ _ = true |- _ => apply below_spec in Hx end.
  repeat split; try lia; apply Z.eqb_eq; assumption.
Qed.

(** The single base color of ETC1S: each channel is the 5-bit rounding of
    the mean of the whole block, expanded to 8 bits. *)
Lemma reduceETC1S_base (s0 s1 s2 t0 t1 t2 : Z) :
  0 <= s0 < 2041 -> 0 <= s1 < 2041 -> 0 <= s2 < 2041 ->
  0 <= t0 < 2041 -> 0 <= t1 < 2041 -> 0 <= t2 < 2041 ->
  etc2.reduceETC1SProduce5BitColor (meanOf s0, meanOf s1, meanOf s2)
                                   (meanOf t0, meanOf t1, meanOf t2)
  = (etc2.expand5 (etc2.round5 (etc2.f64 (s0 + t0) / 16)%float),
     etc2.expand5 (etc2.round5 (etc2.f64 (s1 + t1) / 16)%float),
     etc2.expand5 (etc2.round5 (etc2.f64 (s2 + t2) / 16)%float)).
Proof.
  intros. unfold etc2.reduceETC1SProduce5BitColor. cbv zeta.
  rewrite !halves_mean by assumption. reflexivity.
Qed.

(* ----------------------------------------------------------------- *)
(** ** The search of a half block *)

Lemma fold_left_inv_cons {A B : Type} (P : A -> Prop) (f : A -> B -> A)
    (x : B) (l : list B) (a : A) :
  P (f a x) -> (forall a y, In y l -> P a -> P (f a y)) ->
  P (fold_left f (x :: l) a).
Proof.
  intros Hx Hf. cbn [fold_left]. apply fold_left_inv; assumption.
Qed.

Lemma clamp_range (i : Z) : 0 <= i -> 0 <= etc2.clamp i < 256.
Proof.
  intros Hi. unfold etc2.clamp.
  destruct (Z.ltb_spec i 256); [lia|]. destruct (i <? 512); lia.
Qed.

Lemma weighted_range (d0 d1 d2 : Z) :
  -255 <= d0 <= 255 -> -255 <= d1 <= 255 -> -255 <= d2 <= 255 ->
  0 <= etc2.weighted d0 d1 d2 <= 65025000.
Proof.
  intros H0 H1 H2. unfold etc2.weighted.
  change (etc2.ix etc2.weightValuesI32 0) with 299.
  change (etc2.ix etc2.weightValuesI32 1) with 587.
  change (etc2.ix etc2.weightValuesI32 2) with 114.
  assert (0 <= d0 * d0 <= 65025) by nia.
  assert (0 <= d1 * d1 <= 65025) by nia.
  assert (0 <= d2 * d2 <= 65025) by nia.
  rewrite <- !Z.mul_assoc.
  rewrite (int32_small (299 * (d0 * d0))) by lia.
  rewrite (int32_small (587 * (d1 * d1))) by lia.
  rewrite (int32_small (114 * (d2 * d2))) by lia.
  rewrite int32_small; lia.
Qed.

Section HalfBlock.

Variable T : etc2.Tables.

Lemma bestModifier_range (base orig : etc2.RGB) (table : Z) :
  rgb8 orig -> 0 <= snd (etc2.bestModifier T base orig table) <= 65025000.
Proof.
  destruct base as [[b0 b1] b2]. destruct orig as [[o0 o1] o2].
  intros (H0 & H1 & H2). unfold etc2.bestModifier.
  assert (Hone : forall j,
             0 <= etc2.weighted
                    (int32 (etc2.clamp (Z.land 1023 (uint32 (uint32 b0 + etc2.modifiers T table j))) - o0))
                    (int32 (etc2.clamp (Z.land 1023 (uint32 (uint32 b1 + etc2.modifiers T table j))) - o1))
                    (int32 (etc2.clamp (Z.land 1023 (uint32 (uint32 b2 + etc2.modifiers T table j))) - o2))
             <= 65025000).
  { intros j.
    assert (Hc : forall x, 0 <= etc2.clamp (Z.land 1023 x) < 256)
      by (intros x; apply clamp_range; apply Z.land_nonneg; left; lia).
    pose proof (Hc (uint32 (uint32 b0 + etc2.modifiers T table j))).
    pose proof (Hc (uint32 (uint32 b1 + etc2.modifiers T table j))).
    pose proof (Hc (uint32 (uint32 b2 + etc2.modifiers T table j))).
    apply weighted_range; rewrite int32_small; lia. }
  change etc2.scramble with (3 :: [2; 0; 1]).
  apply (fold_left_inv_cons (fun st : Z * Z => 0 <= snd st <= 65025000)).
  - cbv zeta. specialize (Hone 3).
    destruct (Z.gtb_spec etc2.maxInt32
                (etc2.weighted
                   (int32 (etc2.clamp (Z.land 1023 (uint32 (uint32 b0 + etc2.modifiers T table 3))) - o0))
                   (int32 (etc2.clamp (Z.land 1023 (uint32 (uint32 b1 + etc2.modifiers T table 3))) - o1))
                   (int32 (etc2.clamp (Z.land 1023 (uint32 (uint32 b2 + etc2.modifiers T table 3))) - o2))))
      as [_|Hle]; [exact Hone|].
    unfold etc2.maxInt32 in Hle. lia.
  - intros [bestJ bestOneLoss] j _ Hst. cbv zeta.
    destruct (_ >? _); [apply Hone | exact Hst].
Qed.

Lemma encodeHalfBlock1_range (pixels : list byte) (orientation : Z)
    (base : etc2.RGB) (table : Z) :
  0 <= fst (etc2.encodeHalfBlock1 T pixels orientation base table) < 2 ^ 32
  /\ 0 <= snd (etc2.encodeHalfBlock1 T pixels orientation base table) <= 520200000.
Proof.
  unfold etc2.encodeHalfBlock1.
  assert (H : forall (l : list Z) (st : Z * Z) (b : Z),
             0 <= fst st < 2 ^ 32 -> 0 <= snd st <= b ->
             b + 65025000 * Z.of_nat (length l) <= 520200000 ->
             let r :=
               fold_left
                 (fun (st : Z * Z) (i : Z) =>
                    let '(indexes, loss) := st in
                    let offset := etc2.ix2 etc2.perOrientationPixelsOffsets orientation i in
                    let orig := (at8 pixels (offset + 0), at8 pixels (offset + 1),
                                 at8 pixels (offset + 2)) in
                    let '(bestJ, bestOneLoss) := etc2.bestModifier T base orig table in
                    let shift := etc2.ix2 etc2.perOrientationShifts orientation i in
                    let indexes :=
                      Z.lor indexes (uint32 (Z.shiftl (uint32 (Z.land bestJ 2)) (shift + 0x0F))) in
                    let indexes :=
                      Z.lor indexes (uint32 (Z.shiftl (uint32 (Z.land bestJ 1)) (shift + 0x00))) in
                    (indexes, int32 (loss + bestOneLoss)))
                 l st in
             0 <= fst r < 2 ^ 32 /\ 0 <= snd r <= 520200000).
  { induction l as [|i l IH]; intros [idx loss] b Hi Hl Hlen; cbv zeta.
    - cbn [fold_left length fst snd] in *. lia.
    - cbn [fold_left]. cbn [length] in Hlen. cbn [fst snd] in Hi, Hl.
      set (offset := etc2.ix2 etc2.perOrientationPixelsOffsets orientation i).
      pose proof (bestModifier_range base
                    (at8 pixels (offset + 0), at8 pixels (offset + 1), at8 pixels (offset + 2))
                    table
                    (conj (at8_range _ _) (conj (at8_range _ _) (at8_range _ _)))) as Hm.
      destruct (etc2.bestModifier T base _ table) as [bestJ bestOneLoss].
      cbn [snd] in Hm.
      apply (IH _ (b + 65025000)); cbn [fst snd].
      + apply lor_range; [lia | | apply uint32_range].
        apply lor_range; [lia | exact Hi | apply uint32_range].
      + rewrite int32_small; lia.
      + lia. }
  apply (H (range 8) (0, 0) 0); cbn; lia.
Qed.

Lemma encodeHalfBlock_range (pixels : list byte) (orientation : Z) (base : etc2.RGB) :
  let '(table, indexes, loss) := etc2.encodeHalfBlock T pixels orientation base in
  0 <= table < 8 /\ 0 <= indexes < 2 ^ 32 /\ 0 <= loss <= 520200000.
Proof.
  unfold etc2.encodeHalfBlock.
  change (range 8) with (0 :: [1; 2; 3; 4; 5; 6; 7]).
  apply (fold_left_inv_cons
           (fun st : Z * Z * Z =>
              let '(table, indexes, loss) := st in
              0 <= table < 8 /\ 0 <= indexes < 2 ^ 32 /\ 0 <= loss <= 520200000)).
  - pose proof (encodeHalfBlock1_range pixels orientation base 0) as H.
    destruct (etc2.encodeHalfBlock1 T pixels orientation base 0) as [idx loss].
    cbn [fst snd] in H.
    destruct (Z.gtb_spec etc2.maxInt32 loss) as [_|Hle]; [lia|].
    unfold etc2.maxInt32 in Hle. lia.
  - intros [[table indexes] loss] t Ht Hst.
    pose proof (encodeHalfBlock1_range pixels orientation base t) as H.
    destruct (etc2.encodeHalfBlock1 T pixels orientation base t) as [idx loss0].
    cbn [fst snd] in H.
    destruct (loss >? loss0); [|exact Hst].
    assert (0 <= t < 8) by (cbn in Ht; lia). lia.
Qed.

End HalfBlock.

(* ----------------------------------------------------------------- *)
(** ** The codewords of the Individual and Differential modes *)

Lemma testbit_channelByte (code lo k : Z) :
  0 <= lo -> 0 <= k < 8 ->
  Z.testbit code (lo + k) = Z.testbit (codeword.channelByte code lo) k.
Proof.
  intros Hlo Hk. unfold codeword.channelByte.
  rewrite Z.land_spec, Z.shiftr_spec by lia.
  change 0xFF with (Z.ones 8). rewrite Z.ones_spec_low by lia.
  rewrite andb_true_r. f_equal. lia.
Qed.

Lemma field_channelByte (code lo k n : Z) :
  0 <= lo -> 0 <= k -> 0 <= n -> k + n <= 8 ->
  Z.land (Z.shiftr code (lo + k)) (Z.ones n)
  = Z.land (Z.shiftr (codeword.channelByte code lo) k) (Z.ones n).
Proof.
  intros Hlo Hk Hn Hkn. apply Z.bits_inj'. intros i Hi.
  unfold codeword.channelByte.
  rewrite !Z.land_spec, !Z.shiftr_spec, Z.land_spec, Z.shiftr_spec by lia.
  destruct (Z.ltb_spec i n).
  - change 0xFF with (Z.ones 8). rewrite (Z.ones_spec_low 8) by lia.
    rewrite andb_true_r. f_equal. f_equal. lia.
  - rewrite (Z.ones_spec_high n) by lia. rewrite !andb_false_r. reflexivity.
Qed.

Lemma allBelow3_spec (n m k : nat) (p : Z -> Z -> Z -> bool) :
  allBelow n (fun x => allBelow m (fun y => allBelow k (p x y))) = true ->
  forall x y z, 0 <= x < Z.of_nat n -> 0 <= y < Z.of_nat m -> 0 <= z < Z.of_nat k ->
                p x y z = true.
Proof.
  intros H x y z Hx Hy Hz.
  apply (allBelow_spec k (p x y)); [|exact Hz].
  apply (allBelow2_spec n m (fun x y => allBelow k (p x y))); assumption.
Qed.

(** A 5-bit base and a 3-bit delta, put at their places, are read back
    from the channel byte. *)
Lemma diff_channel (k1 k2 lo r d : Z) :
  allBelow 32 (fun r => allBelow 8 (fun e =>
    let w := Z.lor (codeword.channelByte (etc2.shl64 r k1) lo)
                   (codeword.channelByte (etc2.shl64 (Z.land (e - 4) 7) k2) lo) in
    (codeword.base5 w =? r) && (codeword.delta3 w =? e - 4))) = true ->
  0 <= r < 32 -> -4 <= d <= 3 ->
  let w := Z.lor (codeword.channelByte (etc2.shl64 r k1) lo)
                 (codeword.channelByte (etc2.shl64 (Z.land d 7) k2) lo) in
  codeword.base5 w = r /\ codeword.delta3 w = d.
Proof.
  intros H Hr Hd.
  pose proof (allBelow2_spec _ _ _ H r (d + 4) Hr ltac:(lia)) as Hb.
  cbv beta zeta in Hb. replace (d + 4 - 4) with d in Hb by lia.
  apply andb_true_iff in Hb. destruct Hb as [Hb1 Hb2].
  apply Z.eqb_eq in Hb1, Hb2. cbv zeta. split; assumption.
Qed.

Lemma diff_channel_red (r d : Z) :
  0 <= r < 32 -> -4 <= d <= 3 ->
  let w := Z.lor (codeword.channelByte (etc2.shl64 r (64 - 5)) 56)
                 (codeword.channelByte (etc2.shl64 (Z.land d 7) (59 - 3)) 56) in
  codeword.base5 w = r /\ codeword.delta3 w = d.
Proof. apply diff_channel. vm_compute. reflexivity. Qed.

Lemma diff_channel_green (r d : Z) :
  0 <= r < 32 -> -4 <= d <= 3 ->
  let w := Z.lor (codeword.channelByte (etc2.shl64 r (56 - 5)) 48)
                 (codeword.channelByte (etc2.shl64 (Z.land d 7) (51 - 3)) 48) in
  codeword.base5 w = r /\ codeword.delta3 w = d.
Proof. apply diff_channel. vm_compute. reflexivity. Qed.

Lemma diff_channel_blue (r d : Z) :
  0 <= r < 32 -> -4 <= d <= 3 ->
  let w := Z.lor (codeword.channelByte (etc2.shl64 r (48 - 5)) 40)
                 (codeword.channelByte (etc2.shl64 (Z.land d 7) (43 - 3)) 40) in
  codeword.base5 w = r /\ codeword.delta3 w = d.
Proof. apply diff_channel. vm_compute. reflexivity. Qed.

(** The byte of the tables, the diff bit and the flip bit. *)
Lemma low_byte_individual (t0 t1 flip : Z) :
  0 <= t0 < 8 -> 0 <= t1 < 8 -> 0 <= flip < 2 ->
  let w := Z.lor (Z.lor (codeword.channelByte (etc2.shl64 t0 (40 - 3)) 32)
                        (codeword.channelByte (etc2.shl64 t1 (37 - 3)) 32))
                 (codeword.channelByte (etc2.shl64 flip (33 - 1)) 32) in
  Z.testbit w 1 = false /\ Z.testbit w 0 = (flip =? 1)
  /\ Z.land (Z.shiftr w 5) (Z.ones 3) = t0 /\ Z.land (Z.shiftr w 2) (Z.ones 3) = t1.
Proof.
  intros H0 H1 Hf.
  assert (H : allBelow 8 (fun t0 => allBelow 8 (fun t1 => allBelow 2 (fun flip =>
            let w := Z.lor (Z.lor (codeword.channelByte (etc2.shl64 t0 (40 - 3)) 32)
                                  (codeword.channelByte (etc2.shl64 t1 (37 - 3)) 32))
                           (codeword.channelByte (etc2.shl64 flip (33 - 1)) 32) in
            negb (Z.testbit w 1) && Bool.eqb (Z.testbit w 0) (flip =? 1)
            && (Z.land (Z.shiftr w 5) (Z.ones 3) =? t0)
            && (Z.land (Z.shiftr w 2) (Z.ones 3) =? t1)))) = true)
    by (vm_compute; reflexivity).
  pose proof (allBelow3_spec _ _ _ _ H t0 t1 flip H0 H1 Hf) as Hb.
  cbv beta zeta in Hb. cbv zeta.
  do 3 (apply andb_true_iff in Hb; destruct Hb as [Hb ?]).
  apply negb_true_iff in Hb.
  repeat split; try assumption; try (apply Z.eqb_eq; assumption).
  apply eqb_prop. assumption.
Qed.

Lemma low_byte_differential (t0 t1 flip : Z) :
  0 <= t0 < 8 -> 0 <= t1 < 8 -> 0 <= flip < 2 ->
  let w := Z.lor (Z.lor (Z.lor (codeword.channelByte (etc2.shl64 t0 (40 - 3)) 32)
                               (codeword.channelByte (etc2.shl64 t1 (37 - 3)) 32))
                        (codeword.channelByte (etc2.shl64 1 (34 - 1)) 32))
                 (codeword.channelByte (etc2.shl64 flip (33 - 1)) 32) in
  Z.testbit w 1 = true /\ Z.testbit w 0 = (flip =? 1)
  /\ Z.land (Z.shiftr w 5) (Z.ones 3) = t0 /\ Z.land (Z.shiftr w 2) (Z.ones 3) = t1.
Proof.
  intros H0 H1 Hf.
  assert (H : allBelow 8 (fun t0 => allBelow 8 (fun t1 => allBelow 2 (fun flip =>
            let w := Z.lor (Z.lor (Z.lor (codeword.channelByte (etc2.shl64 t0 (40 - 3)) 32)
                                         (codeword.channelByte (etc2.shl64 t1 (37 - 3)) 32))
                                  (codeword.channelByte (etc2.shl64 1 (34 - 1)) 32))
                           (codeword.channelByte (etc2.shl64 flip (33 - 1)) 32) in
            Z.testbit w 1 && Bool.eqb (Z.testbit w 0) (flip =? 1)
            && (Z.land (Z.shiftr w 5) (Z.ones 3) =? t0)
            && (Z.land (Z.shiftr w 2) (Z.ones 3) =? t1)))) = true)
    by (vm_compute; reflexivity).
  pose proof (allBelow3_spec _ _ _ _ H t0 t1 flip H0 H1 Hf) as Hb.
  cbv beta zeta in Hb. cbv zeta.
  do 3 (apply andb_true_iff in Hb; destruct Hb as [Hb ?]).
  repeat split; try assumption; try (apply Z.eqb_eq; assumption).
  apply eqb_prop. assumption.
Qed.

(** The four fields of the low byte, read through the channel byte at 32. *)
Lemma low_fields (code : Z) :
  codeword.diffBit code = Z.testbit (codeword.channelByte code 32) 1
  /\ codeword.flipBit code = Z.testbit (codeword.channelByte code 32) 0
  /\ codeword.table0 code = Z.land (Z.shiftr (codeword.channelByte code 32) 5) (Z.ones 3)
  /\ codeword.table1 code = Z.land (Z.shiftr (codeword.channelByte code 32) 2) (Z.ones 3).
Proof.
  unfold codeword.diffBit, codeword.flipBit, codeword.table0, codeword.table1.
  repeat split.
  - apply (testbit_channelByte code 32 1); lia.
  - apply (testbit_channelByte code 32 0); lia.
  - apply (field_channelByte code 32 5 3); lia.
  - apply (field_channelByte code 32 2 3); lia.
Qed.

Lemma packIndividual_fields (base0 base1 : etc2.RGB) (table0 table1 flipBit i0 i1 : Z) :
  0 <= table0 < 8 -> 0 <= table1 < 8 -> 0 <= flipBit < 2 ->
  0 <= i0 < 2 ^ 32 -> 0 <= i1 < 2 ^ 32 ->
  let code := etc2.packIndividual base0 base1 table0 table1 flipBit i0 i1 in
  codeword.diffBit code = false /\ codeword.flipBit code = (flipBit =? 1)
  /\ codeword.table0 code = table0 /\ codeword.table1 code = table1.
Proof.
  destruct base0 as [[b00 b01] b02]. destruct base1 as [[b10 b11] b12].
  intros Ht0 Ht1 Hf Hi0 Hi1. cbv zeta.
  destruct (low_fields (etc2.packIndividual (b00, b01, b02) (b10, b11, b12)
                          table0 table1 flipBit i0 i1)) as (-> & -> & -> & ->).
  unfold etc2.packIndividual. cbv zeta. drop_fields.
  apply low_byte_individual; assumption.
Qed.

Lemma shiftr3_range (b : Z) : 0 <= b < 256 -> 0 <= Z.shiftr b 3 < 32.
Proof.
  intros Hb. rewrite Z.shiftr_div_pow2 by lia. change (2 ^ 3) with 8.
  split; [apply Z.div_pos; lia | apply Z.div_lt_upper_bound; lia].
Qed.

Lemma packDifferential_fields (base0 diff : etc2.RGB)
    (table0 table1 flipBit i0 i1 : Z) :
  rgb8 base0 ->
  -4 <= fst (fst diff) <= 3 -> -4 <= snd (fst diff) <= 3 -> -4 <= snd diff <= 3 ->
  0 <= table0 < 8 -> 0 <= table1 < 8 -> 0 <= flipBit < 2 ->
  0 <= i0 < 2 ^ 32 -> 0 <= i1 < 2 ^ 32 ->
  let code := etc2.packDifferential base0 diff table0 table1 flipBit i0 i1 in
  (codeword.diffBit code = true /\ codeword.flipBit code = (flipBit =? 1)
   /\ codeword.table0 code = table0 /\ codeword.table1 code = table1)
  /\ (codeword.base5 (codeword.channelByte code codeword.red) = Z.shiftr (fst (fst base0)) 3
      /\ codeword.delta3 (codeword.channelByte code codeword.red) = fst (fst diff))
  /\ (codeword.base5 (codeword.channelByte code codeword.green) = Z.shiftr (snd (fst base0)) 3
      /\ codeword.delta3 (codeword.channelByte code codeword.green) = snd (fst diff))
  /\ (codeword.base5 (codeword.channelByte code codeword.blue) = Z.shiftr (snd base0) 3
      /\ codeword.delta3 (codeword.channelByte code codeword.blue) = snd diff).
Proof.
  destruct base0 as [[b00 b01] b02]. destruct diff as [[d0 d1] d2].
  cbn [fst snd]. intros (Hb0 & Hb1 & Hb2) Hd0 Hd1 Hd2 Ht0 Ht1 Hf Hi0 Hi1. cbv zeta.
  destruct (low_fields (etc2.packDifferential (b00, b01, b02) (d0, d1, d2)
                          table0 table1 flipBit i0 i1)) as (-> & -> & -> & ->).
  pose proof (shiftr3_range b00 Hb0). pose proof (shiftr3_range b01 Hb1).
  pose proof (shiftr3_range b02 Hb2).
  assert (Hl0 := land_range_r d0 7 3 ltac:(lia) ltac:(cbn; lia)).
  assert (Hl1 := land_range_r d1 7 3 ltac:(lia) ltac:(cbn; lia)).
  assert (Hl2 := land_range_r d2 7 3 ltac:(lia) ltac:(cbn; lia)).
  change (2 ^ 3) with 8 in *.
  unfold etc2.packDifferential, codeword.red, codeword.green, codeword.blue. cbv zeta.
  split; [|split; [|split]]; drop_fields.
  - apply low_byte_differential; assumption.
  - apply diff_channel_red; assumption.
  - apply diff_channel_green; assumption.
  - apply diff_channel_blue; assumption.
Qed.

(* ----------------------------------------------------------------- *)
(** ** encodeRGBSansAlpha *)

Lemma no_overflow (w r d : Z) :
  codeword.base5 w = r /\ codeword.delta3 w = d -> 0 <= r + d < 32 ->
  codeword.overflows8 w = false.
Proof.
  intros [Hr Hd] Hs. unfold codeword.overflows8. cbv zeta. rewrite Hr, Hd.
  apply orb_false_iff. split; [apply Z.ltb_ge | apply Z.ltb_ge]; lia.
Qed.

Section SansAlpha.

Variable T : etc2.Tables.

Lemma reduceETC1S_range (pixels : list byte) (o0 o1 : Z) :
  rgb8 (etc2.reduceETC1SProduce5BitColor (etc2.calculateRGBAverages pixels o0)
                                         (etc2.calculateRGBAverages pixels o1)).
Proof.
  destruct (calculateRGBAverages_sums pixels o0) as (s0 & s1 & s2 & H0 & H1 & H2 & ->).
  destruct (calculateRGBAverages_sums pixels o1) as (t0 & t1 & t2 & G0 & G1 & G2 & ->).
  rewrite reduceETC1S_base by assumption. unfold rgb8.
  pose proof (blockMean_rounds (s0 + t0) ltac:(lia)).
  pose proof (blockMean_rounds (s1 + t1) ltac:(lia)).
  pose proof (blockMean_rounds (s2 + t2) ltac:(lia)).
  tauto.
Qed.

Lemma sansAlphaFlip_tag (pixels : list byte) (reduce : etc2.reduceFunc)
    (formatIsETC1S : bool) (st : Z * Z) (flipBit : Z) :
  reduceInRange reduce -> 0 <= flipBit < 2 ->
  tagID (fst st) = true ->
  tagID (fst (etc2.sansAlphaFlip T pixels reduce formatIsETC1S st flipBit)) = true.
Proof.
  intros Hred Hflip Hst. destruct st as [bestCode bestLoss]. cbn [fst] in Hst.
  unfold etc2.sansAlphaFlip.
  set (bases := if negb formatIsETC1S then _ else _).
  assert (Hb : match bases with
               | None => True
               | Some (base0, base1) => rgb8 base0 /\ rgb8 base1
               end).
  { subst bases. destruct formatIsETC1S; cbn [negb].
    - destruct (flipBit =? 0); [|exact I]. cbv zeta.
      split; apply reduceETC1S_range.
    - destruct (calculateRGBAverages_sums pixels (2 * flipBit + 0))
        as (s0 & s1 & s2 & H0 & H1 & H2 & ->).
      destruct (calculateRGBAverages_sums pixels (2 * flipBit + 1))
        as (t0 & t1 & t2 & G0 & G1 & G2 & ->).
      split; apply Hred; assumption. }
  destruct bases as [[[[b00 b01] b02] [[b10 b11] b12]]|]; [|exact Hst].
  destruct Hb as [(Hb00 & Hb01 & Hb02) (Hb10 & Hb11 & Hb12)].
  cbv zeta.
  pose proof (shiftr3_range b00 Hb00). pose proof (shiftr3_range b01 Hb01).
  pose proof (shiftr3_range b02 Hb02). pose proof (shiftr3_range b10 Hb10).
  pose proof (shiftr3_range b11 Hb11). pose proof (shiftr3_range b12 Hb12).
  rewrite !int32_small by lia.
  destruct (_ && _) eqn:Etest.
  - pose proof (encodeHalfBlock_range T pixels (2 * flipBit + 0) (b00, b01, b02)) as R0.
    pose proof (encodeHalfBlock_range T pixels (2 * flipBit + 1) (b10, b11, b12)) as R1.
    destruct (etc2.encodeHalfBlock T pixels (2 * flipBit + 0) (b00, b01, b02))
      as [[table0 indexes0] loss0].
    destruct (etc2.encodeHalfBlock T pixels (2 * flipBit + 1) (b10, b11, b12))
      as [[table1 indexes1] loss1].
    destruct (bestLoss >? _); [|exact Hst]. cbn [fst].
    repeat (apply andb_true_iff in Etest; destruct Etest as [Etest ?]).
    pose proof (packDifferential_fields (b00, b01, b02)
                  (Z.shiftr b10 3 - Z.shiftr b00 3,
                   Z.shiftr b11 3 - Z.shiftr b01 3,
                   Z.shiftr b12 3 - Z.shiftr b02 3)
                  table0 table1 flipBit indexes0 indexes1) as F.
    cbn [fst snd] in F. cbv zeta in F.
    destruct F as (_ & Fr & Fg & Fb); try lia; [unfold rgb8; tauto|].
    unfold tagID, codeword.noOverflow, codeword.overflows.
    rewrite (no_overflow _ _ _ Fr) by lia.
    rewrite (no_overflow _ _ _ Fg) by lia.
    rewrite (no_overflow _ _ _ Fb) by lia.
    apply orb_true_r.
  - pose proof (encodeHalfBlock_range T pixels (2 * flipBit + 0)
                  (reduce (etc2.calculateRGBAverages pixels (2 * flipBit + 0)) false)) as R0.
    pose proof (encodeHalfBlock_range T pixels (2 * flipBit + 1)
                  (reduce (etc2.calculateRGBAverages pixels (2 * flipBit + 1)) false)) as R1.
    destruct (etc2.encodeHalfBlock T pixels (2 * flipBit + 0) _)
      as [[table0 indexes0] loss0].
    destruct (etc2.encodeHalfBlock T pixels (2 * flipBit + 1) _)
      as [[table1 indexes1] loss1].
    destruct (bestLoss >? _); [|exact Hst]. cbn [fst].
    pose proof (packIndividual_fields
                  (reduce (etc2.calculateRGBAverages pixels (2 * flipBit + 0)) false)
                  (reduce (etc2.calculateRGBAverages pixels (2 * flipBit + 1)) false)
                  table0 table1 flipBit indexes0 indexes1) as F.
    cbv zeta in F. destruct F as (F & _); try lia.
    unfold tagID. rewrite F. reflexivity.
Qed.

(** Every codeword of [encodeRGBSansAlpha] is Individual (the diff bit is
    clear) or overflows on no diff channel. *)
Lemma encodeRGBSansAlpha_tag (pixels : list byte) (reduce : etc2.reduceFunc)
    (formatIsETC1S : bool) :
  reduceInRange reduce ->
  tagID (etc2.encodeRGBSansAlpha T pixels reduce formatIsETC1S) = true.
Proof.
  intros Hred. unfold etc2.encodeRGBSansAlpha.
  apply (fold_left_inv (fun st : Z * Z => tagID (fst st) = true)).
  - reflexivity.
  - intros st flipBit Hin Hst. apply sansAlphaFlip_tag; try assumption.
    apply In_range in Hin. lia.
Qed.

End SansAlpha.

(** C2. The codewords of [encodeT] overflow on diff-red; those of
    [encodeH] overflow on diff-green and not on diff-red; those of
    [encodePlanar] overflow on diff-blue and not on diff-red and
    diff-green, on every block (the nine quantized colors fit their 6, 7
    and 6 bits, by [planarQuantize_inRange]); and those of
    [encodeRGBSansAlpha], with either reduction, have the diff bit clear
    (Individual) or overflow on no diff channel (Differential). *)
Theorem mode_tag_overflow_constraints (T : etc2.Tables)
    (clusterfy : list byte -> float -> (byte * byte * byte) * (byte * byte * byte))
    (pixels : list byte) (formatIsOneBitAlpha goHarder formatIsETC1S : bool) :
  codeword.tagT (etc2.encodeT T clusterfy pixels formatIsOneBitAlpha goHarder) = true
  /\ codeword.tagH (etc2.encodeH T clusterfy pixels formatIsOneBitAlpha goHarder) = true
  /\ codeword.tagPlanar (etc2.encodePlanar pixels) = true
  /\ tagID (etc2.encodeRGBSansAlpha T pixels etc2.reduceAverage formatIsETC1S) = true
  /\ tagID (etc2.encodeRGBSansAlpha T pixels etc2.reduceQuantize formatIsETC1S) = true.
Proof.
  split; [apply encodeT_tag|]. split; [apply encodeH_tag|].
  split; [apply encodePlanar_tag_every_block|].
  split; apply encodeRGBSansAlpha_tag;
    [apply reduceAverage_inRange | apply reduceQuantize_inRange].
Qed.

(* ----------------------------------------------------------------- *)
(** ** ETC1S *)

Section ETC1S.

Variable T : etc2.Tables.

Lemma sansAlphaFlip_ETC1S_second (pixels : list byte) (reduce : etc2.reduceFunc)
    (st : Z * Z) :
  etc2.sansAlphaFlip T pixels reduce true st 1 = st.
Proof. destruct st as [c l]. reflexivity. Qed.

Lemma encodeRGBSansAlpha_ETC1S_code (pixels : list byte) (reduce : etc2.reduceFunc) :
  let base := etc2.reduceETC1SProduce5BitColor
                (etc2.calculateRGBAverages pixels 0)
                (etc2.calculateRGBAverages pixels 1) in
  let half0 := etc2.encodeHalfBlock T pixels 0 base in
  let half1 := etc2.encodeHalfBlock T pixels 1 base in
  etc2.encodeRGBSansAlpha T pixels reduce true
  = etc2.packDifferential base (0, 0, 0) (fst (fst half0)) (fst (fst half1)) 0
                          (snd (fst half0)) (snd (fst half1)).
Proof.
  cbv zeta. unfold etc2.encodeRGBSansAlpha.
  change (range 2) with [0; 1]. cbn [fold_left].
  rewrite sansAlphaFlip_ETC1S_second.
  unfold etc2.sansAlphaFlip. cbn [negb].
  change (0 =? 0) with true. cbv iota.
  change (2 * 0 + 0) with 0. change (2 * 0 + 1) with 1.
  destruct (etc2.reduceETC1SProduce5BitColor _ _) as [[b0 b1] b2].
  cbv zeta. rewrite !Z.sub_diag. change (int32 0) with 0.
  change ((-4 <=? 0) && (0 <=? 3) && (-4 <=? 0) && (0 <=? 3) && (-4 <=? 0) && (0 <=? 3))
    with true. cbv iota.
  pose proof (encodeHalfBlock_range T pixels 0 (b0, b1, b2)) as R0.
  pose proof (encodeHalfBlock_range T pixels 1 (b0, b1, b2)) as R1.
  destruct (etc2.encodeHalfBlock T pixels 0 (b0, b1, b2)) as [[table0 indexes0] loss0].
  destruct (etc2.encodeHalfBlock T pixels 1 (b0, b1, b2)) as [[table1 indexes1] loss1].
  cbn [fst snd]. rewrite int32_small by lia.
  destruct (Z.gtb_spec etc2.maxInt32 (loss0 + loss1)) as [_|Hle]; [reflexivity|].
  unfold etc2.maxInt32 in Hle. lia.
Qed.

End ETC1S.

(** C5. For ETC1S, [encodeColor] returns the codeword of
    [encodeRGBSansAlpha], and that codeword is the Differential one of the
    flip bit 0: its base color is the 5-bit rounding of the mean of the
    means of the two halves, its three deltas are zero, so that both
    halves have this base, and its two table fields are the tables that
    [encodeHalfBlock] finds for each half on its own. *)
Theorem ETC1S_single_base (T : etc2.Tables)
    (decodeColor : Z -> bool -> list byte)
    (clusterfy : list byte -> float -> (byte * byte * byte) * (byte * byte * byte))
    (encodeRGBWithAlpha : list byte -> bool -> Z)
    (pixels : list byte) :
  let avgs0 := etc2.calculateRGBAverages pixels 0 in
  let avgs1 := etc2.calculateRGBAverages pixels 1 in
  let base := etc2.reduceETC1SProduce5BitColor avgs0 avgs1 in
  let half0 := etc2.encodeHalfBlock T pixels 0 base in
  let half1 := etc2.encodeHalfBlock T pixels 1 base in
  let code := etc2.encodeRGBSansAlpha T pixels etc2.reduceAverage true in
  etc2.encodeColor T decodeColor clusterfy encodeRGBWithAlpha pixels etc2.FormatETC1S
  = code
  /\ code = etc2.packDifferential base (0, 0, 0) (fst (fst half0)) (fst (fst half1)) 0
                                  (snd (fst half0)) (snd (fst half1))
  /\ codeword.flipBit code = false
  /\ codeword.diffBit code = true
  /\ codeword.base5Of code codeword.red
     = etc2.round5 ((fst (fst avgs0) + fst (fst avgs1)) / 2)%float
  /\ codeword.base5Of code codeword.green
     = etc2.round5 ((snd (fst avgs0) + snd (fst avgs1)) / 2)%float
  /\ codeword.base5Of code codeword.blue
     = etc2.round5 ((snd avgs0 + snd avgs1) / 2)%float
  /\ codeword.secondBase5Of code codeword.red = codeword.base5Of code codeword.red
  /\ codeword.secondBase5Of code codeword.green = codeword.base5Of code codeword.green
  /\ codeword.secondBase5Of code codeword.blue = codeword.base5Of code codeword.blue
  /\ codeword.table0 code = fst (fst half0)
  /\ codeword.table1 code = fst (fst half1).
Proof.
  cbv zeta. split; [reflexivity|].
  rewrite (encodeRGBSansAlpha_ETC1S_code T pixels etc2.reduceAverage). cbv zeta.
  split; [reflexivity|].
  pose proof (reduceETC1S_range pixels 0 1) as Hb.
  destruct (calculateRGBAverages_sums pixels 0) as (s0 & s1 & s2 & H0 & H1 & H2 & E0).
  destruct (calculateRGBAverages_sums pixels 1) as (t0 & t1 & t2 & G0 & G1 & G2 & E1).
  rewrite E0, E1 in *. cbn [fst snd].
  rewrite reduceETC1S_base in * by assumption.
  rewrite !halves_mean by assumption.
  pose proof (blockMean_rounds (s0 + t0) ltac:(lia)) as (_ & _ & S0).
  pose proof (blockMean_rounds (s1 + t1) ltac:(lia)) as (_ & _ & S1).
  pose proof (blockMean_rounds (s2 + t2) ltac:(lia)) as (_ & _ & S2).
  set (base := (etc2.expand5 _, etc2.expand5 _, etc2.expand5 _)) in *.
  pose proof (encodeHalfBlock_range T pixels 0 base) as R0.
  pose proof (encodeHalfBlock_range T pixels 1 base) as R1.
  destruct (etc2.encodeHalfBlock T pixels 0 base) as [[table0 indexes0] loss0].
  destruct (etc2.encodeHalfBlock T pixels 1 base) as [[table1 indexes1] loss1].
  cbn [fst snd].
  pose proof (packDifferential_fields base (0, 0, 0) table0 table1 0
                indexes0 indexes1 Hb) as F.
  cbn [fst snd] in F. cbv zeta in F.
  destruct F as ((Fd & Ff & Ft0 & Ft1) & (Fr & Fr') & (Fg & Fg') & (Fb & Fb')); try lia.
  unfold codeword.secondBase5Of, codeword.base5Of.
  rewrite Fr, Fr', Fg, Fg', Fb, Fb', Fd, Ff, Ft0, Ft1.
  subst base. cbn [fst snd]. rewrite S0, S1, S2, !Z.add_0_r.
  repeat split; reflexivity.
Qed.

(** On the sample block the two table fields of the ETC1S codeword
    differ: the flat left half takes the table 0, the right half the
    table 5. *)
Lemma ETC1S_tables_differ :
  codeword.table0
    (etc2.encodeColor etc2.publishedTables etc2.sampleDecodeColor etc2.sampleClusterfy
       etc2.sampleEncodeRGBWithAlpha sampleETC1SBlock etc2.FormatETC1S) = 0
  /\ codeword.table1
       (etc2.encodeColor etc2.publishedTables etc2.sampleDecodeColor etc2.sampleClusterfy
          etc2.sampleEncodeRGBWithAlpha sampleETC1SBlock etc2.FormatETC1S) = 5
  /\ codeword.table0
       (etc2.encodeColor etc2.publishedTables etc2.sampleDecodeColor etc2.sampleClusterfy
          etc2.sampleEncodeRGBWithAlpha sampleETC1SBlock etc2.FormatETC1S)
     <> codeword.table1
          (etc2.encodeColor etc2.publishedTables etc2.sampleDecodeColor etc2.sampleClusterfy
             etc2.sampleEncodeRGBWithAlpha sampleETC1SBlock etc2.FormatETC1S).
Proof.
  assert (E0 : codeword.table0
                 (etc2.encodeColor etc2.publishedTables etc2.sampleDecodeColor
                    etc2.sampleClusterfy etc2.sampleEncodeRGBWithAlpha
                    sampleETC1SBlock etc2.FormatETC1S) = 0)
    by (vm_compute; reflexivity).
  assert (E1 : codeword.table1
                 (etc2.encodeColor etc2.publishedTables etc2.sampleDecodeColor
                    etc2.sampleClusterfy etc2.sampleEncodeRGBWithAlpha
                    sampleETC1SBlock etc2.FormatETC1S) = 5)
    by (vm_compute; reflexivity).
  split; [exact E0|]. split; [exact E1|]. rewrite E0, E1. discriminate.
Qed.

(* ----------------------------------------------------------------- *)
(** ** The driver of the color block *)

Lemma weighted_exact (d0 d1 d2 : Z) :
  -255 <= d0 <= 255 -> -255 <= d1 <= 255 -> -255 <= d2 <= 255 ->
  etc2.weighted d0 d1 d2 = 299 * d0 ^ 2 + 587 * d1 ^ 2 + 114 * d2 ^ 2.
Proof.
  intros H0 H1 H2. unfold etc2.weighted.
  change (etc2.ix etc2.weightValuesI32 0) with 299.
  change (etc2.ix etc2.weightValuesI32 1) with 587.
  change (etc2.ix etc2.weightValuesI32 2) with 114.
  assert (0 <= d0 * d0 <= 65025) by nia.
  assert (0 <= d1 * d1 <= 65025) by nia.
  assert (0 <= d2 * d2 <= 65025) by nia.
  rewrite !Z.pow_2_r, <- !Z.mul_assoc.
  rewrite (int32_small (299 * (d0 * d0))) by lia.
  rewrite (int32_small (587 * (d1 * d1))) by lia.
  rewrite (int32_small (114 * (d2 * d2))) by lia.
  rewrite int32_small; lia.
Qed.

Lemma countedSqErr_range (pixels work : list byte) (a : bool) (i : Z) :
  0 <= countedSqErr pixels work a i <= 65025000.
Proof.
  unfold countedSqErr, pixelSqErr. destruct (a && _); [lia|].
  assert (Hsq : forall p w, 0 <= p < 256 -> 0 <= w < 256 -> 0 <= (p - w) ^ 2 <= 65025).
  { intros p w Hp Hw. rewrite Z.pow_2_r.
    assert (-255 <= p - w <= 255) as Hd by lia.
    revert Hd. generalize (p - w). intros d Hd. nia. }
  pose proof (Hsq _ _ (at8_range pixels (i + 0)) (at8_range work (i + 0))).
  pose proof (Hsq _ _ (at8_range pixels (i + 1)) (at8_range work (i + 1))).
  pose proof (Hsq _ _ (at8_range pixels (i + 2)) (at8_range work (i + 2))).
  lia.
Qed.

(** The order of the two loops does not matter to the sum. *)
Lemma sum_xyOrder (c : Z -> Z) :
  fold_left Z.add (map (fun xy : Z * Z => c (16 * snd xy + 4 * fst xy)) etc2.xyOrder) 0
  = fold_left Z.add (map (fun p => c (4 * p)) (range 16)) 0.
Proof.
  rewrite <- (map_map (fun xy : Z * Z => 16 * snd xy + 4 * fst xy) c).
  rewrite <- (map_map (fun p => 4 * p) c).
  match goal with
  | |- context [map (fun xy : Z * Z => 16 * snd xy + 4 * fst xy) etc2.xyOrder] =>
    let l := eval vm_compute in
               (map (fun xy : Z * Z => 16 * snd xy + 4 * fst xy) etc2.xyOrder) in
    change (map (fun xy : Z * Z => 16 * snd xy + 4 * fst xy) etc2.xyOrder) with l
  end.
  match goal with
  | |- context [map (fun p => 4 * p) (range 16)] =>
    let l := eval vm_compute in (map (fun p => 4 * p) (range 16)) in
    change (map (fun p => 4 * p) (range 16)) with l
  end.
  cbn [map fold_left]. lia.
Qed.

(** [calculateBlockLoss] is the loss of the specification: its int32
    arithmetic does not wrap around. *)
Lemma calculateBlockLoss_spec (pixels work : list byte) (a : bool) :
  etc2.calculateBlockLoss pixels work a = decodedBlockLoss pixels work a.
Proof.
  unfold etc2.calculateBlockLoss, decodedBlockLoss.
  rewrite <- (sum_xyOrder (countedSqErr pixels work a)).
  assert (H : forall (l : list (Z * Z)) (acc b : Z),
             0 <= acc <= b -> b + 65025000 * Z.of_nat (length l) <= 2 ^ 31 - 1 ->
             fold_left
               (fun (loss : Z) (xy : Z * Z) =>
                  let '(x, y) := xy in
                  let i := 16 * y + 4 * x in
                  if a && (at8 pixels (i + 3) <? 0x80) then loss
                  else
                    let d0 := int32 (at8 pixels (i + 0) - at8 work (i + 0)) in
                    let d1 := int32 (at8 pixels (i + 1) - at8 work (i + 1)) in
                    let d2 := int32 (at8 pixels (i + 2) - at8 work (i + 2)) in
                    int32 (loss + etc2.weighted d0 d1 d2))
               l acc
             = fold_left Z.add
                 (map (fun xy : Z * Z =>
                         countedSqErr pixels work a (16 * snd xy + 4 * fst xy)) l)
                 acc).
  { induction l as [|[x y] l IH]; intros acc b Hacc Hlen; [reflexivity|].
    cbn [fold_left map length fst snd] in *. cbv zeta.
    pose proof (countedSqErr_range pixels work a (16 * y + 4 * x)) as Hr.
    unfold countedSqErr in *. unfold pixelSqErr in *.
    destruct (a && _).
    - rewrite Z.add_0_r. apply (IH _ (b + 65025000)); lia.
    - set (i := 16 * y + 4 * x) in *.
      pose proof (at8_range pixels (i + 0)). pose proof (at8_range work (i + 0)).
      pose proof (at8_range pixels (i + 1)). pose proof (at8_range work (i + 1)).
      pose proof (at8_range pixels (i + 2)). pose proof (at8_range work (i + 2)).
      rewrite !(int32_small (at8 pixels _ - at8 work _)) by lia.
      rewrite weighted_exact by lia.
      rewrite int32_small by lia.
      apply (IH _ (b + 65025000)); lia. }
  apply (H etc2.xyOrder 0 0); [lia | vm_compute; discriminate].
Qed.

Section Driver.

Variable T : etc2.Tables.
Variable decodeColor : Z -> bool -> list byte.
Variable clusterfy : list byte -> float -> (byte * byte * byte) * (byte * byte * byte).
Variable encodeRGBWithAlpha : list byte -> bool -> Z.
Variable pixels : list byte.
Variable formatIsOneBitAlpha : bool.
Variable P : etc2.candidate -> Prop.

Let tryOf (code : Z) (flag : bool) : etc2.candidate :=
  etc2.mkCandidate code flag
    (etc2.decodedLoss decodeColor pixels formatIsOneBitAlpha code flag).

Lemma firstTry_inv (code : Z) (flag : bool) :
  P (tryOf code flag) ->
  searchInv P (etc2.firstTry decodeColor pixels formatIsOneBitAlpha code flag).
Proof.
  intros Hp. unfold etc2.firstTry, searchInv. cbv zeta. cbn [etc2.tried etc2.bestCode etc2.bestLoss].
  split; [|split].
  - exists (tryOf code flag). split; [left; reflexivity | split; reflexivity].
  - constructor; [exact Hp | constructor].
  - constructor; [cbn [etc2.candLoss]; lia | constructor].
Qed.

Lemma nextTry_inv (s : etc2.search) (code : Z) (flag : bool) :
  searchInv P s -> P (tryOf code flag) ->
  searchInv P (fst (etc2.nextTry decodeColor pixels formatIsOneBitAlpha s code flag)).
Proof.
  intros ((c & Hin & Hc & Hl) & Hall & Hmin) Hp.
  unfold etc2.nextTry. cbv zeta. fold (tryOf code flag).
  destruct (Z.gtb_spec (etc2.bestLoss s)
              (etc2.decodedLoss decodeColor pixels formatIsOneBitAlpha code flag))
    as [Hgt|Hle]; cbn [fst]; unfold searchInv;
    cbn [etc2.tried etc2.bestCode etc2.bestLoss].
  - split; [|split].
    + exists (tryOf code flag).
      split; [apply in_or_app; right; left; reflexivity | split; reflexivity].
    + apply Forall_app. split; [exact Hall | constructor; [exact Hp | constructor]].
    + apply Forall_app. split.
      * eapply Forall_impl; [|exact Hmin]. cbv beta. intros c' Hc'. lia.
      * constructor; [unfold tryOf; cbn [etc2.candLoss]; lia | constructor].
  - split; [|split].
    + exists c. split; [apply in_or_app; left; exact Hin | split; assumption].
    + apply Forall_app. split; [exact Hall | constructor; [exact Hp | constructor]].
    + apply Forall_app. split; [exact Hmin|].
      constructor; [unfold tryOf; cbn [etc2.candLoss]; lia | constructor].
Qed.

Lemma encodeColorETC2_inv (s : etc2.search) :
  searchInv P s ->
  P (tryOf (etc2.encodePlanar pixels) false) ->
  P (tryOf (etc2.encodeT T clusterfy pixels false false) false) ->
  P (tryOf (etc2.encodeH T clusterfy pixels false false) false) ->
  P (tryOf (etc2.encodeT T clusterfy pixels false true) false) ->
  P (tryOf (etc2.encodeH T clusterfy pixels false true) false) ->
  searchInv P (etc2.encodeColorETC2 T decodeColor clusterfy pixels formatIsOneBitAlpha s).
Proof.
  intros Hs Hp Ht Hh Hu Hi. unfold etc2.encodeColorETC2. cbv zeta.
  pose proof (nextTry_inv s _ false Hs Hp) as H1.
  destruct (etc2.nextTry decodeColor pixels formatIsOneBitAlpha s _ false) as [s1 w1].
  cbn [fst] in H1.
  pose proof (nextTry_inv s1 _ false H1 Ht) as H2.
  destruct (etc2.nextTry decodeColor pixels formatIsOneBitAlpha s1 _ false) as [s2 wonT].
  cbn [fst] in H2.
  pose proof (nextTry_inv s2 _ false H2 Hh) as H3.
  destruct (etc2.nextTry decodeColor pixels formatIsOneBitAlpha s2 _ false) as [s3 wonH].
  cbn [fst] in H3.
  destruct (_ =? etc2.goHarderT); [apply nextTry_inv; assumption|].
  destruct (_ =? etc2.goHarderH); [apply nextTry_inv; assumption|].
  exact H3.
Qed.

End Driver.

Ltac in_codes :=
  unfold subEncoderCodes; cbn [In];
  repeat lazymatch goal with
         | |- ?x = ?x \/ _ => left; exact eq_refl
         | |- _ \/ _ => right
         end.

Lemma app_snoc1 {A : Type} (l : list A) (a b : A) : (l ++ [a]) ++ [b] = l ++ [a; b].
Proof. rewrite <- app_assoc. reflexivity. Qed.

Lemma app_snoc2 {A : Type} (l : list A) (a b c : A) :
  (l ++ [a; b]) ++ [c] = l ++ [a; b; c].
Proof. rewrite <- app_assoc. reflexivity. Qed.

Lemma app_snoc3 {A : Type} (l : list A) (a b c d : A) :
  (l ++ [a; b; c]) ++ [d] = l ++ [a; b; c; d].
Proof. rewrite <- app_assoc. reflexivity. Qed.

Section DriverCandidates.

Variable T : etc2.Tables.
Variable decodeColor : Z -> bool -> list byte.
Variable clusterfy : list byte -> float -> (byte * byte * byte) * (byte * byte * byte).
Variable pixels : list byte.
Variable formatIsOneBitAlpha : bool.

Let loss : Z * bool -> Z := candidateLoss decodeColor pixels formatIsOneBitAlpha.

(** The candidates tried are [first :: rest], each with the loss of its
    decoded block, and the best loss is the least of them. *)
Let triedAre (first : Z * bool) (rest : list (Z * bool)) (s : etc2.search) : Prop :=
  map candKey (etc2.tried s) = first :: rest
  /\ etc2.bestLoss s = leastLoss loss first rest.

Lemma decodedLoss_spec (code : Z) (flag : bool) :
  etc2.decodedLoss decodeColor pixels formatIsOneBitAlpha code flag = loss (code, flag).
Proof. unfold etc2.decodedLoss. apply calculateBlockLoss_spec. Qed.

Lemma leastLoss_snoc (first : Z * bool) (rest : list (Z * bool)) (c : Z * bool) :
  leastLoss loss first (rest ++ [c]) = Z.min (leastLoss loss first rest) (loss c).
Proof. unfold leastLoss. rewrite fold_left_app. reflexivity. Qed.

Lemma firstTry_tried (code : Z) (flag : bool) :
  triedAre (code, flag) []
    (etc2.firstTry decodeColor pixels formatIsOneBitAlpha code flag).
Proof.
  unfold triedAre, etc2.firstTry. cbv zeta. cbn [etc2.tried etc2.bestLoss map].
  split; [reflexivity|]. unfold leastLoss. cbn [fold_left]. apply decodedLoss_spec.
Qed.

Lemma nextTry_tried (first : Z * bool) (rest : list (Z * bool)) (s : etc2.search)
    (code : Z) (flag : bool) :
  triedAre first rest s ->
  triedAre first (rest ++ [(code, flag)])
    (fst (etc2.nextTry decodeColor pixels formatIsOneBitAlpha s code flag))
  /\ snd (etc2.nextTry decodeColor pixels formatIsOneBitAlpha s code flag)
     = (leastLoss loss first rest >? loss (code, flag)).
Proof.
  intros [Hk Hb]. unfold etc2.nextTry. cbv zeta. rewrite decodedLoss_spec, Hb.
  unfold triedAre. rewrite leastLoss_snoc.
  destruct (Z.gtb_spec (leastLoss loss first rest) (loss (code, flag))) as [Hgt|Hle];
    cbn [fst snd etc2.tried etc2.bestLoss]; rewrite map_app, Hk; cbn [map candKey];
    unfold candKey at 1; cbn [etc2.candCode etc2.candDecodedAsOneBitAlpha].
  - split; [split; [reflexivity | lia] | reflexivity].
  - split; [split; [reflexivity | lia] | reflexivity].
Qed.

Lemma encodeColorETC2_tried (first : Z * bool) (before : list (Z * bool))
    (s : etc2.search) :
  triedAre first before s ->
  triedAre first (before ++ etc2Candidates T clusterfy pixels loss first before)
    (etc2.encodeColorETC2 T decodeColor clusterfy pixels formatIsOneBitAlpha s).
Proof.
  intros Hs. unfold etc2.encodeColorETC2, etc2Candidates. cbv zeta.
  destruct (nextTry_tried first before s (etc2.encodePlanar pixels) false Hs) as [H1 _].
  destruct (etc2.nextTry decodeColor pixels formatIsOneBitAlpha s _ false) as [s1 w1].
  cbn [fst] in H1.
  destruct (nextTry_tried first _ s1 (etc2.encodeT T clusterfy pixels false false) false H1)
    as [H2 W2].
  destruct (etc2.nextTry decodeColor pixels formatIsOneBitAlpha s1 _ false) as [s2 wonT].
  cbn [fst snd] in H2, W2. rewrite app_snoc1 in H2.
  destruct (nextTry_tried first _ s2 (etc2.encodeH T clusterfy pixels false false) false H2)
    as [H3 W3].
  destruct (etc2.nextTry decodeColor pixels formatIsOneBitAlpha s2 _ false) as [s3 wonH].
  cbn [fst snd] in H3, W3. rewrite app_snoc2 in H3.
  rewrite <- W2, <- W3.
  destruct (nextTry_tried first _ s3 (etc2.encodeH T clusterfy pixels false true) false H3)
    as [HI _].
  destruct (nextTry_tried first _ s3 (etc2.encodeT T clusterfy pixels false true) false H3)
    as [HU _].
  rewrite app_snoc3 in HI, HU.
  destruct wonH, wonT; cbn [app]; [exact HI | exact HI | exact HU | exact H3].
Qed.

End DriverCandidates.

Lemma encodeColorSearch_tried (T : etc2.Tables)
    (decodeColor : Z -> bool -> list byte)
    (clusterfy : list byte -> float -> (byte * byte * byte) * (byte * byte * byte))
    (encodeRGBWithAlpha : list byte -> bool -> Z)
    (pixels : list byte) (f : etc2.Format) :
  let s := etc2.encodeColorSearch T decodeColor clusterfy encodeRGBWithAlpha pixels f in
  map candKey (etc2.tried s)
  = producedCandidates T decodeColor clusterfy encodeRGBWithAlpha pixels f.
Proof.
  cbv zeta. unfold etc2.encodeColorSearch, producedCandidates. cbv zeta.
  set (a := f =? etc2.FormatETC2RGBA1).
  destruct a.
  - pose proof (firstTry_tried decodeColor pixels true
                  (encodeRGBWithAlpha pixels true) true) as H0.
    destruct (nextTry_tried decodeColor pixels true _ _ _
                (etc2.encodeT T clusterfy pixels true false) true H0) as [H1 _].
    destruct (etc2.nextTry decodeColor pixels true _ _ true) as [s1 w1]. cbn [fst] in H1.
    destruct (nextTry_tried decodeColor pixels true _ _ _
                (etc2.encodeH T clusterfy pixels true false) true H1) as [H2 _].
    destruct (etc2.nextTry decodeColor pixels true s1 _ true) as [s2 w2]. cbn [fst] in H2.
    cbn [app] in H2.
    destruct (etc2.hasTransparentPixelsWhenUsingOneBitAlpha pixels); [exact (proj1 H2)|].
    destruct (nextTry_tried decodeColor pixels true _ _ _
                (encodeRGBWithAlpha pixels false) true H2) as [H3 _].
    destruct (etc2.nextTry decodeColor pixels true s2 _ true) as [s3 w3]. cbn [fst] in H3.
    exact (proj1 (encodeColorETC2_tried T decodeColor clusterfy pixels true _ _ _ H3)).
  - pose proof (firstTry_tried decodeColor pixels false
                  (etc2.encodeRGBSansAlpha T pixels etc2.reduceAverage
                     (f =? etc2.FormatETC1S)) false) as H0.
    destruct (f =? etc2.FormatETC1S); [exact (proj1 H0)|].
    destruct (nextTry_tried decodeColor pixels false _ _ _
                (etc2.encodeRGBSansAlpha T pixels etc2.reduceQuantize false) false H0)
      as [H1 _].
    destruct (etc2.nextTry decodeColor pixels false _ _ false) as [s1 w1]. cbn [fst] in H1.
    cbn [app] in H1.
    destruct (negb _); [exact (proj1 H1)|].
    exact (proj1 (encodeColorETC2_tried T decodeColor clusterfy pixels false _ _ _ H1)).
Qed.
(** The state of the driver at its end. *)
Lemma encodeColorSearch_inv (T : etc2.Tables)
    (decodeColor : Z -> bool -> list byte)
    (clusterfy : list byte -> float -> (byte * byte * byte) * (byte * byte * byte))
    (encodeRGBWithAlpha : list byte -> bool -> Z)
    (pixels : list byte) (f : etc2.Format) :
  searchInv
    (fun c =>
       etc2.candLoss c
       = decodedBlockLoss pixels
           (decodeColor (etc2.candCode c) (etc2.candDecodedAsOneBitAlpha c))
           (f =? etc2.FormatETC2RGBA1)
       /\ In (etc2.candCode c)
             (subEncoderCodes T clusterfy encodeRGBWithAlpha pixels f))
    (etc2.encodeColorSearch T decodeColor clusterfy encodeRGBWithAlpha pixels f).
Proof.
  set (P := fun c : etc2.candidate =>
              etc2.candLoss c
              = decodedBlockLoss pixels
                  (decodeColor (etc2.candCode c) (etc2.candDecodedAsOneBitAlpha c))
                  (f =? etc2.FormatETC2RGBA1)
              /\ In (etc2.candCode c)
                    (subEncoderCodes T clusterfy encodeRGBWithAlpha pixels f)).
  assert (HP : forall code flag,
             In code (subEncoderCodes T clusterfy encodeRGBWithAlpha pixels f) ->
             P (etc2.mkCandidate code flag
                  (etc2.decodedLoss decodeColor pixels (f =? etc2.FormatETC2RGBA1) code flag))).
  { intros code flag Hin. unfold P. cbn [etc2.candLoss etc2.candCode etc2.candDecodedAsOneBitAlpha].
    split; [apply calculateBlockLoss_spec | exact Hin]. }
  unfold etc2.encodeColorSearch. cbv zeta.
  set (a := f =? etc2.FormatETC2RGBA1) in *.
  assert (Hetc2 : forall s, searchInv P s ->
            searchInv P (etc2.encodeColorETC2 T decodeColor clusterfy pixels a s)).
  { intros s Hs. apply encodeColorETC2_inv; [exact Hs | apply HP; in_codes ..]. }
  destruct a.
  - pose proof (firstTry_inv decodeColor pixels true P (encodeRGBWithAlpha pixels true) true
                  (HP (encodeRGBWithAlpha pixels true) true ltac:(in_codes))) as H0.
    pose proof (nextTry_inv decodeColor pixels true P _
                  (etc2.encodeT T clusterfy pixels true false) true H0
                  (HP (etc2.encodeT T clusterfy pixels true false) true ltac:(in_codes))) as H1.
    destruct (etc2.nextTry decodeColor pixels true _ _ true) as [s1 w1]. cbn [fst] in H1.
    pose proof (nextTry_inv decodeColor pixels true P _
                  (etc2.encodeH T clusterfy pixels true false) true H1
                  (HP (etc2.encodeH T clusterfy pixels true false) true ltac:(in_codes))) as H2.
    destruct (etc2.nextTry decodeColor pixels true s1 _ true) as [s2 w2]. cbn [fst] in H2.
    destruct (etc2.hasTransparentPixelsWhenUsingOneBitAlpha pixels); [exact H2|].
    pose proof (nextTry_inv decodeColor pixels true P _
                  (encodeRGBWithAlpha pixels false) true H2
                  (HP (encodeRGBWithAlpha pixels false) true ltac:(in_codes))) as H3.
    destruct (etc2.nextTry decodeColor pixels true s2 _ true) as [s3 w3]. cbn [fst] in H3.
    apply Hetc2. exact H3.
  - pose proof (firstTry_inv decodeColor pixels false P
                  (etc2.encodeRGBSansAlpha T pixels etc2.reduceAverage (f =? etc2.FormatETC1S))
                  false
                  (HP (etc2.encodeRGBSansAlpha T pixels etc2.reduceAverage
                         (f =? etc2.FormatETC1S)) false ltac:(in_codes))) as H0.
    destruct (f =? etc2.FormatETC1S) eqn:E1S; [exact H0|].
    pose proof (nextTry_inv decodeColor pixels false P _
                  (etc2.encodeRGBSansAlpha T pixels etc2.reduceQuantize false) false H0
                  (HP (etc2.encodeRGBSansAlpha T pixels etc2.reduceQuantize false) false
                      ltac:(in_codes))) as H1.
    destruct (etc2.nextTry decodeColor pixels false _ _ false) as [s1 w1]. cbn [fst] in H1.
    destruct (negb _); [exact H1|].
    apply Hetc2. exact H1.
Qed.

(** C1. The codeword that [encodeColor] returns is the code of one of the
    candidates it tried, with that candidate's loss as the best loss;
    every candidate tried is a codeword of a sub-encoder and carries the
    loss of its decoded block (by [decodeColor]) against the source
    pixels, the 299/587/114-weighted sum of squared channel differences;
    and no candidate tried has a loss below the best. The candidates
    tried are, in order, the candidates that the driver produces for the
    format and the block ([producedCandidates], which names them without
    the driver's state): so the codeword returned is one of the candidates
    produced, and its decoded loss is at most the decoded loss of every
    candidate produced. The driver compares nothing but these decoded
    losses. *)
Theorem encodeColor_least_decoded_loss (T : etc2.Tables)
    (decodeColor : Z -> bool -> list byte)
    (clusterfy : list byte -> float -> (byte * byte * byte) * (byte * byte * byte))
    (encodeRGBWithAlpha : list byte -> bool -> Z)
    (pixels : list byte) (f : etc2.Format) :
  let s := etc2.encodeColorSearch T decodeColor clusterfy encodeRGBWithAlpha pixels f in
  let produced :=
    producedCandidates T decodeColor clusterfy encodeRGBWithAlpha pixels f in
  let loss := candidateLoss decodeColor pixels (f =? etc2.FormatETC2RGBA1) in
  etc2.encodeColor T decodeColor clusterfy encodeRGBWithAlpha pixels f = etc2.bestCode s
  /\ (exists c, In c (etc2.tried s)
                /\ etc2.candCode c = etc2.bestCode s
                /\ etc2.candLoss c = etc2.bestLoss s)
  /\ Forall (fun c =>
               etc2.candLoss c
               = decodedBlockLoss pixels
                   (decodeColor (etc2.candCode c) (etc2.candDecodedAsOneBitAlpha c))
                   (f =? etc2.FormatETC2RGBA1)
               /\ In (etc2.candCode c)
                     (subEncoderCodes T clusterfy encodeRGBWithAlpha pixels f))
            (etc2.tried s)
  /\ Forall (fun c => etc2.bestLoss s <= etc2.candLoss c) (etc2.tried s)
  /\ map candKey (etc2.tried s) = produced
  /\ (exists c, In c produced
                /\ etc2.encodeColor T decodeColor clusterfy encodeRGBWithAlpha pixels f
                   = fst c
                /\ etc2.bestLoss s = loss c
                /\ forall c', In c' produced -> loss c <= loss c').
Proof.
  cbv zeta.
  pose proof (encodeColorSearch_tried T decodeColor clusterfy encodeRGBWithAlpha pixels f)
    as Hk. cbv zeta in Hk.
  destruct (encodeColorSearch_inv T decodeColor clusterfy encodeRGBWithAlpha pixels f)
    as (Hbest & Hall & Hmin).
  set (s := etc2.encodeColorSearch T decodeColor clusterfy encodeRGBWithAlpha pixels f)
    in *.
  split; [unfold etc2.encodeColor; reflexivity|].
  split; [exact Hbest|]. split; [exact Hall|]. split; [exact Hmin|].
  split; [exact Hk|].
  destruct Hbest as (c & Hin & Hc & Hl).
  rewrite Forall_forall in Hall, Hmin.
  exists (candKey c). split; [rewrite <- Hk; apply in_map; exact Hin|].
  split; [unfold etc2.encodeColor; fold s; rewrite <- Hc; reflexivity|].
  assert (Hloss : forall c0, In c0 (etc2.tried s) ->
            etc2.candLoss c0
            = candidateLoss decodeColor pixels (f =? etc2.FormatETC2RGBA1) (candKey c0))
    by (intros c0 H0; exact (proj1 (Hall c0 H0))).
  split; [rewrite <- Hl; apply Hloss; exact Hin|].
  intros c' Hc'. rewrite <- Hk in Hc'. apply in_map_iff in Hc'.
  destruct Hc' as (c0 & <- & H0).
  rewrite <- (Hloss c Hin), <- (Hloss c0 H0), Hl. apply Hmin. exact H0.
Qed.

(* ================================================================= *)
(** * Further properties of the code *)

(** ** Format.NewImage and the PKM header *)

Lemma roundUp4_spec (n : Z) :
  0 <= n -> pkm.roundUp4 n mod 4 = 0 /\ n <= pkm.roundUp4 n < n + 4.
Proof.
  intros Hn. unfold pkm.roundUp4. split.
  - rewrite Z.mul_comm. apply Z.mod_mul. lia.
  - pose proof (Z.div_mod (n + 3) 4 ltac:(lia)).
    pose proof (Z.mod_pos_bound (n + 3) 4 ltac:(lia)). lia.
Qed.

(** X1. [NewImage] on a width and a height in [0, 65535] and a format
    other than the invalid one gives bounds that start at the origin, with
    the width and the height rounded up to the next multiple of 4; outside
    of that it gives [ErrBadArgument]. *)
Theorem NewImage_rounds_up (f : etc2.Format) (width height : Z) :
  (0 <= width < 65536 -> 0 <= height < 65536 -> f <> etc2.FormatInvalid ->
   exists r, etc2.NewImage f width height = inl r
             /\ etc2.MinX r = 0 /\ etc2.MinY r = 0
             /\ etc2.Dx r mod 4 = 0 /\ width <= etc2.Dx r < width + 4
             /\ etc2.Dy r mod 4 = 0 /\ height <= etc2.Dy r < height + 4)
  /\ (width < 0 \/ 65536 <= width \/ height < 0 \/ 65536 <= height
      \/ f = etc2.FormatInvalid ->
      etc2.NewImage f width height = inr etc2.ErrBadArgument).
Proof.
  unfold etc2.NewImage. split.
  - intros Hw Hh Hf.
    destruct (Z.ltb_spec width 0); [lia|].
    destruct (Z.geb_spec width 65536); [lia|].
    destruct (Z.ltb_spec height 0); [lia|].
    destruct (Z.geb_spec height 65536); [lia|].
    cbn [orb]. cbv zeta.
    destruct (Z.eqb_spec f etc2.FormatInvalid) as [E|_]; [contradiction|].
    eexists. split; [reflexivity|].
    unfold etc2.Dx, etc2.Dy. cbn [etc2.MinX etc2.MinY etc2.MaxX etc2.MaxY].
    rewrite !andnot3_roundUp4, !Z.sub_0_r by lia.
    pose proof (roundUp4_spec width ltac:(lia)).
    pose proof (roundUp4_spec height ltac:(lia)). tauto.
  - intros H.
    destruct (Z.ltb_spec width 0); [reflexivity|].
    destruct (Z.geb_spec width 65536); [reflexivity|].
    destruct (Z.ltb_spec height 0); [reflexivity|].
    destruct (Z.geb_spec height 65536); [reflexivity|].
    cbn [orb]. cbv zeta.
    destruct (Z.eqb_spec f etc2.FormatInvalid) as [_|N]; [reflexivity|].
    exfalso. lia.
Qed.

Lemma decodeConfig_cases (buf rest : list byte) :
  length buf = 16%nat ->
  pkm.decodeConfig (buf ++ rest) = inr pkm.ErrNotAPKMFile
  \/ pkm.decodeConfig (buf ++ rest)
     = inl (pkm.formatOfByte (at8 buf 7),
            pkm.mkConfig (etc2.ColorModel (pkm.formatOfByte (at8 buf 7)))
              (pkm.be16 (at8 buf 12) (at8 buf 13))
              (pkm.be16 (at8 buf 14) (at8 buf 15)),
            rest).
Proof.
  intros Hlen. unfold pkm.decodeConfig.
  assert (HR : pkm.ReadFull (buf ++ rest) 16 = inl (buf, rest))
    by (apply ReadFull_inl; auto).
  rewrite HR. clear HR.
  destruct (_ || _); [left; reflexivity|].
  destruct (negb _); [left; reflexivity|]. cbv zeta.
  destruct (negb _); [left; reflexivity|].
  destruct (_ || _); [left; reflexivity|].
  right. unfold pkm.be16.
  pose proof (at8_range buf 12). pose proof (at8_range buf 13).
  pose proof (at8_range buf 14). pose proof (at8_range buf 15).
  rewrite !lor_shiftl_add by lia.
  change (2 ^ 8) with 256. rewrite !(Z.mul_comm _ 256). reflexivity.
Qed.

(** X2. [decodeConfig] on a reader that delivers a 16-byte header which
    passes the checks returns the format that the table gives for the byte
    at offset 7, that format's color model, the big-endian width and
    height of the bytes 12..15, and leaves the reader after the header. *)
Theorem decodeConfig_accepts (buf rest : list byte) :
  length buf = 16%nat -> ~ pkm.headerCheckFails buf ->
  pkm.decodeConfig (buf ++ rest)
  = inl (pkm.formatOfByte (at8 buf 7),
         pkm.mkConfig (etc2.ColorModel (pkm.formatOfByte (at8 buf 7)))
           (pkm.be16 (at8 buf 12) (at8 buf 13))
           (pkm.be16 (at8 buf 14) (at8 buf 15)),
         rest)
  /\ pkm.DecodeConfig (buf ++ rest)
     = inl (pkm.mkConfig (etc2.ColorModel (pkm.formatOfByte (at8 buf 7)))
              (pkm.be16 (at8 buf 12) (at8 buf 13))
              (pkm.be16 (at8 buf 14) (at8 buf 15))).
Proof.
  intros Hlen Hok.
  assert (E : pkm.decodeConfig (buf ++ rest)
              = inl (pkm.formatOfByte (at8 buf 7),
                     pkm.mkConfig (etc2.ColorModel (pkm.formatOfByte (at8 buf 7)))
                       (pkm.be16 (at8 buf 12) (at8 buf 13))
                       (pkm.be16 (at8 buf 14) (at8 buf 15)),
                     rest)).
  { destruct (decodeConfig_cases buf rest Hlen) as [E|E]; [|exact E].
    exfalso. apply Hok. apply (decodeConfig_header buf rest Hlen). exact E. }
  split; [exact E|]. unfold pkm.DecodeConfig. rewrite E. reflexivity.
Qed.

Lemma sampleHeader_passes : ~ pkm.headerCheckFails sampleHeader.
Proof.
  unfold pkm.headerCheckFails.
  intros [H|[H|[H|[[_ H]|[H|[H|H]]]]]]; apply H; vm_compute; reflexivity.
Qed.

Lemma decodeConfig_accepts_witness :
  pkm.decodeConfig (sampleHeader ++ [])
  = inl (etc2.FormatETC2RGB, pkm.mkConfig etc2.RGBAModel 16 16, []).
Proof.
  exact (proj1 (decodeConfig_accepts sampleHeader [] eq_refl sampleHeader_passes)).
Defined.

Lemma at8_map_z2b (l : list Z) (k : Z) :
  at8 (map z2b l) k = uint8 (nth (Z.to_nat k) l 0).
Proof.
  unfold at8. change x00 with (z2b 0). rewrite map_nth. apply b2z_z2b.
Qed.

Lemma uint8_small (v : Z) : 0 <= v < 256 -> uint8 v = v.
Proof. intros H. unfold uint8. apply Z.mod_small. change (2 ^ 8) with 256. lia. Qed.

Lemma namedFormat_pkm (f : etc2.Format) :
  In f namedFormats ->
  (f =? 0) = false
  /\ (etc2.ETCVersion f = 1 \/ etc2.ETCVersion f = 2)
  /\ 0 <= etc2.PKMFormat f < 256
  /\ pkm.formatOfByte (etc2.PKMFormat f)
     = (if f =? etc2.FormatETC1S then etc2.FormatETC1 else f)
  /\ etc2.ETCVersion (pkm.formatOfByte (etc2.PKMFormat f)) = etc2.ETCVersion f
  /\ etc2.ColorModel (pkm.formatOfByte (etc2.PKMFormat f)) = etc2.ColorModel f.
Proof.
  unfold namedFormats. cbn [In]. intros H.
  repeat (destruct H as [<-|H];
          [vm_compute; repeat split; try (left; reflexivity); try (right; reflexivity);
           discriminate|]).
  contradiction.
Qed.

Section PkmHeader.

Variable T : etc2.Tables.
Variable decodeColor : Z -> bool -> list byte.
Variable clusterfy : list byte -> float -> (byte * byte * byte) * (byte * byte * byte).
Variable encodeRGBWithAlpha : list byte -> bool -> Z.

Lemma pkm_header_passes (v p bW bH : Z) (more : list byte) :
  v = 1 \/ v = 2 -> 0 <= p < 256 ->
  etc2.ETCVersion (pkm.formatOfByte p) = v ->
  0 <= bW <= 65532 -> 0 <= bH <= 65532 ->
  pkm.decodeConfig
    (map z2b (pkm.Magic ++
       [ Z.lor 0x30 (uint8 v); 0x30; 0x00; p;
         Z.shiftr (andnot (bW + 3) 3) 8; Z.shiftr (andnot (bW + 3) 3) 0;
         Z.shiftr (andnot (bH + 3) 3) 8; Z.shiftr (andnot (bH + 3) 3) 0;
         Z.shiftr bW 8; Z.shiftr bW 0; Z.shiftr bH 8; Z.shiftr bH 0 ]) ++ more)
  = inl (pkm.formatOfByte p,
         pkm.mkConfig (etc2.ColorModel (pkm.formatOfByte p)) bW bH, more).
Proof.
  intros Hv Hp Hver Hw Hh.
  set (buf := map z2b _).
  pose proof (roundUp4_spec bW ltac:(lia)) as Rw.
  pose proof (roundUp4_spec bH ltac:(lia)) as Rh.
  assert (E4 : at8 buf 4 = 0x30 + v).
  { unfold buf. rewrite at8_map_z2b.
    destruct Hv as [-> | ->]; vm_compute; reflexivity. }
  assert (E7 : at8 buf 7 = p).
  { unfold buf. rewrite at8_map_z2b. apply uint8_small. exact Hp. }
  assert (E89 : pkm.be16 (at8 buf 8) (at8 buf 9) = pkm.roundUp4 bW).
  { unfold buf. rewrite !at8_map_z2b. unfold pkm.be16.
    change (nth (Z.to_nat 8) _ 0) with (Z.shiftr (andnot (bW + 3) 3) 8).
    change (nth (Z.to_nat 9) _ 0) with (Z.shiftr (andnot (bW + 3) 3) 0).
    rewrite andnot3_roundUp4 by lia. apply be16_bytes. lia. }
  assert (E1011 : pkm.be16 (at8 buf 10) (at8 buf 11) = pkm.roundUp4 bH).
  { unfold buf. rewrite !at8_map_z2b. unfold pkm.be16.
    change (nth (Z.to_nat 10) _ 0) with (Z.shiftr (andnot (bH + 3) 3) 8).
    change (nth (Z.to_nat 11) _ 0) with (Z.shiftr (andnot (bH + 3) 3) 0).
    rewrite andnot3_roundUp4 by lia. apply be16_bytes. lia. }
  assert (E1213 : pkm.be16 (at8 buf 12) (at8 buf 13) = bW).
  { unfold buf. rewrite !at8_map_z2b. unfold pkm.be16.
    change (nth (Z.to_nat 12) _ 0) with (Z.shiftr bW 8).
    change (nth (Z.to_nat 13) _ 0) with (Z.shiftr bW 0).
    apply be16_bytes. lia. }
  assert (E1415 : pkm.be16 (at8 buf 14) (at8 buf 15) = bH).
  { unfold buf. rewrite !at8_map_z2b. unfold pkm.be16.
    change (nth (Z.to_nat 14) _ 0) with (Z.shiftr bH 8).
    change (nth (Z.to_nat 15) _ 0) with (Z.shiftr bH 0).
    apply be16_bytes. lia. }
  assert (Hok : ~ pkm.headerCheckFails buf).
  { unfold pkm.headerCheckFails. rewrite E4, E7, E89, E1011, E1213, E1415.
    intros [H|[H|[H|[[H1 H2]|[H|[H|H]]]]]].
    - apply H. reflexivity.
    - apply H. reflexivity.
    - apply H. reflexivity.
    - lia.
    - lia.
    - apply H. reflexivity.
    - apply H. reflexivity. }
  destruct (decodeConfig_accepts buf more eq_refl Hok) as [E _].
  rewrite E, E7, E1213, E1415. reflexivity.
Qed.

(** X3. The header that [pkm.Encode] writes first is read back by
    [decodeConfig]: for a named format and an image of at most 65532 by
    65532 it gives the format (ETC1 for ETC1S, which has no PKM number of
    its own), its color model, and the width and the height of the
    image. *)
Theorem pkm_header_round_trip (w : etc2.Writer) (src : etc2.Image)
    (f : etc2.Format) (more : list byte) :
  In f namedFormats ->
  0 <= etc2.Dx (etc2.Bounds src) <= 65532 ->
  0 <= etc2.Dy (etc2.Bounds src) <= 65532 ->
  exists header blocks,
    fst (pkm.Encode T decodeColor clusterfy encodeRGBWithAlpha w src f)
    = header :: blocks
    /\ pkm.decodeConfig (header ++ more)
       = inl (if f =? etc2.FormatETC1S then etc2.FormatETC1 else f,
              pkm.mkConfig (etc2.ColorModel f)
                (etc2.Dx (etc2.Bounds src)) (etc2.Dy (etc2.Bounds src)),
              more).
Proof.
  intros Hin Hw Hh.
  destruct (namedFormat_pkm f Hin) as (Hf0 & Hv & Hp & Hfmt & Hver & Hcm).
  unfold pkm.Encode. cbv zeta.
  destruct (Z.gtb_spec (etc2.Dx (etc2.Bounds src)) 65532); [lia|].
  destruct (Z.gtb_spec (etc2.Dy (etc2.Bounds src)) 65532); [lia|].
  cbn [orb]. rewrite Hf0. cbn [negb].
  destruct (Z.eqb_spec (etc2.ETCVersion f) 0) as [E0|_]; [lia|].
  pose proof (pkm_header_passes (etc2.ETCVersion f) (etc2.PKMFormat f)
                (etc2.Dx (etc2.Bounds src)) (etc2.Dy (etc2.Bounds src)) more
                Hv Hp Hver Hw Hh) as HD.
  rewrite Hfmt in HD at 1. rewrite Hcm in HD.
  set (buf := map z2b _) in *.
  destruct (w [] buf).
  - exists buf, []. split; [reflexivity | exact HD].
  - destruct (etc2.Encode T decodeColor clusterfy encodeRGBWithAlpha _ (Some src) f)
      as [written err].
    exists buf, written. split; [reflexivity | exact HD].
Qed.

End PkmHeader.
Lemma pkm_header_round_trip_witness :
  exists header blocks,
    fst (pkm.Encode etc2.publishedTables etc2.sampleDecodeColor etc2.sampleClusterfy
           etc2.sampleEncodeRGBWithAlpha etc2.acceptAll (etc2.grayImage 16 16)
           etc2.FormatETC2RGB)
    = header :: blocks
    /\ pkm.decodeConfig (header ++ [])
       = inl (if etc2.FormatETC2RGB =? etc2.FormatETC1S
              then etc2.FormatETC1 else etc2.FormatETC2RGB,
              pkm.mkConfig (etc2.ColorModel etc2.FormatETC2RGB)
                (etc2.Dx (etc2.Bounds (etc2.grayImage 16 16)))
                (etc2.Dy (etc2.Bounds (etc2.grayImage 16 16))),
              []).
Proof.
  apply (pkm_header_round_trip etc2.publishedTables etc2.sampleDecodeColor
           etc2.sampleClusterfy etc2.sampleEncodeRGBWithAlpha etc2.acceptAll
           (etc2.grayImage 16 16) etc2.FormatETC2RGB []).
  - right. right. left. reflexivity.
  - vm_compute. split; discriminate.
  - vm_compute. split; discriminate.
Defined.

Lemma decodeConfig_inl (r : list byte) (x : etc2.Format * pkm.Config * list byte) :
  pkm.decodeConfig r = inl x ->
  exists buf rest,
    r = buf ++ rest /\ length buf = 16%nat /\ ~ pkm.headerCheckFails buf
    /\ x = (pkm.formatOfByte (at8 buf 7),
            pkm.mkConfig (etc2.ColorModel (pkm.formatOfByte (at8 buf 7)))
              (pkm.be16 (at8 buf 12) (at8 buf 13))
              (pkm.be16 (at8 buf 14) (at8 buf 15)),
            rest).
Proof.
  intros E.
  assert (HR : exists buf rest, pkm.ReadFull r 16 = inl (buf, rest)).
  { unfold pkm.decodeConfig in E.
    destruct (pkm.ReadFull r 16) as [[buf rest]|e]; [|discriminate E].
    exists buf, rest. reflexivity. }
  destruct HR as (buf & rest & HR). apply ReadFull_inl in HR.
  destruct HR as [-> Hlen]. exists buf, rest.
  assert (Hok : ~ pkm.headerCheckFails buf).
  { intros Hf. apply (decodeConfig_header buf rest Hlen) in Hf.
    rewrite Hf in E. discriminate E. }
  split; [reflexivity|]. split; [exact Hlen|]. split; [exact Hok|].
  destruct (decodeConfig_accepts buf rest Hlen Hok) as [E' _].
  rewrite E' in E. injection E as <-. reflexivity.
Qed.

(** X4. [pkm.Decode] does not fail in [NewImage]: once [decodeConfig] has
    accepted the header, the format is not the invalid one and the sizes
    are below 65536, so that the image is allocated with the sizes rounded
    up to a multiple of 4, and the result is that of the block decoder.
    When [decodeConfig] fails, [Decode] returns its error. *)
Theorem pkm_Decode_allocates
    (formatDecode : etc2.Format -> etc2.Rectangle -> list byte -> option etc2.error)
    (r : list byte) :
  match pkm.decodeConfig r with
  | inr err => pkm.Decode formatDecode r = inr err
  | inl (format, config, rest) =>
    let b := etc2.mkRect 0 0 (pkm.roundUp4 (pkm.Width config))
                             (pkm.roundUp4 (pkm.Height config)) in
    etc2.NewImage format (pkm.Width config) (pkm.Height config) = inl b
    /\ pkm.Decode formatDecode r
       = match formatDecode format b rest with
         | Some err => inr (pkm.ErrEtc2 err)
         | None => inl (format, config)
         end
  end.
Proof.
  unfold pkm.Decode.
  destruct (pkm.decodeConfig r) as [[[format config] rest]|err] eqn:E; [|reflexivity].
  destruct (decodeConfig_inl r _ E) as (buf & rest' & -> & Hlen & Hok & X).
  injection X as -> -> ->. cbn [pkm.Width pkm.Height]. cbv zeta.
  pose proof (at8_range buf 4) as R4.
  pose proof (at8_range buf 12). pose proof (at8_range buf 13).
  pose proof (at8_range buf 14). pose proof (at8_range buf 15).
  assert (Hv : etc2.ETCVersion (pkm.formatOfByte (at8 buf 7)) <> 0).
  { intros Hz. apply Hok. unfold pkm.headerCheckFails.
    destruct (Z.eq_dec (at8 buf 4) 0x31) as [E1|N1].
    - do 4 right. left. lia.
    - destruct (Z.eq_dec (at8 buf 4) 0x32) as [E2|N2].
      + do 4 right. left. lia.
      + do 3 right. left. split; assumption. }
  assert (Hf : (pkm.formatOfByte (at8 buf 7) =? etc2.FormatInvalid) = false).
  { apply Z.eqb_neq. intros Hz. apply Hv. rewrite Hz. reflexivity. }
  assert (EN : etc2.NewImage (pkm.formatOfByte (at8 buf 7))
                 (pkm.be16 (at8 buf 12) (at8 buf 13))
                 (pkm.be16 (at8 buf 14) (at8 buf 15))
               = inl (etc2.mkRect 0 0
                        (pkm.roundUp4 (pkm.be16 (at8 buf 12) (at8 buf 13)))
                        (pkm.roundUp4 (pkm.be16 (at8 buf 14) (at8 buf 15))))).
  { unfold etc2.NewImage, pkm.be16.
    destruct (Z.ltb_spec (256 * at8 buf 12 + at8 buf 13) 0); [lia|].
    destruct (Z.geb_spec (256 * at8 buf 12 + at8 buf 13) 65536); [lia|].
    destruct (Z.ltb_spec (256 * at8 buf 14 + at8 buf 15) 0); [lia|].
    destruct (Z.geb_spec (256 * at8 buf 14 + at8 buf 15) 65536); [lia|].
    cbn [orb]. cbv zeta. rewrite Hf.
    rewrite !andnot3_roundUp4 by lia. reflexivity. }
  rewrite EN. split; reflexivity.
Qed.

(** X5. A reader that ends before the 16 bytes of the header makes
    [decodeConfig], [DecodeConfig] and [Decode] return the error of
    [io.ReadFull]: [io.EOF] when it delivers nothing, [io.ErrUnexpectedEOF]
    otherwise; none of them answers [ErrNotAPKMFile] then. *)
Theorem pkm_short_read
    (formatDecode : etc2.Format -> etc2.Rectangle -> list byte -> option etc2.error)
    (r : list byte) :
  (length r < 16)%nat ->
  let e := pkm.ErrIO (match r with [] => pkm.EOF | _ => pkm.ErrUnexpectedEOF end) in
  pkm.decodeConfig r = inr e
  /\ pkm.DecodeConfig r = inr e
  /\ pkm.Decode formatDecode r = inr e.
Proof.
  intros Hlen. cbv zeta. pose proof (decodeConfig_short r Hlen) as E.
  unfold pkm.DecodeConfig, pkm.Decode. rewrite E. repeat split.
Qed.

Lemma pkm_short_read_witness :
  pkm.decodeConfig [x50; x4b] = inr (pkm.ErrIO pkm.ErrUnexpectedEOF)
  /\ pkm.DecodeConfig [x50; x4b] = inr (pkm.ErrIO pkm.ErrUnexpectedEOF)
  /\ pkm.Decode (fun _ _ _ => None) [x50; x4b] = inr (pkm.ErrIO pkm.ErrUnexpectedEOF).
Proof.
  apply (pkm_short_read (fun _ _ _ => None) [x50; x4b]). cbn. lia.
Defined.

(* ----------------------------------------------------------------- *)
(** ** Encode: its output and its errors *)

Lemma by4_length (n : Z) : length (etc2.by4 n) = Z.to_nat ((n + 3) / 4).
Proof. unfold etc2.by4, range. rewrite !length_map, length_seq. reflexivity. Qed.

Lemma blockPositions_length (bW bH : Z) :
  length (etc2.blockPositions bW bH)
  = (Z.to_nat ((bH + 3) / 4) * Z.to_nat ((bW + 3) / 4))%nat.
Proof.
  unfold etc2.blockPositions. rewrite <- (by4_length bH), <- (by4_length bW).
  induction (etc2.by4 bH) as [|y l IH]; [reflexivity|].
  cbn [flat_map length]. rewrite length_app, length_map, IH. lia.
Qed.

Lemma namedFormat_bytes (f : etc2.Format) :
  In f namedFormats ->
  Z.of_nat (8 * etc2.nCodes (andnot f etc2.formatBitSRGBColorSpace))
  = etc2.BytesPerBlock f.
Proof.
  unfold namedFormats. cbn [In]. intros H.
  repeat (destruct H as [<-|H]; [vm_compute; reflexivity|]).
  contradiction.
Qed.

Lemma srgb_bit (f : Z) :
  0 <= f < 256 ->
  (etc2.ETCVersion (andnot f etc2.formatBitSRGBColorSpace) =? 0)
  = (etc2.ETCVersion f =? 0)
  /\ andnot (andnot f etc2.formatBitSRGBColorSpace) etc2.formatBitSRGBColorSpace
     = andnot f etc2.formatBitSRGBColorSpace.
Proof.
  intros Hf.
  assert (H : allBelow 256
                (fun f =>
                   Bool.eqb (etc2.ETCVersion (andnot f etc2.formatBitSRGBColorSpace) =? 0)
                            (etc2.ETCVersion f =? 0)
                   && (andnot (andnot f etc2.formatBitSRGBColorSpace)
                              etc2.formatBitSRGBColorSpace
                       =? andnot f etc2.formatBitSRGBColorSpace)) = true)
    by (vm_compute; reflexivity).
  pose proof (allBelow_spec _ _ H f Hf) as Hb. cbv beta in Hb.
  apply andb_true_iff in Hb. destruct Hb as [H1 H2].
  split; [apply eqb_prop; exact H1 | apply Z.eqb_eq; exact H2].
Qed.

Lemma acceptedLog_nil (dst : etc2.Writer) : acceptedLog dst [].
Proof. intros pre c post E. destruct pre; discriminate E. Qed.

Lemma acceptedLog_snoc (dst : etc2.Writer) (log : list (list byte)) (c : list byte) :
  acceptedLog dst log -> dst log c = None -> acceptedLog dst (log ++ [c]).
Proof.
  intros Hlog Hc pre c' post E.
  destruct post as [|x post] using rev_ind.
  - apply app_inj_tail in E. destruct E as [<- <-]. exact Hc.
  - clear IHpost. rewrite app_comm_cons, app_assoc in E.
    apply app_inj_tail in E. destruct E as [E _].
    apply (Hlog pre c' post). exact E.
Qed.

Section EncodeMore.

Variable T : etc2.Tables.
Variable decodeColor : Z -> bool -> list byte.
Variable clusterfy : list byte -> float -> (byte * byte * byte) * (byte * byte * byte).
Variable encodeRGBWithAlpha : list byte -> bool -> Z.

Let Encode := etc2.Encode T decodeColor clusterfy encodeRGBWithAlpha.

(** X6. When [Encode] succeeds, the bytes passed to the sink are, in
    order, the codewords of the 4x4 blocks of the image, row of blocks by
    row of blocks; for a named format that is [BytesPerBlock] bytes for
    each of the ceil(width/4) * ceil(height/4) blocks. *)
Theorem Encode_output_blocks (dst : etc2.Writer) (src : etc2.Image)
    (f : etc2.Format) (written : list (list byte)) :
  In f namedFormats ->
  0 <= etc2.Dx (etc2.Bounds src) -> 0 <= etc2.Dy (etc2.Bounds src) ->
  Encode (Some dst) (Some src) f = (written, None) ->
  concat written
  = concat (etc2.encodedBlocks T decodeColor clusterfy encodeRGBWithAlpha src
              (andnot f etc2.formatBitSRGBColorSpace) (repeat x00 64)
              (etc2.blockPositions (etc2.Dx (etc2.Bounds src))
                                   (etc2.Dy (etc2.Bounds src))))
  /\ Z.of_nat (length (concat written))
     = ((etc2.Dx (etc2.Bounds src) + 3) / 4) * ((etc2.Dy (etc2.Bounds src) + 3) / 4)
       * etc2.BytesPerBlock f.
Proof.
  intros Hin Hw Hh E.
  destruct (Encode_success T decodeColor clusterfy encodeRGBWithAlpha
              dst src f written E) as [_ Hc].
  split; [exact Hc|].
  rewrite Hc, encodedBlocks_length, blockPositions_length.
  rewrite <- (namedFormat_bytes f Hin).
  assert (0 <= (etc2.Dx (etc2.Bounds src) + 3) / 4) by (apply Z.div_pos; lia).
  assert (0 <= (etc2.Dy (etc2.Bounds src) + 3) / 4) by (apply Z.div_pos; lia).
  rewrite !Nat2Z.inj_mul, !Z2Nat.id by assumption. ring.
Qed.

(** X7. [Encode] strips the sRGB bit of the format: it passes the same
    bytes to the sink, and returns the same error, for a format and for
    the format with the sRGB bit cleared. *)
Theorem Encode_ignores_sRGB (dst : option etc2.Writer) (src : option etc2.Image)
    (f : etc2.Format) :
  0 <= f < 256 ->
  Encode dst src f = Encode dst src (andnot f etc2.formatBitSRGBColorSpace).
Proof.
  intros Hf. destruct (srgb_bit f Hf) as [Hv Ha].
  unfold Encode, etc2.Encode.
  destruct dst as [dst|]; [|reflexivity]. destruct src as [src|]; [|reflexivity].
  rewrite Hv. cbv zeta. rewrite Ha. reflexivity.
Qed.

Lemma encodeBlock_log (dst : etc2.Writer) (src : etc2.Image) (f : etc2.Format)
    (st : etc2.encodeState) (pos : Z * Z) :
  acceptedLog dst (etc2.written st) ->
  match etc2.encodeBlock T decodeColor clusterfy encodeRGBWithAlpha dst src f st pos with
  | inl st' => acceptedLog dst (etc2.written st')
  | inr (w, e) =>
    exists pre c we,
      w = pre ++ [c] /\ acceptedLog dst pre
      /\ dst pre c = Some we /\ e = etc2.ErrWrite we
  end.
Proof.
  intros Hlog. unfold etc2.encodeBlock. destruct pos as [blockX blockY]. cbv zeta.
  match goal with
  | |- context [let '(b, j) := ?e in _] => destruct e as [b j]
  end.
  destruct (j >=? etc2.encoderBufferSize); [|exact Hlog].
  destruct (dst (etc2.written st) b) as [we|] eqn:Ew.
  - exists (etc2.written st), b, we. auto.
  - cbn [etc2.written]. apply acceptedLog_snoc; assumption.
Qed.

Lemma encodeBlocks_log (dst : etc2.Writer) (src : etc2.Image) (f : etc2.Format)
    (positions : list (Z * Z)) (st : etc2.encodeState) :
  acceptedLog dst (etc2.written st) ->
  match etc2.encodeBlocks T decodeColor clusterfy encodeRGBWithAlpha
          dst src f st positions with
  | inl st' => acceptedLog dst (etc2.written st')
  | inr (w, e) =>
    exists pre c we,
      w = pre ++ [c] /\ acceptedLog dst pre
      /\ dst pre c = Some we /\ e = etc2.ErrWrite we
  end.
Proof.
  revert st. induction positions as [|pos rest IH]; intros st Hlog.
  - exact Hlog.
  - cbn [etc2.encodeBlocks].
    pose proof (encodeBlock_log dst src f st pos Hlog) as H.
    destruct (etc2.encodeBlock T decodeColor clusterfy encodeRGBWithAlpha
                dst src f st pos) as [st'|[w e]].
    + apply IH. exact H.
    + exact H.
Qed.

(** X8. [Encode] stops at the first write that the sink refuses and
    returns the sink's error: the log of its writes ends with that write,
    and every write before it was accepted. Without an error every write
    was accepted, and with an error of the argument checks there is no
    write. *)
Theorem Encode_stops_at_refused_write (dst : etc2.Writer) (src : etc2.Image)
    (f : etc2.Format) (written : list (list byte)) (err : option etc2.error) :
  Encode (Some dst) (Some src) f = (written, err) ->
  match err with
  | None => acceptedLog dst written
  | Some (etc2.ErrWrite we) =>
    exists pre c, written = pre ++ [c] /\ acceptedLog dst pre /\ dst pre c = Some we
  | Some _ => written = []
  end.
Proof.
  unfold Encode, etc2.Encode.
  destruct (etc2.ETCVersion f =? 0); [intros E; injection E as <- <-; reflexivity|].
  cbv zeta.
  destruct (_ || _); [intros E; injection E as <- <-; reflexivity|].
  match goal with
  | |- context [etc2.encodeBlocks _ _ _ _ ?d ?s ?g ?st ?ps] =>
    pose proof (encodeBlocks_log d s g ps st (acceptedLog_nil d)) as H;
      destruct (etc2.encodeBlocks T decodeColor clusterfy encodeRGBWithAlpha d s g st ps)
        as [st'|[w e]]
  end.
  - destruct (etc2.bufJ st' >? 0).
    + destruct (dst (etc2.written st') _) as [we|] eqn:Ew;
        intros E; injection E as <- <-.
      * eexists. eexists. split; [reflexivity|]. split; [exact H | exact Ew].
      * apply acceptedLog_snoc; assumption.
    + intros E. injection E as <- <-. exact H.
  - destruct H as (pre & c & we & -> & Hpre & Hc & ->).
    intros E. injection E as <- <-. exists pre, c. auto.
Qed.

End EncodeMore.

Lemma Encode_output_blocks_witness :
  exists written,
    etc2.Encode etc2.publishedTables etc2.sampleDecodeColor etc2.sampleClusterfy
      etc2.sampleEncodeRGBWithAlpha (Some etc2.acceptAll)
      (Some (etc2.grayImage 16 16)) etc2.FormatETC2RGBA8 = (written, None)
    /\ Z.of_nat (length (concat written))
       = ((etc2.Dx (etc2.Bounds (etc2.grayImage 16 16)) + 3) / 4)
         * ((etc2.Dy (etc2.Bounds (etc2.grayImage 16 16)) + 3) / 4)
         * etc2.BytesPerBlock etc2.FormatETC2RGBA8.
Proof.
  destruct (Encode_ok etc2.publishedTables etc2.sampleDecodeColor etc2.sampleClusterfy
              etc2.sampleEncodeRGBWithAlpha etc2.acceptAll (etc2.grayImage 16 16)
              etc2.FormatETC2RGBA8)
    as [written E];
    [reflexivity | discriminate | discriminate | discriminate |].
  exists written. split; [exact E|].
  refine (proj2 (Encode_output_blocks etc2.publishedTables etc2.sampleDecodeColor
                   etc2.sampleClusterfy etc2.sampleEncodeRGBWithAlpha etc2.acceptAll
                   (etc2.grayImage 16 16) etc2.FormatETC2RGBA8 written _ _ _ E)).
  - do 4 right. left. reflexivity.
  - discriminate.
  - discriminate.
Defined.

Lemma Encode_ignores_sRGB_witness :
  etc2.Encode etc2.publishedTables etc2.sampleDecodeColor etc2.sampleClusterfy
    etc2.sampleEncodeRGBWithAlpha (Some etc2.acceptAll)
    (Some (etc2.grayImage 16 16)) etc2.FormatETC2SRGB
  = etc2.Encode etc2.publishedTables etc2.sampleDecodeColor etc2.sampleClusterfy
      etc2.sampleEncodeRGBWithAlpha (Some etc2.acceptAll)
      (Some (etc2.grayImage 16 16))
      (andnot etc2.FormatETC2SRGB etc2.formatBitSRGBColorSpace).
Proof.
  apply Encode_ignores_sRGB. split; [discriminate | reflexivity].
Defined.

Lemma Encode_stops_at_refused_write_witness :
  let run := etc2.Encode etc2.publishedTables etc2.sampleDecodeColor
               etc2.sampleClusterfy etc2.sampleEncodeRGBWithAlpha
               (Some rejectAll) (Some (etc2.grayImage 4 4)) etc2.FormatETC1 in
  match snd run with
  | None => acceptedLog rejectAll (fst run)
  | Some (etc2.ErrWrite we) =>
    exists pre c, fst run = pre ++ [c] /\ acceptedLog rejectAll pre
                  /\ rejectAll pre c = Some we
  | Some _ => fst run = []
  end.
Proof.
  cbv zeta.
  apply (Encode_stops_at_refused_write etc2.publishedTables etc2.sampleDecodeColor
           etc2.sampleClusterfy etc2.sampleEncodeRGBWithAlpha rejectAll
           (etc2.grayImage 4 4) etc2.FormatETC1).
  apply surjective_pairing.
Defined.

(* ----------------------------------------------------------------- *)
(** ** writeU64BE and the extractor *)

(** X9. [writeU64BE] stores the eight bytes of x at the offset, the most
    significant first, and leaves every other byte and the length of the
    buffer as they were. *)
Theorem writeU64BE_big_endian (buf : list byte) (off x : Z) :
  0 <= off -> (Z.to_nat off + 8 <= length buf)%nat ->
  length (etc2.writeU64BE buf off x) = length buf
  /\ (forall k, 0 <= k < 8 ->
        at8 (etc2.writeU64BE buf off x) (off + k) = uint8 (Z.shiftr x (56 - 8 * k)))
  /\ (forall i, 0 <= i -> i < off \/ off + 8 <= i ->
        at8 (etc2.writeU64BE buf off x) i = at8 buf i).
Proof.
  intros Hoff Hfit. split; [apply writeU64BE_length|]. split.
  - intros k Hk. unfold etc2.writeU64BE. cbv zeta.
    assert (Hc : k = 0 \/ k = 1 \/ k = 2 \/ k = 3 \/ k = 4 \/ k = 5 \/ k = 6 \/ k = 7)
      by lia.
    repeat (destruct Hc as [->|Hc]);
      [..|subst k];
      rewrite ?(at8_store8_other _ _ _ _) by lia;
      (rewrite at8_store8_same by (rewrite ?store8_length; lia));
      reflexivity.
  - intros i Hi Hout. unfold etc2.writeU64BE. cbv zeta.
    rewrite !at8_store8_other by lia. reflexivity.
Qed.

Lemma writeU64BE_big_endian_witness :
  length (etc2.writeU64BE (repeat x00 16) 4 0x0102030405060708) = length (repeat x00 16)
  /\ (forall k, 0 <= k < 8 ->
        at8 (etc2.writeU64BE (repeat x00 16) 4 0x0102030405060708) (4 + k)
        = uint8 (Z.shiftr 0x0102030405060708 (56 - 8 * k)))
  /\ (forall i, 0 <= i -> i < 4 \/ 4 + 8 <= i ->
        at8 (etc2.writeU64BE (repeat x00 16) 4 0x0102030405060708) i
        = at8 (repeat x00 16) i).
Proof.
  apply (writeU64BE_big_endian (repeat x00 16) 4 0x0102030405060708); [lia | cbn; lia].
Defined.
(** X10. In the formats with 8-bit channels the extractor leaves, for the
    pixel (x, y) of the block, the bytes R, G, B, A at 16y + 4x: the
    channels of the source's sample at the block's corner plus (x, y),
    held back to the last column and the last row of the image (so the
    pixels right of and below the image repeat the edge); an
    [*image.NRGBA] gives its bytes as they are, the 16-bit kinds the high
    bytes of their (un-premultiplied) channels. *)
Theorem extract_color_pixel (f : etc2.Format) (src : etc2.Image) (px : list byte)
    (blockX blockY x y : Z) :
  length px = 64%nat -> Z.land f etc2.formatBitDepth11 = 0 ->
  0 <= x < 4 -> 0 <= y < 4 ->
  let sx := Z.min (etc2.MaxX (etc2.Bounds src) - 1) (blockX + x) in
  let sy := Z.min (etc2.MaxY (etc2.Bounds src) - 1) (blockY + y) in
  let c := etc2.sampleColor (etc2.Kind src) (etc2.At src sx sy) in
  let sh := match etc2.Kind src with etc2.KindNRGBA => 0 | _ => 8 end in
  let out := etc2.extract f src px blockX blockY in
  at8 out (16 * y + 4 * x + 0) = uint8 (Z.shiftr (etc2.cR c) sh)
  /\ at8 out (16 * y + 4 * x + 1) = uint8 (Z.shiftr (etc2.cG c) sh)
  /\ at8 out (16 * y + 4 * x + 2) = uint8 (Z.shiftr (etc2.cB c) sh)
  /\ at8 out (16 * y + 4 * x + 3) = uint8 (Z.shiftr (etc2.cA c) sh).
Proof.
  intros Hlen Hf Hx Hy. cbv zeta.
  assert (Hs : etc2.pixelStores f src blockX blockY (y, x)
               = etc2.stores8888 (etc2.Kind src)
                   (etc2.At src
                      (Z.min (etc2.MaxX (etc2.Bounds src) - 1) (blockX + x))
                      (Z.min (etc2.MaxY (etc2.Bounds src) - 1) (blockY + y)))
                   (16 * y + 4 * x)).
  { unfold etc2.pixelStores, etc2.sampleAt. cbv zeta. cbn [fst snd].
    rewrite Hf. reflexivity. }
  assert (G : forall i v,
             In (i, v) (etc2.stores8888 (etc2.Kind src)
                          (etc2.At src
                             (Z.min (etc2.MaxX (etc2.Bounds src) - 1) (blockX + x))
                             (Z.min (etc2.MaxY (etc2.Bounds src) - 1) (blockY + y)))
                          (16 * y + 4 * x)) ->
             at8 (etc2.extract f src px blockX blockY) i = uint8 v).
  { intros i v Hin. apply (extract_get f src px blockX blockY y x i v); try assumption.
    rewrite Hs. exact Hin. }
  unfold etc2.stores8888 in G.
  destruct (etc2.Kind src); cbv zeta in G; cbn [etc2.sampleColor] in *;
    rewrite ?Z.shiftr_0_r;
    (split; [|split; [|split]]); apply G; cbn [In]; tauto.
Qed.

Lemma extract_color_pixel_witness :
  let src := etc2.grayImage 6 6 in
  let sx := Z.min (etc2.MaxX (etc2.Bounds src) - 1) (4 + 3) in
  let sy := Z.min (etc2.MaxY (etc2.Bounds src) - 1) (4 + 0) in
  let c := etc2.sampleColor (etc2.Kind src) (etc2.At src sx sy) in
  let sh := match etc2.Kind src with etc2.KindNRGBA => 0 | _ => 8 end in
  let out := etc2.extract etc2.FormatETC2RGB src (repeat x00 64) 4 4 in
  at8 out (16 * 0 + 4 * 3 + 0) = uint8 (Z.shiftr (etc2.cR c) sh)
  /\ at8 out (16 * 0 + 4 * 3 + 1) = uint8 (Z.shiftr (etc2.cG c) sh)
  /\ at8 out (16 * 0 + 4 * 3 + 2) = uint8 (Z.shiftr (etc2.cB c) sh)
  /\ at8 out (16 * 0 + 4 * 3 + 3) = uint8 (Z.shiftr (etc2.cA c) sh).
Proof.
  apply (extract_color_pixel etc2.FormatETC2RGB (etc2.grayImage 6 6) (repeat x00 64)
           4 4 3 0); [reflexivity | reflexivity | lia | lia].
Defined.

(** X11. In the two-channel 11-bit formats the extractor leaves the red of
    the pixel (x, y) as two bytes at 8y + 2x and its green as two bytes at
    0x20 + 8y + 2x, the high byte first: the 16-bit channel of the
    (un-premultiplied) sample, or for an [*image.NRGBA] the 8-bit channel
    in both bytes. The sample is held back to the last column and row. *)
Theorem extract_two_channel_pixel (f : etc2.Format) (src : etc2.Image)
    (px : list byte) (blockX blockY x y : Z) :
  length px = 64%nat ->
  Z.land f etc2.formatBitDepth11 <> 0 ->
  Z.land f etc2.formatBitDepth11TwoChannel <> 0 ->
  0 <= x < 4 -> 0 <= y < 4 ->
  let sx := Z.min (etc2.MaxX (etc2.Bounds src) - 1) (blockX + x) in
  let sy := Z.min (etc2.MaxY (etc2.Bounds src) - 1) (blockY + y) in
  let c := etc2.sampleColor (etc2.Kind src) (etc2.At src sx sy) in
  let sh := match etc2.Kind src with etc2.KindNRGBA => 0 | _ => 8 end in
  let out := etc2.extract f src px blockX blockY in
  at8 out (8 * y + 2 * x + 0x00) = uint8 (Z.shiftr (etc2.cR c) sh)
  /\ at8 out (8 * y + 2 * x + 0x01) = uint8 (etc2.cR c)
  /\ at8 out (8 * y + 2 * x + 0x20) = uint8 (Z.shiftr (etc2.cG c) sh)
  /\ at8 out (8 * y + 2 * x + 0x21) = uint8 (etc2.cG c).
Proof.
  intros Hlen Hf Ht Hx Hy. cbv zeta.
  apply Z.eqb_neq in Hf, Ht.
  assert (Hs : etc2.pixelStores f src blockX blockY (y, x)
               = etc2.stores11 true (etc2.Kind src)
                   (etc2.At src
                      (Z.min (etc2.MaxX (etc2.Bounds src) - 1) (blockX + x))
                      (Z.min (etc2.MaxY (etc2.Bounds src) - 1) (blockY + y)))
                   (8 * y + 2 * x)).
  { unfold etc2.pixelStores, etc2.sampleAt. cbv zeta. cbn [fst snd].
    rewrite Hf, Ht. reflexivity. }
  assert (G : forall i v,
             In (i, v) (etc2.stores11 true (etc2.Kind src)
                          (etc2.At src
                             (Z.min (etc2.MaxX (etc2.Bounds src) - 1) (blockX + x))
                             (Z.min (etc2.MaxY (etc2.Bounds src) - 1) (blockY + y)))
                          (8 * y + 2 * x)) ->
             at8 (etc2.extract f src px blockX blockY) i = uint8 v).
  { intros i v Hin. apply (extract_get f src px blockX blockY y x i v); try assumption.
    rewrite Hs. exact Hin. }
  unfold etc2.stores11 in G.
  destruct (etc2.Kind src); cbv zeta in G; cbn [etc2.sampleColor] in *;
    rewrite ?Z.shiftr_0_r in *;
    (split; [|split; [|split]]); apply G; cbn [In]; tauto.
Qed.

Lemma extract_two_channel_pixel_witness :
  let src := etc2.grayImage 6 6 in
  let sx := Z.min (etc2.MaxX (etc2.Bounds src) - 1) (4 + 3) in
  let sy := Z.min (etc2.MaxY (etc2.Bounds src) - 1) (4 + 0) in
  let c := etc2.sampleColor (etc2.Kind src) (etc2.At src sx sy) in
  let sh := match etc2.Kind src with etc2.KindNRGBA => 0 | _ => 8 end in
  let out := etc2.extract etc2.FormatETC2RG11Unsigned src (repeat x00 64) 4 4 in
  at8 out (8 * 0 + 2 * 3 + 0x00) = uint8 (Z.shiftr (etc2.cR c) sh)
  /\ at8 out (8 * 0 + 2 * 3 + 0x01) = uint8 (etc2.cR c)
  /\ at8 out (8 * 0 + 2 * 3 + 0x20) = uint8 (Z.shiftr (etc2.cG c) sh)
  /\ at8 out (8 * 0 + 2 * 3 + 0x21) = uint8 (etc2.cG c).
Proof.
  apply (extract_two_channel_pixel etc2.FormatETC2RG11Unsigned (etc2.grayImage 6 6)
           (repeat x00 64) 4 4 3 0);
    [reflexivity | discriminate | discriminate | lia | lia].
Defined.

(** X12. For a source whose bounds start at the origin, the extractor
    makes sixteen reads for each block position that [Encode] visits, and
    each of them is at a point inside the bounds. *)
Theorem extract_reads_inside_bounds (f : etc2.Format) (src : etc2.Image)
    (blockX blockY : Z) :
  etc2.MinX (etc2.Bounds src) = 0 ->
  etc2.MinY (etc2.Bounds src) = 0 ->
  In (blockX, blockY)
     (etc2.blockPositions (etc2.Dx (etc2.Bounds src)) (etc2.Dy (etc2.Bounds src))) ->
  length (etc2.extractReads f src blockX blockY) = 16%nat
  /\ Forall (etc2.inRect (etc2.Bounds src)) (etc2.extractReads f src blockX blockY).
Proof.
  intros Hx Hy Hpos. split.
  - rewrite extractReads_eq, length_map, yxOrder_eq. reflexivity.
  - apply Forall_forall. intros p Hp.
    apply (extract_reads_inside_origin_bounds f src blockX blockY p); assumption.
Qed.

Lemma extract_reads_inside_bounds_witness :
  length (etc2.extractReads etc2.FormatETC2RGB (etc2.grayImage 6 6) 4 4) = 16%nat
  /\ Forall (etc2.inRect (etc2.Bounds (etc2.grayImage 6 6)))
            (etc2.extractReads etc2.FormatETC2RGB (etc2.grayImage 6 6) 4 4).
Proof.
  apply (extract_reads_inside_bounds etc2.FormatETC2RGB (etc2.grayImage 6 6) 4 4);
    [reflexivity | reflexivity | vm_compute; tauto].
Defined.

(* ----------------------------------------------------------------- *)
(** ** The color codeword of the ETC1 formats *)

Lemma version1_not_ETC2 (f : etc2.Format) :
  etc2.ETCVersion f = 1 ->
  (f =? etc2.FormatETC2RGBA1) = false
  /\ negb (Z.land f etc2.formatBitsETC2 =? etc2.formatBitsETC2) = true.
Proof.
  unfold etc2.ETCVersion.
  destruct (Z.ltb_spec f etc2.formatBitsETC1S) as [|Hlo]; [discriminate|].
  destruct (Z.ltb_spec f etc2.formatBitsETC2) as [Hhi|]; [|discriminate].
  intros _. unfold etc2.formatBitsETC1S, etc2.formatBitsETC2 in *.
  assert (H : allBelow 192
                (fun f => (f <? 0x40)
                          || (negb (f =? etc2.FormatETC2RGBA1)
                              && negb (Z.land f 0xC0 =? 0xC0))) = true)
    by (vm_compute; reflexivity).
  pose proof (allBelow_spec _ _ H f ltac:(lia)) as Hf. cbv beta in Hf.
  apply orb_true_iff in Hf. destruct Hf as [Hf|Hf]; [apply Z.ltb_lt in Hf; lia|].
  apply andb_true_iff in Hf. destruct Hf as [H1 H2].
  apply negb_true_iff in H1. split; [exact H1 | exact H2].
Qed.

(** X13. For a format of ETC version 1 ([FormatETC1S], [FormatETC1] and
    the values between 0x40 and 0xBF), the codeword that [encodeColor]
    returns is one that an ETC1 decoder reads: Individual (the diff bit
    is clear), or Differential with no overflow on any of the three
    channels. It is never a T, H or Planar codeword. *)
Theorem encodeColor_ETC1_codeword (T : etc2.Tables)
    (decodeColor : Z -> bool -> list byte)
    (clusterfy : list byte -> float -> (byte * byte * byte) * (byte * byte * byte))
    (encodeRGBWithAlpha : list byte -> bool -> Z)
    (pixels : list byte) (f : etc2.Format) :
  etc2.ETCVersion f = 1 ->
  tagID (etc2.encodeColor T decodeColor clusterfy encodeRGBWithAlpha pixels f) = true.
Proof.
  intros Hv. destruct (version1_not_ETC2 f Hv) as [Ha H2].
  set (P := fun c : etc2.candidate => tagID (etc2.candCode c) = true).
  assert (Hs : searchInv P
                 (etc2.encodeColorSearch T decodeColor clusterfy encodeRGBWithAlpha
                    pixels f)).
  { unfold etc2.encodeColorSearch. cbv zeta. rewrite Ha.
    pose proof (firstTry_inv decodeColor pixels false P
                  (etc2.encodeRGBSansAlpha T pixels etc2.reduceAverage
                     (f =? etc2.FormatETC1S)) false
                  (encodeRGBSansAlpha_tag T pixels etc2.reduceAverage _
                     reduceAverage_inRange)) as H0.
    destruct (f =? etc2.FormatETC1S); [exact H0|].
    pose proof (nextTry_inv decodeColor pixels false P _
                  (etc2.encodeRGBSansAlpha T pixels etc2.reduceQuantize false) false H0
                  (encodeRGBSansAlpha_tag T pixels etc2.reduceQuantize false
                     reduceQuantize_inRange)) as H1.
    destruct (etc2.nextTry decodeColor pixels false _ _ false) as [s1 w1].
    cbn [fst] in H1. rewrite H2. exact H1. }
  destruct Hs as ((c & Hin & Hc & _) & Hall & _).
  unfold etc2.encodeColor. rewrite <- Hc.
  rewrite Forall_forall in Hall. exact (Hall c Hin).
Qed.

Lemma encodeColor_ETC1_codeword_witness :
  tagID (etc2.encodeColor etc2.publishedTables etc2.sampleDecodeColor
           etc2.sampleClusterfy etc2.sampleEncodeRGBWithAlpha
           sampleETC1SBlock etc2.FormatETC1) = true.
Proof.
  apply (encodeColor_ETC1_codeword etc2.publishedTables etc2.sampleDecodeColor
           etc2.sampleClusterfy etc2.sampleEncodeRGBWithAlpha
           sampleETC1SBlock etc2.FormatETC1).
  reflexivity.
Defined.

(* ----------------------------------------------------------------- *)
(** ** The alpha codeword *)

Lemma alphaOf_repeat (a i : Z) :
  0 <= a < 256 -> 0 <= i < 16 -> etc2.alphaOf (repeat (z2b a) 64) i = a.
Proof.
  intros Ha Hi. unfold etc2.alphaOf, at8.
  rewrite (nth_indep _ x00 (z2b a)) by (rewrite repeat_length; lia).
  rewrite nth_repeat, b2z_z2b. apply uint8_small. exact Ha.
Qed.

(* ----------------------------------------------------------------- *)
(** ** The pixel indexes of the alpha and the 11-bit codewords *)

(** The sixteen 3-bit fields of the pixel indexes do not overlap. *)
Lemma eacShift_apart (i j : Z) :
  0 <= i < 16 -> 0 <= j < 16 -> i <> j ->
  etc2.eacShift i - etc2.eacShift j <= -3 \/ 3 <= etc2.eacShift i - etc2.eacShift j.
Proof.
  intros Hi Hj Hne.
  assert (H : allBelow 16
                (fun i => allBelow 16
                   (fun j => (i =? j)
                             || (etc2.eacShift i - etc2.eacShift j <=? -3)
                             || (3 <=? etc2.eacShift i - etc2.eacShift j))) = true)
    by (vm_compute; reflexivity).
  pose proof (allBelow2_spec _ _ _ H i j Hi Hj) as Hp. cbv beta in Hp.
  apply orb_true_iff in Hp. destruct Hp as [Hp|Hp]; [|apply Z.leb_le in Hp; right; exact Hp].
  apply orb_true_iff in Hp. destruct Hp as [Hp|Hp].
  - apply Z.eqb_eq in Hp. contradiction.
  - apply Z.leb_le in Hp. left. exact Hp.
Qed.

Lemma fold_lor_testbit (g : Z -> Z) (l : list Z) (code k : Z) :
  Z.testbit (fold_left (fun code i => Z.lor code (g i)) l code) k
  = Z.testbit code k || existsb (fun i => Z.testbit (g i) k) l.
Proof.
  revert code. induction l as [|i l IH]; intros code; cbn [fold_left existsb].
  - rewrite orb_false_r. reflexivity.
  - rewrite IH, Z.lor_spec, orb_assoc. reflexivity.
Qed.

Lemma existsb_single (f : Z -> bool) (l : list Z) (i : Z) (b : bool) :
  In i l -> (forall j, In j l -> f j = (j =? i) && b) -> existsb f l = b.
Proof.
  intros Hi Hf. destruct b.
  - apply existsb_exists. exists i. split; [exact Hi|].
    rewrite (Hf i Hi), Z.eqb_refl. reflexivity.
  - destruct (existsb f l) eqn:E; [|reflexivity].
    apply existsb_exists in E. destruct E as (j & Hj & Hfj).
    rewrite (Hf j Hj), andb_false_r in Hfj. discriminate.
Qed.

Lemma existsb_none (f : Z -> bool) (l : list Z) :
  (forall j, In j l -> f j = false) -> existsb f l = false.
Proof.
  intros Hf. destruct (existsb f l) eqn:E; [|reflexivity].
  apply existsb_exists in E. destruct E as (j & Hj & Hfj).
  rewrite (Hf j Hj) in Hfj. discriminate.
Qed.

Lemma testbit_above (a n m : Z) :
  0 <= a < 2 ^ n -> 0 <= n <= m -> Z.testbit a m = false.
Proof.
  intros Ha Hn. rewrite <- (Z.mod_small a (2 ^ n)) by exact Ha.
  apply Z.mod_pow2_bits_high. exact Hn.
Qed.

Section EacFields.

Variable idx : Z -> Z.
Hypothesis idx_range : forall j, 0 <= j < 16 -> 0 <= idx j < 8.
Variable header : Z.

Let pack (code0 : Z) : Z :=
  fold_left (fun code j => Z.lor code (etc2.shl64 (idx j) (etc2.eacShift j)))
            (range 16) code0.

Lemma eac_index_bit (j m : Z) :
  0 <= j < 16 ->
  Z.testbit (etc2.shl64 (idx j) (etc2.eacShift j)) m
  = Z.testbit (idx j) (m - etc2.eacShift j).
Proof.
  intros Hj. pose proof (eacShift_range j Hj) as Hs.
  destruct (shl64_small (idx j) (etc2.eacShift j) 3
              ltac:(change (2 ^ 3) with 8; apply idx_range; exact Hj)
              ltac:(lia) ltac:(lia) ltac:(lia)) as [-> _].
  apply Z.mul_pow2_bits. lia.
Qed.

(** The field of pixel i holds its index. *)
Lemma eac_field (i : Z) :
  0 <= i < 16 ->
  Z.land (Z.shiftr (pack (header * 2 ^ 48)) (etc2.eacShift i)) 7 = idx i.
Proof.
  intros Hi. pose proof (eacShift_range i Hi) as Hs.
  pose proof (idx_range i Hi) as Hr.
  apply Z.bits_inj'. intros n Hn.
  rewrite Z.land_spec, Z.shiftr_spec by exact Hn.
  destruct (Z.ltb_spec n 3) as [Hlt|Hge].
  - replace (Z.testbit 7 n) with true
      by (assert (E : n = 0 \/ n = 1 \/ n = 2) by lia;
          destruct E as [->|[->| ->]]; reflexivity).
    rewrite andb_true_r. unfold pack. rewrite fold_lor_testbit.
    rewrite Z.mul_pow2_bits_low by lia. rewrite orb_false_l.
    apply (existsb_single _ _ i); [apply In_range; exact Hi|].
    intros j Hj. apply In_range in Hj. change (Z.of_nat 16) with 16 in Hj.
    rewrite (eac_index_bit j _ Hj).
    destruct (Z.eqb_spec j i) as [->|Hne].
    + replace (n + etc2.eacShift i - etc2.eacShift i) with n by lia. reflexivity.
    + pose proof (idx_range j Hj) as Hrj.
      destruct (eacShift_apart i j Hi Hj ltac:(congruence)) as [Hlo|Hhi].
      * apply Z.testbit_neg_r. lia.
      * apply (testbit_above (idx j) 3); [change (2 ^ 3) with 8; exact Hrj | lia].
  - rewrite (testbit_above 7 3 n) by (cbn; lia). rewrite andb_false_r.
    symmetry. apply (testbit_above (idx i) 3); [change (2 ^ 3) with 8; exact Hr | lia].
Qed.

(** The fields of the pixels leave the high 16 bits as they are. *)
Lemma eac_header : Z.shiftr (pack (header * 2 ^ 48)) 48 = header.
Proof.
  apply Z.bits_inj'. intros n Hn.
  rewrite Z.shiftr_spec by exact Hn.
  unfold pack. rewrite fold_lor_testbit.
  rewrite existsb_none.
  - rewrite orb_false_r. rewrite Z.mul_pow2_bits by lia. f_equal. lia.
  - intros j Hj. apply In_range in Hj. change (Z.of_nat 16) with 16 in Hj.
    rewrite (eac_index_bit j _ Hj).
    pose proof (eacShift_range j Hj) as Hs.
    apply (testbit_above (idx j) 3); [change (2 ^ 3) with 8; apply idx_range; exact Hj | lia].
Qed.

End EacFields.

(** A loop that keeps the first element of the least cost. *)
Lemma fold_first_min {B : Type} (key cost : B -> Z) (l : list B) (k0 top : Z) :
  l <> [] -> (forall x, In x l -> cost x < top) ->
  let r := fold_left (fun (st : Z * Z) x =>
                        if snd st >? cost x then (key x, cost x) else st)
                     l (k0, top) in
  exists x, In x l /\ fst r = key x /\ snd r = cost x
            /\ forall y, In y l -> snd r <= cost y.
Proof.
  intros Hne Htop. cbv zeta.
  assert (Aux : forall todo seen st,
             (exists x, In x seen /\ fst st = key x /\ snd st = cost x
                        /\ forall y, In y seen -> snd st <= cost y) ->
             exists x, In x (seen ++ todo)
                       /\ fst (fold_left (fun (st : Z * Z) x =>
                                            if snd st >? cost x then (key x, cost x) else st)
                                         todo st) = key x
                       /\ snd (fold_left (fun (st : Z * Z) x =>
                                            if snd st >? cost x then (key x, cost x) else st)
                                         todo st) = cost x
                       /\ forall y, In y (seen ++ todo) ->
                            snd (fold_left (fun (st : Z * Z) x =>
                                              if snd st >? cost x then (key x, cost x) else st)
                                           todo st) <= cost y).
  { induction todo as [|z todo IH]; intros seen st Hst.
    - rewrite app_nil_r. exact Hst.
    - cbn [fold_left].
      replace (seen ++ z :: todo) with ((seen ++ [z]) ++ todo)
        by (rewrite <- app_assoc; reflexivity).
      apply IH. destruct Hst as (x & Hx & Hk & Hc & Hmin).
      destruct (Z.gtb_spec (snd st) (cost z)) as [Hgt|Hle].
      + exists z. cbn [fst snd].
        split; [apply in_or_app; right; left; reflexivity|].
        split; [reflexivity|]. split; [reflexivity|].
        intros y Hy. apply in_app_or in Hy. destruct Hy as [Hy|[<-|[]]]; [|lia].
        specialize (Hmin y Hy). lia.
      + exists x. split; [apply in_or_app; left; exact Hx|].
        split; [exact Hk|]. split; [exact Hc|].
        intros y Hy. apply in_app_or in Hy. destruct Hy as [Hy|[<-|[]]]; [|lia].
        apply Hmin. exact Hy. }
  destruct l as [|z l]; [contradiction|].
  cbn [fold_left]. cbn [snd].
  pose proof (Htop z (or_introl eq_refl)) as Hz.
  destruct (Z.gtb_spec top (cost z)) as [_|Hle]; [|lia].
  apply (Aux l [z] (key z, cost z)).
  exists z. cbn [fst snd]. split; [left; reflexivity|].
  split; [reflexivity|]. split; [reflexivity|].
  intros y [<-|[]]. lia.
Qed.

Lemma In_fromToBy (lo hi step v : Z) :
  0 < step -> In v (etc2.fromToBy lo hi step) -> lo <= v <= hi.
Proof.
  intros Hstep. unfold etc2.fromToBy.
  destruct (Z.leb_spec lo hi) as [Hle|]; [|intros []].
  rewrite in_map_iff. intros (k & <- & Hk). apply In_range in Hk.
  assert (Hq : 0 <= (hi - lo) / step) by (apply Z.div_pos; lia).
  rewrite Z2Nat.id in Hk by lia.
  pose proof (Z.mul_div_le (hi - lo) step Hstep) as Hm.
  assert (step * k <= step * ((hi - lo) / step))
    by (apply Z.mul_le_mono_nonneg_l; lia).
  assert (0 <= step * k) by (apply Z.mul_nonneg_nonneg; lia).
  lia.
Qed.

Section AlphaFields.

Variable T : etc2.Tables.
Variable px : list byte.

Lemma adjustAlpha_range (rawAlpha table index : Z) :
  0 <= etc2.adjustAlpha T rawAlpha table index < 256.
Proof.
  unfold etc2.adjustAlpha. cbv zeta.
  match goal with
  | |- context [etc2.clamp ?x] =>
    assert (H : 0 <= x) by (apply Z.land_nonneg; left; lia);
      pose proof (clamp_range x H) as Hc
  end.
  rewrite int32_small by lia. exact Hc.
Qed.

(** The squared difference that the loops over the indexes compare. *)
Lemma alpha_d2 (alpha table index a : Z) :
  0 <= a < 256 ->
  let d1 := int32 (etc2.adjustAlpha T alpha table index - a) in
  int32 (d1 * d1) = (etc2.adjustAlpha T alpha table index - a) ^ 2
  /\ int32 (d1 * d1) < etc2.maxInt32.
Proof.
  intros Ha. cbv zeta.
  pose proof (adjustAlpha_range alpha table index) as Hr.
  rewrite (int32_small (_ - a)) by lia.
  assert (Hsq : 0 <= (etc2.adjustAlpha T alpha table index - a)
                     * (etc2.adjustAlpha T alpha table index - a) <= 65025).
  { assert (Hd : -255 <= etc2.adjustAlpha T alpha table index - a <= 255) by lia.
    revert Hd. generalize (etc2.adjustAlpha T alpha table index - a). intros d Hd.
    destruct (Z.le_ge_cases 0 d); nia. }
  rewrite int32_small by lia. rewrite Z.pow_2_r.
  unfold etc2.maxInt32. split; [reflexivity | lia].
Qed.

(** The index of a pixel is the first of the eight whose adjusted alpha is
    nearest to the pixel's alpha. *)
Lemma alphaBestIndex_nearest (alpha table i : Z) :
  0 <= etc2.alphaBestIndex T px alpha table i < 8
  /\ forall j, 0 <= j < 8 ->
       (etc2.adjustAlpha T alpha table (etc2.alphaBestIndex T px alpha table i)
        - etc2.alphaOf px i) ^ 2
       <= (etc2.adjustAlpha T alpha table j - etc2.alphaOf px i) ^ 2.
Proof.
  unfold etc2.alphaBestIndex. cbv zeta.
  set (a := etc2.alphaOf px i).
  assert (Ha : 0 <= a < 256) by apply at8_range.
  set (cost := fun index : Z =>
                 int32 (int32 (etc2.adjustAlpha T alpha table index - a)
                        * int32 (etc2.adjustAlpha T alpha table index - a))).
  rewrite (fold_left_ext_in _
             (fun (st : Z * Z) x => if snd st >? cost x then (x, cost x) else st))
    by (intros [bi bd] x _; reflexivity).
  destruct (fold_first_min (fun x : Z => x) cost (range 8) 0 etc2.maxInt32
              ltac:(discriminate)
              ltac:(intros x _; apply (alpha_d2 alpha table x a Ha)))
    as (x & Hx & Hk & Hc & Hmin).
  cbv zeta in Hk, Hc, Hmin. rewrite Hk. apply In_range in Hx.
  split; [exact Hx|].
  intros j Hj. specialize (Hmin j ltac:(apply In_range; exact Hj)).
  rewrite Hc in Hmin. unfold cost in Hmin.
  rewrite (proj1 (alpha_d2 alpha table x a Ha)) in Hmin.
  rewrite (proj1 (alpha_d2 alpha table j a Ha)) in Hmin.
  exact Hmin.
Qed.

Lemma clamp0_255_range (v : Z) : 0 <= etc2.clamp0_255 v < 256.
Proof. unfold etc2.clamp0_255. lia. Qed.

Lemma alphaTry_range (table : Z) (s : etc2.alphaSearch) (alpha : Z) :
  0 <= table < 256 -> 0 <= alpha < 256 -> alphaInRange s ->
  alphaInRange (etc2.alphaTry T px table s alpha).
Proof.
  intros Ht Ha Hs. unfold etc2.alphaTry. cbv zeta.
  destruct (etc2.tableBestSum s >? _);
    cbn [etc2.bestSum etc2.bestTable etc2.bestAlpha etc2.tableBestSum etc2.tableAlpha];
    destruct (etc2.bestSum s >? _); unfold alphaInRange;
    cbn [etc2.bestSum etc2.bestTable etc2.bestAlpha]; try exact Hs; lia.
Qed.

Lemma alphaScaleStep_range (table : Z) (s : etc2.alphaSearch) (alphaScale : Z) :
  0 <= table < 256 -> 0 < alphaScale -> alphaInRange s ->
  alphaInRange (etc2.alphaScaleStep T px table s alphaScale).
Proof.
  intros Ht Hsc Hs. unfold etc2.alphaScaleStep. cbv zeta.
  apply (fold_left_inv alphaInRange); [exact Hs|].
  intros s' alpha Hin Hs'. apply alphaTry_range; try assumption.
  apply In_fromToBy in Hin; [|exact Hsc].
  destruct (alphaScale =? 16);
    pose proof (clamp0_255_range
                  (int32 (etc2.tableAlpha s - int32 (alphaScale * 4))));
    pose proof (clamp0_255_range
                  (int32 (etc2.tableAlpha s + int32 (alphaScale * 4))));
    pose proof (clamp0_255_range
                  (int32 (etc2.tableAlpha s - int32 (alphaScale * 2))));
    pose proof (clamp0_255_range
                  (int32 (etc2.tableAlpha s + int32 (alphaScale * 2))));
    lia.
Qed.

Lemma alphaTableStep_range (prevAlpha : Z) (s : etc2.alphaSearch) (table : Z) :
  0 <= table < 256 -> alphaInRange s ->
  alphaInRange (etc2.alphaTableStep T px prevAlpha s table).
Proof.
  intros Ht Hs. unfold etc2.alphaTableStep.
  destruct (etc2.bestSum s >? 0); [|exact Hs].
  apply (fold_left_inv alphaInRange); [exact Hs|].
  intros s' scale Hin Hs'. apply alphaScaleStep_range; try assumption.
  destruct Hin as [<-|[<-|[<-|[]]]]; lia.
Qed.

End AlphaFields.

(** X15. The alpha codeword can be read back: its top byte is a base
    alpha, the next byte the multiplier and the table, and the 3-bit field
    of pixel i at [eacShift i] holds the index whose alpha, adjusted from
    that base, multiplier and table as the decoder does, is nearest to the
    pixel's alpha among the eight. *)
Theorem encodeAlpha_nearest_index (T : etc2.Tables) (px : list byte) (i j : Z) :
  0 <= i < 16 -> 0 <= j < 8 ->
  let code := etc2.encodeAlpha T px in
  let base := Z.shiftr code 56 in
  let table := Z.land (Z.shiftr code 48) 0xFF in
  let index := Z.land (Z.shiftr code (etc2.eacShift i)) 7 in
  0 <= base < 256
  /\ (etc2.adjustAlpha T base table index - etc2.alphaOf px i) ^ 2
     <= (etc2.adjustAlpha T base table j - etc2.alphaOf px i) ^ 2.
Proof.
  intros Hi Hj. unfold etc2.encodeAlpha. cbv zeta.
  match goal with
  | |- context [fold_left (etc2.alphaTableStep T px ?prev) ?tables ?s0] =>
    set (s := fold_left (etc2.alphaTableStep T px prev) tables s0);
      assert (Hs : alphaInRange s)
  end.
  { apply (fold_left_inv alphaInRange); [unfold alphaInRange; cbn; lia|].
    intros s' table Hin Hs'. apply alphaTableStep_range; [|exact Hs'].
    apply In_fromToBy in Hin; lia. }
  destruct Hs as [HA HB].
  set (A := etc2.bestAlpha s) in *. set (B := etc2.bestTable s) in *.
  destruct (shl64_small A 56 8 ltac:(change (2 ^ 8) with 256; lia)
              ltac:(lia) ltac:(lia) ltac:(lia)) as [-> _].
  destruct (shl64_small B 48 8 ltac:(change (2 ^ 8) with 256; lia)
              ltac:(lia) ltac:(lia) ltac:(lia)) as [-> _].
  assert (Hh : Z.lor (A * 2 ^ 56) (B * 2 ^ 48) = (256 * A + B) * 2 ^ 48).
  { rewrite <- (Z.shiftl_mul_pow2 A 56) by lia.
    rewrite lor_shiftl_add by (change (2 ^ 56) with (256 * 2 ^ 48); lia).
    change (2 ^ 56) with (256 * 2 ^ 48). lia. }
  rewrite Hh.
  pose proof (eac_header (etc2.alphaBestIndex T px A B)
                (fun k _ => proj1 (alphaBestIndex_nearest T px A B k))
                (256 * A + B)) as Hhead.
  pose proof (eac_field (etc2.alphaBestIndex T px A B)
                (fun k _ => proj1 (alphaBestIndex_nearest T px A B k))
                (256 * A + B) i Hi) as Hfield.
  cbv zeta in Hhead, Hfield.
  match type of Hhead with
  | Z.shiftr ?X 48 = _ => set (code := X) in Hhead, Hfield; change (fold_left _ (range 16) _) with code
  end.
  assert (EA : Z.shiftr code 56 = A).
  { replace 56 with (48 + 8) by reflexivity.
    rewrite <- Z.shiftr_shiftr by lia. rewrite Hhead.
    rewrite Z.shiftr_div_pow2 by lia. change (2 ^ 8) with 256.
    rewrite Z.mul_comm, Z.div_add_l by lia. rewrite Z.div_small by lia. lia. }
  assert (EB : Z.land (Z.shiftr code 48) 0xFF = B).
  { rewrite Hhead. change 0xFF with (Z.ones 8). rewrite Z.land_ones by lia.
    change (2 ^ 8) with 256. rewrite Z.add_comm, Z.mul_comm, Z.mod_add by lia.
    apply Z.mod_small. lia. }
  rewrite EA, EB, Hfield. split; [exact HA|].
  apply alphaBestIndex_nearest. exact Hj.
Qed.

Lemma encodeAlpha_nearest_index_witness :
  let code := etc2.encodeAlpha etc2.publishedTables sampleETC1SBlock in
  let base := Z.shiftr code 56 in
  let table := Z.land (Z.shiftr code 48) 0xFF in
  let index := Z.land (Z.shiftr code (etc2.eacShift 5)) 7 in
  0 <= base < 256
  /\ (etc2.adjustAlpha etc2.publishedTables base table index
      - etc2.alphaOf sampleETC1SBlock 5) ^ 2
     <= (etc2.adjustAlpha etc2.publishedTables base table 3
         - etc2.alphaOf sampleETC1SBlock 5) ^ 2.
Proof.
  apply (encodeAlpha_nearest_index etc2.publishedTables sampleETC1SBlock 5 3); lia.
Defined.







(* ----------------------------------------------------------------- *)
(** ** The pixel indexes of the T and the H mode in the 1-bit-alpha format *)

Lemma testbit_2 (m : Z) : Z.testbit 2 m = (m =? 1).
Proof.
  destruct (Z.eqb_spec m 1) as [->|Hne]; [reflexivity|].
  destruct (Z.lt_ge_cases m 0); [apply Z.testbit_neg_r; assumption|].
  destruct (Z.eq_dec m 0) as [->|]; [reflexivity|].
  apply (testbit_above 2 2); [cbn; lia | lia].
Qed.

Lemma testbit_1 (m : Z) : Z.testbit 1 m = (m =? 0).
Proof.
  destruct (Z.eqb_spec m 0) as [->|Hne]; [reflexivity|].
  destruct (Z.lt_ge_cases m 0); [apply Z.testbit_neg_r; assumption|].
  apply (testbit_above 1 1); [cbn; lia | lia].
Qed.

Lemma testbit_uint32 (x k : Z) : k < 32 -> Z.testbit (uint32 x) k = Z.testbit x k.
Proof. intros Hk. unfold uint32. apply Z.mod_pow2_bits_low. exact Hk. Qed.

Lemma testbit_uint64 (x k : Z) : k < 64 -> Z.testbit (uint64 x) k = Z.testbit x k.
Proof. intros Hk. unfold uint64. apply Z.mod_pow2_bits_low. exact Hk. Qed.

Lemma testbit_shl64 (x n k : Z) :
  0 <= n -> 0 <= k < 64 -> Z.testbit (etc2.shl64 x n) k = Z.testbit x (k - n).
Proof.
  intros Hn Hk. unfold etc2.shl64.
  rewrite testbit_uint64 by lia. rewrite Z.shiftl_spec by lia.
  apply testbit_uint64. lia.
Qed.

(** The two bits that [putIndex] sets. *)
Lemma putIndex_testbit (p b s k : Z) :
  0 <= s -> 0 <= k < 32 ->
  Z.testbit (etc2.putIndex p b s) k
  = Z.testbit p k || ((k =? s + 16) && Z.testbit b 1) || ((k =? s) && Z.testbit b 0).
Proof.
  intros Hs Hk. unfold etc2.putIndex. cbv zeta. rewrite !Z.lor_spec.
  f_equal; [f_equal|].
  - rewrite testbit_uint32, Z.shiftl_spec, testbit_uint32, Z.land_spec, testbit_2 by lia.
    destruct (Z.eqb_spec k (s + 16)) as [->|Hne].
    + replace (s + 16 - (s + 0x0F)) with 1 by lia. rewrite andb_true_r. reflexivity.
    + destruct (Z.eqb_spec (k - (s + 0x0F)) 1); [lia|]. apply andb_false_r.
  - rewrite testbit_uint32, Z.shiftl_spec, testbit_uint32, Z.land_spec, testbit_1 by lia.
    destruct (Z.eqb_spec k s) as [->|Hne].
    + replace (s - (s + 0x00)) with 0 by lia. rewrite andb_true_r. reflexivity.
    + destruct (Z.eqb_spec (k - (s + 0x00)) 0); [lia|]. apply andb_false_r.
Qed.

Lemma wholeBlockShifts_range (i : Z) :
  0 <= i < 16 -> 0 <= etc2.ix etc2.wholeBlockShifts i < 16.
Proof.
  intros Hi.
  assert (H : allBelow 16 (fun i => below 16 (etc2.ix etc2.wholeBlockShifts i)) = true)
    by (vm_compute; reflexivity).
  apply below_spec. exact (allBelow_spec _ _ H i Hi).
Qed.

Lemma wholeBlockShifts_inj (i j : Z) :
  0 <= i < 16 -> 0 <= j < 16 ->
  etc2.ix etc2.wholeBlockShifts i = etc2.ix etc2.wholeBlockShifts j -> i = j.
Proof.
  intros Hi Hj E.
  assert (H : allBelow 16
                (fun i => allBelow 16
                   (fun j => negb (etc2.ix etc2.wholeBlockShifts i
                                   =? etc2.ix etc2.wholeBlockShifts j)
                             || (i =? j))) = true)
    by (vm_compute; reflexivity).
  pose proof (allBelow2_spec _ _ _ H i j Hi Hj) as Hp. cbv beta in Hp.
  rewrite E, Z.eqb_refl in Hp. cbn in Hp. apply Z.eqb_eq. exact Hp.
Qed.

Section BlockIndexes.

Variable best : Z -> Z * Z.

Lemma blockIndexes_fold_testbit (l : list Z) (p loss k : Z) :
  0 <= k < 32 -> (forall i, In i l -> 0 <= etc2.ix etc2.wholeBlockShifts i) ->
  Z.testbit
    (fst (fold_left
            (fun (st : Z * Z) (i : Z) =>
               let '(pixelIndexes, blockLoss) := st in
               let '(bestJ, bestOneLoss) := best i in
               (etc2.putIndex pixelIndexes bestJ (etc2.ix etc2.wholeBlockShifts i),
                int32 (blockLoss + bestOneLoss)))
            l (p, loss))) k
  = Z.testbit p k
    || existsb (fun i =>
                  ((k =? etc2.ix etc2.wholeBlockShifts i + 16)
                   && Z.testbit (fst (best i)) 1)
                  || ((k =? etc2.ix etc2.wholeBlockShifts i)
                      && Z.testbit (fst (best i)) 0)) l.
Proof.
  intros Hk. revert p loss. induction l as [|i l IH]; intros p loss Hl.
  - cbn. rewrite orb_false_r. reflexivity.
  - cbn [fold_left existsb]. destruct (best i) as [bj bl] eqn:E. cbn [fst].
    rewrite IH by (intros i' Hi'; apply Hl; right; exact Hi').
    rewrite putIndex_testbit by (try apply Hl; try (left; reflexivity); lia).
    rewrite !orb_assoc. reflexivity.
Qed.

(** The two index bits of pixel i in the 32 bits of [blockIndexes]. *)
Lemma blockIndexes_pixel (i : Z) :
  0 <= i < 16 ->
  Z.testbit (fst (etc2.blockIndexes best)) (etc2.ix etc2.wholeBlockShifts i + 16)
  = Z.testbit (fst (best i)) 1
  /\ Z.testbit (fst (etc2.blockIndexes best)) (etc2.ix etc2.wholeBlockShifts i)
     = Z.testbit (fst (best i)) 0.
Proof.
  intros Hi. pose proof (wholeBlockShifts_range i Hi) as Hs.
  assert (Hl : forall j, In j (range 16) -> 0 <= etc2.ix etc2.wholeBlockShifts j)
    by (intros j Hj; apply In_range in Hj; apply wholeBlockShifts_range; exact Hj).
  unfold etc2.blockIndexes. split.
  - rewrite blockIndexes_fold_testbit by (try exact Hl; lia).
    rewrite Z.testbit_0_l, orb_false_l.
    apply (existsb_single _ _ i); [apply In_range; exact Hi|].
    intros j Hj. apply In_range in Hj. change (Z.of_nat 16) with 16 in Hj.
    pose proof (wholeBlockShifts_range j Hj) as Hsj.
    destruct (Z.eqb_spec j i) as [->|Hne].
    + rewrite Z.eqb_refl. destruct (Z.eqb_spec (etc2.ix etc2.wholeBlockShifts i + 16)
                                      (etc2.ix etc2.wholeBlockShifts i)); [lia|].
      cbn. rewrite orb_false_r. reflexivity.
    + destruct (Z.eqb_spec (etc2.ix etc2.wholeBlockShifts i + 16)
                  (etc2.ix etc2.wholeBlockShifts j + 16)) as [E|_].
      * exfalso. apply Hne. symmetry. apply wholeBlockShifts_inj; try assumption. lia.
      * destruct (Z.eqb_spec (etc2.ix etc2.wholeBlockShifts i + 16)
                    (etc2.ix etc2.wholeBlockShifts j)); [lia|]. reflexivity.
  - rewrite blockIndexes_fold_testbit by (try exact Hl; lia).
    rewrite Z.testbit_0_l, orb_false_l.
    apply (existsb_single _ _ i); [apply In_range; exact Hi|].
    intros j Hj. apply In_range in Hj. change (Z.of_nat 16) with 16 in Hj.
    pose proof (wholeBlockShifts_range j Hj) as Hsj.
    destruct (Z.eqb_spec j i) as [->|Hne].
    + rewrite Z.eqb_refl. destruct (Z.eqb_spec (etc2.ix etc2.wholeBlockShifts i)
                                      (etc2.ix etc2.wholeBlockShifts i + 16)); [lia|].
      reflexivity.
    + destruct (Z.eqb_spec (etc2.ix etc2.wholeBlockShifts i)
                  (etc2.ix etc2.wholeBlockShifts j + 16)); [lia|].
      destruct (Z.eqb_spec (etc2.ix etc2.wholeBlockShifts i)
                  (etc2.ix etc2.wholeBlockShifts j)) as [E|_]; [|reflexivity].
      exfalso. apply Hne. symmetry. apply wholeBlockShifts_inj; assumption.
Qed.

(** The loss of the block does not wrap around. *)
Lemma blockIndexes_loss :
  (forall i, 0 <= i < 16 -> 0 <= snd (best i) <= 65025000) ->
  0 <= snd (etc2.blockIndexes best) < etc2.maxInt32.
Proof.
  intros Hb. unfold etc2.blockIndexes.
  assert (Aux : forall l p loss n,
             (forall i, In i l -> 0 <= i < 16) ->
             0 <= n -> n + Z.of_nat (length l) <= 16 ->
             0 <= loss <= n * 65025000 ->
             0 <= snd (fold_left
                         (fun (st : Z * Z) (i : Z) =>
                            let '(pixelIndexes, blockLoss) := st in
                            let '(bestJ, bestOneLoss) := best i in
                            (etc2.putIndex pixelIndexes bestJ
                               (etc2.ix etc2.wholeBlockShifts i),
                             int32 (blockLoss + bestOneLoss)))
                         l (p, loss))
             <= (n + Z.of_nat (length l)) * 65025000).
  { induction l as [|i l IH]; intros p loss n Hl Hn Hlen Hloss.
    - cbn [fold_left snd length]. lia.
    - cbn [fold_left]. pose proof (Hb i (Hl i (or_introl eq_refl))) as Hi.
      destruct (best i) as [bj bl]. cbn [snd] in Hi.
      cbn [length] in Hlen |- *.
      replace (n + Z.of_nat (S (length l))) with (n + 1 + Z.of_nat (length l)) by lia.
      apply IH; try lia.
      + intros i' Hi'. apply Hl. right. exact Hi'.
      + rewrite int32_small by lia. lia. }
  pose proof (Aux (range 16) 0 0 0
                ltac:(intros i Hi; apply In_range in Hi; exact Hi)
                ltac:(lia) ltac:(cbn; lia) ltac:(lia)) as H.
  unfold etc2.maxInt32. cbn [length] in H.
  change (Z.of_nat (length (range 16))) with 16 in H. lia.
Qed.

End BlockIndexes.

Lemma pixelLoss_range (pixels : list byte) (i : Z) (c : etc2.RGB) :
  rgb8 c -> 0 <= etc2.pixelLoss pixels i c <= 65025000.
Proof.
  destruct c as [[c0 c1] c2]. intros (H0 & H1 & H2). unfold etc2.pixelLoss.
  pose proof (at8_range pixels (4 * i + 0)). pose proof (at8_range pixels (4 * i + 1)).
  pose proof (at8_range pixels (4 * i + 2)).
  rewrite !int32_small by lia. apply weighted_range; lia.
Qed.

Lemma clampAdd_range (c delta : Z) : 0 <= etc2.clampAdd c delta < 256.
Proof.
  unfold etc2.clampAdd. apply clamp_range. apply Z.land_nonneg. right. lia.
Qed.

Lemma clampSub_range (c delta : Z) : 0 <= etc2.clampSub c delta < 256.
Proof.
  unfold etc2.clampSub. apply clamp_range. apply Z.land_nonneg. right. lia.
Qed.

Lemma mapRGB_rgb8 (g : Z -> Z) (c : etc2.RGB) :
  (forall v, 0 <= g v < 256) -> rgb8 (etc2.mapRGB g c).
Proof.
  intros Hg. destruct c as [[c0 c1] c2]. unfold etc2.mapRGB, rgb8.
  repeat split; apply Hg.
Qed.

Lemma colorAt_rgb8 (c0 c1 c2 c3 : etc2.RGB) (j : Z) :
  rgb8 c0 -> rgb8 c1 -> rgb8 c2 -> rgb8 c3 -> 0 <= j < 4 ->
  rgb8 (etc2.colorAt [c0; c1; c2; c3] j).
Proof.
  intros H0 H1 H2 H3 Hj.
  assert (E : j = 0 \/ j = 1 \/ j = 2 \/ j = 3) by lia.
  destruct E as [->|[->|[->| ->]]]; assumption.
Qed.

Section AlphaIndexes.

Variable T : etc2.Tables.
Variable pixels : list byte.

(** In the 1-bit-alpha format the T mode gives a pixel below the alpha
    threshold the index 2, and any other pixel another index. *)
Lemma bestColorT_alpha (colors : list etc2.RGB) (i : Z) :
  (forall j, 0 <= j < 4 -> rgb8 (etc2.colorAt colors j)) ->
  0 <= snd (etc2.bestColorT pixels true colors i) <= 65025000
  /\ (Z.testbit (fst (etc2.bestColorT pixels true colors i)) 1
      && negb (Z.testbit (fst (etc2.bestColorT pixels true colors i)) 0)
      = (at8 pixels (4 * i + 3) <? 0x80)).
Proof.
  intros Hc. unfold etc2.bestColorT. cbn [andb].
  destruct (at8 pixels (4 * i + 3) <? 0x80); [cbn; lia|].
  change (range 4) with [0; 1; 2; 3]. cbn [fold_left].
  change (0 =? 2) with false. change (1 =? 2) with false.
  change (2 =? 2) with true. change (3 =? 2) with false. cbv iota. cbn [snd].
  pose proof (pixelLoss_range pixels i _ (Hc 0 ltac:(lia))) as H0.
  pose proof (pixelLoss_range pixels i _ (Hc 1 ltac:(lia))) as H1.
  pose proof (pixelLoss_range pixels i _ (Hc 3 ltac:(lia))) as H3.
  destruct (Z.gtb_spec etc2.maxInt32 (etc2.pixelLoss pixels i (etc2.colorAt colors 0)))
    as [_|Hle]; [|unfold etc2.maxInt32 in Hle; lia].
  cbn [snd].
  destruct (_ >? etc2.pixelLoss pixels i (etc2.colorAt colors 1)); cbn [snd];
    destruct (_ >? etc2.pixelLoss pixels i (etc2.colorAt colors 3)); cbn [fst snd];
    (split; [lia | reflexivity]).
Qed.

Lemma calculateError59T_alpha (c : etc2.Cluster) :
  indexesT pixels (snd (fst (etc2.calculateError59T T pixels c true))).
Proof.
  unfold etc2.calculateError59T.
  set (Inv := fun best : Z * Z * Z * Z =>
                snd best = etc2.maxInt32 \/ indexesT pixels (snd (fst best))).
  assert (Hstep : forall colors0 colors2 swap which best,
             rgb8 colors0 -> rgb8 colors2 -> Inv best ->
             indexesT pixels
               (snd (fst
                  (let delta := uint32 (etc2.thModifiers T which) in
                   let colors1 := etc2.mapRGB (fun c => etc2.clampAdd c delta) colors2 in
                   let colors3 := etc2.mapRGB (fun c => etc2.clampSub c delta) colors2 in
                   let colors :=
                     [colors0; colors1; colors2; colors3] in
                   let '(pixelIndexes, blockLoss) :=
                     etc2.blockIndexes (etc2.bestColorT pixels true colors) in
                   let '(_, _, _, bestBlockLoss) := best in
                   if bestBlockLoss >? blockLoss
                   then (uint32 swap, uint32 which, pixelIndexes, blockLoss)
                   else best)))).
  { intros colors0 colors2 swap which [[[bs bw] bi] bl] Hc0 Hc2 Hinv. cbv zeta.
    match goal with
    | |- context [etc2.blockIndexes ?f] =>
      assert (Hf : forall i, 0 <= snd (f i) <= 65025000
                             /\ (Z.testbit (fst (f i)) 1 && negb (Z.testbit (fst (f i)) 0)
                                 = (at8 pixels (4 * i + 3) <? 0x80)));
        [| pose proof (blockIndexes_loss f (fun i _ => proj1 (Hf i))) as Hloss;
           pose proof (blockIndexes_pixel f) as Hpix;
           destruct (etc2.blockIndexes f) as [pi bloss] ]
    end.
    { intros i. apply bestColorT_alpha. intros j Hj.
      apply colorAt_rgb8; try assumption; apply mapRGB_rgb8; intros v;
        first [apply uint8_range | apply clampAdd_range | apply clampSub_range]. }
    cbn [fst snd] in *.
    destruct (Z.gtb_spec bl bloss) as [_|Hle]; cbn [fst snd].
    - intros i Hi. destruct (Hpix i Hi) as [-> ->]. apply Hf.
    - destruct Hinv as [E|Hinv]; [cbn [snd] in E; lia | exact Hinv]. }
  assert (Hinner : forall colors0 colors2 swap best,
             rgb8 colors0 -> rgb8 colors2 -> Inv best ->
             indexesT pixels
               (snd (fst
                  (fold_left
                     (fun (best : Z * Z * Z * Z) (which : Z) =>
                        let delta := uint32 (etc2.thModifiers T which) in
                        let colors1 := etc2.mapRGB (fun c => etc2.clampAdd c delta) colors2 in
                        let colors3 := etc2.mapRGB (fun c => etc2.clampSub c delta) colors2 in
                        let colors :=
                          [colors0; colors1; colors2; colors3] in
                        let '(pixelIndexes, blockLoss) :=
                          etc2.blockIndexes (etc2.bestColorT pixels true colors) in
                        let '(_, _, _, bestBlockLoss) := best in
                        if bestBlockLoss >? blockLoss
                        then (uint32 swap, uint32 which, pixelIndexes, blockLoss)
                        else best)
                     (range 8) best)))).
  { intros colors0 colors2 swap best Hc0 Hc2 Hinv.
    change (range 8) with (0 :: [1; 2; 3; 4; 5; 6; 7]).
    apply (fold_left_inv_cons (fun b : Z * Z * Z * Z => indexesT pixels (snd (fst b)))).
    - apply (Hstep colors0 colors2 swap 0 best Hc0 Hc2 Hinv).
    - intros b which _ Hb. apply (Hstep colors0 colors2 swap which b Hc0 Hc2).
      right. exact Hb. }
  change (range 2) with (0 :: [1]).
  apply (fold_left_inv_cons
           (fun st : etc2.Cluster * (Z * Z * Z * Z) => indexesT pixels (snd (fst (snd st))))).
  - cbn [snd]. apply Hinner;
      [apply mapRGB_rgb8; intros v; apply uint8_range ..| left; reflexivity].
  - intros [rgb b] swap _ Hb. cbn [snd] in *. apply Hinner;
      [apply mapRGB_rgb8; intros v; apply uint8_range ..| right; exact Hb].
Qed.

End AlphaIndexes.
Lemma forceOverflow_low (code lo k : Z) :
  0 <= lo -> 0 <= k < lo + 2 -> k < 64 ->
  Z.testbit (etc2.forceOverflow code lo) k = Z.testbit code k.
Proof.
  intros Hlo Hk Hk64. unfold etc2.forceOverflow. cbv zeta.
  destruct (negb _); rewrite Z.lor_spec, testbit_shl64 by lia;
    rewrite (Z.testbit_neg_r _ (k - _)) by lia; apply orb_false_r.
Qed.

Lemma forceNoOverflow_low (code hi k : Z) :
  0 <= hi -> 0 <= k < hi -> k < 64 ->
  Z.testbit (etc2.forceNoOverflow code hi) k = Z.testbit code k.
Proof.
  intros Hhi Hk Hk64. unfold etc2.forceNoOverflow.
  rewrite Z.lor_spec, testbit_shl64 by lia.
  rewrite (Z.testbit_neg_r _ (k - _)) by lia. apply orb_false_r.
Qed.

(** The low 32 bits of a T or H codeword are the pixel indexes, and in
    the 1-bit-alpha format its bit 33 is clear. *)
Lemma packT_low (c : etc2.Cluster) (which idx : Z) (a : bool) (k : Z) :
  0 <= k < 32 -> Z.testbit (etc2.packT c which idx a) k = Z.testbit idx k.
Proof.
  intros Hk. destruct c as [[[c00 c01] c02] [[c10 c11] c12]].
  unfold etc2.packT. cbv zeta. rewrite forceOverflow_low by lia.
  destruct a; cbn [negb]; rewrite !Z.lor_spec, !testbit_shl64, testbit_uint64 by lia;
    rewrite !(Z.testbit_neg_r _ (k - _)) by lia;
    rewrite Z.testbit_0_l, ?orb_false_r; reflexivity.
Qed.

Lemma packT_bit33 (c : etc2.Cluster) (which idx : Z) :
  0 <= idx < 2 ^ 32 -> Z.testbit (etc2.packT c which idx true) 33 = false.
Proof.
  intros Hi. destruct c as [[[c00 c01] c02] [[c10 c11] c12]].
  unfold etc2.packT. cbv zeta. rewrite forceOverflow_low by lia. cbn [negb].
  rewrite !Z.lor_spec, !testbit_shl64, testbit_uint64 by lia.
  rewrite (testbit_above idx 32 33) by lia.
  repeat match goal with
         | |- context [Z.testbit ?a (33 - ?n)] =>
           rewrite (Z.testbit_neg_r a (33 - n)) by lia
         end.
  rewrite !Z.land_spec. change (Z.testbit 6 (33 - 33)) with false.
  change (Z.testbit 1 (33 - 32)) with false.
  rewrite Z.testbit_0_l, !andb_false_r. reflexivity.
Qed.

Lemma packH_low (c : etc2.Cluster) (which idx : Z) (a : bool) (k : Z) :
  0 <= k < 32 -> Z.testbit (etc2.packH c which idx a) k = Z.testbit idx k.
Proof.
  intros Hk. destruct c as [[[c00 c01] c02] [[c10 c11] c12]].
  unfold etc2.packH. cbv zeta.
  rewrite forceOverflow_low, forceNoOverflow_low by lia.
  assert (E : Z.testbit (Z.land which 2) (k - 31) = false).
  { destruct (Z.eq_dec k 31) as [->|].
    - rewrite Z.land_spec. change (Z.testbit 2 (31 - 31)) with false. apply andb_false_r.
    - apply Z.testbit_neg_r. lia. }
  destruct a; cbn [negb]; rewrite !Z.lor_spec, !testbit_shl64, testbit_uint64 by lia;
    rewrite E; rewrite !(Z.testbit_neg_r _ (k - _)) by lia;
    rewrite Z.testbit_0_l, ?orb_false_r; reflexivity.
Qed.

Lemma packH_bit33 (c : etc2.Cluster) (which idx : Z) :
  0 <= idx < 2 ^ 32 -> Z.testbit (etc2.packH c which idx true) 33 = false.
Proof.
  intros Hi. destruct c as [[[c00 c01] c02] [[c10 c11] c12]].
  unfold etc2.packH. cbv zeta.
  rewrite forceOverflow_low, forceNoOverflow_low by lia. cbn [negb].
  rewrite !Z.lor_spec, !testbit_shl64, testbit_uint64 by lia.
  rewrite (testbit_above idx 32 33) by lia.
  repeat match goal with
         | |- context [Z.testbit ?a (33 - ?n)] =>
           rewrite (Z.testbit_neg_r a (33 - n)) by lia
         end.
  rewrite !Z.land_spec. change (Z.testbit 4 (33 - 32)) with false.
  change (Z.testbit 2 (33 - 31)) with false.
  rewrite Z.testbit_0_l, !andb_false_r. reflexivity.
Qed.

(** X17. In the 1-bit-alpha format the T-mode codeword has its bit 33 (the
    opaque bit) clear and gives the pixel index 2, the one that a decoder
    reads as transparent, to exactly the pixels whose alpha is below 0x80.
    Pixel i has the high bit of its index at [wholeBlockShifts[i] + 16] and
    the low bit at [wholeBlockShifts[i]]. *)
Theorem encodeT_one_bit_alpha_indexes (T : etc2.Tables)
    (clusterfy : list byte -> float -> (byte * byte * byte) * (byte * byte * byte))
    (pixels : list byte) (goHarder : bool) (i : Z) :
  0 <= i < 16 ->
  let code := etc2.encodeT T clusterfy pixels true goHarder in
  let s := etc2.ix etc2.wholeBlockShifts i in
  Z.testbit code 33 = false
  /\ Z.testbit code (s + 16) && negb (Z.testbit code s)
     = (at8 pixels (4 * i + 3) <? 0x80).
Proof.
  intros Hi. cbv zeta. unfold etc2.encodeT.
  destruct (searchClusters_cases clusterfy pixels goHarder etc2.convert8BitTo4Bit
              (fun c => etc2.calculateError59T T pixels c true))
    as [x ->].
  pose proof (wholeBlockShifts_range i Hi) as Hs.
  split.
  - apply packT_bit33. apply calculateError59T_indexes.
  - rewrite !packT_low by lia.
    apply (calculateError59T_alpha T pixels _ i Hi).
Qed.

Lemma encodeT_one_bit_alpha_indexes_witness :
  let code := etc2.encodeT etc2.publishedTables etc2.sampleClusterfy
                sampleETC1SBlock true false in
  let s := etc2.ix etc2.wholeBlockShifts 5 in
  Z.testbit code 33 = false
  /\ Z.testbit code (s + 16) && negb (Z.testbit code s)
     = (at8 sampleETC1SBlock (4 * 5 + 3) <? 0x80).
Proof.
  apply (encodeT_one_bit_alpha_indexes etc2.publishedTables etc2.sampleClusterfy
           sampleETC1SBlock false 5).
  lia.
Defined.

(* ----------------------------------------------------------------- *)
(** ** The H mode: the order of the two colors and the pixel indexes *)

Lemma pack444_value (c : etc2.RGB) :
  (let '(c0, c1, c2) := c in 0 <= c0 < 16 /\ 0 <= c1 < 16 /\ 0 <= c2 < 16) ->
  etc2.pack444 c = 256 * fst (fst c) + 16 * snd (fst c) + snd c
  /\ 0 <= etc2.pack444 c < 4096.
Proof.
  destruct c as [[c0 c1] c2]. intros (H0 & H1 & H2). cbn [fst snd].
  unfold etc2.pack444, uint32. change (2 ^ 32) with 4294967296.
  rewrite (Z.mod_small c0), (Z.mod_small c1), (Z.mod_small c2) by lia.
  rewrite (Z.mod_small (256 * c0)), (Z.mod_small (16 * c1)) by lia.
  rewrite Z.mod_small by lia. lia.
Qed.

Lemma allFrom_spec (n : nat) (lo : Z) (p : Z -> bool) :
  allFrom n lo p = true -> forall i, lo <= i < lo + Z.of_nat n -> p i = true.
Proof.
  revert lo. induction n as [|n IH]; intros lo H i Hi; [lia|].
  cbn [allFrom] in H. apply andb_true_iff in H. destruct H as [H0 H1].
  destruct (Z.eq_dec i lo) as [->|N]; [exact H0|].
  apply (IH (lo + 1) H1). lia.
Qed.

Lemma pack444_unpack444 (p : Z) :
  0 <= p < 4096 -> etc2.pack444 (etc2.unpack444 p) = p.
Proof.
  intros Hp.
  assert (H : allFrom 4096 0 (fun p => etc2.pack444 (etc2.unpack444 p) =? p) = true)
    by (vm_compute; reflexivity).
  apply Z.eqb_eq. apply (allFrom_spec _ _ _ H p). lia.
Qed.

Lemma cluster4_fst (c : etc2.Cluster) :
  cluster4 c ->
  (let '(c0, c1, c2) := fst c in 0 <= c0 < 16 /\ 0 <= c1 < 16 /\ 0 <= c2 < 16)
  /\ (let '(c0, c1, c2) := snd c in 0 <= c0 < 16 /\ 0 <= c1 < 16 /\ 0 <= c2 < 16).
Proof.
  destruct c as [[[c00 c01] c02] [[c10 c11] c12]]. unfold cluster4. cbn [fst snd]. tauto.
Qed.

(** [sort4BitColors] leaves two distinct colors, the lesser first. *)
Lemma sort4BitColors_strict (c : etc2.Cluster) :
  cluster4 c ->
  etc2.pack444 (fst (etc2.sort4BitColors c)) < etc2.pack444 (snd (etc2.sort4BitColors c)).
Proof.
  intros Hc. destruct (cluster4_fst c Hc) as [H0 H1].
  destruct (pack444_value _ H0) as [_ R0]. destruct (pack444_value _ H1) as [_ R1].
  unfold etc2.sort4BitColors. cbv zeta.
  destruct (Z.ltb_spec (etc2.pack444 (fst c)) (etc2.pack444 (snd c))) as [Hlt|Hge];
    [exact Hlt|].
  destruct (Z.gtb_spec (etc2.pack444 (fst c)) (etc2.pack444 (snd c))) as [Hgt|Hle].
  - cbn [fst snd]. rewrite !pack444_unpack444 by lia. lia.
  - destruct (Z.eqb_spec (etc2.pack444 (fst c)) 0) as [E|Hne]; cbn [fst snd].
    + rewrite E. change (uint32 (0 + 1)) with 1.
      rewrite !pack444_unpack444 by lia. lia.
    + assert (Eu : uint32 (etc2.pack444 (snd c) - 1) = etc2.pack444 (snd c) - 1)
        by (unfold uint32; apply Z.mod_small; change (2 ^ 32) with 4294967296; lia).
      rewrite Eu. rewrite !pack444_unpack444 by lia. lia.
Qed.

(** The 12-bit numbers that [calculateError58H] compares are those of
    [sort4BitColors]. *)
Lemma rgb444Packed_pack444 (c : etc2.RGB) :
  (let '(c0, c1, c2) := c in 0 <= c0 < 16 /\ 0 <= c1 < 16 /\ 0 <= c2 < 16) ->
  Z.lor (Z.lor (uint32 (Z.shiftl (fst (fst c)) 8)) (uint32 (Z.shiftl (snd (fst c)) 4)))
        (uint32 (snd c))
  = etc2.pack444 c.
Proof.
  destruct c as [[c0 c1] c2]. intros (H0 & H1 & H2). cbn [fst snd].
  assert (H : allBelow 16
                (fun c0 => allBelow 16
                   (fun c1 => allBelow 16
                      (fun c2 =>
                         Z.lor (Z.lor (uint32 (Z.shiftl c0 8)) (uint32 (Z.shiftl c1 4)))
                               (uint32 c2)
                         =? etc2.pack444 (c0, c1, c2)))) = true)
    by (vm_compute; reflexivity).
  apply Z.eqb_eq.
  exact (allBelow3_spec _ _ _ (fun c0 c1 c2 =>
           Z.lor (Z.lor (uint32 (Z.shiftl c0 8)) (uint32 (Z.shiftl c1 4))) (uint32 c2)
           =? etc2.pack444 (c0, c1, c2)) H c0 c1 c2 H0 H1 H2).
Qed.

Section ModeHAlpha.

Variable T : etc2.Tables.
Variable pixels : list byte.

(** In the 1-bit-alpha format the H mode gives a pixel whose alpha is at
    least 0x80 the index [alphaIndex], at no loss, and any other pixel
    another index. *)
Lemma bestColorH_alpha (alphaIndex : Z) (colors : list etc2.RGB) (i : Z) :
  alphaIndex = 0 \/ alphaIndex = 2 ->
  (forall j, 0 <= j < 4 -> rgb8 (etc2.colorAt colors j)) ->
  0 <= snd (etc2.bestColorH pixels true alphaIndex colors i) <= 65025000
  /\ (if alphaIndex =? 2
      then Z.testbit (fst (etc2.bestColorH pixels true alphaIndex colors i)) 1
           && negb (Z.testbit (fst (etc2.bestColorH pixels true alphaIndex colors i)) 0)
      else negb (Z.testbit (fst (etc2.bestColorH pixels true alphaIndex colors i)) 1)
           && negb (Z.testbit (fst (etc2.bestColorH pixels true alphaIndex colors i)) 0))
     = (at8 pixels (4 * i + 3) >=? 0x80).
Proof.
  intros Ha Hc. unfold etc2.bestColorH. cbv zeta. cbn [negb].
  change (range 4) with [0; 1; 2; 3]. cbn [fold_left].
  pose proof (pixelLoss_range pixels i _ (Hc 0 ltac:(lia))) as H0.
  pose proof (pixelLoss_range pixels i _ (Hc 1 ltac:(lia))) as H1.
  pose proof (pixelLoss_range pixels i _ (Hc 2 ltac:(lia))) as H2.
  pose proof (pixelLoss_range pixels i _ (Hc 3 ltac:(lia))) as H3.
  revert H0 H1 H2 H3.
  generalize (etc2.pixelLoss pixels i (etc2.colorAt colors 0)).
  generalize (etc2.pixelLoss pixels i (etc2.colorAt colors 1)).
  generalize (etc2.pixelLoss pixels i (etc2.colorAt colors 2)).
  generalize (etc2.pixelLoss pixels i (etc2.colorAt colors 3)).
  intros l3 l2 l1 l0 H0 H1 H2 H3.
  unfold etc2.maxInt32.
  destruct Ha as [-> | ->];
    change (0 =? 0) with true; change (1 =? 0) with false;
    change (2 =? 0) with false; change (3 =? 0) with false;
    change (0 =? 2) with false; change (1 =? 2) with false;
    change (2 =? 2) with true; change (3 =? 2) with false;
    destruct (at8 pixels (4 * i + 3) >=? 0x80); cbn [andb orb]; cbv iota; cbn [snd];
    repeat match goal with
           | |- context [if ?a >? ?b then _ else _] =>
             lazymatch a with
             | context [if _ then _ else _] => fail
             | _ => idtac
             end;
             destruct (Z.gtb_spec a b); try (exfalso; lia); cbn [fst snd]
           end;
    (split; [lia | reflexivity]).
Qed.

Variable c : etc2.Cluster.
Hypothesis Hc : cluster4 c.

(** The index that stands for "transparent" while the distance [which] is
    tried: 2, or 0 when [sort4BitColorsWithPixelIndexes] is going to swap
    the colors and flip the high bits of the indexes. *)
Let alphaIdx (which : Z) : Z :=
  if negb (Bool.eqb (etc2.pack444 (fst c) >=? etc2.pack444 (snd c))
                    (Z.land which 1 =? 1))
  then 0 else 2.

Lemma calculateError58H_alpha :
  fst (fst (fst (etc2.calculateError58H T pixels c true))) = 0
  /\ indexesH pixels
       (alphaIdx (snd (fst (fst (etc2.calculateError58H T pixels c true)))))
       (snd (fst (etc2.calculateError58H T pixels c true))).
Proof.
  destruct (cluster4_fst c Hc) as [Hc0 Hc1].
  unfold etc2.calculateError58H. cbv zeta.
  rewrite (rgb444Packed_pack444 (fst c) Hc0), (rgb444Packed_pack444 (snd c) Hc1).
  set (P := fun best : Z * Z * Z * Z =>
              fst (fst (fst best)) = 0
              /\ indexesH pixels (alphaIdx (snd (fst (fst best)))) (snd (fst best))).
  set (Inv := fun best : Z * Z * Z * Z =>
                fst (fst (fst best)) = 0
                /\ (snd best = etc2.maxInt32
                    \/ indexesH pixels (alphaIdx (snd (fst (fst best))))
                         (snd (fst best)))).
  match goal with
  | |- context [fold_left ?f (range 8) ?s0] =>
    change (P (fold_left f (range 8) s0));
      assert (Hstep : forall best which, 0 <= which < 8 -> Inv best -> P (f best which))
  end.
  { intros [[[bs bw] bi] bl] which Hw [Hs Hinv]. cbn [fst snd] in Hs, Hinv. subst bs.
    cbv beta zeta.
    match goal with
    | |- context [etc2.blockIndexes ?f] =>
      assert (Hf : forall i,
                 0 <= snd (f i) <= 65025000
                 /\ (if alphaIdx which =? 2
                     then Z.testbit (fst (f i)) 1 && negb (Z.testbit (fst (f i)) 0)
                     else negb (Z.testbit (fst (f i)) 1) && negb (Z.testbit (fst (f i)) 0))
                    = (at8 pixels (4 * i + 3) >=? 0x80));
        [| pose proof (blockIndexes_loss f (fun i _ => proj1 (Hf i))) as Hloss;
           pose proof (blockIndexes_pixel f) as Hpix;
           destruct (etc2.blockIndexes f) as [pi bloss] ]
    end.
    { intros i. apply bestColorH_alpha.
      - unfold alphaIdx. destruct (negb _); [left | right]; reflexivity.
      - intros j Hj.
        apply colorAt_rgb8; try assumption; apply mapRGB_rgb8; intros v;
          first [apply clampAdd_range | apply clampSub_range]. }
    cbn [fst snd] in *.
    destruct (Z.gtb_spec bl bloss) as [_|Hle]; unfold P; cbn [fst snd].
    - split; [reflexivity|].
      assert (Eu : uint32 which = which)
        by (unfold uint32; apply Z.mod_small; change (2 ^ 32) with 4294967296; lia).
      rewrite Eu. intros i Hi. destruct (Hpix i Hi) as [-> ->]. apply Hf.
    - split; [reflexivity|].
      destruct Hinv as [E|Hinv]; [lia | exact Hinv]. }
  change (range 8) with (0 :: [1; 2; 3; 4; 5; 6; 7]).
  apply (fold_left_inv_cons P).
  - exact (Hstep (0, 0, 0, etc2.maxInt32) 0 ltac:(lia)
             (conj eq_refl (or_introl eq_refl))).
  - intros b which Hin [Hb0 Hb].
    assert (Hw : 0 <= which < 8) by (cbn [In] in Hin; lia).
    exact (Hstep b which Hw (conj Hb0 (or_intror Hb))).
Qed.

End ModeHAlpha.

Lemma testbit_FFFF0000 (s : Z) :
  0 <= s < 16 ->
  Z.testbit 0xFFFF0000 (s + 16) = true /\ Z.testbit 0xFFFF0000 s = false.
Proof.
  intros Hs.
  assert (H : allBelow 16
                (fun s => Z.testbit 0xFFFF0000 (s + 16)
                          && negb (Z.testbit 0xFFFF0000 s)) = true)
    by (vm_compute; reflexivity).
  pose proof (allBelow_spec _ _ H s Hs) as Hb. cbv beta in Hb.
  apply andb_true_iff in Hb. destruct Hb as [H1 H2].
  apply negb_true_iff in H2. split; assumption.
Qed.

(** X18. In the 1-bit-alpha format the H-mode codeword has its bit 33
    (the opaque bit) clear and gives the pixel index 2, the one that a
    decoder reads as transparent, to exactly the pixels whose alpha is at
    least 0x80 (the T mode gives it to those below 0x80). Pixel i has the
    high bit of its index at [wholeBlockShifts[i] + 16] and the low bit at
    [wholeBlockShifts[i]]. *)
Theorem encodeH_one_bit_alpha_indexes (T : etc2.Tables)
    (clusterfy : list byte -> float -> (byte * byte * byte) * (byte * byte * byte))
    (pixels : list byte) (goHarder : bool) (i : Z) :
  0 <= i < 16 ->
  let code := etc2.encodeH T clusterfy pixels true goHarder in
  let s := etc2.ix etc2.wholeBlockShifts i in
  Z.testbit code 33 = false
  /\ Z.testbit code (s + 16) && negb (Z.testbit code s)
     = (at8 pixels (4 * i + 3) >=? 0x80).
Proof.
  intros Hi. cbv zeta. unfold etc2.encodeH.
  destruct (searchClusters_cases clusterfy pixels goHarder
              (fun c => etc2.sort4BitColors (etc2.convert8BitTo4Bit c))
              (fun c => etc2.calculateError58H T pixels c true))
    as [x ->].
  set (c := etc2.sort4BitColors (etc2.convert8BitTo4Bit (etc2.cluster8 (clusterfy pixels x)))).
  assert (Hc : cluster4 c)
    by (apply sort4BitColors_range; apply convert8BitTo4Bit_range).
  destruct (calculateError58H_alpha T pixels c Hc) as [Hsw Hidx].
  pose proof (calculateError58H_indexes T pixels c true) as Hrange.
  destruct (etc2.calculateError58H T pixels c true) as [[[sw w] idx] loss].
  cbn [fst snd] in *. subst sw. change (0 >? 0) with false. cbv iota.
  pose proof (wholeBlockShifts_range i Hi) as Hs.
  pose proof (sort4BitColorsWithPixelIndexes_range c w idx Hc Hrange) as [_ Hr'].
  unfold etc2.sort4BitColorsWithPixelIndexes in *. cbv zeta in *.
  specialize (Hidx i Hi).
  destruct (Bool.eqb _ _); cbn [negb fst snd] in *.
  - split; [apply packH_bit33; exact Hrange|].
    rewrite !packH_low by lia. exact Hidx.
  - split; [apply packH_bit33; exact Hr'|].
    rewrite !packH_low by lia. rewrite !Z.lxor_spec.
    destruct (testbit_FFFF0000 _ Hs) as [-> ->].
    cbn [xorb]. change (2 =? 2) with true in Hidx. change (0 =? 2) with false in Hidx.
    cbv iota in Hidx. exact Hidx.
Qed.

Lemma encodeH_one_bit_alpha_indexes_witness :
  let code := etc2.encodeH etc2.publishedTables etc2.sampleClusterfy
                sampleETC1SBlock true false in
  let s := etc2.ix etc2.wholeBlockShifts 5 in
  Z.testbit code 33 = false
  /\ Z.testbit code (s + 16) && negb (Z.testbit code s)
     = (at8 sampleETC1SBlock (4 * 5 + 3) >=? 0x80).
Proof.
  apply (encodeH_one_bit_alpha_indexes etc2.publishedTables etc2.sampleClusterfy
           sampleETC1SBlock false 5).
  lia.
Defined.
Lemma calculateError58H_swap (T : etc2.Tables) (pixels : list byte) (c : etc2.Cluster)
    (a : bool) :
  fst (fst (fst (etc2.calculateError58H T pixels c a))) = 0.
Proof.
  unfold etc2.calculateError58H. cbv zeta.
  apply (fold_left_inv (fun best : Z * Z * Z * Z => fst (fst (fst best)) = 0)).
  - reflexivity.
  - intros [[[s w] i] l] which _ Hb. cbn [fst] in Hb. subst s.
    destruct (etc2.blockIndexes _) as [pi bl].
    destruct (l >? bl); reflexivity.
Qed.

Lemma unpack444_pack444 (c : etc2.RGB) :
  (let '(c0, c1, c2) := c in 0 <= c0 < 16 /\ 0 <= c1 < 16 /\ 0 <= c2 < 16) ->
  etc2.unpack444 (etc2.pack444 c) = c.
Proof.
  destruct c as [[c0 c1] c2]. intros (H0 & H1 & H2).
  assert (H : allBelow 16
                (fun c0 => allBelow 16
                   (fun c1 => allBelow 16
                      (fun c2 =>
                         let '(r0, r1, r2) := etc2.unpack444 (etc2.pack444 (c0, c1, c2)) in
                         (r0 =? c0) && (r1 =? c1) && (r2 =? c2)))) = true)
    by (vm_compute; reflexivity).
  pose proof (allBelow3_spec _ _ _ _ H c0 c1 c2 H0 H1 H2) as Hb. cbv beta in Hb.
  destruct (etc2.unpack444 (etc2.pack444 (c0, c1, c2))) as [[r0 r1] r2].
  apply andb_true_iff in Hb. destruct Hb as [Hb E2].
  apply andb_true_iff in Hb. destruct Hb as [E0 E1].
  apply Z.eqb_eq in E0, E1, E2. subst. reflexivity.
Qed.

Lemma calculateError58H_which (T : etc2.Tables) (pixels : list byte) (c : etc2.Cluster)
    (a : bool) :
  0 <= snd (fst (fst (etc2.calculateError58H T pixels c a))) < 8.
Proof.
  unfold etc2.calculateError58H. cbv zeta.
  apply (fold_left_inv (fun best : Z * Z * Z * Z => 0 <= snd (fst (fst best)) < 8)).
  - cbn. lia.
  - intros [[[s w] i] l] which Hin Hb. apply In_range in Hin.
    destruct (etc2.blockIndexes _) as [pi bl].
    destruct (l >? bl); [|exact Hb]. cbn [fst snd].
    unfold uint32. rewrite Z.mod_small by (change (2 ^ 32) with 4294967296; lia).
    exact Hin.
Qed.

(** X19. [encodeH] packs the two colors of the cluster that its search
    kept, in one order or the other, with the distance index that
    [calculateError58H] chose for that cluster: the two colors are
    distinct, and the first packed is the greater of the two (as 12-bit
    numbers) exactly when that distance index is odd. The codeword has
    bits for the bits 2 and 1 of the index only; the order of the colors
    carries its low bit. *)
Theorem encodeH_color_order (T : etc2.Tables)
    (clusterfy : list byte -> float -> (byte * byte * byte) * (byte * byte * byte))
    (pixels : list byte) (formatIsOneBitAlpha goHarder : bool) :
  let '(bestSwap, bestWhich, bestPixelIndexes, bestCluster) :=
    etc2.searchClusters clusterfy pixels goHarder
      (fun c => etc2.sort4BitColors (etc2.convert8BitTo4Bit c))
      (fun c => etc2.calculateError58H T pixels c formatIsOneBitAlpha) in
  bestWhich
  = snd (fst (fst (etc2.calculateError58H T pixels bestCluster formatIsOneBitAlpha)))
  /\ 0 <= bestWhich < 8
  /\ exists (c : etc2.Cluster) (idx : Z),
       etc2.encodeH T clusterfy pixels formatIsOneBitAlpha goHarder
       = etc2.packH c bestWhich idx formatIsOneBitAlpha
       /\ (c = bestCluster \/ c = etc2.swapCluster bestCluster)
       /\ cluster4 c /\ 0 <= idx < 2 ^ 32
       /\ etc2.pack444 (fst c) <> etc2.pack444 (snd c)
       /\ (etc2.pack444 (fst c) >=? etc2.pack444 (snd c)) = (Z.land bestWhich 1 =? 1).
Proof.
  unfold etc2.encodeH.
  destruct (searchClusters_cases clusterfy pixels goHarder
              (fun c => etc2.sort4BitColors (etc2.convert8BitTo4Bit c))
              (fun c => etc2.calculateError58H T pixels c formatIsOneBitAlpha))
    as [x ->].
  set (c0 := etc2.convert8BitTo4Bit (etc2.cluster8 (clusterfy pixels x))).
  assert (Hc0 : cluster4 c0) by apply convert8BitTo4Bit_range.
  pose proof (sort4BitColors_range c0 Hc0) as Hc.
  pose proof (sort4BitColors_strict c0 Hc0) as Hlt.
  set (c := etc2.sort4BitColors c0) in *.
  pose proof (calculateError58H_swap T pixels c formatIsOneBitAlpha) as Hsw.
  pose proof (calculateError58H_indexes T pixels c formatIsOneBitAlpha) as Hrange.
  pose proof (calculateError58H_which T pixels c formatIsOneBitAlpha) as Hw.
  destruct (etc2.calculateError58H T pixels c formatIsOneBitAlpha) as [[[sw w] idx] loss].
  cbn [fst snd] in *. subst sw. change (0 >? 0) with false. cbv iota.
  split; [reflexivity|]. split; [exact Hw|].
  pose proof (sort4BitColorsWithPixelIndexes_range c w idx Hc Hrange) as [Hc' Hr'].
  destruct (cluster4_fst c Hc) as [Hf Hs].
  destruct (pack444_value _ Hf) as [_ R0]. destruct (pack444_value _ Hs) as [_ R1].
  unfold etc2.sort4BitColorsWithPixelIndexes in *. cbv zeta in *.
  destruct (Bool.eqb (etc2.pack444 (fst c) >=? etc2.pack444 (snd c))
                     (Z.land w 1 =? 1)) eqn:E; cbn [fst snd] in *.
  - exists c, idx. split; [destruct c as [[[? ?] ?] [[? ?] ?]]; reflexivity|].
    split; [left; reflexivity|].
    split; [exact Hc|]. split; [exact Hrange|].
    split; [lia|]. apply eqb_prop in E. exact E.
  - exists (etc2.swapCluster c), (Z.lxor 0xFFFF0000 idx).
    assert (Esw : (etc2.unpack444 (etc2.pack444 (snd c)),
                   etc2.unpack444 (etc2.pack444 (fst c))) = etc2.swapCluster c)
      by (rewrite !unpack444_pack444 by assumption; reflexivity).
    rewrite Esw in *.
    split; [reflexivity|]. split; [right; reflexivity|].
    split; [exact Hc'|]. split; [exact Hr'|].
    unfold etc2.swapCluster. cbn [fst snd]. split; [lia|].
    apply eqb_false_iff in E.
    destruct (Z.geb_spec (etc2.pack444 (fst c)) (etc2.pack444 (snd c))) as [Hge|_];
      [lia|].
    destruct (Z.geb_spec (etc2.pack444 (snd c)) (etc2.pack444 (fst c))) as [_|Hn];
      [|lia].
    destruct (Z.land w 1 =? 1); [reflexivity | exfalso; apply E; reflexivity].
Qed.

(* ----------------------------------------------------------------- *)
(** ** The 4-bit colors of the T and the H mode *)

Lemma convert_nearest (v : Z) :
  0 <= v < 256 -> nearest4 v (uint8 (uint32 (uint32 (uint32 v + 8) * 15) / 255)).
Proof.
  intros Hv.
  assert (H : allBelow 256
                (fun v => let r := uint8 (uint32 (uint32 (uint32 v + 8) * 15) / 255) in
                          below 16 r && (-8 <=? v - 0x11 * r) && (v - 0x11 * r <=? 8))
              = true)
    by (vm_compute; reflexivity).
  pose proof (allBelow_spec _ _ H v Hv) as Hb. cbv beta zeta in Hb.
  apply andb_true_iff in Hb. destruct Hb as [Hb H2].
  apply andb_true_iff in Hb. destruct Hb as [H0 H1].
  apply below_spec in H0. apply Z.leb_le in H1, H2.
  unfold nearest4. lia.
Qed.

(** X20. [convert8BitTo4Bit] rounds each channel of the two 8-bit colors
    to the nearest 4-bit level: the level r of a channel v is within
    [0, 15] and its expansion [r * 0x11], the 8-bit value that the T and
    the H mode reconstruct from it, is at most 8 away from v. *)
Theorem convert8BitTo4Bit_nearest (c : (byte * byte * byte) * (byte * byte * byte)) :
  let v := etc2.cluster8 c in
  let r := etc2.convert8BitTo4Bit v in
  nearest4 (fst (fst (fst v))) (fst (fst (fst r)))
  /\ nearest4 (snd (fst (fst v))) (snd (fst (fst r)))
  /\ nearest4 (snd (fst v)) (snd (fst r))
  /\ nearest4 (fst (fst (snd v))) (fst (fst (snd r)))
  /\ nearest4 (snd (fst (snd v))) (snd (fst (snd r)))
  /\ nearest4 (snd (snd v)) (snd (snd r)).
Proof.
  destruct c as [[[r0 g0] b0] [[r1 g1] b1]]. cbv zeta.
  unfold etc2.convert8BitTo4Bit, etc2.cluster8, etc2.mapRGB. cbn [fst snd].
  repeat split; try (apply convert_nearest; apply b2z_range);
    apply (proj1 (convert_nearest _ (b2z_range _))) ||
    apply (proj2 (convert_nearest _ (b2z_range _))).
Qed.

(* ----------------------------------------------------------------- *)
(** ** The sub-encoder of the 1-bit-alpha format (encodeRGBWithAlpha) *)

(** Stores into an array at places that differ. *)
Section Stores.

Context {B : Type}.
Variable pos : B -> Z.
Variable cond : B -> bool.
Variable val : B -> Z.

Let step (a : list Z) (e : B) : list Z :=
  if cond e then set_nth (Z.to_nat (pos e)) (val e) a else a.

Lemma stores_length (l : list B) (a : list Z) :
  length (fold_left step l a) = length a.
Proof.
  revert a. induction l as [|e l IH]; intros a; [reflexivity|].
  cbn [fold_left]. rewrite IH. unfold step.
  destruct (cond e); [apply set_nth_length | reflexivity].
Qed.

Lemma stores_untouched (l : list B) (a : list Z) (k : Z) :
  0 <= k -> (forall e, In e l -> 0 <= pos e) ->
  (forall e, In e l -> cond e = true -> pos e <> k) ->
  etc2.ix (fold_left step l a) k = etc2.ix a k.
Proof.
  intros Hk. revert a. induction l as [|e l IH]; intros a Hpos Hne; [reflexivity|].
  cbn [fold_left]. rewrite IH.
  - unfold step. destruct (cond e) eqn:E; [|reflexivity].
    unfold etc2.ix. apply nth_set_nth_other.
    pose proof (Hpos e (or_introl eq_refl)).
    pose proof (Hne e (or_introl eq_refl) E). lia.
  - intros e' He'. apply Hpos. right. exact He'.
  - intros e' He'. apply Hne. right. exact He'.
Qed.

Lemma stores_written (l : list B) (a : list Z) (e : B) :
  NoDup (map pos l) -> (forall e, In e l -> 0 <= pos e) ->
  In e l -> cond e = true -> (Z.to_nat (pos e) < length a)%nat ->
  etc2.ix (fold_left step l a) (pos e) = val e.
Proof.
  revert a. induction l as [|e0 l IH]; intros a Hnd Hpos Hin Hc Hlen; [destruct Hin|].
  cbn [map] in Hnd. apply NoDup_cons_iff in Hnd. destruct Hnd as [Hnotin Hnd].
  cbn [fold_left]. destruct Hin as [->|Hin].
  - rewrite stores_untouched.
    + unfold step. rewrite Hc. unfold etc2.ix. apply nth_set_nth_same. exact Hlen.
    + apply Hpos. left. reflexivity.
    + intros e' He'. apply Hpos. right. exact He'.
    + intros e' He' _ E. apply Hnotin. rewrite <- E. apply in_map. exact He'.
  - apply IH; try assumption.
    + intros e' He'. apply Hpos. right. exact He'.
    + unfold step. destruct (cond e0); [rewrite set_nth_length|]; exact Hlen.
Qed.

End Stores.

Lemma NoDup_range (n : nat) : NoDup (range n).
Proof.
  unfold range. generalize (seq_NoDup n 0). generalize (seq 0 n).
  induction l as [|a l IH]; intros H; [constructor|].
  apply NoDup_cons_iff in H. destruct H as [Ha Hl]. cbn [map].
  constructor; [|apply IH; exact Hl].
  intros Hin. apply in_map_iff in Hin. destruct Hin as (b & E & Hb).
  apply Nat2Z.inj in E. subst b. contradiction.
Qed.

Lemma xyOrder_positions : map (fun xy : Z * Z => 4 * fst xy + snd xy) etc2.xyOrder = range 16.
Proof. reflexivity. Qed.

Lemma In_xyOrder (x y : Z) : 0 <= x < 4 -> 0 <= y < 4 -> In (x, y) etc2.xyOrder.
Proof.
  intros Hx Hy. unfold etc2.xyOrder. apply in_flat_map. exists x.
  split; [apply In_range; exact Hx|]. apply in_map. apply In_range. exact Hy.
Qed.

Lemma xyOrder_In (xy : Z * Z) :
  In xy etc2.xyOrder -> 0 <= fst xy < 4 /\ 0 <= snd xy < 4.
Proof.
  unfold etc2.xyOrder. intros H. apply in_flat_map in H. destruct H as (x & Hx & H).
  apply in_map_iff in H. destruct H as (y & <- & Hy).
  apply In_range in Hx, Hy. cbn [fst snd]. split; assumption.
Qed.

Section TablePass.

Variable choice : Z -> Z -> Z * Z * Z.

(** [int32(scramble[bestJ])] for the pixel (x, y). *)
Let pixelIndex (xy : Z * Z) : Z :=
  int32 (etc2.ix etc2.scramble (snd (fst (choice (fst xy) (snd xy))))).

Lemma tablePass_fold (l : list (Z * Z)) (te : Z * Z) (lsb msb : list Z) :
  let r :=
    fold_left
      (fun (st : (Z * Z) * list Z * list Z) (xy : Z * Z) =>
         let '((tabError0, tabError1), pixelIndexesLSB, pixelIndexesMSB) := st in
         let '(x, y) := xy in
         let '(half, bestJ, bestErrJ) := choice x y in
         let tabError :=
           if half =? 0 then (int32 (tabError0 + bestErrJ), tabError1)
           else (tabError0, int32 (tabError1 + bestErrJ)) in
         let pixelIndex := int32 (etc2.ix etc2.scramble bestJ) in
         (tabError,
          set_nth (Z.to_nat (4 * x + y)) (Z.land pixelIndex 1) pixelIndexesLSB,
          set_nth (Z.to_nat (4 * x + y)) (Z.shiftr pixelIndex 1) pixelIndexesMSB))
      l (te, lsb, msb) in
  snd (fst r)
  = fold_left (fun a xy =>
                 if true then set_nth (Z.to_nat (4 * fst xy + snd xy))
                                      (Z.land (pixelIndex xy) 1) a
                 else a)
              l lsb
  /\ snd r
     = fold_left (fun a xy =>
                    if true then set_nth (Z.to_nat (4 * fst xy + snd xy))
                                         (Z.shiftr (pixelIndex xy) 1) a
                    else a)
                 l msb.
Proof.
  cbv zeta. unfold pixelIndex. revert te lsb msb.
  induction l as [|[x y] l IH]; intros te lsb msb; [split; reflexivity|].
  cbn [fold_left]. destruct te as [t0 t1]. cbn [fst snd].
  destruct (choice x y) as [[half bestJ] bestErrJ]. cbn [fst snd].
  apply IH.
Qed.

Lemma tablePass_arrays :
  snd (fst (etc2alpha.tablePass choice))
  = fold_left (fun a xy =>
                 if true then set_nth (Z.to_nat (4 * fst xy + snd xy))
                                      (Z.land (pixelIndex xy) 1) a
                 else a)
              etc2.xyOrder etc2alpha.zeros16
  /\ snd (etc2alpha.tablePass choice)
     = fold_left (fun a xy =>
                    if true then set_nth (Z.to_nat (4 * fst xy + snd xy))
                                         (Z.shiftr (pixelIndex xy) 1) a
                    else a)
                 etc2.xyOrder etc2alpha.zeros16.
Proof. apply (tablePass_fold etc2.xyOrder (0, 0) etc2alpha.zeros16 etc2alpha.zeros16). Qed.

Hypothesis choice_index : forall x y, 0 <= snd (fst (choice x y)) < 4.

Lemma pixelIndex_range (xy : Z * Z) : 0 <= pixelIndex xy < 4.
Proof.
  unfold pixelIndex. pose proof (choice_index (fst xy) (snd xy)) as H.
  assert (E : snd (fst (choice (fst xy) (snd xy))) = 0
              \/ snd (fst (choice (fst xy) (snd xy))) = 1
              \/ snd (fst (choice (fst xy) (snd xy))) = 2
              \/ snd (fst (choice (fst xy) (snd xy))) = 3) by lia.
  destruct E as [->|[->|[->| ->]]]; vm_compute; (split; [discriminate | reflexivity]).
Qed.

(** The index bits that one table gives the pixel (x, y). *)
Lemma tablePass_pixel (x y : Z) :
  0 <= x < 4 -> 0 <= y < 4 ->
  length (snd (fst (etc2alpha.tablePass choice))) = 16%nat
  /\ length (snd (etc2alpha.tablePass choice)) = 16%nat
  /\ etc2.ix (snd (fst (etc2alpha.tablePass choice))) (4 * x + y)
     = Z.land (pixelIndex (x, y)) 1
  /\ etc2.ix (snd (etc2alpha.tablePass choice)) (4 * x + y)
     = Z.shiftr (pixelIndex (x, y)) 1.
Proof.
  intros Hx Hy. destruct tablePass_arrays as [-> ->].
  assert (Hpos : forall e : Z * Z, In e etc2.xyOrder -> 0 <= 4 * fst e + snd e)
    by (intros e He; apply xyOrder_In in He; lia).
  assert (Hnd : NoDup (map (fun xy : Z * Z => 4 * fst xy + snd xy) etc2.xyOrder))
    by (rewrite xyOrder_positions; apply NoDup_range).
  split;
    [exact (stores_length (fun xy : Z * Z => 4 * fst xy + snd xy) (fun _ => true)
              (fun xy => Z.land (pixelIndex xy) 1) etc2.xyOrder etc2alpha.zeros16)|].
  split;
    [exact (stores_length (fun xy : Z * Z => 4 * fst xy + snd xy) (fun _ => true)
              (fun xy => Z.shiftr (pixelIndex xy) 1) etc2.xyOrder etc2alpha.zeros16)|].
  split.
  - apply (stores_written (fun xy : Z * Z => 4 * fst xy + snd xy) (fun _ => true)
             (fun xy => Z.land (pixelIndex xy) 1) etc2.xyOrder etc2alpha.zeros16 (x, y));
      try assumption; try reflexivity.
    + apply In_xyOrder; assumption.
    + cbn [fst snd]. change (length etc2alpha.zeros16) with 16%nat. lia.
  - apply (stores_written (fun xy : Z * Z => 4 * fst xy + snd xy) (fun _ => true)
             (fun xy => Z.shiftr (pixelIndex xy) 1) etc2.xyOrder etc2alpha.zeros16 (x, y));
      try assumption; try reflexivity.
    + apply In_xyOrder; assumption.
    + cbn [fst snd]. change (length etc2alpha.zeros16) with 16%nat. lia.
Qed.

End TablePass.
Lemma quot_rem_4 (x y : Z) :
  0 <= x -> 0 <= y < 4 -> Z.quot (4 * x + y) 4 = x /\ Z.rem (4 * x + y) 4 = y.
Proof.
  intros Hx Hy. rewrite Z.quot_div_nonneg, Z.rem_mod_nonneg by lia. split.
  - rewrite Z.mul_comm, Z.div_add_l by lia. rewrite Z.div_small by lia. lia.
  - rewrite Z.add_comm, Z.mul_comm, Z.mod_add by lia. apply Z.mod_small. lia.
Qed.

Lemma halfOf_cases (flipBit x y : Z) :
  0 <= x < 4 -> 0 <= y < 4 ->
  etc2alpha.halfOf flipBit x y = 0 \/ etc2alpha.halfOf flipBit x y = 1.
Proof.
  intros Hx Hy. unfold etc2alpha.halfOf.
  assert (H : forall v, 0 <= v < 4 -> Z.shiftr v 1 = 0 \/ Z.shiftr v 1 = 1).
  { intros v Hv. assert (E : v = 0 \/ v = 1 \/ v = 2 \/ v = 3) by lia.
    destruct E as [->|[->|[->| ->]]]; cbn; tauto. }
  destruct (flipBit =? 0); apply H; assumption.
Qed.

(** [copyHalf] takes the entries of one half and leaves the others. *)
Lemma copyHalf_spec (flipBit half : Z) (best cur : list Z) :
  length best = 16%nat ->
  length (etc2alpha.copyHalf flipBit half best cur) = 16%nat
  /\ forall x y, 0 <= x < 4 -> 0 <= y < 4 ->
       etc2.ix (etc2alpha.copyHalf flipBit half best cur) (4 * x + y)
       = if half =? etc2alpha.halfOf flipBit x y
         then etc2.ix cur (4 * x + y) else etc2.ix best (4 * x + y).
Proof.
  intros Hlen. unfold etc2alpha.copyHalf.
  set (cond := fun i : Z =>
                 half =? etc2alpha.halfOf flipBit (Z.quot i 4) (Z.rem i 4)).
  rewrite (fold_left_ext_in _
             (fun (b : list Z) (i : Z) =>
                if cond i then set_nth (Z.to_nat ((fun i : Z => i) i)) (etc2.ix cur i) b
                else b))
    by (intros b i _; cbv zeta; unfold cond; destruct (half =? _); reflexivity).
  split.
  - etransitivity; [|exact Hlen].
    exact (stores_length (fun i : Z => i) cond (fun i => etc2.ix cur i) (range 16) best).
  - intros x y Hx Hy. destruct (quot_rem_4 x y ltac:(lia) Hy) as [Eq Er].
    assert (Hc : cond (4 * x + y) = (half =? etc2alpha.halfOf flipBit x y))
      by (unfold cond; rewrite Eq, Er; reflexivity).
    destruct (half =? etc2alpha.halfOf flipBit x y) eqn:E.
    + apply (stores_written (fun i : Z => i) cond (fun i => etc2.ix cur i)
               (range 16) best (4 * x + y)).
      * rewrite map_id. apply NoDup_range.
      * intros e He. apply In_range in He. lia.
      * apply In_range. lia.
      * exact Hc.
      * rewrite Hlen. lia.
    + apply (stores_untouched (fun i : Z => i) cond (fun i => etc2.ix cur i)
               (range 16) best (4 * x + y)).
      * lia.
      * intros e He. apply In_range in He. lia.
      * intros e _ He ->. rewrite Hc in He. discriminate.
Qed.

Section Marks.

Variable Q : Z -> Z -> Z -> Z -> Prop.
Variable flipBit : Z.

(** A table's index bits that satisfy Q keep Q in the best index bits. *)
Lemma halfStep_marks (table : Z) (pass : (Z * Z) * list Z * list Z)
    (b : etc2alpha.best) (half : Z) :
  marks Q (snd (fst pass)) (snd pass) ->
  marks Q (etc2alpha.bestIndexesLSB b) (etc2alpha.bestIndexesMSB b) ->
  marks Q (etc2alpha.bestIndexesLSB (etc2alpha.halfStep flipBit table pass b half))
          (etc2alpha.bestIndexesMSB (etc2alpha.halfStep flipBit table pass b half)).
Proof.
  destruct pass as [[[t0 t1] lsb] msb]. cbn [fst snd].
  intros (Hpl & Hpm & Hp) (Hbl & Hbm & Hb). unfold etc2alpha.halfStep.
  destruct (_ >=? _); [split; [|split]; assumption|].
  cbn [etc2alpha.bestIndexesLSB etc2alpha.bestIndexesMSB].
  destruct (copyHalf_spec flipBit half (etc2alpha.bestIndexesLSB b) lsb Hbl) as [Ll El].
  destruct (copyHalf_spec flipBit half (etc2alpha.bestIndexesMSB b) msb Hbm) as [Lm Em].
  split; [exact Ll|]. split; [exact Lm|].
  intros x y Hx Hy. rewrite (El x y Hx Hy), (Em x y Hx Hy).
  destruct (half =? _); [apply Hp | apply Hb]; assumption.
Qed.

Lemma tableStep_marks (T : etc2.Tables) (pixels : list byte) (isTransparent : bool)
    (q0 q1 : etc2.RGB) (b : etc2alpha.best) (table : Z) :
  (forall table,
     marks Q (snd (fst (etc2alpha.tablePass
                          (etc2alpha.pixelChoice T pixels isTransparent flipBit q0 q1 table))))
             (snd (etc2alpha.tablePass
                     (etc2alpha.pixelChoice T pixels isTransparent flipBit q0 q1 table)))) ->
  marks Q (etc2alpha.bestIndexesLSB b) (etc2alpha.bestIndexesMSB b) ->
  marks Q (etc2alpha.bestIndexesLSB
             (etc2alpha.tableStep T pixels isTransparent flipBit q0 q1 b table))
          (etc2alpha.bestIndexesMSB
             (etc2alpha.tableStep T pixels isTransparent flipBit q0 q1 b table)).
Proof.
  intros Hp Hb. unfold etc2alpha.tableStep. cbv zeta.
  apply (fold_left_inv
           (fun b => marks Q (etc2alpha.bestIndexesLSB b) (etc2alpha.bestIndexesMSB b)));
    [exact Hb|].
  intros b' half _ Hb'. apply halfStep_marks; [apply Hp | exact Hb'].
Qed.

(** Once a half has taken a table whose error is below the initial one,
    its index bits satisfy Q, and they keep doing so. *)
Lemma halfStep_good (table : Z) (pass : (Z * Z) * list Z * list Z)
    (b : etc2alpha.best) (half : Z) :
  half = 0 \/ half = 1 ->
  marks Q (snd (fst pass)) (snd pass) ->
  length (etc2alpha.bestIndexesLSB b) = 16%nat ->
  length (etc2alpha.bestIndexesMSB b) = 16%nat ->
  passError pass half < etc2.maxInt32 ->
  halfError b half = etc2.maxInt32 \/ goodHalf Q flipBit b half ->
  let b' := etc2alpha.halfStep flipBit table pass b half in
  length (etc2alpha.bestIndexesLSB b') = 16%nat
  /\ length (etc2alpha.bestIndexesMSB b') = 16%nat
  /\ goodHalf Q flipBit b' half
  /\ (forall h, h <> half -> h = 0 \/ h = 1 ->
        (halfError b h = etc2.maxInt32 -> halfError b' h = etc2.maxInt32)
        /\ (goodHalf Q flipBit b h -> goodHalf Q flipBit b' h)).
Proof.
  destruct pass as [[[t0 t1] lsb] msb]. unfold passError. cbn [fst snd].
  intros Hhalf (Hpl & Hpm & Hp) Hbl Hbm Herr Hb. cbv zeta.
  unfold etc2alpha.halfStep. fold (halfError b half).
  destruct (Z.geb_spec (if half =? 0 then t0 else t1) (halfError b half)) as [Hge|Hlt].
  - split; [exact Hbl|]. split; [exact Hbm|].
    split; [destruct Hb as [E|Hg]; [lia | exact Hg]|].
    intros h _ _. split; intros H; exact H.
  - destruct (copyHalf_spec flipBit half (etc2alpha.bestIndexesLSB b) lsb Hbl) as [Ll El].
    destruct (copyHalf_spec flipBit half (etc2alpha.bestIndexesMSB b) msb Hbm) as [Lm Em].
    cbn [etc2alpha.bestIndexesLSB etc2alpha.bestIndexesMSB].
    split; [exact Ll|]. split; [exact Lm|]. split.
    + unfold goodHalf, halfError.
      cbn [etc2alpha.bestError0 etc2alpha.bestError1
           etc2alpha.bestIndexesLSB etc2alpha.bestIndexesMSB].
      split; [destruct Hhalf as [-> | ->]; cbn; exact Herr|].
      intros x y Hx Hy E. rewrite (El x y Hx Hy), (Em x y Hx Hy), E, Z.eqb_refl.
      apply Hp; assumption.
    + intros h Hne Hh.
      assert (Eh : halfError
                     (etc2alpha.mkBest
                        (if half =? 0 then if half =? 0 then t0 else t1
                         else etc2alpha.bestError0 b)
                        (if half =? 0 then etc2alpha.bestError1 b
                         else if half =? 0 then t0 else t1)
                        (if half =? 0 then int32 table else etc2alpha.bestTable0 b)
                        (if half =? 0 then etc2alpha.bestTable1 b else int32 table)
                        (etc2alpha.copyHalf flipBit half (etc2alpha.bestIndexesLSB b) lsb)
                        (etc2alpha.copyHalf flipBit half (etc2alpha.bestIndexesMSB b) msb))
                     h
                   = halfError b h).
      { unfold halfError. cbn [etc2alpha.bestError0 etc2alpha.bestError1].
        destruct Hhalf as [-> | ->]; destruct Hh as [-> | ->];
          try (exfalso; apply Hne; reflexivity); reflexivity. }
      split.
      * intros E. rewrite Eh. exact E.
      * intros [He Hm]. unfold goodHalf. rewrite Eh. split; [exact He|].
        cbn [etc2alpha.bestIndexesLSB etc2alpha.bestIndexesMSB].
        intros x y Hx Hy E. rewrite (El x y Hx Hy), (Em x y Hx Hy), E.
        destruct (Z.eqb_spec half h) as [->|_]; [exfalso; apply Hne; reflexivity|].
        apply Hm; assumption.
Qed.

End Marks.
(** The index bits of [scramble[bestJ]]: the index 2 belongs to bestJ = 1. *)
Lemma scramble_mark (bestJ : Z) :
  0 <= bestJ < 4 ->
  0 <= Z.land (int32 (etc2.ix etc2.scramble bestJ)) 1 < 2
  /\ 0 <= Z.shiftr (int32 (etc2.ix etc2.scramble bestJ)) 1 < 2
  /\ (Z.shiftr (int32 (etc2.ix etc2.scramble bestJ)) 1 = 1
      /\ Z.land (int32 (etc2.ix etc2.scramble bestJ)) 1 = 0 <-> bestJ = 1).
Proof.
  intros H. assert (E : bestJ = 0 \/ bestJ = 1 \/ bestJ = 2 \/ bestJ = 3) by lia.
  destruct E as [->|[->|[->| ->]]].
  - change (int32 (etc2.ix etc2.scramble 0)) with 3.
    change (Z.land 3 1) with 1. change (Z.shiftr 3 1) with 1. lia.
  - change (int32 (etc2.ix etc2.scramble 1)) with 2.
    change (Z.land 2 1) with 0. change (Z.shiftr 2 1) with 1. lia.
  - change (int32 (etc2.ix etc2.scramble 2)) with 0.
    change (Z.land 0 1) with 0. change (Z.shiftr 0 1) with 0. lia.
  - change (int32 (etc2.ix etc2.scramble 3)) with 1.
    change (Z.land 1 1) with 1. change (Z.shiftr 1 1) with 0. lia.
Qed.

Lemma sum3_bound (f : Z -> Z) :
  (forall c, 0 <= c < 3 -> 0 <= f c <= 65025) ->
  0 <= fold_left (fun e c => int32 (e + f c)) (range 3) 0 <= 195075.
Proof.
  intros Hf. change (range 3) with [0; 1; 2]. cbn [fold_left].
  pose proof (Hf 0 ltac:(lia)). pose proof (Hf 1 ltac:(lia)). pose proof (Hf 2 ltac:(lia)).
  rewrite (int32_small (0 + f 0)) by lia.
  rewrite (int32_small (0 + f 0 + f 1)) by lia.
  rewrite int32_small by lia. lia.
Qed.

Lemma square_bound (col p : Z) :
  0 <= col <= 255 -> 0 <= p < 256 ->
  0 <= int32 (int32 (col - int32 p) * int32 (col - int32 p)) <= 65025.
Proof.
  intros Hc Hp. rewrite (int32_small p) by lia. rewrite (int32_small (col - p)) by lia.
  assert (Hsq : 0 <= (col - p) * (col - p) <= 65025).
  { assert (Hd : -255 <= col - p <= 255) by lia.
    revert Hd. generalize (col - p). intros d Hd.
    destruct (Z.le_ge_cases 0 d); nia. }
  rewrite int32_small by lia. exact Hsq.
Qed.

Lemma chan_range (color : etc2.RGB) (c : Z) : rgb8 color -> 0 <= etc2alpha.chan color c < 256.
Proof.
  destruct color as [[c0 c1] c2]. intros (H0 & H1 & H2). unfold etc2alpha.chan.
  destruct (c =? 0); [exact H0|]. destruct (c =? 1); assumption.
Qed.

Section Choice.

Variable T : etc2.Tables.
Variable pixels : list byte.
Variable isTransparent : bool.

Lemma bestOf_index (baseCol : etc2.RGB) (table i : Z) :
  0 <= fst (etc2alpha.bestOf T pixels isTransparent baseCol table i) < 4
  /\ (isTransparent = true ->
      fst (etc2alpha.bestOf T pixels isTransparent baseCol table i) <> 1).
Proof.
  unfold etc2alpha.bestOf.
  apply (fold_left_inv
           (fun st : Z * Z => 0 <= fst st < 4 /\ (isTransparent = true -> fst st <> 1))).
  - cbn [fst]. split; [lia | intros _; discriminate].
  - intros st j Hin Hst. apply In_range in Hin.
    destruct ((j =? 1) && isTransparent) eqn:E; [exact Hst|].
    destruct (_ <? snd st); [|exact Hst]. cbn [fst]. split; [exact Hin|].
    intros ->. rewrite andb_true_r in E. apply Z.eqb_neq in E. exact E.
Qed.

Lemma pixelChoice_index (flipBit : Z) (q0 q1 : etc2.RGB) (table x y : Z) :
  0 <= snd (fst (etc2alpha.pixelChoice T pixels isTransparent flipBit q0 q1 table x y)) < 4
  /\ ((at8 pixels (4 * (4 * y + x) + 3) <? 0x80) = true ->
      snd (fst (etc2alpha.pixelChoice T pixels isTransparent flipBit q0 q1 table x y)) = 1)
  /\ ((at8 pixels (4 * (4 * y + x) + 3) <? 0x80) = false -> isTransparent = true ->
      snd (fst (etc2alpha.pixelChoice T pixels isTransparent flipBit q0 q1 table x y)) <> 1).
Proof.
  unfold etc2alpha.pixelChoice. cbv zeta.
  match goal with
  | |- context [etc2alpha.bestOf T pixels isTransparent ?c ?t ?i] =>
    pose proof (bestOf_index c t i) as [Hr Hn];
      destruct (etc2alpha.bestOf T pixels isTransparent c t i) as [bj be]
  end.
  cbn [fst] in Hr, Hn.
  destruct (at8 pixels (4 * (4 * y + x) + 3) <? 0x80); cbn [fst snd].
  - split; [lia|]. split; [reflexivity | discriminate].
  - split; [exact Hr|]. split; [discriminate | intros _; exact Hn].
Qed.

(** Every table marks the pixels below the alpha threshold with the
    index 2, and no other pixel when the block counts as transparent. *)
Lemma pass_marks (flipBit : Z) (q0 q1 : etc2.RGB) (table : Z) :
  marks (markAll pixels isTransparent)
    (snd (fst (etc2alpha.tablePass
                 (etc2alpha.pixelChoice T pixels isTransparent flipBit q0 q1 table))))
    (snd (etc2alpha.tablePass
            (etc2alpha.pixelChoice T pixels isTransparent flipBit q0 q1 table))).
Proof.
  set (choice := etc2alpha.pixelChoice T pixels isTransparent flipBit q0 q1 table).
  assert (Hc : forall x y, 0 <= snd (fst (choice x y)) < 4)
    by (intros x y; apply pixelChoice_index).
  unfold marks.
  destruct (tablePass_pixel choice 0 0 ltac:(lia) ltac:(lia)) as (Ll & Lm & _).
  split; [exact Ll|]. split; [exact Lm|].
  intros x y Hx Hy.
  destruct (tablePass_pixel choice x y Hx Hy) as (_ & _ & -> & ->). cbn [fst snd].
  destruct (scramble_mark _ (Hc x y)) as (Hl & Hm & Hiff).
  destruct (pixelChoice_index flipBit q0 q1 table x y) as (_ & Ht & Ho).
  fold choice in Ht, Ho.
  unfold markAll, markOpaque. split; [split; [exact Hl | split; [exact Hm|]]|].
  - intros HT Hop Hidx. apply Hiff in Hidx. exact (Ho Hop HT Hidx).
  - intros Htr. apply Hiff. apply Ht. exact Htr.
Qed.

Lemma errJ_range (baseCol : etc2.RGB) (table i j : Z) :
  rgb8 baseCol ->
  0 <= etc2alpha.errJ T pixels isTransparent baseCol table i j <= 195075.
Proof.
  intros Hb. unfold etc2alpha.errJ.
  apply (sum3_bound
           (fun c =>
              let mod_ := int32 (etc2.modifiers T table (etc2.ix etc2.scramble j)) in
              let col := Z.max 0 (Z.min 255 (int32 (etc2alpha.chan baseCol c + mod_))) in
              let col := if (j =? 2) && isTransparent then etc2alpha.chan baseCol c
                         else col in
              let errCol := int32 (col - int32 (at8 pixels (4 * i + c))) in
              int32 (errCol * errCol))).
  intros c Hc. cbv zeta. apply square_bound; [|apply at8_range].
  pose proof (chan_range baseCol c Hb).
  destruct ((j =? 2) && isTransparent); lia.
Qed.

Lemma bestOf_err (baseCol : etc2.RGB) (table i : Z) :
  rgb8 baseCol ->
  0 <= snd (etc2alpha.bestOf T pixels isTransparent baseCol table i) <= 195075.
Proof.
  intros Hb. unfold etc2alpha.bestOf.
  change (range 4) with (0 :: [1; 2; 3]).
  apply (fold_left_inv_cons (fun st : Z * Z => 0 <= snd st <= 195075)).
  - change (0 =? 1) with false. cbn [andb snd].
    pose proof (errJ_range baseCol table i 0 Hb) as He.
    destruct (Z.ltb_spec (etc2alpha.errJ T pixels isTransparent baseCol table i 0)
                etc2.maxInt32) as [_|Hge]; [exact He|].
    unfold etc2.maxInt32 in Hge. lia.
  - intros st j _ Hst. destruct ((j =? 1) && isTransparent); [exact Hst|].
    destruct (_ <? snd st); [|exact Hst]. cbn [snd]. apply errJ_range. exact Hb.
Qed.

Lemma pixelChoice_err (flipBit : Z) (q0 q1 : etc2.RGB) (table x y : Z) :
  rgb8 q0 -> rgb8 q1 ->
  0 <= snd (etc2alpha.pixelChoice T pixels isTransparent flipBit q0 q1 table x y)
  <= 195075.
Proof.
  intros H0 H1. unfold etc2alpha.pixelChoice. cbv zeta.
  match goal with
  | |- context [etc2alpha.bestOf T pixels isTransparent ?c ?t ?i] =>
    assert (Hc : rgb8 c) by (destruct (_ || _); assumption);
      pose proof (bestOf_err c t i Hc) as He;
      destruct (etc2alpha.bestOf T pixels isTransparent c t i) as [bj be]
  end.
  cbn [snd] in He. destruct (at8 pixels _ <? 0x80); cbn [snd]; lia.
Qed.

End Choice.

(** The error of a table does not wrap around when the errors of the
    pixels are within bounds. *)
Lemma tablePass_error (choice : Z -> Z -> Z * Z * Z) (half : Z) :
  (forall x y, 0 <= snd (choice x y) <= 195075) ->
  0 <= passError (etc2alpha.tablePass choice) half < etc2.maxInt32.
Proof.
  intros Hc.
  assert (Aux : forall l te lsb msb n,
             0 <= n -> n + Z.of_nat (length l) <= 16 ->
             0 <= fst te <= n * 195075 -> 0 <= snd te <= n * 195075 ->
             let r :=
               fold_left
                 (fun (st : (Z * Z) * list Z * list Z) (xy : Z * Z) =>
                    let '((tabError0, tabError1), pixelIndexesLSB, pixelIndexesMSB) := st in
                    let '(x, y) := xy in
                    let '(half, bestJ, bestErrJ) := choice x y in
                    let tabError :=
                      if half =? 0 then (int32 (tabError0 + bestErrJ), tabError1)
                      else (tabError0, int32 (tabError1 + bestErrJ)) in
                    let pixelIndex := int32 (etc2.ix etc2.scramble bestJ) in
                    (tabError,
                     set_nth (Z.to_nat (4 * x + y)) (Z.land pixelIndex 1) pixelIndexesLSB,
                     set_nth (Z.to_nat (4 * x + y)) (Z.shiftr pixelIndex 1) pixelIndexesMSB))
                 l (te, lsb, msb) in
             0 <= fst (fst (fst r)) <= (n + Z.of_nat (length l)) * 195075
             /\ 0 <= snd (fst (fst r)) <= (n + Z.of_nat (length l)) * 195075).
  { induction l as [|[x y] l IH]; intros [t0 t1] lsb msb n Hn Hlen H0 H1; cbv zeta.
    - cbn [fold_left fst snd length] in *. lia.
    - cbn [fold_left]. pose proof (Hc x y) as He.
      destruct (choice x y) as [[h bj] be]. cbn [snd] in He. cbn [fst snd] in H0, H1.
      cbn [length] in Hlen |- *.
      replace (n + Z.of_nat (S (length l))) with (n + 1 + Z.of_nat (length l)) by lia.
      destruct (h =? 0); apply IH; cbn [fst snd]; try lia;
        rewrite int32_small by lia; lia. }
  pose proof (Aux etc2.xyOrder (0, 0) etc2alpha.zeros16 etc2alpha.zeros16 0
                ltac:(lia) ltac:(cbn; lia) ltac:(cbn; lia) ltac:(cbn; lia)) as H.
  cbv zeta in H. change (Z.of_nat (length etc2.xyOrder)) with 16 in H.
  unfold passError, etc2alpha.tablePass, etc2.maxInt32.
  destruct (half =? 0); lia.
Qed.

Lemma zeros16_marks (pixels : list byte) (isTransparent : bool) :
  marks (markOpaque pixels isTransparent) etc2alpha.zeros16 etc2alpha.zeros16.
Proof.
  unfold marks. split; [reflexivity|]. split; [reflexivity|].
  intros x y Hx Hy.
  assert (E : etc2.ix etc2alpha.zeros16 (4 * x + y) = 0).
  { unfold etc2.ix, etc2alpha.zeros16. apply nth_repeat. }
  rewrite E. unfold markOpaque. lia.
Qed.

Section Search.

Variable T : etc2.Tables.
Variable pixels : list byte.
Variable isTransparent : bool.
Variable flipBit : Z.
Variables q0 q1 : etc2.RGB.

(** Whatever the bases: the index bits never mark a pixel at or above the
    alpha threshold when the block counts as transparent. *)
Lemma searchTables_marks :
  marks (markOpaque pixels isTransparent)
    (etc2alpha.bestIndexesLSB
       (etc2alpha.searchTables T pixels isTransparent flipBit q0 q1))
    (etc2alpha.bestIndexesMSB
       (etc2alpha.searchTables T pixels isTransparent flipBit q0 q1)).
Proof.
  unfold etc2alpha.searchTables.
  apply (fold_left_inv
           (fun b => marks (markOpaque pixels isTransparent)
                       (etc2alpha.bestIndexesLSB b) (etc2alpha.bestIndexesMSB b))).
  - cbn [etc2alpha.bestIndexesLSB etc2alpha.bestIndexesMSB]. apply zeros16_marks.
  - intros b table _ Hb. apply tableStep_marks; [|exact Hb].
    intros table'.
    destruct (pass_marks T pixels isTransparent flipBit q0 q1 table') as (Ll & Lm & H).
    split; [exact Ll|]. split; [exact Lm|].
    intros x y Hx Hy. apply (H x y Hx Hy).
Qed.

Hypothesis Hq0 : rgb8 q0.
Hypothesis Hq1 : rgb8 q1.

Lemma tableStep_good (b : etc2alpha.best) (table : Z) :
  length (etc2alpha.bestIndexesLSB b) = 16%nat ->
  length (etc2alpha.bestIndexesMSB b) = 16%nat ->
  (forall h, h = 0 \/ h = 1 ->
     halfError b h = etc2.maxInt32
     \/ goodHalf (markAll pixels isTransparent) flipBit b h) ->
  let b' := etc2alpha.tableStep T pixels isTransparent flipBit q0 q1 b table in
  length (etc2alpha.bestIndexesLSB b') = 16%nat
  /\ length (etc2alpha.bestIndexesMSB b') = 16%nat
  /\ goodHalf (markAll pixels isTransparent) flipBit b' 0
  /\ goodHalf (markAll pixels isTransparent) flipBit b' 1.
Proof.
  intros Ll Lm Hb. cbv zeta. unfold etc2alpha.tableStep. cbv zeta.
  set (pass := etc2alpha.tablePass
                 (etc2alpha.pixelChoice T pixels isTransparent flipBit q0 q1 table)).
  assert (Hp : marks (markAll pixels isTransparent) (snd (fst pass)) (snd pass))
    by apply pass_marks.
  assert (He : forall h, passError pass h < etc2.maxInt32).
  { intros h. apply tablePass_error. intros x y. apply pixelChoice_err; assumption. }
  change (range 2) with [0; 1]. cbn [fold_left].
  destruct (halfStep_good (markAll pixels isTransparent) flipBit table pass b 0
              (or_introl eq_refl) Hp Ll Lm (He 0) (Hb 0 (or_introl eq_refl)))
    as (Ll1 & Lm1 & G0 & Hother).
  destruct (Hother 1 ltac:(lia) (or_intror eq_refl)) as [Hfresh Hgood].
  assert (Hb1 : halfError (etc2alpha.halfStep flipBit table pass b 0) 1 = etc2.maxInt32
                \/ goodHalf (markAll pixels isTransparent) flipBit
                     (etc2alpha.halfStep flipBit table pass b 0) 1).
  { destruct (Hb 1 (or_intror eq_refl)) as [E|G]; [left; apply Hfresh | right; apply Hgood];
      assumption. }
  destruct (halfStep_good (markAll pixels isTransparent) flipBit table pass
              (etc2alpha.halfStep flipBit table pass b 0) 1
              (or_intror eq_refl) Hp Ll1 Lm1 (He 1) Hb1)
    as (Ll2 & Lm2 & G1 & Hother2).
  split; [exact Ll2|]. split; [exact Lm2|]. split; [|exact G1].
  apply (Hother2 0 ltac:(lia) (or_introl eq_refl)). exact G0.
Qed.

(** With 8-bit bases every half takes a table, and the index bits mark
    exactly the pixels below the alpha threshold. *)
Lemma searchTables_good :
  marks (markAll pixels isTransparent)
    (etc2alpha.bestIndexesLSB
       (etc2alpha.searchTables T pixels isTransparent flipBit q0 q1))
    (etc2alpha.bestIndexesMSB
       (etc2alpha.searchTables T pixels isTransparent flipBit q0 q1)).
Proof.
  assert (H : let b := etc2alpha.searchTables T pixels isTransparent flipBit q0 q1 in
              length (etc2alpha.bestIndexesLSB b) = 16%nat
              /\ length (etc2alpha.bestIndexesMSB b) = 16%nat
              /\ goodHalf (markAll pixels isTransparent) flipBit b 0
              /\ goodHalf (markAll pixels isTransparent) flipBit b 1).
  { cbv zeta. unfold etc2alpha.searchTables.
    change (range 8) with (0 :: [1; 2; 3; 4; 5; 6; 7]).
    apply (fold_left_inv_cons
             (fun b => length (etc2alpha.bestIndexesLSB b) = 16%nat
                       /\ length (etc2alpha.bestIndexesMSB b) = 16%nat
                       /\ goodHalf (markAll pixels isTransparent) flipBit b 0
                       /\ goodHalf (markAll pixels isTransparent) flipBit b 1)).
    - apply tableStep_good; [reflexivity | reflexivity|].
      intros h [-> | ->]; left; reflexivity.
    - intros b table _ (Ll & Lm & G0 & G1). apply tableStep_good; try assumption.
      intros h [-> | ->]; right; assumption. }
  cbv zeta in H. destruct H as (Ll & Lm & [_ G0] & [_ G1]).
  split; [exact Ll|]. split; [exact Lm|].
  intros x y Hx Hy.
  destruct (halfOf_cases flipBit x y Hx Hy) as [E|E];
    [apply G0 | apply G1]; assumption.
Qed.

End Search.
Lemma fold_lor2_testbit (g h : Z -> Z) (l : list Z) (code k : Z) :
  Z.testbit (fold_left (fun code i => Z.lor (Z.lor code (g i)) (h i)) l code) k
  = Z.testbit code k
    || existsb (fun i => Z.testbit (g i) k || Z.testbit (h i) k) l.
Proof.
  revert code. induction l as [|i l IH]; intros code; cbn [fold_left existsb].
  - rewrite orb_false_r. reflexivity.
  - rewrite IH, !Z.lor_spec, !orb_assoc. reflexivity.
Qed.

Lemma existsb_ext_in (f g : Z -> bool) (l : list Z) :
  (forall i, In i l -> f i = g i) -> existsb f l = existsb g l.
Proof.
  induction l as [|i l IH]; intros H; [reflexivity|].
  cbn [existsb]. rewrite (H i (or_introl eq_refl)).
  rewrite IH by (intros j Hj; apply H; right; exact Hj). reflexivity.
Qed.

Lemma testbit_bit (v m : Z) :
  0 <= v < 2 -> Z.testbit v m = (m =? 0) && (v =? 1).
Proof.
  intros Hv. assert (E : v = 0 \/ v = 1) by lia. destruct E as [-> | ->].
  - rewrite Z.testbit_0_l, andb_false_r. reflexivity.
  - rewrite testbit_1, andb_true_r. reflexivity.
Qed.

Section PutBest.

Variable code : Z.
Variable b : etc2alpha.best.
Hypothesis Hb : forall i, 0 <= i < 16 ->
  0 <= etc2.ix (etc2alpha.bestIndexesLSB b) i < 2
  /\ 0 <= etc2.ix (etc2alpha.bestIndexesMSB b) i < 2.

Lemma putBest_testbit (k : Z) :
  0 <= k < 64 ->
  Z.testbit (etc2alpha.putBest code b) k
  = Z.testbit code k
    || Z.testbit (etc2alpha.bestTable0 b) (k - 37)
    || Z.testbit (etc2alpha.bestTable1 b) (k - 34)
    || existsb (fun i =>
                  ((k =? i + 16) && (etc2.ix (etc2alpha.bestIndexesMSB b) i =? 1))
                  || ((k =? i) && (etc2.ix (etc2alpha.bestIndexesLSB b) i =? 1)))
               (range 16).
Proof.
  intros Hk. unfold etc2alpha.putBest. cbv zeta.
  rewrite fold_lor2_testbit, !Z.lor_spec, !testbit_shl64 by lia.
  f_equal. apply existsb_ext_in. intros i Hi. apply In_range in Hi.
  change (Z.of_nat 16) with 16 in Hi.
  rewrite !testbit_shl64 by lia.
  destruct (Hb i Hi) as [Hl Hm].
  rewrite (testbit_bit _ _ Hl), (testbit_bit _ _ Hm).
  f_equal; f_equal.
  - destruct (Z.eqb_spec (k - (i + 16)) 0); destruct (Z.eqb_spec k (i + 16));
      try reflexivity; lia.
  - destruct (Z.eqb_spec (k - (i + 0)) 0); destruct (Z.eqb_spec k i);
      try reflexivity; lia.
Qed.

(** The index bits of the pixel at the place i of the arrays are the bits
    i + 16 and i of the codeword; the bits 32 and 33 are those of the
    header. *)
Lemma putBest_bits :
  (forall k, 0 <= k < 32 -> Z.testbit code k = false) ->
  (forall i, 0 <= i < 16 ->
     Z.testbit (etc2alpha.putBest code b) i
     = (etc2.ix (etc2alpha.bestIndexesLSB b) i =? 1)
     /\ Z.testbit (etc2alpha.putBest code b) (i + 16)
        = (etc2.ix (etc2alpha.bestIndexesMSB b) i =? 1))
  /\ Z.testbit (etc2alpha.putBest code b) 32 = Z.testbit code 32
  /\ Z.testbit (etc2alpha.putBest code b) 33 = Z.testbit code 33.
Proof.
  intros Hcode. split; [|split].
  - intros i Hi. split.
    + rewrite putBest_testbit by lia. rewrite Hcode by lia.
      rewrite !(Z.testbit_neg_r _ (i - _)) by lia. cbn [orb].
      apply (existsb_single _ _ i); [apply In_range; exact Hi|].
      intros j Hj. apply In_range in Hj. change (Z.of_nat 16) with 16 in Hj.
      destruct (Z.eqb_spec i (j + 16)); [lia|]. cbn [andb orb].
      destruct (Z.eqb_spec i j) as [->|Hne].
      * rewrite Z.eqb_refl. reflexivity.
      * destruct (Z.eqb_spec j i); [lia | reflexivity].
    + rewrite putBest_testbit by lia. rewrite Hcode by lia.
      rewrite !(Z.testbit_neg_r _ (i + 16 - _)) by lia. cbn [orb].
      apply (existsb_single _ _ i); [apply In_range; exact Hi|].
      intros j Hj. apply In_range in Hj. change (Z.of_nat 16) with 16 in Hj.
      destruct (Z.eqb_spec (i + 16) j); [lia|]. cbn [andb]. rewrite orb_false_r.
      destruct (Z.eqb_spec (i + 16) (j + 16)) as [E|Hne].
      * assert (j = i) by lia. subst j. rewrite Z.eqb_refl. reflexivity.
      * destruct (Z.eqb_spec j i); [lia | reflexivity].
  - rewrite putBest_testbit by lia.
    rewrite !(Z.testbit_neg_r _ (32 - _)) by lia.
    rewrite existsb_none; [rewrite !orb_false_r; reflexivity|].
    intros j Hj. apply In_range in Hj. change (Z.of_nat 16) with 16 in Hj.
    destruct (Z.eqb_spec 32 (j + 16)); [lia|]. destruct (Z.eqb_spec 32 j); [lia|].
    reflexivity.
  - rewrite putBest_testbit by lia.
    rewrite !(Z.testbit_neg_r _ (33 - _)) by lia.
    rewrite existsb_none; [rewrite !orb_false_r; reflexivity|].
    intros j Hj. apply In_range in Hj. change (Z.of_nat 16) with 16 in Hj.
    destruct (Z.eqb_spec 33 (j + 16)); [lia|]. destruct (Z.eqb_spec 33 j); [lia|].
    reflexivity.
Qed.

End PutBest.

Lemma header_low (encColor0 diff : etc2.RGB) (isTransparent : bool) (k : Z) :
  0 <= k < 40 ->
  Z.testbit (etc2alpha.header encColor0 diff isTransparent) k
  = (k =? 33) && negb isTransparent.
Proof.
  intros Hk. destruct encColor0 as [[e0 e1] e2]. destruct diff as [[d0 d1] d2].
  unfold etc2alpha.header. cbv zeta.
  destruct isTransparent; cbn [negb]; rewrite !Z.lor_spec, !testbit_shl64 by lia;
    rewrite !(Z.testbit_neg_r _ (k - 59)), !(Z.testbit_neg_r _ (k - 56)),
      !(Z.testbit_neg_r _ (k - 51)), !(Z.testbit_neg_r _ (k - 48)),
      !(Z.testbit_neg_r _ (k - 43)), !(Z.testbit_neg_r _ (k - 40)) by lia;
    rewrite Z.testbit_0_l; cbn [orb].
  - rewrite andb_false_r. reflexivity.
  - rewrite andb_true_r, testbit_1.
    destruct (Z.eqb_spec (k - 33) 0); destruct (Z.eqb_spec k 33); try reflexivity; lia.
Qed.

Lemma marks_entries (Q : Z -> Z -> Z -> Z -> Prop) (lsb msb : list Z) :
  (forall x y l m, Q x y l m -> 0 <= l < 2 /\ 0 <= m < 2) ->
  marks Q lsb msb ->
  forall i, 0 <= i < 16 -> 0 <= etc2.ix lsb i < 2 /\ 0 <= etc2.ix msb i < 2.
Proof.
  intros HQ (_ & _ & H) i Hi.
  pose proof (Z.div_mod i 4 ltac:(lia)) as E.
  pose proof (Z.mod_pos_bound i 4 ltac:(lia)) as Hm.
  assert (Hd : 0 <= i / 4 < 4)
    by (split; [apply Z.div_pos; lia | apply Z.div_lt_upper_bound; lia]).
  specialize (H (i / 4) (i mod 4) Hd Hm). rewrite <- E in H.
  exact (HQ _ _ _ _ H).
Qed.

Section Flip.

Variable T : etc2.Tables.
Variable pixels : list byte.
Variable isTransparent : bool.
Variable flipBit : Z.

(** The bits of the codeword of one orientation, whatever the bases. *)
Lemma encodeFlip_opaque (x y : Z) :
  0 <= x < 4 -> 0 <= y < 4 ->
  let code := fst (etc2alpha.encodeFlip T pixels isTransparent flipBit) in
  Z.testbit code 33 = negb isTransparent
  /\ (isTransparent = true -> (at8 pixels (4 * (4 * y + x) + 3) <? 0x80) = false ->
      Z.testbit code (4 * x + y + 16) && negb (Z.testbit code (4 * x + y)) = false).
Proof.
  intros Hx Hy. cbv zeta. unfold etc2alpha.encodeFlip.
  destruct (etc2alpha.baseColors pixels flipBit) as [[[enc0 diff] q0] q1]. cbn [fst].
  pose proof (searchTables_marks T pixels isTransparent flipBit q0 q1) as Hm.
  set (b := etc2alpha.searchTables T pixels isTransparent flipBit q0 q1) in *.
  pose proof (marks_entries _ _ _
                (fun x y l m (H : markOpaque pixels isTransparent x y l m) =>
                   conj (proj1 H) (proj1 (proj2 H))) Hm) as Hent.
  destruct (putBest_bits (etc2alpha.header enc0 diff isTransparent) b Hent) as (Hidx & _ & H33).
  { intros k Hk. rewrite header_low by lia.
    destruct (Z.eqb_spec k 33); [lia | reflexivity]. }
  split.
  - rewrite H33, header_low by lia. reflexivity.
  - intros HT Hop. destruct (Hidx (4 * x + y) ltac:(lia)) as [-> ->].
    destruct Hm as (_ & _ & Hm). destruct (Hm x y Hx Hy) as (Hl & Hh & Hno).
    specialize (Hno HT Hop).
    destruct (Z.eqb_spec (etc2.ix (etc2alpha.bestIndexesMSB b) (4 * x + y)) 1);
      destruct (Z.eqb_spec (etc2.ix (etc2alpha.bestIndexesLSB b) (4 * x + y)) 1);
      try reflexivity.
    exfalso. apply Hno. lia.
Qed.

Lemma expand5_range (r : Z) : 0 <= r < 32 -> 0 <= etc2.expand5 r < 256.
Proof.
  intros Hr.
  assert (H : allBelow 32 (fun r => below 256 (etc2.expand5 r)) = true)
    by (vm_compute; reflexivity).
  apply below_spec. exact (allBelow_spec _ _ H r Hr).
Qed.

(** With 8-bit quantized averages, the bases that the decoder expands are
    8-bit colors, the 5-bit bases and the 3-bit differences are within
    their fields, and so are their sums. *)
Lemma baseColors_range :
  rgb8 (etc2.reduceQuantize (fst (etc2alpha.avgColors pixels flipBit)) true) ->
  rgb8 (etc2.reduceQuantize (snd (etc2alpha.avgColors pixels flipBit)) true) ->
  let enc0 := fst (fst (fst (etc2alpha.baseColors pixels flipBit))) in
  let diff := snd (fst (fst (etc2alpha.baseColors pixels flipBit))) in
  rgb8 (snd (fst (etc2alpha.baseColors pixels flipBit)))
  /\ rgb8 (snd (etc2alpha.baseColors pixels flipBit))
  /\ (0 <= fst (fst enc0) < 32 /\ -4 <= fst (fst diff) <= 3
      /\ 0 <= fst (fst enc0) + fst (fst diff) < 32)
  /\ (0 <= snd (fst enc0) < 32 /\ -4 <= snd (fst diff) <= 3
      /\ 0 <= snd (fst enc0) + snd (fst diff) < 32)
  /\ (0 <= snd enc0 < 32 /\ -4 <= snd diff <= 3
      /\ 0 <= snd enc0 + snd diff < 32).
Proof.
  unfold etc2alpha.baseColors.
  destruct (etc2alpha.avgColors pixels flipBit) as [avg0 avg1]. cbn [fst snd].
  destruct (etc2.reduceQuantize avg0 true) as [[q00 q01] q02].
  destruct (etc2.reduceQuantize avg1 true) as [[q10 q11] q12].
  intros (H00 & H01 & H02) (H10 & H11 & H12). cbv zeta. cbn [fst snd].
  pose proof (shiftr3_range q00 H00). pose proof (shiftr3_range q01 H01).
  pose proof (shiftr3_range q02 H02). pose proof (shiftr3_range q10 H10).
  pose proof (shiftr3_range q11 H11). pose proof (shiftr3_range q12 H12).
  unfold etc2alpha.clampDiff.
  rewrite !(int32_small (Z.shiftr _ 3 - Z.shiftr _ 3)) by lia.
  rewrite !int32_small by lia.
  unfold rgb8.
  repeat split; try lia; apply expand5_range; lia.
Qed.

(** With 8-bit bases the pixels below the alpha threshold have the
    index 2. *)
Lemma encodeFlip_transparent (x y : Z) :
  rgb8 (etc2.reduceQuantize (fst (etc2alpha.avgColors pixels flipBit)) true) ->
  rgb8 (etc2.reduceQuantize (snd (etc2alpha.avgColors pixels flipBit)) true) ->
  0 <= x < 4 -> 0 <= y < 4 ->
  (at8 pixels (4 * (4 * y + x) + 3) <? 0x80) = true ->
  let code := fst (etc2alpha.encodeFlip T pixels isTransparent flipBit) in
  Z.testbit code (4 * x + y + 16) && negb (Z.testbit code (4 * x + y)) = true.
Proof.
  intros H0 H1 Hx Hy Htr. cbv zeta.
  destruct (baseColors_range H0 H1) as (Hq0 & Hq1 & _).
  unfold etc2alpha.encodeFlip.
  destruct (etc2alpha.baseColors pixels flipBit) as [[[enc0 diff] q0] q1].
  cbn [fst snd] in *.
  pose proof (searchTables_good T pixels isTransparent flipBit q0 q1 Hq0 Hq1)
    as Hm.
  set (b := etc2alpha.searchTables T pixels isTransparent flipBit q0 q1) in *.
  pose proof (marks_entries _ _ _
                (fun x y l m (H : markAll pixels isTransparent x y l m) =>
                   conj (proj1 (proj1 H)) (proj1 (proj2 (proj1 H)))) Hm) as Hent.
  destruct (putBest_bits (etc2alpha.header enc0 diff isTransparent) b Hent) as (Hidx & _).
  { intros k Hk. rewrite header_low by lia.
    destruct (Z.eqb_spec k 33); [lia | reflexivity]. }
  destruct (Hidx (4 * x + y) ltac:(lia)) as [-> ->].
  destruct Hm as (_ & _ & Hm). destruct (Hm x y Hx Hy) as (_ & Hall).
  destruct (Hall Htr) as [-> ->]. reflexivity.
Qed.

End Flip.

Lemma flipCode_testbit (code k : Z) :
  0 <= k < 64 -> k <> 32 ->
  Z.testbit (Z.lor code (etc2.shl64 1 32)) k = Z.testbit code k.
Proof.
  intros Hk Hne. rewrite Z.lor_spec, testbit_shl64, testbit_1 by lia.
  destruct (Z.eqb_spec (k - 32) 0); [lia | apply orb_false_r].
Qed.

(** X21. The codeword of [encodeRGBWithAlpha] has its bit 33 (the opaque
    bit of the 1-bit-alpha format) set exactly when [isTransparent] is
    false; and when [isTransparent] is true, no pixel whose alpha is at
    least 0x80 has the index 2, the one that a decoder reads as
    transparent. The pixel (x, y) has the high bit of its index at
    4x + y + 16 and the low bit at 4x + y. *)
Theorem encodeRGBWithAlpha_opaque_pixels (T : etc2.Tables) (pixels : list byte)
    (isTransparent : bool) (x y : Z) :
  0 <= x < 4 -> 0 <= y < 4 ->
  let code := etc2alpha.encodeRGBWithAlpha T pixels isTransparent in
  Z.testbit code 33 = negb isTransparent
  /\ (isTransparent = true -> (at8 pixels (4 * (4 * y + x) + 3) <? 0x80) = false ->
      Z.testbit code (4 * x + y + 16) && negb (Z.testbit code (4 * x + y)) = false).
Proof.
  intros Hx Hy. cbv zeta. unfold etc2alpha.encodeRGBWithAlpha.
  pose proof (encodeFlip_opaque T pixels isTransparent 0 x y Hx Hy) as H0.
  pose proof (encodeFlip_opaque T pixels isTransparent 1 x y Hx Hy) as H1.
  cbv zeta in H0, H1.
  destruct (etc2alpha.encodeFlip T pixels isTransparent 0) as [normCode normErr].
  destruct (etc2alpha.encodeFlip T pixels isTransparent 1) as [code flipErr].
  cbn [fst] in H0, H1.
  destruct (normErr <=? flipErr); [exact H0|].
  rewrite !flipCode_testbit by lia. exact H1.
Qed.

Lemma encodeRGBWithAlpha_opaque_pixels_witness :
  let code := etc2alpha.encodeRGBWithAlpha etc2.publishedTables sampleRGBA1Block true in
  Z.testbit code 33 = negb true
  /\ (true = true -> (at8 sampleRGBA1Block (4 * (4 * 2 + 1) + 3) <? 0x80) = false ->
      Z.testbit code (4 * 1 + 2 + 16) && negb (Z.testbit code (4 * 1 + 2)) = false).
Proof.
  apply (encodeRGBWithAlpha_opaque_pixels etc2.publishedTables sampleRGBA1Block true 1 2);
    lia.
Defined.

(** X22. When the quantized averages of the two halves are 8-bit colors,
    for both orientations, every pixel whose alpha is below 0x80 has the
    index 2 in the codeword of [encodeRGBWithAlpha] (the high bit of its
    index set, the low bit clear), whether or not [isTransparent] holds. *)
Theorem encodeRGBWithAlpha_transparent_pixels (T : etc2.Tables) (pixels : list byte)
    (isTransparent : bool) (x y : Z) :
  basesInRange pixels ->
  0 <= x < 4 -> 0 <= y < 4 ->
  (at8 pixels (4 * (4 * y + x) + 3) <? 0x80) = true ->
  let code := etc2alpha.encodeRGBWithAlpha T pixels isTransparent in
  Z.testbit code (4 * x + y + 16) && negb (Z.testbit code (4 * x + y)) = true.
Proof.
  intros Hb Hx Hy Htr. cbv zeta. unfold etc2alpha.encodeRGBWithAlpha.
  destruct (Hb 0 (or_introl eq_refl)) as [H00 H01].
  destruct (Hb 1 (or_intror eq_refl)) as [H10 H11].
  pose proof (encodeFlip_transparent T pixels isTransparent 0
                x y H00 H01 Hx Hy Htr) as H0.
  pose proof (encodeFlip_transparent T pixels isTransparent 1
                x y H10 H11 Hx Hy Htr) as H1.
  cbv zeta in H0, H1.
  destruct (etc2alpha.encodeFlip T pixels isTransparent 0) as [normCode normErr].
  destruct (etc2alpha.encodeFlip T pixels isTransparent 1) as [code flipErr].
  cbn [fst] in H0, H1.
  destruct (normErr <=? flipErr); [exact H0|].
  rewrite !flipCode_testbit by lia. exact H1.
Qed.

Lemma sampleRGBA1Block_bases : basesInRange sampleRGBA1Block.
Proof.
  intros flipBit [-> | ->]; vm_compute; intuition discriminate.
Qed.

Lemma encodeRGBWithAlpha_transparent_pixels_witness :
  let code := etc2alpha.encodeRGBWithAlpha etc2.publishedTables sampleRGBA1Block true in
  Z.testbit code (4 * 2 + 0 + 16) && negb (Z.testbit code (4 * 2 + 0)) = true.
Proof.
  apply (encodeRGBWithAlpha_transparent_pixels etc2.publishedTables sampleRGBA1Block
           true 2 0 sampleRGBA1Block_bases); [lia | lia | reflexivity].
Defined.

(* ----------------------------------------------------------------- *)
(** ** encodeRGBWithAlpha: the diff channels *)

Lemma channelByte_ext (a b lo : Z) :
  0 <= lo -> (forall k, lo <= k < lo + 8 -> Z.testbit a k = Z.testbit b k) ->
  codeword.channelByte a lo = codeword.channelByte b lo.
Proof.
  intros Hlo H. unfold codeword.channelByte. apply Z.bits_inj'. intros n Hn.
  rewrite !Z.land_spec, !Z.shiftr_spec by exact Hn.
  destruct (Z.lt_ge_cases n 8).
  - rewrite H by lia. reflexivity.
  - rewrite (testbit_above 0xFF 8 n) by (cbn; lia). rewrite !andb_false_r. reflexivity.
Qed.

Lemma searchTables_tables (T : etc2.Tables) (pixels : list byte) (isTransparent : bool)
    (flipBit : Z) (q0 q1 : etc2.RGB) :
  0 <= etc2alpha.bestTable0
         (etc2alpha.searchTables T pixels isTransparent flipBit q0 q1) < 8
  /\ 0 <= etc2alpha.bestTable1
            (etc2alpha.searchTables T pixels isTransparent flipBit q0 q1) < 8.
Proof.
  unfold etc2alpha.searchTables.
  apply (fold_left_inv
           (fun b => 0 <= etc2alpha.bestTable0 b < 8 /\ 0 <= etc2alpha.bestTable1 b < 8)).
  - cbn. lia.
  - intros b table Hin Hb. apply In_range in Hin. unfold etc2alpha.tableStep. cbv zeta.
    apply (fold_left_inv
             (fun b => 0 <= etc2alpha.bestTable0 b < 8 /\ 0 <= etc2alpha.bestTable1 b < 8));
      [exact Hb|].
    intros b' half _ Hb'. unfold etc2alpha.halfStep.
    destruct (etc2alpha.tablePass _) as [[[t0 t1] lsb] msb].
    destruct (_ >=? _); [exact Hb'|].
    cbn [etc2alpha.bestTable0 etc2alpha.bestTable1].
    rewrite int32_small by lia.
    destruct (half =? 0); lia.
Qed.

(** The tables and the index bits stay below the diff channels. *)
Lemma putBest_high (code : Z) (b : etc2alpha.best) (k : Z) :
  (forall i, 0 <= i < 16 ->
     0 <= etc2.ix (etc2alpha.bestIndexesLSB b) i < 2
     /\ 0 <= etc2.ix (etc2alpha.bestIndexesMSB b) i < 2) ->
  0 <= etc2alpha.bestTable0 b < 8 -> 0 <= etc2alpha.bestTable1 b < 8 ->
  40 <= k < 64 ->
  Z.testbit (etc2alpha.putBest code b) k = Z.testbit code k.
Proof.
  intros Hb Ht0 Ht1 Hk. rewrite putBest_testbit by (try exact Hb; lia).
  rewrite (testbit_above (etc2alpha.bestTable0 b) 3) by (change (2 ^ 3) with 8; lia).
  rewrite (testbit_above (etc2alpha.bestTable1 b) 3) by (change (2 ^ 3) with 8; lia).
  rewrite existsb_none; [rewrite !orb_false_r; reflexivity|].
  intros j Hj. apply In_range in Hj. change (Z.of_nat 16) with 16 in Hj.
  destruct (Z.eqb_spec k (j + 16)); [lia|]. destruct (Z.eqb_spec k j); [lia|].
  reflexivity.
Qed.

(** The 5-bit bases and the 3-bit differences of the header, when their
    sums are within [0, 31], overflow on no channel. *)
Lemma header_no_overflow (encColor0 diff : etc2.RGB) (isTransparent : bool) :
  (0 <= fst (fst encColor0) < 32 /\ -4 <= fst (fst diff) <= 3
   /\ 0 <= fst (fst encColor0) + fst (fst diff) < 32) ->
  (0 <= snd (fst encColor0) < 32 /\ -4 <= snd (fst diff) <= 3
   /\ 0 <= snd (fst encColor0) + snd (fst diff) < 32) ->
  (0 <= snd encColor0 < 32 /\ -4 <= snd diff <= 3
   /\ 0 <= snd encColor0 + snd diff < 32) ->
  codeword.noOverflow (etc2alpha.header encColor0 diff isTransparent) = true.
Proof.
  destruct encColor0 as [[e0 e1] e2]. destruct diff as [[d0 d1] d2]. cbn [fst snd].
  intros (He0 & Hd0 & Hs0) (He1 & Hd1 & Hs1) (He2 & Hd2 & Hs2).
  assert (Hl0 := land_range_r d0 7 3 ltac:(lia) ltac:(cbn; lia)).
  assert (Hl1 := land_range_r d1 7 3 ltac:(lia) ltac:(cbn; lia)).
  assert (Hl2 := land_range_r d2 7 3 ltac:(lia) ltac:(cbn; lia)).
  change (2 ^ 3) with 8 in *.
  unfold codeword.noOverflow, codeword.overflows, codeword.red, codeword.green,
    codeword.blue, etc2alpha.header. cbv zeta.
  assert (R : codeword.overflows8
                (codeword.channelByte
                   (if negb isTransparent
                    then Z.lor
                           (Z.lor (Z.lor (Z.lor (Z.lor (Z.lor (Z.lor 0
                              (etc2.shl64 e0 59)) (etc2.shl64 (Z.land d0 7) 56))
                              (etc2.shl64 e1 51)) (etc2.shl64 (Z.land d1 7) 48))
                              (etc2.shl64 e2 43)) (etc2.shl64 (Z.land d2 7) 40))
                           (etc2.shl64 1 33)
                    else
                      Z.lor (Z.lor (Z.lor (Z.lor (Z.lor (Z.lor 0
                        (etc2.shl64 e0 59)) (etc2.shl64 (Z.land d0 7) 56))
                        (etc2.shl64 e1 51)) (etc2.shl64 (Z.land d1 7) 48))
                        (etc2.shl64 e2 43)) (etc2.shl64 (Z.land d2 7) 40)) 56) = false).
  { apply (no_overflow _ e0 d0); [|exact Hs0].
    destruct isTransparent; cbn [negb]; drop_fields;
      apply (diff_channel_red e0 d0); assumption. }
  assert (G : codeword.overflows8
                (codeword.channelByte
                   (if negb isTransparent
                    then Z.lor
                           (Z.lor (Z.lor (Z.lor (Z.lor (Z.lor (Z.lor 0
                              (etc2.shl64 e0 59)) (etc2.shl64 (Z.land d0 7) 56))
                              (etc2.shl64 e1 51)) (etc2.shl64 (Z.land d1 7) 48))
                              (etc2.shl64 e2 43)) (etc2.shl64 (Z.land d2 7) 40))
                           (etc2.shl64 1 33)
                    else
                      Z.lor (Z.lor (Z.lor (Z.lor (Z.lor (Z.lor 0
                        (etc2.shl64 e0 59)) (etc2.shl64 (Z.land d0 7) 56))
                        (etc2.shl64 e1 51)) (etc2.shl64 (Z.land d1 7) 48))
                        (etc2.shl64 e2 43)) (etc2.shl64 (Z.land d2 7) 40)) 48) = false).
  { apply (no_overflow _ e1 d1); [|exact Hs1].
    destruct isTransparent; cbn [negb]; drop_fields;
      apply (diff_channel_green e1 d1); assumption. }
  assert (B : codeword.overflows8
                (codeword.channelByte
                   (if negb isTransparent
                    then Z.lor
                           (Z.lor (Z.lor (Z.lor (Z.lor (Z.lor (Z.lor 0
                              (etc2.shl64 e0 59)) (etc2.shl64 (Z.land d0 7) 56))
                              (etc2.shl64 e1 51)) (etc2.shl64 (Z.land d1 7) 48))
                              (etc2.shl64 e2 43)) (etc2.shl64 (Z.land d2 7) 40))
                           (etc2.shl64 1 33)
                    else
                      Z.lor (Z.lor (Z.lor (Z.lor (Z.lor (Z.lor 0
                        (etc2.shl64 e0 59)) (etc2.shl64 (Z.land d0 7) 56))
                        (etc2.shl64 e1 51)) (etc2.shl64 (Z.land d1 7) 48))
                        (etc2.shl64 e2 43)) (etc2.shl64 (Z.land d2 7) 40)) 40) = false).
  { apply (no_overflow _ e2 d2); [|exact Hs2].
    destruct isTransparent; cbn [negb]; drop_fields;
      apply (diff_channel_blue e2 d2); assumption. }
  rewrite R, G, B. reflexivity.
Qed.

Lemma noOverflow_ext (a b : Z) :
  (forall k, 40 <= k < 64 -> Z.testbit a k = Z.testbit b k) ->
  codeword.noOverflow a = codeword.noOverflow b.
Proof.
  intros H. unfold codeword.noOverflow, codeword.overflows,
    codeword.red, codeword.green, codeword.blue.
  rewrite (channelByte_ext a b 56), (channelByte_ext a b 48), (channelByte_ext a b 40);
    try lia; try reflexivity; intros k Hk; apply H; lia.
Qed.

Lemma encodeFlip_no_overflow (T : etc2.Tables) (pixels : list byte)
    (isTransparent : bool) (flipBit : Z) :
  rgb8 (etc2.reduceQuantize (fst (etc2alpha.avgColors pixels flipBit)) true) ->
  rgb8 (etc2.reduceQuantize (snd (etc2alpha.avgColors pixels flipBit)) true) ->
  codeword.noOverflow (fst (etc2alpha.encodeFlip T pixels isTransparent flipBit)) = true.
Proof.
  intros H0 H1.
  destruct (baseColors_range pixels flipBit H0 H1) as (_ & _ & Hr & Hg & Hb).
  cbv zeta in Hr, Hg, Hb.
  unfold etc2alpha.encodeFlip.
  destruct (etc2alpha.baseColors pixels flipBit) as [[[enc0 diff] q0] q1].
  cbn [fst snd] in *.
  pose proof (searchTables_marks T pixels isTransparent flipBit q0 q1) as Hm.
  pose proof (searchTables_tables T pixels isTransparent flipBit q0 q1) as [Ht0 Ht1].
  set (b := etc2alpha.searchTables T pixels isTransparent flipBit q0 q1) in *.
  pose proof (marks_entries _ _ _
                (fun x y l m (H : markOpaque pixels isTransparent x y l m) =>
                   conj (proj1 H) (proj1 (proj2 H))) Hm) as Hent.
  rewrite (noOverflow_ext _ (etc2alpha.header enc0 diff isTransparent))
    by (intros k Hk; apply putBest_high; assumption).
  apply header_no_overflow; assumption.
Qed.

(** X23. When the quantized averages of the two halves are 8-bit colors,
    for both orientations, the codeword of [encodeRGBWithAlpha] overflows
    on none of the three diff channels: a decoder reads it in the
    Differential layout and not as a T, H or Planar codeword. *)
Theorem encodeRGBWithAlpha_no_overflow (T : etc2.Tables) (pixels : list byte)
    (isTransparent : bool) :
  basesInRange pixels ->
  codeword.noOverflow (etc2alpha.encodeRGBWithAlpha T pixels isTransparent) = true.
Proof.
  intros Hb. unfold etc2alpha.encodeRGBWithAlpha.
  destruct (Hb 0 (or_introl eq_refl)) as [H00 H01].
  destruct (Hb 1 (or_intror eq_refl)) as [H10 H11].
  pose proof (encodeFlip_no_overflow T pixels isTransparent 0 H00 H01) as H0.
  pose proof (encodeFlip_no_overflow T pixels isTransparent 1 H10 H11) as H1.
  destruct (etc2alpha.encodeFlip T pixels isTransparent 0) as [normCode normErr].
  destruct (etc2alpha.encodeFlip T pixels isTransparent 1) as [code flipErr].
  cbn [fst] in H0, H1.
  destruct (normErr <=? flipErr); [exact H0|].
  rewrite (noOverflow_ext _ code); [exact H1|].
  intros k Hk. apply flipCode_testbit; lia.
Qed.

Lemma encodeRGBWithAlpha_no_overflow_witness :
  codeword.noOverflow
    (etc2alpha.encodeRGBWithAlpha etc2.publishedTables sampleRGBA1Block true) = true.
Proof.
  apply (encodeRGBWithAlpha_no_overflow etc2.publishedTables sampleRGBA1Block true).
  intros flipBit [-> | ->]; vm_compute; intuition discriminate.
Defined.

(* ----------------------------------------------------------------- *)
(** ** encodeRGBWithAlpha on a block without transparent pixels *)

(** The float64 sums of small integers are exact. *)
Lemma f64_one_times (p : Z) : 0 <= p < 256 -> (1 * etc2.f64 p)%float = etc2.f64 p.
Proof.
  intros Hp.
  assert (H : allBelow 256
                (fun p => PrimFloat.Leibniz.eqb (1 * etc2.f64 p)%float (etc2.f64 p)) = true)
    by (vm_compute; reflexivity).
  apply FloatAxioms.Leibniz.eqb_spec. exact (allBelow_spec _ _ H p Hp).
Qed.

Lemma f64_plus_one (n : Z) : 0 <= n < 16 -> (etc2.f64 n + 1)%float = etc2.f64 (n + 1).
Proof.
  intros Hn.
  assert (H : allBelow 16
                (fun n => PrimFloat.Leibniz.eqb (etc2.f64 n + 1)%float (etc2.f64 (n + 1)))
              = true)
    by (vm_compute; reflexivity).
  apply FloatAxioms.Leibniz.eqb_spec. exact (allBelow_spec _ _ H n Hn).
Qed.

Lemma f64_plus (a p : Z) :
  0 <= a < 3826 -> 0 <= p < 256 -> (etc2.f64 a + etc2.f64 p)%float = etc2.f64 (a + p).
Proof.
  intros Ha Hp.
  assert (H : allFrom 3826 0
                (fun a => allFrom 256 0
                   (fun p => PrimFloat.Leibniz.eqb (etc2.f64 a + etc2.f64 p)%float
                                                   (etc2.f64 (a + p)))) = true)
    by (vm_compute; reflexivity).
  apply FloatAxioms.Leibniz.eqb_spec.
  apply (allFrom_spec _ _ _ (allFrom_spec _ _ _ H a ltac:(lia)) p). lia.
Qed.

Lemma no_transparent_pixels (pixels : list byte) (i : Z) :
  etc2.hasTransparentPixelsWhenUsingOneBitAlpha pixels = false ->
  0 <= i < 16 -> (at8 pixels (4 * i + 3) <? 0x80) = false.
Proof.
  unfold etc2.hasTransparentPixelsWhenUsingOneBitAlpha. intros H Hi.
  destruct (at8 pixels (4 * i + 3) <? 0x80) eqn:E; [|reflexivity].
  assert (Hex : existsb (fun i => at8 pixels (4 * i + 3) <? 0x80) (range 16) = true)
    by (apply existsb_exists; exists i; split; [apply In_range; exact Hi | exact E]).
  rewrite H in Hex. discriminate.
Qed.

Section Opaque.

Variable pixels : list byte.
Hypothesis Hopaque : etc2.hasTransparentPixelsWhenUsingOneBitAlpha pixels = false.
Variable flipBit : Z.
Variable c : Z.

Lemma weightOf_opaque (i : Z) : 0 <= i < 16 -> etc2alpha.weightOf pixels i = 1%float.
Proof.
  intros Hi. unfold etc2alpha.weightOf. cbv zeta.
  pose proof (at8_range pixels (4 * i + 3)) as Hr.
  rewrite int32_small by lia.
  rewrite (no_transparent_pixels pixels i Hopaque Hi). reflexivity.
Qed.

Let inHalf (half : Z) (l : list (Z * Z)) : list (Z * Z) :=
  filter (fun xy : Z * Z => etc2alpha.halfOf flipBit (fst xy) (snd xy) =? half) l.

Lemma byteSum_range (l : list (Z * Z)) :
  0 <= byteSum pixels c l <= 255 * Z.of_nat (length l).
Proof.
  induction l as [|[x y] l IH]; [cbn; lia|].
  cbn [byteSum fold_right length fst snd]. fold (byteSum pixels c l).
  pose proof (at8_range pixels (4 * (4 * y + x) + c)). lia.
Qed.

(** The weights of a half add up to the number of its pixels and the
    colors to the sum of its bytes. *)
Lemma sumChannel_fold (l : list (Z * Z)) (n0 n1 s0 s1 : Z) :
  (forall xy, In xy l -> 0 <= fst xy < 4 /\ 0 <= snd xy < 4) ->
  0 <= n0 -> 0 <= n1 -> n0 + n1 + Z.of_nat (length l) <= 16 ->
  0 <= s0 <= 255 * n0 -> 0 <= s1 <= 255 * n1 ->
  fold_left
    (fun (st : (float * float) * (float * float)) (xy : Z * Z) =>
       let '((tw0, tw1), (a0, a1)) := st in
       let '(x, y) := xy in
       let i := 4 * y + x in
       let weight := etc2alpha.weightOf pixels i in
       let j := etc2alpha.halfOf flipBit x y in
       let v := (weight * etc2.f64 (at8 pixels (4 * i + c)))%float in
       if j =? 0
       then (((tw0 + weight)%float, tw1), ((a0 + v)%float, a1))
       else ((tw0, (tw1 + weight)%float), (a0, (a1 + v)%float)))
    l ((etc2.f64 n0, etc2.f64 n1), (etc2.f64 s0, etc2.f64 s1))
  = ((etc2.f64 (n0 + Z.of_nat (length (inHalf 0 l))),
      etc2.f64 (n1 + Z.of_nat (length (inHalf 1 l)))),
     (etc2.f64 (s0 + byteSum pixels c (inHalf 0 l)),
      etc2.f64 (s1 + byteSum pixels c (inHalf 1 l)))).
Proof.
  revert n0 n1 s0 s1. induction l as [|[x y] l IH];
    intros n0 n1 s0 s1 Hl Hn0 Hn1 Hlen Hs0 Hs1.
  - cbn [fold_left inHalf filter length byteSum fold_right].
    change (Z.of_nat 0) with 0. rewrite !Z.add_0_r. reflexivity.
  - cbn [fold_left]. cbn [length] in Hlen.
    destruct (Hl (x, y) (or_introl eq_refl)) as [Hx Hy]. cbn [fst snd] in Hx, Hy.
    rewrite (weightOf_opaque (4 * y + x)) by lia.
    pose proof (at8_range pixels (4 * (4 * y + x) + c)) as Hp.
    rewrite f64_one_times by exact Hp.
    assert (Hl' : forall xy, In xy l -> 0 <= fst xy < 4 /\ 0 <= snd xy < 4)
      by (intros xy Hxy; apply Hl; right; exact Hxy).
    destruct (halfOf_cases flipBit x y Hx Hy) as [E|E]; rewrite E.
    + change (0 =? 0) with true. cbv iota.
      rewrite f64_plus_one by lia. rewrite f64_plus by lia.
      etransitivity;
        [apply (IH (n0 + 1) n1 (s0 + at8 pixels (4 * (4 * y + x) + c)) s1 Hl'); lia|].
      unfold inHalf. cbn [filter fst snd]. rewrite E.
      change (0 =? 0) with true. change (0 =? 1) with false. cbv iota.
      cbn [length byteSum fold_right fst snd].
      rewrite Nat2Z.inj_succ.
      apply (f_equal2 pair); apply (f_equal2 pair); apply (f_equal etc2.f64);
        unfold byteSum; lia.
    + change (1 =? 0) with false. cbv iota.
      rewrite f64_plus_one by lia. rewrite f64_plus by lia.
      etransitivity;
        [apply (IH n0 (n1 + 1) s0 (s1 + at8 pixels (4 * (4 * y + x) + c)) Hl'); lia|].
      unfold inHalf. cbn [filter fst snd]. rewrite E.
      change (1 =? 0) with false. change (1 =? 1) with true. cbv iota.
      cbn [length byteSum fold_right fst snd].
      rewrite Nat2Z.inj_succ.
      apply (f_equal2 pair); apply (f_equal2 pair); apply (f_equal etc2.f64);
        unfold byteSum; lia.
Qed.

Hypothesis HflipBit : flipBit = 0 \/ flipBit = 1.

Lemma halfPixels_length (half : Z) :
  half = 0 \/ half = 1 -> length (halfPixels flipBit half) = 8%nat.
Proof.
  intros [-> | ->]; destruct HflipBit as [-> | ->]; reflexivity.
Qed.

(** The averages of the two halves are the means of their eight bytes. *)
Lemma avgChannel_opaque :
  etc2alpha.avgChannel pixels flipBit c
  = (meanOf (halfSum pixels flipBit c 0), meanOf (halfSum pixels flipBit c 1)).
Proof.
  unfold etc2alpha.avgChannel, etc2alpha.sumChannel.
  pose proof (sumChannel_fold etc2.xyOrder 0 0 0 0
                (fun xy H => xyOrder_In xy H)
                ltac:(lia) ltac:(lia) ltac:(cbn; lia) ltac:(lia) ltac:(lia)) as E.
  cbv zeta in E. change (etc2.f64 0) with 0%float in E. rewrite E.
  change (inHalf 0 etc2.xyOrder) with (halfPixels flipBit 0).
  change (inHalf 1 etc2.xyOrder) with (halfPixels flipBit 1).
  rewrite !halfPixels_length by tauto.
  change (byteSum pixels c (halfPixels flipBit 0)) with (halfSum pixels flipBit c 0).
  change (byteSum pixels c (halfPixels flipBit 1)) with (halfSum pixels flipBit c 1).
  rewrite !Z.add_0_l. reflexivity.
Qed.

Lemma halfSum_range (half : Z) :
  half = 0 \/ half = 1 -> 0 <= halfSum pixels flipBit c half < 2041.
Proof.
  intros Hh. unfold halfSum.
  pose proof (byteSum_range (halfPixels flipBit half)) as H.
  rewrite (halfPixels_length half Hh) in H. lia.
Qed.

End Opaque.

(** On a block without transparent pixels the quantized averages are
    8-bit colors. *)
Lemma opaque_bases (pixels : list byte) :
  etc2.hasTransparentPixelsWhenUsingOneBitAlpha pixels = false ->
  basesInRange pixels.
Proof.
  intros Hop flipBit Hf. unfold etc2alpha.avgColors. cbv zeta.
  rewrite !(avgChannel_opaque pixels Hop flipBit _ Hf).
  cbn [fst snd].
  split; apply reduceQuantize_inRange; apply halfSum_range; tauto.
Qed.

(** X24. For a block in which no pixel is below the alpha threshold, the
    weighted averages of [encodeRGBWithAlpha] are the exact means of the
    eight bytes of each half: for either orientation each half has eight
    pixels, and the average of a channel is the float64 of the sum of
    their bytes, divided by 8. The codeword then overflows on none of the
    three diff channels, with either value of [isTransparent]: a decoder
    reads it in the Differential layout. *)
Theorem encodeRGBWithAlpha_opaque_block (T : etc2.Tables) (pixels : list byte)
    (isTransparent : bool) :
  etc2.hasTransparentPixelsWhenUsingOneBitAlpha pixels = false ->
  (forall flipBit c, flipBit = 0 \/ flipBit = 1 ->
     length (halfPixels flipBit 0) = 8%nat
     /\ length (halfPixels flipBit 1) = 8%nat
     /\ etc2alpha.avgChannel pixels flipBit c
        = ((etc2.f64 (halfSum pixels flipBit c 0) / 8)%float,
           (etc2.f64 (halfSum pixels flipBit c 1) / 8)%float))
  /\ codeword.noOverflow (etc2alpha.encodeRGBWithAlpha T pixels isTransparent) = true.
Proof.
  intros Hop. split.
  - intros flipBit c Hf.
    split; [apply halfPixels_length; tauto|].
    split; [apply halfPixels_length; tauto|].
    exact (avgChannel_opaque pixels Hop flipBit c Hf).
  - pose proof (opaque_bases pixels Hop) as Hb.
    unfold etc2alpha.encodeRGBWithAlpha.
    destruct (Hb 0 (or_introl eq_refl)) as [H00 H01].
    destruct (Hb 1 (or_intror eq_refl)) as [H10 H11].
    pose proof (encodeFlip_no_overflow T pixels isTransparent 0 H00 H01) as H0.
    pose proof (encodeFlip_no_overflow T pixels isTransparent 1 H10 H11) as H1.
    destruct (etc2alpha.encodeFlip T pixels isTransparent 0) as [normCode normErr].
    destruct (etc2alpha.encodeFlip T pixels isTransparent 1) as [code flipErr].
    cbn [fst] in H0, H1.
    destruct (normErr <=? flipErr); [exact H0|].
    rewrite (noOverflow_ext _ code); [exact H1|].
    intros k Hk. apply flipCode_testbit; lia.
Qed.

Lemma encodeRGBWithAlpha_opaque_block_witness :
  (forall flipBit c, flipBit = 0 \/ flipBit = 1 ->
     length (halfPixels flipBit 0) = 8%nat
     /\ length (halfPixels flipBit 1) = 8%nat
     /\ etc2alpha.avgChannel sampleETC1SBlock flipBit c
        = ((etc2.f64 (halfSum sampleETC1SBlock flipBit c 0) / 8)%float,
           (etc2.f64 (halfSum sampleETC1SBlock flipBit c 1) / 8)%float))
  /\ codeword.noOverflow
       (etc2alpha.encodeRGBWithAlpha etc2.publishedTables sampleETC1SBlock false) = true.
Proof.
  apply (encodeRGBWithAlpha_opaque_block etc2.publishedTables sampleETC1SBlock false).
  vm_compute. reflexivity.
Defined.

(* ----------------------------------------------------------------- *)
(** ** The driver with encodeRGBWithAlpha, on a block with transparent pixels *)

Lemma encodeT_alpha_bit33 (T : etc2.Tables)
    (clusterfy : list byte -> float -> (byte * byte * byte) * (byte * byte * byte))
    (pixels : list byte) (goHarder : bool) :
  Z.testbit (etc2.encodeT T clusterfy pixels true goHarder) 33 = false.
Proof.
  unfold etc2.encodeT.
  destruct (searchClusters_cases clusterfy pixels goHarder etc2.convert8BitTo4Bit
              (fun c => etc2.calculateError59T T pixels c true))
    as [x ->].
  apply packT_bit33. apply calculateError59T_indexes.
Qed.

Lemma encodeH_alpha_bit33 (T : etc2.Tables)
    (clusterfy : list byte -> float -> (byte * byte * byte) * (byte * byte * byte))
    (pixels : list byte) (goHarder : bool) :
  Z.testbit (etc2.encodeH T clusterfy pixels true goHarder) 33 = false.
Proof.
  unfold etc2.encodeH.
  destruct (searchClusters_cases clusterfy pixels goHarder
              (fun c => etc2.sort4BitColors (etc2.convert8BitTo4Bit c))
              (fun c => etc2.calculateError58H T pixels c true))
    as [x ->].
  set (c := etc2.sort4BitColors (etc2.convert8BitTo4Bit (etc2.cluster8 (clusterfy pixels x)))).
  assert (Hc : cluster4 c)
    by (apply sort4BitColors_range; apply convert8BitTo4Bit_range).
  pose proof (calculateError58H_indexes T pixels c true) as Hrange.
  destruct (etc2.calculateError58H T pixels c true) as [[[sw w] idx] loss].
  cbn [fst snd] in *.
  assert (Hc' : cluster4 (if sw >? 0 then etc2.swapCluster c else c))
    by (destruct (sw >? 0); [apply swapCluster_range|]; exact Hc).
  pose proof (sort4BitColorsWithPixelIndexes_range _ w idx Hc' Hrange) as [_ Hr'].
  destruct (etc2.sort4BitColorsWithPixelIndexes _ w idx) as [c' idx'].
  cbn [snd] in Hr'. apply packH_bit33. exact Hr'.
Qed.

Lemma encodeRGBWithAlpha_bit33 (T : etc2.Tables) (pixels : list byte)
    (isTransparent : bool) :
  Z.testbit (etc2alpha.encodeRGBWithAlpha T pixels isTransparent) 33 = negb isTransparent.
Proof.
  unfold etc2alpha.encodeRGBWithAlpha.
  pose proof (encodeFlip_opaque T pixels isTransparent 0 0 0 ltac:(lia) ltac:(lia)) as [H0 _].
  pose proof (encodeFlip_opaque T pixels isTransparent 1 0 0 ltac:(lia) ltac:(lia)) as [H1 _].
  destruct (etc2alpha.encodeFlip T pixels isTransparent 0) as [normCode normErr].
  destruct (etc2alpha.encodeFlip T pixels isTransparent 1) as [code flipErr].
  cbn [fst] in H0, H1.
  destruct (normErr <=? flipErr); [exact H0|].
  rewrite flipCode_testbit by lia. exact H1.
Qed.

Lemma searchInv_best (P : etc2.candidate -> Prop) (s : etc2.search) :
  searchInv P s -> exists c, P c /\ etc2.candCode c = etc2.bestCode s.
Proof.
  intros ((c & Hin & Hc & _) & Hall & _).
  exists c. split; [|exact Hc].
  rewrite Forall_forall in Hall. apply Hall. exact Hin.
Qed.

(** X25. In the format FormatETC2RGBA1, when a pixel of the block has an
    alpha below 0x80, the codeword that [encodeColor] picks (with the
    [encodeRGBWithAlpha] above as its first sub-encoder) has its bit 33,
    the opaque bit, clear: only the three candidates with transparent
    pixels are tried. *)
Theorem encodeColor_RGBA1_transparent_block (T : etc2.Tables)
    (decodeColor : Z -> bool -> list byte)
    (clusterfy : list byte -> float -> (byte * byte * byte) * (byte * byte * byte))
    (pixels : list byte) :
  etc2.hasTransparentPixelsWhenUsingOneBitAlpha pixels = true ->
  Z.testbit (etc2.encodeColor T decodeColor clusterfy (etc2alpha.encodeRGBWithAlpha T)
               pixels etc2.FormatETC2RGBA1) 33 = false.
Proof.
  intros Htr.
  set (P := fun c : etc2.candidate => Z.testbit (etc2.candCode c) 33 = false).
  assert (Hs : searchInv P
                 (etc2.encodeColorSearch T decodeColor clusterfy
                    (etc2alpha.encodeRGBWithAlpha T) pixels etc2.FormatETC2RGBA1)).
  { unfold etc2.encodeColorSearch. cbv zeta.
    change (etc2.FormatETC2RGBA1 =? etc2.FormatETC2RGBA1) with true. cbv iota.
    pose proof (firstTry_inv decodeColor pixels true P
                  (etc2alpha.encodeRGBWithAlpha T pixels true) true
                  (encodeRGBWithAlpha_bit33 T pixels true)) as H0.
    pose proof (nextTry_inv decodeColor pixels true P _
                  (etc2.encodeT T clusterfy pixels true false) true H0
                  (encodeT_alpha_bit33 T clusterfy pixels false)) as H1.
    destruct (etc2.nextTry decodeColor pixels true _ _ true) as [s1 w1]. cbn [fst] in H1.
    pose proof (nextTry_inv decodeColor pixels true P _
                  (etc2.encodeH T clusterfy pixels true false) true H1
                  (encodeH_alpha_bit33 T clusterfy pixels false)) as H2.
    destruct (etc2.nextTry decodeColor pixels true s1 _ true) as [s2 w2]. cbn [fst] in H2.
    rewrite Htr. exact H2. }
  destruct (searchInv_best P _ Hs) as (c & Hc & E).
  unfold etc2.encodeColor. rewrite <- E. exact Hc.
Qed.

Lemma encodeColor_RGBA1_transparent_block_witness :
  Z.testbit (etc2.encodeColor etc2.publishedTables etc2.sampleDecodeColor
               etc2.sampleClusterfy (etc2alpha.encodeRGBWithAlpha etc2.publishedTables)
               sampleRGBA1Block etc2.FormatETC2RGBA1) 33 = false.
Proof.
  apply (encodeColor_RGBA1_transparent_block etc2.publishedTables etc2.sampleDecodeColor
           etc2.sampleClusterfy sampleRGBA1Block).
  vm_compute. reflexivity.
Defined.

(* ----------------------------------------------------------------- *)
(** ** The alpha codeword of a block of one alpha *)

Lemma land_1023_small (v : Z) : 0 <= v < 1024 -> Z.land 1023 v = v.
Proof.
  intros Hv. rewrite Z.land_comm. change 1023 with (Z.ones 10).
  rewrite Z.land_ones by lia. apply Z.mod_small. lia.
Qed.

Lemma fromToBy_In (lo hi step k : Z) :
  0 < step -> 0 <= k -> lo + step * k <= hi ->
  In (lo + step * k) (etc2.fromToBy lo hi step).
Proof.
  intros Hstep Hk Hle. unfold etc2.fromToBy.
  destruct (Z.leb_spec lo hi) as [_|Hlt]; [|nia].
  apply in_map_iff. exists k. split; [reflexivity|]. apply In_range.
  assert (Hq : k <= (hi - lo) / step) by (apply Z.div_le_lower_bound; lia).
  rewrite Z2Nat.id by lia. lia.
Qed.

Lemma In_fromToBy_step (lo hi step v : Z) :
  In v (etc2.fromToBy lo hi step) -> exists k, 0 <= k /\ v = lo + step * k.
Proof.
  unfold etc2.fromToBy. destruct (lo <=? hi); [|intros []].
  rewrite in_map_iff. intros (k & <- & Hk). apply In_range in Hk.
  exists k. split; [lia | reflexivity].
Qed.

Lemma fold_left_cons {A B : Type} (f : A -> B -> A) (x : B) (l : list B) (s : A) :
  fold_left f (x :: l) s = fold_left f l (f s x).
Proof. reflexivity. Qed.

Section ConstantAlpha.

Variable T : etc2.Tables.
Variable px : list byte.
Variable a : Z.
Hypothesis Ha : 0 <= a < 256.
Hypothesis Hpx : forall i, 0 <= i < 16 -> etc2.alphaOf px i = a.

(** With the table 0 the multiplier is 0 and every index stands for the
    base alpha itself. *)
Lemma adjustAlpha_table0 (v index : Z) :
  0 <= v < 256 -> etc2.adjustAlpha T v 0 index = v.
Proof.
  intros Hv. unfold etc2.adjustAlpha. cbv zeta.
  change (int32 (Z.shiftr 0 4)) with 0.
  rewrite Z.mul_0_l. change (int32 0) with 0. rewrite Z.add_0_r.
  rewrite (int32_small v) by lia. rewrite land_1023_small by lia.
  unfold etc2.clamp. destruct (Z.ltb_spec v 256); [|lia]. apply int32_small. lia.
Qed.

Lemma alpha_d2_table0 (v index : Z) :
  0 <= v < 256 ->
  int32 (int32 (etc2.adjustAlpha T v 0 index - a)
         * int32 (etc2.adjustAlpha T v 0 index - a)) = (v - a) ^ 2.
Proof.
  intros Hv. rewrite adjustAlpha_table0 by lia.
  rewrite (int32_small (v - a)) by lia. rewrite int32_small by nia.
  rewrite Z.pow_2_r. reflexivity.
Qed.

Lemma alphaBestDiff_table0 (v : Z) :
  0 <= v < 256 -> etc2.alphaBestDiff T v 0 a = (v - a) ^ 2.
Proof.
  intros Hv.
  assert (Hlt : (v - a) ^ 2 < etc2.maxInt32) by (unfold etc2.maxInt32; nia).
  assert (E1 : (etc2.maxInt32 >=? (v - a) ^ 2) = true) by (apply Z.geb_le; lia).
  assert (E2 : ((v - a) ^ 2 >=? (v - a) ^ 2) = true) by (apply Z.geb_le; lia).
  assert (E3 : (etc2.maxInt32 >? (v - a) ^ 2) = true) by (apply Z.gtb_lt; lia).
  assert (E4 : ((v - a) ^ 2 >? (v - a) ^ 2) = false)
    by (rewrite Z.gtb_ltb; apply Z.ltb_irrefl).
  unfold etc2.alphaBestDiff.
  destruct (a >? v); cbn [etc2.alphaWalk]; cbv zeta;
    rewrite !alpha_d2_table0 by lia.
  - rewrite E1, !E2. reflexivity.
  - rewrite E3, E4. reflexivity.
Qed.

(** The sum of a candidate alpha: sixteen times its squared distance,
    unless that exceeds the best sum so far. *)
Lemma alphaSumLoop_table0 (v bestSum : Z) (xys : list (Z * Z)) (sum : Z) :
  0 <= v < 256 ->
  Forall (fun xy => 0 <= 4 * snd xy + fst xy < 16) xys ->
  0 <= sum -> sum + 65025 * Z.of_nat (length xys) < 2 ^ 31 ->
  let r := etc2.alphaSumLoop T px v 0 bestSum xys sum in
  (sum + (v - a) ^ 2 * Z.of_nat (length xys) <= bestSum ->
   r = sum + (v - a) ^ 2 * Z.of_nat (length xys))
  /\ (bestSum < sum + (v - a) ^ 2 * Z.of_nat (length xys) -> bestSum < r).
Proof.
  intros Hv H. cbv zeta. revert sum.
  assert (Hd : 0 <= (v - a) ^ 2 <= 65025) by nia.
  induction H as [|[x y] xys Hxy _ IH]; intros sum Hs Hb.
  - cbn [etc2.alphaSumLoop length]. lia.
  - cbn [etc2.alphaSumLoop]. cbv zeta. cbn [fst snd] in Hxy.
    rewrite (Hpx _ Hxy), alphaBestDiff_table0 by lia.
    cbn [length] in *. rewrite int32_small by lia.
    destruct (Z.gtb_spec (sum + (v - a) ^ 2) bestSum) as [Hgt|Hle].
    + split; [nia | lia].
    + destruct (IH (sum + (v - a) ^ 2) ltac:(lia) ltac:(lia)) as [I1 I2].
      split; intros Hc.
      * rewrite I1 by lia. lia.
      * apply I2. lia.
Qed.

Lemma alphaTry_table0 (s : etc2.alphaSearch) (v : Z) :
  0 <= v < 256 -> etc2.tableBestSum s = etc2.bestSum s ->
  etc2.alphaTry T px 0 s v
  = if etc2.bestSum s >? 16 * (v - a) ^ 2
    then etc2.mkAlphaSearch (16 * (v - a) ^ 2) v (16 * (v - a) ^ 2) 0 v
    else s.
Proof.
  intros Hv Hb. unfold etc2.alphaTry. cbv zeta.
  destruct (alphaSumLoop_table0 v (etc2.bestSum s) etc2.xyOrder 0 Hv xyOrder_valid
              ltac:(lia) ltac:(vm_compute; reflexivity)) as [H1 H2].
  change (Z.of_nat (length etc2.xyOrder)) with 16 in H1, H2.
  rewrite Hb.
  destruct (Z.gtb_spec (etc2.bestSum s) (16 * (v - a) ^ 2)) as [Hgt|Hle].
  - rewrite H1 by lia. replace (0 + (v - a) ^ 2 * 16) with (16 * (v - a) ^ 2) by lia.
    destruct (Z.gtb_spec (etc2.bestSum s) (16 * (v - a) ^ 2)) as [_|]; [|lia].
    cbn [etc2.bestSum etc2.tableBestSum etc2.tableAlpha].
    destruct (Z.gtb_spec (etc2.bestSum s) (16 * (v - a) ^ 2)) as [_|]; [|lia].
    reflexivity.
  - destruct (Z.eq_dec (etc2.bestSum s) (16 * (v - a) ^ 2)) as [E|N].
    + rewrite H1 by lia.
      replace (0 + (v - a) ^ 2 * 16) with (16 * (v - a) ^ 2) by lia.
      destruct (Z.gtb_spec (etc2.bestSum s) (16 * (v - a) ^ 2)); [lia|].
      destruct (Z.gtb_spec (etc2.bestSum s) (16 * (v - a) ^ 2)); [lia|].
      reflexivity.
    + specialize (H2 ltac:(lia)).
      destruct (Z.gtb_spec (etc2.bestSum s)
                  (etc2.alphaSumLoop T px v 0 (etc2.bestSum s) etc2.xyOrder 0));
        [lia|].
      destruct (Z.gtb_spec (etc2.bestSum s)
                  (etc2.alphaSumLoop T px v 0 (etc2.bestSum s) etc2.xyOrder 0));
        [lia|].
      reflexivity.
Qed.

(** The state of the search in the table 0: the best of the table is the
    best of all, and once a candidate has been taken, the best sum is
    sixteen times the squared distance of the best alpha. *)
Let inv (s : etc2.alphaSearch) : Prop :=
  etc2.tableBestSum s = etc2.bestSum s /\ etc2.bestTable s = 0.

Let found (s : etc2.alphaSearch) : Prop :=
  etc2.bestAlpha s = etc2.tableAlpha s
  /\ etc2.bestSum s = 16 * (etc2.tableAlpha s - a) ^ 2
  /\ 0 <= etc2.tableAlpha s < 256.

Lemma alphaTry_found (s : etc2.alphaSearch) (v : Z) :
  0 <= v < 256 -> inv s -> found s \/ etc2.bestSum s = etc2.maxInt32 ->
  let s' := etc2.alphaTry T px 0 s v in
  inv s' /\ found s'
  /\ etc2.bestSum s' <= etc2.bestSum s
  /\ etc2.bestSum s' <= 16 * (v - a) ^ 2
  /\ (s' = s \/ etc2.tableAlpha s' = v).
Proof.
  intros Hv [Hi1 Hi2] Hf. cbv zeta. rewrite alphaTry_table0 by assumption.
  assert (Hd : 0 <= 16 * (v - a) ^ 2 < etc2.maxInt32) by (unfold etc2.maxInt32; nia).
  destruct (Z.gtb_spec (etc2.bestSum s) (16 * (v - a) ^ 2)) as [Hgt|Hle].
  - unfold inv, found.
    cbn [etc2.bestSum etc2.tableBestSum etc2.tableAlpha etc2.bestAlpha etc2.bestTable].
    repeat split; try lia; try (right; reflexivity).
  - destruct Hf as [Hf|Hf]; [|lia].
    split; [split; assumption|]. split; [exact Hf|].
    repeat split; try lia. left. reflexivity.
Qed.

Lemma alphaTries_found (l : list Z) (s : etc2.alphaSearch) :
  (forall v, In v l -> 0 <= v < 256) ->
  inv s -> found s \/ etc2.bestSum s = etc2.maxInt32 ->
  let s' := fold_left (etc2.alphaTry T px 0) l s in
  inv s'
  /\ (found s' \/ etc2.bestSum s' = etc2.maxInt32)
  /\ etc2.bestSum s' <= etc2.bestSum s
  /\ (forall v, In v l -> etc2.bestSum s' <= 16 * (v - a) ^ 2)
  /\ (s' = s \/ In (etc2.tableAlpha s') l).
Proof.
  cbv zeta. revert s. induction l as [|x l IH]; intros s Hl Hi Hf.
  - cbn [fold_left]. split; [exact Hi|]. split; [exact Hf|]. split; [lia|].
    split; [intros v [] | left; reflexivity].
  - cbn [fold_left].
    destruct (alphaTry_found s x (Hl x (or_introl eq_refl)) Hi Hf)
      as (Hi1 & Hf1 & Hle1 & Hx1 & Hs1).
    destruct (IH (etc2.alphaTry T px 0 s x)
                (fun v Hv => Hl v (or_intror Hv)) Hi1 (or_introl Hf1))
      as (Hi' & Hf' & Hle' & Hall' & Hs').
    split; [exact Hi'|]. split; [exact Hf'|]. split; [lia|]. split.
    + intros v [<-|Hv]; [lia | apply Hall'; exact Hv].
    + destruct Hs' as [E|Hin]; [|right; right; exact Hin].
      rewrite E. destruct Hs1 as [E1|E1]; [left; exact E1 | right; left; symmetry; exact E1].
Qed.

(** One scale of the search in the table 0. *)
Lemma alphaScaleStep_table0 (s : etc2.alphaSearch) (lo hi scale : Z) :
  0 < scale ->
  etc2.alphaScaleStep T px 0 s scale
  = fold_left (etc2.alphaTry T px 0) (etc2.fromToBy lo hi scale) s ->
  0 <= lo -> hi < 256 ->
  inv s -> found s \/ etc2.bestSum s = etc2.maxInt32 ->
  let s' := etc2.alphaScaleStep T px 0 s scale in
  inv s'
  /\ (found s' \/ etc2.bestSum s' = etc2.maxInt32)
  /\ etc2.bestSum s' <= etc2.bestSum s
  /\ (forall v, In v (etc2.fromToBy lo hi scale) ->
      etc2.bestSum s' <= 16 * (v - a) ^ 2)
  /\ (s' = s \/ In (etc2.tableAlpha s') (etc2.fromToBy lo hi scale)).
Proof.
  intros Hsc E Hlo Hhi Hi Hf. cbv zeta. rewrite E.
  apply alphaTries_found; [|exact Hi | exact Hf].
  intros w Hw. apply In_fromToBy in Hw; [lia | exact Hsc].
Qed.

Lemma found_below (s : etc2.alphaSearch) :
  found s \/ etc2.bestSum s = etc2.maxInt32 -> etc2.bestSum s < etc2.maxInt32 ->
  found s.
Proof. intros [H|H] Hlt; [exact H | lia]. Qed.

Lemma found_near (s : etc2.alphaSearch) (d : Z) :
  found s -> 0 <= d -> etc2.bestSum s <= 16 * d ^ 2 ->
  - d <= etc2.tableAlpha s - a <= d.
Proof. intros (_ & E & _) Hd Hle. rewrite E in Hle. nia. Qed.

(** The three scales of the table 0 end at the alpha of the block. *)
Lemma alphaTableStep_table0 :
  let s := etc2.alphaTableStep T px a
             (etc2.mkAlphaSearch 0 0 etc2.maxInt32 0 0) 0 in
  etc2.bestSum s = 0 /\ etc2.bestTable s = 0 /\ etc2.bestAlpha s = a.
Proof.
  cbv zeta. unfold etc2.alphaTableStep.
  cbn [etc2.bestSum etc2.bestTable etc2.bestAlpha].
  change (etc2.maxInt32 >? 0) with true. cbv iota. cbn [fold_left].
  set (s0 := etc2.mkAlphaSearch etc2.maxInt32 a etc2.maxInt32 0 0).
  assert (Hi0 : inv s0) by (split; reflexivity).
  assert (Hmax : 16 * 8 ^ 2 < etc2.maxInt32) by (vm_compute; reflexivity).
  (* the scale 16 *)
  set (s1 := etc2.alphaScaleStep T px 0 s0 16).
  assert (H1 : inv s1 /\ found s1
               /\ (etc2.bestSum s1 = 0
                   \/ (a < 64 /\ - 8 <= etc2.tableAlpha s1 - a <= 8
                       /\ exists k, 0 <= k /\ etc2.tableAlpha s1 = 16 * k))).
  { assert (E : etc2.alphaScaleStep T px 0 s0 16
                = fold_left (etc2.alphaTry T px 0)
                    (etc2.fromToBy (Z.max 0 (a - 64)) (Z.min 255 (a + 64)) 16) s0).
    { unfold etc2.alphaScaleStep. cbv zeta. change (16 =? 16) with true. cbv iota.
      cbn [etc2.tableAlpha s0]. change (int32 (16 * 4)) with 64.
      rewrite !int32_small by lia. unfold etc2.clamp0_255.
      replace (Z.max 0 (Z.min 255 (a - 64))) with (Z.max 0 (a - 64)) by lia.
      replace (Z.max 0 (Z.min 255 (a + 64))) with (Z.min 255 (a + 64)) by lia.
      reflexivity. }
    destruct (alphaScaleStep_table0 s0 _ _ 16 ltac:(lia) E ltac:(lia) ltac:(lia)
                Hi0 (or_intror eq_refl)) as (Hi & Hf & _ & Hall & Hin).
    fold s1 in Hi, Hf, Hall, Hin.
    destruct (Z.le_gt_cases 64 a) as [Hbig|Hsmall].
    - assert (Hb : etc2.bestSum s1 <= 16 * (a - a) ^ 2).
      { apply Hall. replace a with (Z.max 0 (a - 64) + 16 * 4) at 1 by lia.
        apply fromToBy_In; lia. }
      rewrite Z.sub_diag in Hb.
      assert (Hf1 : found s1) by (apply found_below; [exact Hf | lia]).
      split; [exact Hi|]. split; [exact Hf1|]. left.
      destruct Hf1 as (_ & Eb & _). nia.
    - assert (Hb : etc2.bestSum s1
                   <= 16 * (Z.max 0 (a - 64) + 16 * ((a + 8) / 16) - a) ^ 2)
        by (apply Hall; apply fromToBy_In; Z.div_mod_to_equations; lia).
      assert (Hb8 : etc2.bestSum s1 <= 16 * 8 ^ 2)
        by (revert Hb; Z.div_mod_to_equations; nia).
      assert (Hf1 : found s1) by (apply found_below; [exact Hf | lia]).
      split; [exact Hi|]. split; [exact Hf1|].
      pose proof (found_near s1 8 Hf1 ltac:(lia) Hb8) as Hn.
      destruct Hin as [E1|Hin].
      + exfalso. rewrite E1 in Hb8. cbn [etc2.bestSum s0] in Hb8. lia.
      + right. split; [lia|]. split; [exact Hn|].
        apply In_fromToBy_step in Hin. destruct Hin as (k & Hk & Ek).
        exists k. split; [exact Hk|]. lia. }
  destruct H1 as (Hi1 & Hf1 & Hn1).
  (* the scale 4 *)
  set (s2 := etc2.alphaScaleStep T px 0 s1 4).
  assert (H2 : inv s2 /\ found s2 /\ etc2.bestSum s2 <= 16 * 2 ^ 2).
  { pose proof Hf1 as (_ & Eb1 & Hr1).
    set (m := etc2.tableAlpha s1) in *.
    assert (E : etc2.alphaScaleStep T px 0 s1 4
                = fold_left (etc2.alphaTry T px 0)
                    (etc2.fromToBy (Z.max 0 (m - 8)) (Z.min 255 (m + 8)) 4) s1).
    { unfold etc2.alphaScaleStep. cbv zeta. change (4 =? 16) with false. cbv iota.
      fold m. change (int32 (4 * 2)) with 8.
      rewrite !int32_small by lia. unfold etc2.clamp0_255.
      replace (Z.max 0 (Z.min 255 (m - 8))) with (Z.max 0 (m - 8)) by lia.
      replace (Z.max 0 (Z.min 255 (m + 8))) with (Z.min 255 (m + 8)) by lia.
      reflexivity. }
    destruct (alphaScaleStep_table0 s1 _ _ 4 ltac:(lia) E ltac:(lia) ltac:(lia)
                Hi1 (or_introl Hf1)) as (Hi & Hf & Hle & Hall & _).
    fold s2 in Hi, Hf, Hle, Hall.
    assert (Hlt1 : etc2.bestSum s1 < etc2.maxInt32)
      by (rewrite Eb1; unfold etc2.maxInt32; nia).
    assert (Hf2 : found s2) by (apply found_below; [exact Hf | lia]).
    split; [exact Hi|]. split; [exact Hf2|].
    destruct Hn1 as [Ez|(Hsmall & Hn & k & Hk & Ek)]; [lia|].
    assert (Hb : etc2.bestSum s2
                 <= 16 * (Z.max 0 (m - 8) + 4 * ((a - Z.max 0 (m - 8) + 2) / 4) - a) ^ 2)
      by (apply Hall; apply fromToBy_In; Z.div_mod_to_equations; lia).
    revert Hb. Z.div_mod_to_equations. nia. }
  destruct H2 as (Hi2 & Hf2 & Hb2).
  pose proof (found_near s2 2 Hf2 ltac:(lia) Hb2) as Hn2.
  (* the scale 1 *)
  set (s3 := etc2.alphaScaleStep T px 0 s2 1).
  pose proof Hf2 as (_ & Eb2 & Hr2).
  set (m := etc2.tableAlpha s2) in *.
  assert (E : etc2.alphaScaleStep T px 0 s2 1
              = fold_left (etc2.alphaTry T px 0)
                  (etc2.fromToBy (Z.max 0 (m - 2)) (Z.min 255 (m + 2)) 1) s2).
  { unfold etc2.alphaScaleStep. cbv zeta. change (1 =? 16) with false. cbv iota.
    fold m. change (int32 (1 * 2)) with 2.
    rewrite !int32_small by lia. unfold etc2.clamp0_255.
    replace (Z.max 0 (Z.min 255 (m - 2))) with (Z.max 0 (m - 2)) by lia.
    replace (Z.max 0 (Z.min 255 (m + 2))) with (Z.min 255 (m + 2)) by lia.
    reflexivity. }
  destruct (alphaScaleStep_table0 s2 _ _ 1 ltac:(lia) E ltac:(lia) ltac:(lia)
              Hi2 (or_introl Hf2)) as ((_ & Ht) & Hf & Hle & Hall & _).
  fold s3 in Ht, Hf, Hle, Hall.
  assert (Hb : etc2.bestSum s3 <= 16 * (a - a) ^ 2).
  { apply Hall. replace a with (Z.max 0 (m - 2) + 1 * (a - Z.max 0 (m - 2))) at 1 by lia.
    apply fromToBy_In; lia. }
  rewrite Z.sub_diag in Hb.
  assert (Hf3 : found s3) by (apply found_below; [exact Hf | unfold etc2.maxInt32; lia]).
  destruct Hf3 as (Ea & Eb & _).
  split; [nia|]. split; [exact Ht|]. rewrite Ea. nia.
Qed.

Lemma alphaTableSteps_done (l : list Z) (s : etc2.alphaSearch) :
  etc2.bestSum s = 0 -> fold_left (etc2.alphaTableStep T px a) l s = s.
Proof.
  intros Hs. induction l as [|t l IH]; [reflexivity|].
  cbn [fold_left]. unfold etc2.alphaTableStep at 2. rewrite Hs.
  change (0 >? 0) with false. cbv iota. exact IH.
Qed.

Lemma alphaTableSteps_table0 (l : list Z) :
  fold_left (etc2.alphaTableStep T px a) (0 :: l)
    (etc2.mkAlphaSearch 0 0 etc2.maxInt32 0 0)
  = etc2.alphaTableStep T px a (etc2.mkAlphaSearch 0 0 etc2.maxInt32 0 0) 0.
Proof.
  rewrite fold_left_cons. apply alphaTableSteps_done.
  pose proof alphaTableStep_table0 as H. cbv zeta in H. destruct H as (H & _). exact H.
Qed.

Lemma alphaSum_constant (l : list Z) (acc : Z) :
  (forall i, In i l -> 0 <= i < 16) ->
  0 <= acc -> acc + 255 * Z.of_nat (length l) < 2 ^ 31 ->
  fold_left (fun acc i => int32 (acc + etc2.alphaOf px i)) l acc
  = acc + a * Z.of_nat (length l).
Proof.
  revert acc. induction l as [|i l IH]; intros acc Hl Hacc Hb.
  - cbn [fold_left length]. lia.
  - cbn [fold_left]. cbn [length] in *.
    rewrite (Hpx i) by (apply Hl; left; reflexivity).
    rewrite int32_small by lia.
    rewrite IH; [lia | intros j Hj; apply Hl; right; exact Hj | lia | lia].
Qed.

Lemma maxDist_constant (l : list Z) :
  (forall i, In i l -> 0 <= i < 16) ->
  fold_left
    (fun maxDist i =>
       Z.max maxDist
         (if int32 (etc2.alphaOf px i - a) <? 0
          then int32 (- int32 (etc2.alphaOf px i - a))
          else int32 (etc2.alphaOf px i - a)))
    l 0 = 0.
Proof.
  induction l as [|i l IH]; intros Hl; [reflexivity|].
  cbn [fold_left]. rewrite (Hpx i) by (apply Hl; left; reflexivity).
  rewrite Z.sub_diag. change (int32 0 <? 0) with false. cbv iota.
  change (Z.max 0 (int32 0)) with 0.
  apply IH. intros j Hj. apply Hl. right. exact Hj.
Qed.

Lemma alphaBestIndex_constant (i : Z) :
  0 <= i < 16 -> etc2.alphaBestIndex T px a 0 i = 0.
Proof.
  intros Hi. unfold etc2.alphaBestIndex. cbv zeta. rewrite (Hpx i Hi).
  change (range 8) with [0; 1; 2; 3; 4; 5; 6; 7]. cbn [fold_left].
  rewrite !alpha_d2_table0 by lia. rewrite Z.sub_diag. reflexivity.
Qed.

Lemma encodeAlpha_constant : etc2.encodeAlpha T px = a * 2 ^ 56.
Proof.
  unfold etc2.encodeAlpha. cbv zeta.
  assert (Hr : forall i, In i (range 16) -> 0 <= i < 16)
    by (intros i Hi; apply In_range in Hi; lia).
  rewrite (alphaSum_constant (range 16) 0 Hr ltac:(lia) ltac:(vm_compute; reflexivity)).
  change (Z.of_nat (length (range 16))) with 16.
  replace (Z.quot (int32 (0 + a * 16 + 8)) 16) with a
    by (rewrite int32_small by lia; rewrite Z.quot_div_nonneg by lia;
        Z.div_mod_to_equations; lia).
  rewrite (maxDist_constant (range 16) Hr).
  match goal with
  | |- context [fold_left (etc2.alphaTableStep T px a) ?l ?s0] =>
    let l' := eval vm_compute in l in change l with l'
  end.
  rewrite alphaTableSteps_table0.
  pose proof alphaTableStep_table0 as H. cbv zeta in H. destruct H as (_ & Ht & Hb).
  rewrite Ht, Hb.
  rewrite (fold_left_ext_in _ (fun code _ => code)).
  - assert (Hid : forall (l : list Z) (c : Z), fold_left (fun code _ => code) l c = c)
      by (induction l as [|x l IH]; intros c; [reflexivity | apply IH]).
    rewrite Hid. change (etc2.shl64 0 48) with 0. rewrite Z.lor_0_r.
    apply (shl64_small a 56 8); lia.
  - intros code i Hi. rewrite alphaBestIndex_constant by (apply Hr; exact Hi).
    unfold etc2.shl64. change (uint64 0) with 0. rewrite Z.shiftl_0_l.
    change (uint64 0) with 0. apply Z.lor_0_r.
Qed.

End ConstantAlpha.

(** X14. The alpha codeword of a block whose sixteen alpha bytes all have
    the value a is a * 2^56, whatever the modifier tables: the base is a,
    the multiplier and the table are 0 and every pixel has the index 0, so
    that the codeword stands for the alpha a at every pixel. *)
Theorem encodeAlpha_constant_block (T : etc2.Tables) (px : list byte) (a : Z) :
  0 <= a < 256 ->
  (forall i, 0 <= i < 16 -> etc2.alphaOf px i = a) ->
  etc2.encodeAlpha T px = a * 2 ^ 56.
Proof.
  intros Ha H. exact (encodeAlpha_constant T px a Ha H).
Qed.

Lemma encodeAlpha_constant_block_witness :
  etc2.encodeAlpha etc2.publishedTables (repeat x80 64) = 128 * 2 ^ 56.
Proof.
  apply (encodeAlpha_constant_block etc2.publishedTables (repeat x80 64) 128);
    [lia|].
  intros i Hi. apply (alphaOf_repeat 128 i); [lia | exact Hi].
Defined.
